(** * HSC item analysis: a shallow embedding of the data pipeline

    The development follows the JavaScript sources
    [src/data-processor.js], [src/js/chart-generator.js] and
    [src/pdf-generator.js].

    Modelling conventions, used throughout:
    - a JavaScript string is a [string] of code units below 256, compared
      code unit by code unit as [<] does on strings;
    - a JavaScript number is a [number]: an exact rational, or one of
      [Infinity], [-Infinity], [NaN].  [parseInt] and [parseFloat] round
      what they read to the nearest double, and the size of an image is
      computed with rounded products and quotients.  The other arithmetic
      operations are the exact ones and the two zeros are not told apart:
      what is proved of a sum, a product or a quotient is stated through
      the operation itself;
    - a JavaScript object used as a dictionary is the list of its own
      properties in enumeration order (array-index keys ascending, then the
      others in insertion order).  A read [o[k]] of a name the object does
      not own finds the member of [Object.prototype] of that name, when
      there is one ([lookup]); the built-in objects are those of a page
      that has just been loaded;
    - a call that can fail has an [outcome]: it returns, it throws a
      [TypeError], or it writes to [Object.prototype];
    - [Array.prototype.sort] is a stable sort, as ECMAScript requires. *)

From Stdlib Require Import List String Ascii Bool Arith NArith ZArith QArith.
From Stdlib Require Import Qround Qpower Qabs DecimalString Lia Lqa.
From Stdlib Require Import Permutation Sorted.
Import ListNotations.
Local Close Scope Q_scope.
Local Open Scope string_scope.
Local Open Scope list_scope.

Set Implicit Arguments.

(** ** Strings *)

Module JsString.

Definition code (c : ascii) : N := N_of_ascii c.

Definition between (lo hi : N) (c : ascii) : bool :=
  ((lo <=? code c) && (code c <=? hi))%N.

(** White space as [String.prototype.trim] sees it, on code units below 256:
    TAB, LF, VT, FF, CR, SP and NBSP. *)
Definition isWhiteSpace (c : ascii) : bool :=
  between 9 13 c || (code c =? 32)%N || (code c =? 160)%N.

(** The regular-expression classes [\d] and [[a-zA-Z]]. *)
Definition isDigit (c : ascii) : bool := between 48 57 c.
Definition isUpper (c : ascii) : bool := between 65 90 c.
Definition isLower (c : ascii) : bool := between 97 122 c.
Definition isLetter (c : ascii) : bool := isUpper c || isLower c.

Definition lowerChar (c : ascii) : ascii :=
  if isUpper c || (between 192 222 c && negb (code c =? 215)%N)
  then ascii_of_N (code c + 32) else c.

Fixpoint toLowerCase (s : string) : string :=
  match s with
  | EmptyString => EmptyString
  | String c s' => String (lowerChar c) (toLowerCase s')
  end.

Fixpoint trimStart (s : string) : string :=
  match s with
  | EmptyString => EmptyString
  | String c s' => if isWhiteSpace c then trimStart s' else s
  end.

Fixpoint trimEnd (s : string) : string :=
  match s with
  | EmptyString => EmptyString
  | String c s' =>
      match trimEnd s' with
      | EmptyString => if isWhiteSpace c then EmptyString else String c EmptyString
      | t => String c t
      end
  end.

Definition trim (s : string) : string := trimEnd (trimStart s).

Definition startsWith (s p : string) : bool := String.prefix p s.

(** [s.includes(pat)]: [pat] occurs in [s] as a substring. *)
Fixpoint includes (s pat : string) : bool :=
  match s with
  | EmptyString => String.prefix pat EmptyString
  | String _ s' => String.prefix pat s || includes s' pat
  end.

Fixpoint allChars (p : ascii -> bool) (s : string) : bool :=
  match s with
  | EmptyString => true
  | String c s' => p c && allChars p s'
  end.

(** Longest prefix of characters satisfying [p], and the rest. *)
Fixpoint span (p : ascii -> bool) (s : string) : string * string :=
  match s with
  | EmptyString => (EmptyString, EmptyString)
  | String c s' =>
      if p c then let (a, b) := span p s' in (String c a, b)
      else (EmptyString, s)
  end.

Definition isEmpty (s : string) : bool :=
  match s with EmptyString => true | _ => false end.

Definition len (s : string) : N := N.of_nat (String.length s).

(** [a < b] on strings. *)
Definition ltStr (a b : string) : bool := String.ltb a b.

End JsString.

(** ** Numbers *)

Inductive number : Type :=
| Fin (q : Q)
| PosInf
| NegInf
| NaN.

Module JsNumber.

Definition ofZ (z : Z) : number := Fin (inject_Z z).
Definition ofN (n : N) : number := ofZ (Z.of_N n).
Definition ofNat (n : nat) : number := ofZ (Z.of_nat n).

(** Sign of a rational: the sign of its numerator. *)
Definition qsgn (q : Q) : Z := Z.sgn (Qnum q).

Definition neg (a : number) : number :=
  match a with
  | Fin q => Fin (Qred (Qopp q))
  | PosInf => NegInf
  | NegInf => PosInf
  | NaN => NaN
  end.

Definition add (a b : number) : number :=
  match a, b with
  | NaN, _ | _, NaN => NaN
  | Fin x, Fin y => Fin (Qred (Qplus x y))
  | PosInf, NegInf | NegInf, PosInf => NaN
  | PosInf, _ | _, PosInf => PosInf
  | NegInf, _ | _, NegInf => NegInf
  end.

Definition sub (a b : number) : number := add a (neg b).

(** The infinity whose sign is [s], [NaN] when [s] is zero. *)
Definition signedInf (s : Z) : number :=
  match s with
  | Z0 => NaN
  | Zpos _ => PosInf
  | Zneg _ => NegInf
  end.

Definition sgn (a : number) : Z :=
  match a with
  | Fin q => qsgn q
  | PosInf => 1%Z
  | NegInf => (-1)%Z
  | NaN => 0%Z
  end.

Definition mul (a b : number) : number :=
  match a, b with
  | NaN, _ | _, NaN => NaN
  | Fin x, Fin y => Fin (Qred (Qmult x y))
  | _, _ => signedInf (sgn a * sgn b)
  end.

(** Division; a zero divisor is [+0], the only zero the coerced fields hold. *)
Definition div (a b : number) : number :=
  match a, b with
  | NaN, _ | _, NaN => NaN
  | Fin x, Fin y =>
      if Qeq_bool y 0 then signedInf (qsgn x) else Fin (Qred (Qdiv x y))
  | Fin _, _ => Fin 0
  | _, Fin y => if Qeq_bool y 0 then a else signedInf (sgn a * qsgn y)
  | _, _ => NaN
  end.

(** *** Rounding

    The double nearest to a rational: the value that an operation returns
    when its exact result is that rational. *)

(** The exponent of the power of two at or below [x], for [0 < x]. *)
Definition floorLog2 (x : Q) : Z :=
  let e := (Z.log2 (Qnum x) - Z.log2 (Zpos (Qden x)))%Z in
  if Qle_bool (2 ^ e) x then e else (e - 1)%Z.

(** The integer nearest to [y]: the even one when [y] is half way between
    two. *)
Definition nearestEven (y : Q) : Z :=
  let f := Qfloor y in
  match (y - inject_Z f ?= 1 # 2)%Q with
  | Lt => f
  | Gt => (f + 1)%Z
  | Eq => if Z.even f then f else (f + 1)%Z
  end.

(** The exponent of the unit in the last place of the doubles around [x]:
    53 bits of significand, and no exponent below -1074. *)
Definition lastPlace (x : Q) : Z := Z.max (floorLog2 x - 52) (-1074).

(** The multiple of that unit nearest to [x]. *)
Definition nearestMultiple (x : Q) : Q :=
  (inject_Z (nearestEven (x / 2 ^ lastPlace x)) * 2 ^ lastPlace x)%Q.

(** The double nearest to [x], for [0 < x]; [Infinity] from [2^1024] on. *)
Definition roundPositive (x : Q) : number :=
  let r := nearestMultiple x in
  if Qle_bool (2 ^ 1024) r then PosInf else Fin (Qred r).

Definition roundToDouble (x : Q) : number :=
  match (x ?= 0)%Q with
  | Eq => Fin 0
  | Gt => roundPositive x
  | Lt => neg (roundPositive (- x))
  end.

Definition rounded (a : number) : number :=
  match a with
  | Fin q => roundToDouble q
  | _ => a
  end.

(** [a * b] and [a / b] as doubles. *)
Definition mulRounded (a b : number) : number := rounded (mul a b).
Definition divRounded (a b : number) : number := rounded (div a b).

(** [a !== b] is [negb (strictEq a b)]. *)
Definition strictEq (a b : number) : bool :=
  match a, b with
  | Fin x, Fin y => Qeq_bool x y
  | PosInf, PosInf | NegInf, NegInf => true
  | _, _ => false
  end.

(** [a < b] on numbers; false as soon as one side is [NaN]. *)
Definition lt (a b : number) : bool :=
  match a, b with
  | NaN, _ | _, NaN => false
  | Fin x, Fin y => negb (Qle_bool y x)
  | NegInf, NegInf | PosInf, _ | _, NegInf => false
  | _, _ => true
  end.

Definition truthy (a : number) : bool :=
  match a with
  | Fin q => negb (Qeq_bool q 0)
  | NaN => false
  | _ => true
  end.

(** [a || b]. *)
Definition orElse (a b : number) : number := if truthy a then a else b.

Definition isNaN (a : number) : bool :=
  match a with NaN => true | _ => false end.

(** A comparator result [v] asks for a swap exactly when [v > 0];
    [NaN] counts as [+0]. *)
Definition isPositive (v : number) : bool := (0 <? sgn v)%Z.

End JsNumber.

Import JsString.

(** ** [parseInt] on strings *)

Definition digitValue (radix : N) (c : ascii) : option N :=
  let v :=
    if isDigit c then Some (code c - 48)%N
    else if isLower c then Some (code c - 97 + 10)%N
    else if isUpper c then Some (code c - 65 + 10)%N
    else None in
  match v with
  | Some d => if (d <? radix)%N then Some d else None
  | None => None
  end.

(** Value of the longest prefix of valid digits; [acc] is [None] until a
    digit has been read. *)
Fixpoint parseDigits (radix : N) (acc : option N) (s : string) : option N :=
  match s with
  | EmptyString => acc
  | String c s' =>
      match digitValue radix c with
      | Some d =>
          parseDigits radix
            (Some (match acc with Some a => a * radix + d | None => d end)%N) s'
      | None => acc
      end
  end.

(** Optional sign in front of a numeral. *)
Definition readSign (s : string) : bool * string :=
  match s with
  | String c r =>
      if (code c =? 45)%N then (true, r)
      else if (code c =? 43)%N then (false, r)
      else (false, s)
  | EmptyString => (false, s)
  end.

(** The radix, and the numeral without its [0x] or [0X] prefix. *)
Definition readRadix (s : string) : N * string :=
  match s with
  | String c (String x r) =>
      if (code c =? 48)%N && ((code x =? 120)%N || (code x =? 88)%N)
      then (16%N, r) else (10%N, s)
  | _ => (10%N, s)
  end.

(** The Number value of a mathematical integer: the nearest double, a tie
    going to the even significand, and [Infinity] from [2^1024 - 2^970] on.
    Up to [2^53] every integer is a double.  Above, the significand keeps
    the 53 leading bits [q] of [n] and is rounded on the bits [r] it drops.
    This is [JsNumber.roundToDouble] on the integers (lemma
    [toDouble_nearest]). *)
Definition toDouble (n : N) : number :=
  if (n <? 2 ^ 53)%N then JsNumber.ofN n
  else
    let e := (N.log2 n - 52)%N in
    let q := N.shiftr n e in
    let r := N.land n (N.ones e) in
    let half := N.shiftl 1 (e - 1) in
    let q' := if (half <? r)%N || ((r =? half)%N && N.odd q) then (q + 1)%N else q in
    let v := N.shiftl q' e in
    if (1024 <=? N.log2 v)%N then PosInf else JsNumber.ofN v.

(** [parseInt(s)].  The digits are read exactly and the integer they denote
    is converted with [toDouble]; an engine may replace the digits after the
    twentieth significant one by zeros, which this model does not do. *)
Definition parseInt (s : string) : number :=
  let (negative, s2) := readSign (trimStart s) in
  let (radix, s3) := readRadix s2 in
  match parseDigits radix None s3 with
  | None => NaN
  | Some v => if negative then JsNumber.neg (toDouble v) else toDouble v
  end.

(** ** [Array.prototype.sort] *)

Section ArraySort.
Context {A : Type}.

(** The comparator, returning a number as in JavaScript. *)
Variable comparefn : A -> A -> number.

Definition sortsAfter (a b : A) : bool := JsNumber.isPositive (comparefn a b).

Fixpoint insertSorted (x : A) (l : list A) : list A :=
  match l with
  | [] => [x]
  | y :: l' => if sortsAfter x y then y :: insertSorted x l' else x :: l
  end.

(** Stable by construction: an element moves past those that must come
    strictly before it, and no further.  For a consistent comparator the
    result of a stable sort is determined (lemma [arraySort_unique]), so
    this is the array every conforming engine returns. *)
Definition arraySort (l : list A) : list A := fold_right insertSorted [] l.
End ArraySort.

(** [arr.sort()] on strings: the default comparison. *)
Definition defaultCompare (a b : string) : number :=
  if ltStr a b then JsNumber.ofZ (-1)
  else if ltStr b a then JsNumber.ofZ 1
  else JsNumber.ofZ 0.

(** ** Values and objects *)

Inductive value : Type :=
| VUndefined
| VNull
| VBool (b : bool)
| VNum (n : number)
| VStr (s : string).

Definition truthy (v : value) : bool :=
  match v with
  | VUndefined | VNull => false
  | VBool b => b
  | VNum n => JsNumber.truthy n
  | VStr s => negb (isEmpty s)
  end.

(** [v || ''] *)
Definition orEmpty (v : value) : value := if truthy v then v else VStr "".

Module JsObject.

Definition obj (V : Type) : Type := list (string * V).

Definition decimalValue (s : string) : N :=
  match parseDigits 10 None s with Some v => v | None => 0%N end.

(** A key is an array index when it is the canonical decimal form of an
    integer below [2^32 - 1]; such keys are enumerated first, ascending. *)
Definition arrayIndex (k : string) : option N :=
  match k with
  | EmptyString => None
  | String c r =>
      if allChars isDigit k
         && (negb (code c =? 48)%N || isEmpty r)
         && (decimalValue k <? 4294967295)%N
      then Some (decimalValue k) else None
  end.

(** A new key [k] is enumerated before the existing key [k']. *)
Definition precedes (k k' : string) : bool :=
  match arrayIndex k, arrayIndex k' with
  | Some i, Some j => (i <? j)%N
  | Some _, None => true
  | None, _ => false
  end.

Section Ops.
Context {V : Type}.

Fixpoint get (k : string) (o : obj V) : option V :=
  match o with
  | [] => None
  | (k', v) :: o' => if String.eqb k k' then Some v else get k o'
  end.

Definition has (k : string) (o : obj V) : bool :=
  match get k o with Some _ => true | None => false end.

Fixpoint replace (k : string) (v : V) (o : obj V) : obj V :=
  match o with
  | [] => []
  | (k', v') :: o' =>
      if String.eqb k k' then (k, v) :: o' else (k', v') :: replace k v o'
  end.

Fixpoint insertKey (k : string) (v : V) (o : obj V) : obj V :=
  match o with
  | [] => [(k, v)]
  | (k', v') :: o' =>
      if precedes k k' then (k, v) :: o else (k', v') :: insertKey k v o'
  end.

(** [o[k] = v]: an existing property keeps its place, a new one is
    created at its place in the enumeration order. *)
Definition set (k : string) (v : V) (o : obj V) : obj V :=
  if has k o then replace k v o else insertKey k v o.

Definition keys (o : obj V) : list string := map fst o.
Definition values (o : obj V) : list V := map snd o.
End Ops.

(** The properties every object inherits from [Object.prototype].  Each
    is a function, but for [__proto__], which reads as [Object.prototype]
    itself: all of them are truthy and none is an array. *)
Definition inheritedNames : list string :=
  ["constructor"; "hasOwnProperty"; "isPrototypeOf"; "propertyIsEnumerable";
   "toLocaleString"; "toString"; "valueOf"; "__proto__";
   "__defineGetter__"; "__defineSetter__"; "__lookupGetter__";
   "__lookupSetter__"].

Definition inherited (k : string) : bool :=
  existsb (String.eqb k) inheritedNames.

(** What a read [o[k]] finds on an object written as [{}]: an own
    property, else an inherited member, else [undefined]. *)
Inductive slot (V : Type) : Type :=
| Own (v : V)
| Inherited
| Absent.
Arguments Own {V} v.
Arguments Inherited {V}.
Arguments Absent {V}.

Definition lookup {V : Type} (k : string) (o : obj V) : slot V :=
  match get k o with
  | Some v => Own v
  | None => if inherited k then Inherited else Absent
  end.

End JsObject.

Import JsObject.

(** [o[k]] on an object of values, for an own property or for a name that
    [Object.prototype] does not have: [undefined] when the property is
    absent.  The code reads the columns of a row by fixed names, none of
    them inherited, and the chunk fields by names the row owns. *)
Definition getVal (o : obj value) (k : string) : value :=
  match get k o with Some v => v | None => VUndefined end.

(** ** Calls that can fail *)

(** A call returns a value, or it throws a [TypeError], or it writes a
    property to [Object.prototype], which every object of the page then
    inherits: what the page does after that is not described here. *)
Inductive outcome (A : Type) : Type :=
| Returns (a : A)
| Throws
| Pollutes.
Arguments Returns {A} a.
Arguments Throws {A}.
Arguments Pollutes {A}.

Definition andThen {A B : Type} (m : outcome A) (k : A -> outcome B) : outcome B :=
  match m with
  | Returns a => k a
  | Throws => Throws
  | Pollutes => Pollutes
  end.

(** [l.forEach(x => ...)] on a state [s], left as soon as a call fails. *)
Fixpoint forEach {A S : Type} (f : S -> A -> outcome S) (l : list A) (s : S)
  : outcome S :=
  match l with
  | [] => Returns s
  | a :: l' => andThen (f s a) (forEach f l')
  end.

(** ** [parseFloat] on strings

    The decimal numeral at the head of the string, rounded to the nearest
    double. *)

Definition pow10 (e : Z) : Q :=
  match e with
  | Z0 => inject_Z 1
  | Zpos p => inject_Z (10 ^ Zpos p)
  | Zneg p => Qinv (inject_Z (10 ^ Zpos p))
  end.

(** The exponent part, when one is well formed at the head of [s]. *)
Definition readExponent (s : string) : Z :=
  match s with
  | String c r =>
      if (code c =? 101)%N || (code c =? 69)%N then
        let (negative, r') := readSign r in
        let (ds, _) := span isDigit r' in
        if isEmpty ds then 0%Z
        else if negative then (- Z.of_N (decimalValue ds))%Z
             else Z.of_N (decimalValue ds)
      else 0%Z
  | EmptyString => 0%Z
  end.

Definition parseFloat (s : string) : number :=
  let (negative, s2) := readSign (trimStart s) in
  if startsWith s2 "Infinity" then (if negative then NegInf else PosInf)
  else
    let (ip, r1) := span isDigit s2 in
    let (fp, r2) :=
      match r1 with
      | String c r => if (code c =? 46)%N then span isDigit r else (EmptyString, r1)
      | EmptyString => (EmptyString, r1)
      end in
    if isEmpty ip && isEmpty fp then NaN
    else
      let mantissa := Z.of_N (decimalValue (ip ++ fp)) in
      let e := (readExponent r2 - Z.of_nat (String.length fp))%Z in
      JsNumber.roundToDouble
        (Qmult (inject_Z (if negative then - mantissa else mantissa)) (pow10 e)).

(** ** Natural ordering of question labels ([src/data-processor.js]) *)

(** [naturalSortKey(s)], on the string form [String(s)] of the label.
    The pattern (one or more digits, then letters only, up to the end of the
    string) matches when the longest run of digits at the head is not empty
    and only letters follow it. *)
Definition naturalSortKey (s : string) : number * string :=
  let s := trim s in
  let (digits, rest) := span isDigit s in
  if negb (isEmpty digits) && allChars isLetter rest
  then (parseInt digits, toLowerCase rest)
  else (PosInf, s).

Section NaturalSort.
Context {A : Type}.

(** [label a] is [String(a[column])]. *)
Variable label : A -> string.

(** The comparator handed to [sort] by [sortQuestionsNaturally]. *)
Definition naturalCompare (a b : A) : number :=
  let ka := naturalSortKey (label a) in
  let kb := naturalSortKey (label b) in
  if negb (JsNumber.strictEq (fst ka) (fst kb))
  then JsNumber.sub (fst ka) (fst kb)
  else if ltStr (snd ka) (snd kb) then JsNumber.ofZ (-1)
  else if ltStr (snd kb) (snd ka) then JsNumber.ofZ 1
  else JsNumber.ofZ 0.

(** The contents of the array returned by
    [sortQuestionsNaturally(data, column)]. *)
Definition sortQuestionsNaturally (data : list A) : list A :=
  arraySort naturalCompare data.
End NaturalSort.

(** *** Arrays in a store

    [sortQuestionsNaturally] copies its argument with [[...data]] and sorts
    the copy in place.  Arrays live in a store, addressed by location, so
    that the copy and the original can be told apart. *)

Module Store.

Section Heap.
Context {A : Type}.

Definition heap : Type := list (list A).
Definition loc : Type := nat.

(** A computation on the store; [None] when a location is dangling. *)
Definition M (X : Type) : Type := heap -> option (X * heap).

Definition ret {X} (x : X) : M X := fun h => Some (x, h).

Definition bind {X Y} (m : M X) (k : X -> M Y) : M Y :=
  fun h => match m h with
           | Some (x, h') => k x h'
           | None => None
           end.

Definition read (l : loc) : M (list A) :=
  fun h => match nth_error h l with
           | Some a => Some (a, h)
           | None => None
           end.

Fixpoint update (l : loc) (a : list A) (h : heap) : heap :=
  match h, l with
  | [], _ => []
  | _ :: h', O => a :: h'
  | x :: h', S l' => x :: update l' a h'
  end.

Definition write (l : loc) (a : list A) : M unit :=
  fun h => match nth_error h l with
           | Some _ => Some (tt, update l a h)
           | None => None
           end.

Definition alloc (a : list A) : M loc :=
  fun h => Some (List.length h, h ++ [a]).
End Heap.

End Store.

Notation "x <- m ;; k" := (Store.bind m (fun x => k))
  (at level 61, m at next level, right associativity).

Section NaturalSortInStore.
Context {A : Type}.
Variable label : A -> string.

(** [[...data]]: a fresh array with the same elements. *)
Definition spread (data : Store.loc) : Store.M (A := A) Store.loc :=
  a <- Store.read data ;; Store.alloc a.

(** [arr.sort(comparefn)]: sorts [arr] in place and returns it. *)
Definition sortInPlace (comparefn : A -> A -> number) (arr : Store.loc)
  : Store.M (A := A) Store.loc :=
  a <- Store.read arr ;;
  _ <- Store.write arr (arraySort comparefn a) ;;
  Store.ret arr.

Definition sortQuestionsNaturally_store (data : Store.loc)
  : Store.M (A := A) Store.loc :=
  copy <- spread data ;;
  sortInPlace (naturalCompare label) copy.
End NaturalSortInStore.

(** ** Normalised records *)

(** A row as [processData] leaves it: the nine coerced fields, over the
    properties of the raw row ([{...row, ...}]). *)
Record record : Type := {
  fields : obj value;
  Subject : string;
  Year : value;
  Question_Item : string;
  MC_ER : string;
  Question_Per_Content : string;
  Question_Per_Outcome : string;
  School_Mean : number;
  State_Mean : number;
  Max_Mark : number
}.

(** The two tag columns [aggregateData] is called with. *)
Inductive tagColumn : Type := QPC | QPO.

Definition tagOf (groupCol : tagColumn) (row : record) : string :=
  match groupCol with
  | QPC => Question_Per_Content row
  | QPO => Question_Per_Outcome row
  end.

(** ** Aggregation by tag ([src/js/chart-generator.js]) *)

Record bucket : Type := {
  bmax : number;
  schoolSum : number;
  stateSum : number;
  count : nat;
  blabel : string
}.

(** One output row of [aggregateData]. *)
Record aggRow : Type := {
  aggTag : string;
  aggMaxMark : number;
  aggSchoolMean : number;
  aggStateMean : number
}.

(** The body of [rows.forEach] in [aggregateData].  When [groups[key]] is
    an inherited member the test [!groups[key]] fails, no bucket is made and
    the four sums are written on that member, a built-in object, as
    properties that are [NaN]: [groups] stays as it is. *)
Definition accumulate (groupCol : tagColumn) (groups : obj bucket) (row : record)
  : obj bucket :=
  let key := trim (tagOf groupCol row) in
  if isEmpty key then groups
  else
    match lookup key groups with
    | Inherited => groups
    | found =>
        let g :=
          match found with
          | Own g => g
          | _ => {| bmax := JsNumber.ofZ 0; schoolSum := JsNumber.ofZ 0;
                    stateSum := JsNumber.ofZ 0; count := 0; blabel := key |}
          end in
        set key {| bmax := JsNumber.add (bmax g) (Max_Mark row);
                   schoolSum := JsNumber.add (schoolSum g) (School_Mean row);
                   stateSum := JsNumber.add (stateSum g) (State_Mean row);
                   count := count g + 1;
                   blabel := blabel g |} groups
    end.

Definition finalize (g : bucket) : aggRow :=
  {| aggTag := blabel g;
     aggMaxMark := bmax g;
     aggSchoolMean := JsNumber.div (schoolSum g) (JsNumber.ofNat (count g));
     aggStateMean := JsNumber.div (stateSum g) (JsNumber.ofNat (count g)) |}.

Definition aggregateData (rows : list record) (groupCol : tagColumn)
  : list aggRow :=
  let groups := fold_left (accumulate groupCol) rows [] in
  let result := map finalize (values groups) in
  sortQuestionsNaturally aggTag result.

(** ** Outlier selection ([src/pdf-generator.js], [src/js/chart-generator.js]) *)

(** [{...r, successRate}] *)
Record rated : Type := {
  row : record;
  successRate : number
}.

Definition addRate (r : record) : rated :=
  {| row := r;
     successRate :=
       JsNumber.mul (JsNumber.div (School_Mean r) (Max_Mark r)) (JsNumber.ofZ 100) |}.

(** The comparator [(a, b) => b['School Mean (Item)'] - a['School Mean (Item)']]. *)
Definition bySchoolMeanDesc (a b : rated) : number :=
  JsNumber.sub (School_Mean (row b)) (School_Mean (row a)).

(** [rows.map(...).sort(...)], the same expression in [generateTopBottomMetadata]
    and in [createAllCharts]. *)
Definition withRate (rows : list record) : list rated :=
  arraySort bySchoolMeanDesc (map addRate rows).

(** [arr.slice(0, n)] and [arr.slice(-n)]. *)
Definition sliceFirst {A} (n : nat) (arr : list A) : list A := firstn n arr.
Definition sliceLast {A} (n : nat) (arr : list A) : list A :=
  skipn (List.length arr - n) arr.

Definition top5 (rows : list record) : list rated := sliceFirst 5 (withRate rows).
Definition bottom5 (rows : list record) : list rated :=
  rev (sliceLast 5 (withRate rows)).

(** ** Page descriptors *)

Inductive pageType : Type := chart | topbottom.

Inductive pageContent : Type :=
| Image (image : string)
| Detail (data : rated) (category color : string).

Record page : Type := {
  type : pageType;
  subType : option string;
  subject : string;
  year : string;
  title : string;
  content : pageContent
}.

Definition topBottomPage (subject year heading category color : string)
  (r : rated) : page :=
  {| type := topbottom; subType := None; subject := subject; year := year;
     title := subject ++ " - " ++ year ++ " - " ++ heading;
     content := Detail r category color |}.

(** The pages pushed for one [(subject, year)] group. *)
Definition topBottomPages (subject year : string) (rows : list record)
  : list page :=
  map (topBottomPage subject year "Best Performing Questions" "Top 5" "green")
      (top5 rows)
  ++ map (topBottomPage subject year "Questions Needing Additional Support"
            "Bottom 5" "red")
      (bottom5 rows).

(** The descriptor a chart generator pushes; [image] is what the chart
    renderer returns. *)
Definition chartPage (subject year titleSuffix : string) (subType : option string)
  (image : string) : page :=
  {| type := chart; subType := subType; subject := subject; year := year;
     title := subject ++ " - " ++ year ++ " - " ++ titleSuffix;
     content := Image image |}.

(** Step 3 of [createAllCharts] for one group: a performance-summary chart
    for each of the two lists that is not empty.  [render data titleSuffix]
    stands for the image the chart renderer draws. *)
Definition performanceSummaryCharts (render : list rated -> string -> string)
  (subject year : string) (rows : list record) : list page :=
  (if Nat.ltb 0 (List.length (top5 rows))
   then [chartPage subject year "Best Performing Questions (Top 5)"
           (Some "performance-summary")
           (render (top5 rows) "Best Performing Questions (Top 5)")]
   else [])
  ++ (if Nat.ltb 0 (List.length (bottom5 rows))
      then [chartPage subject year "Questions Needing Additional Support (Bottom 5)"
              (Some "performance-summary")
              (render (bottom5 rows)
                      "Questions Needing Additional Support (Bottom 5)")]
      else []).

Definition generateTopBottomMetadata (groupedData : obj (obj (list record)))
  : list page :=
  flat_map (fun sy : string * obj (list record) =>
    flat_map (fun yr : string * list record =>
      topBottomPages (fst sy) (fst yr) (snd yr)) (snd sy)) groupedData.

(** ** Page ordering ([sortPages]) *)

Definition pageKey (p : page) : string := subject p ++ "|" ++ year p.

Definition isPerformanceSummary (p : page) : bool :=
  match subType p with
  | Some s => String.eqb s "performance-summary"
  | None => false
  end.

Definition score (p : page) : Z :=
  let t := title p in
  match type p with
  | topbottom => 35
  | chart =>
      if isPerformanceSummary p then 25
      else if includes t "Summary" then
        if includes t "School vs State" then 60 else 40
      else if includes t "Breakdown" then 50
      else if includes t "School vs State" then 20
      else 10
  end%Z.

Definition byScore (a b : page) : number := JsNumber.ofZ (score a - score b).

(** The body of [allPages.forEach].  The key holds a [|], so it is never
    the name of an inherited member and [groups[k]] reads own properties
    only. *)
Definition groupPage (groups : obj (list page)) (p : page) : obj (list page) :=
  let k := pageKey p in
  let groups := if has k groups then groups else set k [] groups in
  match get k groups with
  | Some ps => set k (ps ++ [p]) groups
  | None => groups
  end.

Definition sortPages (allPages : list page) : list page :=
  let groups := fold_left groupPage allPages [] in
  let sortedKeys := arraySort defaultCompare (keys groups) in
  fold_left (fun result k =>
               match get k groups with
               | Some pages => result ++ arraySort byScore pages
               | None => result
               end) sortedKeys [].

(** ** Table of contents and page numbering ([createSubjectPDF]) *)

Record tocEntry : Type := {
  entrySubject : string;
  entryYear : string;
  entryTitle : string;
  pageNumber : nat
}.

(** The document under construction: its pages, in order. *)
Inductive pdfPage : Type :=
| TitlePage (subject : string)
| TocPage (heading : string) (entries : list tocEntry)
| ContentPage (footer : nat) (item : page).

Definition entriesPerPage : nat := 20.

(** [Math.ceil(n / d)] *)
Definition ceilDiv (n d : nat) : nat :=
  Z.to_nat (Qceiling (Qdiv (inject_Z (Z.of_nat n)) (inject_Z (Z.of_nat d)))).

(** [pages.map((page, idx) => ({..., pageNumber: idx + 2}))] *)
Fixpoint tocEntriesFrom (idx : nat) (pages : list page) : list tocEntry :=
  match pages with
  | [] => []
  | p :: ps =>
      {| entrySubject := subject p; entryYear := year p; entryTitle := title p;
         pageNumber := idx + 2 |} :: tocEntriesFrom (S idx) ps
  end.

Definition bump (k : nat) (e : tocEntry) : tocEntry :=
  {| entrySubject := entrySubject e; entryYear := entryYear e;
     entryTitle := entryTitle e; pageNumber := pageNumber e + k |}.

(** [entries.slice(i * entriesPerPage, (i + 1) * entriesPerPage)] *)
Definition pageEntries (i : nat) (entries : list tocEntry) : list tocEntry :=
  firstn entriesPerPage (skipn (i * entriesPerPage) entries).

(** [addTOCPages(pdf, entries)]: the entries after [e.pageNumber += tocPageCount],
    and the document with its listing pages added. *)
Definition addTOCPages (pdf : list pdfPage) (entries : list tocEntry)
  : list pdfPage * list tocEntry :=
  let totalPages := ceilDiv (List.length entries) entriesPerPage in
  let tocPageCount := totalPages in
  let entries := map (bump tocPageCount) entries in
  (fold_left (fun pdf i =>
                pdf ++ [TocPage (if Nat.eqb i 0 then "Table of Contents"
                                 else "Table of Contents (continued)")
                                (pageEntries i entries)])
             (seq 0 totalPages) pdf,
   entries).

(** The content loop: [pdf.addPage(); addFooter(pdf, pageNum, ...); pageNum++]. *)
Fixpoint addContentPages (pdf : list pdfPage) (pageNum : nat) (pages : list page)
  : list pdfPage :=
  match pages with
  | [] => pdf
  | item :: rest => addContentPages (pdf ++ [ContentPage pageNum item]) (S pageNum) rest
  end.

(** The pages of the document built for one subject, with the entries of
    its table of contents. *)
Definition createSubjectPDF (subject : string) (pages : list page)
  : list pdfPage * list tocEntry :=
  let pdf := [TitlePage subject] in
  let tocEntries := tocEntriesFrom 0 pages in
  let (pdf, tocEntries) := addTOCPages pdf tocEntries in
  let pageNum := List.length pdf + 1 in
  (addContentPages pdf pageNum pages, tocEntries).

(** ** Ingestion ([loadAndParse], [processData]) and chunk reconstruction

    [String(v)] on a number is the host's number-to-string conversion; the
    code only ever measures, trims and compares its result, so it is kept
    as a parameter of the model. *)

(** [s.replace(pat, '')]: the first occurrence of [pat] removed. *)
Fixpoint removeFirst (s pat : string) : string :=
  if String.prefix pat s
  then String.substring (String.length pat) (String.length s - String.length pat) s
  else match s with
       | EmptyString => EmptyString
       | String c s' => String c (removeFirst s' pat)
       end.

(** Column-name canonicalisation, the head of the body of [for (let key in row)]. *)
Definition normalizeKey (key : string) : string :=
  let normalizedKey := trim key in
  if includes normalizedKey "Content Area" || includes normalizedKey "(QPC)"
     || String.eqb normalizedKey "QPC"
  then "Question Per Content"
  else if includes normalizedKey "Learning Outcome"
          || includes normalizedKey "(QPO)" || String.eqb normalizedKey "QPO"
  then "Question Per Outcome"
  else normalizedKey.

(** One step of the loop: [if (!newRow[normalizedKey]) newRow[normalizedKey] = row[key]].
    An inherited member is truthy, so a column of that name is never
    stored. *)
Definition normalizeStep (newRow : obj value) (kv : string * value) : obj value :=
  let normalizedKey := normalizeKey (fst kv) in
  match lookup normalizedKey newRow with
  | Own v => if negb (truthy v) then set normalizedKey (snd kv) newRow else newRow
  | Inherited => newRow
  | Absent => set normalizedKey (snd kv) newRow
  end.

(** The callback of [json.map] in [loadAndParse]; [row] lists the properties
    of the row object in the order [for ... in] visits them. *)
Definition normalizeRow (row : obj value) : obj value :=
  fold_left normalizeStep row [].

Definition MAX_SAFE_SIZE : N := 50 * 1024 * 1024.
Definition MAX_CHUNKS : nat := 200.
Definition MAX_CHUNK_SIZE : N := 500 * 1024.

(** The test [/^HSC_BASE64_\d+$/]. *)
Definition isChunkKey (k : string) : bool :=
  startsWith k "HSC_BASE64_"
  && (let suffix := String.substring 11 (String.length k - 11) k in
      negb (isEmpty suffix) && allChars isDigit suffix).

(** [parseInt(a.replace('HSC_BASE64_', '')) || 0] *)
Definition chunkNumber (k : string) : number :=
  JsNumber.orElse (parseInt (removeFirst k "HSC_BASE64_")) (JsNumber.ofZ 0).

Definition byChunkNumber (a b : string) : number :=
  JsNumber.sub (chunkNumber a) (chunkNumber b).

Record processed : Type := {
  raw : list record;
  grouped : obj (obj (list record));
  totalRows : nat;
  validRows : nat
}.

Section Host.
Variable number_to_string : number -> string.

(** [builtinHas m k]: the function that objects inherit under the name [m]
    has a property named [k], its own or one it inherits in turn, when the
    page is loaded ([length], [name], [call], the static methods of
    [Object] for [constructor], and so on: the list depends on the
    engine). *)
Variable builtinHas : string -> string -> bool.

(** [String(v)] *)
Definition ToString (v : value) : string :=
  match v with
  | VUndefined => "undefined"
  | VNull => "null"
  | VBool true => "true"
  | VBool false => "false"
  | VNum n => number_to_string n
  | VStr s => s
  end.

(** *** Header detection *)

(** The callback of [rowSlice.map]. *)
Definition headerCell (c : value) : string :=
  match c with
  | VNull | VUndefined => ""
  | _ => let str := ToString c in
         if (1000 <? len str)%N then "" else trim str
  end.

(** [hasSubject && hasQuestion] for one row of the sheet. *)
Definition isHeaderRow (cells : list value) : bool :=
  let row := map headerCell (sliceFirst 12 cells) in
  let hasSubject := existsb (String.eqb "Subject") row in
  let hasQuestion := existsb (fun c => includes c "Question (Item)") row in
  hasSubject && hasQuestion.

(** The loop [for (let i = ...; i++)], from index [i], up to its [break]. *)
Fixpoint scanHeader (i : nat) (rows : list (list value)) : option nat :=
  match rows with
  | [] => None
  | cells :: rest => if isHeaderRow cells then Some i else scanHeader (S i) rest
  end.

(** [(headerRowIndex, foundHeader)] after the loop. *)
Definition findHeaderRow (aoa : list (list value)) : nat * bool :=
  match scanHeader 0 (firstn (Nat.min (List.length aoa) 20) aoa) with
  | Some i => (i, true)
  | None => (0, false)
  end.

(** *** Cleaning and coercion *)

(** The callback of [rawData.filter]. *)
Definition isValidRow (row : obj value) : bool :=
  let subject := getVal row "Subject" in
  let year := getVal row "Year" in
  let q := getVal row "Question (Item)" in
  if startsWith (toLowerCase (trim (ToString q))) "question" then false
  else if negb (truthy subject) then false
  else if negb (truthy year) then false
  else if negb (truthy q) then false
  else true.

Definition toFloat (v : value) : number :=
  JsNumber.orElse (parseFloat (ToString v)) (JsNumber.ofZ 0).

(** The callback of [cleanData.map]. *)
Definition ensureTypes (row : obj value) : record :=
  {| fields := row;
     Subject := trim (ToString (getVal row "Subject"));
     Year := (let n := parseInt (ToString (getVal row "Year")) in
              if JsNumber.truthy n then VNum n
              else VStr (ToString (getVal row "Year")));
     Question_Item := ToString (getVal row "Question (Item)");
     MC_ER := trim (ToString (orEmpty (getVal row "MC/ER")));
     Question_Per_Content :=
       trim (ToString (orEmpty (getVal row "Question Per Content")));
     Question_Per_Outcome :=
       trim (ToString (orEmpty (getVal row "Question Per Outcome")));
     School_Mean := toFloat (getVal row "School Mean (Item)");
     State_Mean := toFloat (getVal row "State Mean (Item)");
     Max_Mark := toFloat (getVal row "Max Mark (Item)") |}.

(** [grouped[sub][yr].push(row)] once [grouped[sub]] is the object [years]
    that [grouped] owns or that has just been made for it. *)
Definition pushRow (grouped : obj (obj (list record))) (sub yr : string)
  (years : obj (list record)) (r : record) : outcome (obj (obj (list record))) :=
  match lookup yr years with
  | Own rows => Returns (set sub (set yr (rows ++ [r]) years) grouped)
  | Inherited => Throws
  | Absent => Returns (set sub (set yr [r] years) grouped)
  end.

(** The body of [cleanData.forEach]:
    [if (!grouped[sub]) grouped[sub] = {};
     if (!grouped[sub][yr]) grouped[sub][yr] = [];
     grouped[sub][yr].push(row)].
    When [grouped[sub]] is an inherited member [m], the row goes to an array
    kept on [m] and [grouped] stays as it is, unless [m] has a property [yr]
    already: that one has no [push], and the call throws.  For [__proto__]
    the member is [Object.prototype] and the array is written there. *)
Definition groupRow (grouped : obj (obj (list record))) (r : record)
  : outcome (obj (obj (list record))) :=
  let sub := Subject r in
  let yr := ToString (Year r) in
  match lookup sub grouped with
  | Own years => pushRow grouped sub yr years r
  | Absent => pushRow (set sub [] grouped) sub yr [] r
  | Inherited =>
      if inherited yr then Throws
      else if String.eqb sub "__proto__" then Pollutes
      else if builtinHas sub yr then Throws
      else Returns grouped
  end.

(** [processData(rawData)]; of [stats] only the two row counts are kept. *)
Definition processData (rawData : list (obj value)) : outcome processed :=
  let cleanData := filter isValidRow rawData in
  let cleanData := map ensureTypes cleanData in
  andThen (forEach groupRow cleanData [])
          (fun grouped =>
             Returns {| raw := cleanData;
                        grouped := grouped;
                        totalRows := List.length rawData;
                        validRows := List.length cleanData |}).

(** *** Chunk reconstruction *)

(** The first pass of [reconstructBase64]: [(totalLength, validKeys)] once
    the loop over [keysToProcess] is left, entered with [totalLength]. *)
Fixpoint validateChunks (row : obj value) (keysToProcess : list string)
  (totalLength : N) : N * list string :=
  match keysToProcess with
  | [] => (totalLength, [])
  | k :: rest =>
      let val := getVal row k in
      if truthy val then
        let chunkLength := len (ToString val) in
        if (MAX_CHUNK_SIZE <? chunkLength)%N
        then validateChunks row rest totalLength
        else if (MAX_SAFE_SIZE <? totalLength + chunkLength)%N
        then (totalLength, [])
        else let (total, validKeys) :=
               validateChunks row rest (totalLength + chunkLength)%N in
             (total, k :: validKeys)
      else validateChunks row rest totalLength
  end.

(** [reconstructBase64(row)]; [None] is [null], for the argument too. *)
Definition reconstructBase64 (row : option (obj value)) : option string :=
  match row with
  | None => None
  | Some row =>
      let b64Keys := arraySort byChunkNumber (filter isChunkKey (keys row)) in
      if Nat.eqb (List.length b64Keys) 0 then None
      else
        let keysToProcess := sliceFirst MAX_CHUNKS b64Keys in
        let validKeys := snd (validateChunks row keysToProcess 0) in
        if Nat.eqb (List.length validKeys) 0 then None
        else
          let b64Parts :=
            filter (fun val => negb (isEmpty val))
                   (map (fun k => trim (ToString (orEmpty (getVal row k))))
                        validKeys) in
          if Nat.eqb (List.length b64Parts) 0 then None
          else
            let fullB64 := String.concat "" b64Parts in
            let fullB64 :=
              if negb (isEmpty fullB64)
                 && negb (startsWith fullB64 "data:image")
              then ("data:image/png;base64," ++ fullB64)%string
              else fullB64 in
            if isEmpty fullB64 then None else Some fullB64
  end.
End Host.

(** ** The objects behind the records

    [processData] builds each record as [{...row, 'Subject': ..., ...}]:
    the properties of the raw row, then the nine coerced ones written over
    them.  The outlier selection adds [successRate] in the same way. *)

(** [{...o, k1: v1, ..., kn: vn}] *)
Definition assign (o : obj value) (props : list (string * value)) : obj value :=
  fold_left (fun o kv => set (fst kv) (snd kv) o) props o.

(** The properties the object literal of [cleanData.map] writes, in order. *)
Definition coercedFields (r : record) : list (string * value) :=
  [("Subject", VStr (Subject r));
   ("Year", Year r);
   ("Question (Item)", VStr (Question_Item r));
   ("MC/ER", VStr (MC_ER r));
   ("Question Per Content", VStr (Question_Per_Content r));
   ("Question Per Outcome", VStr (Question_Per_Outcome r));
   ("School Mean (Item)", VNum (School_Mean r));
   ("State Mean (Item)", VNum (State_Mean r));
   ("Max Mark (Item)", VNum (Max_Mark r))].

Definition recordObject (r : record) : obj value :=
  assign (fields r) (coercedFields r).

(** [{...r, successRate: ...}] *)
Definition ratedObject (r : rated) : obj value :=
  assign (recordObject (row r)) [("successRate", VNum (successRate r))].

(** ** Detail pages ([renderTopBottomPage]) *)

(** [DataProcessor.reconstructBase64(row)], on the data of a detail page. *)
Definition questionImage (number_to_string : number -> string) (r : rated)
  : option string :=
  reconstructBase64 number_to_string (Some (ratedObject r)).

Record imageProperties : Type := {
  width : number;
  height : number
}.

(** [(imgWidth, imgHeight)] as handed to [pdf.addImage]: the image is
    scaled to the width of the box, then to its height when it is too tall.
    Whether it fits depends on the rounding, so the products and the
    quotients are the rounded ones. *)
Definition questionImageSize (imgProps : imageProperties) : number * number :=
  let maxWidth := JsNumber.ofZ 5 in
  let maxHeight := JsNumber.ofZ 4 in
  let imgWidth := maxWidth in
  let imgHeight :=
    JsNumber.divRounded (JsNumber.mulRounded (height imgProps) imgWidth)
                        (width imgProps) in
  if JsNumber.lt maxHeight imgHeight then
    let imgHeight := maxHeight in
    let imgWidth :=
      JsNumber.divRounded (JsNumber.mulRounded (width imgProps) imgHeight)
                          (height imgProps) in
    (imgWidth, imgHeight)
  else (imgWidth, imgHeight).

(** ** The lines of a listing page ([addTOCPages])

    What [pageEntries.forEach] prints on the listing page of index [i]: a
    heading where a new [(subject, year)] group starts, then the entry with
    its page number.  An entry line is its title after a bullet. *)

Inductive tocLine : Type :=
| GroupHeading (text : string) (yPos : Q)
| EntryLine (entryText : string) (number : nat) (yPos : Q).

(** [arr[i]], [undefined] outside the array, as for the index [-1]. *)
Definition at_ {A} (arr : list A) (i : Z) : option A :=
  if (i <? 0)%Z then None else nth_error arr (Z.to_nat i).

(** [!prevEntry || prevEntry.subject !== entry.subject
     || prevEntry.year !== entry.year] *)
Definition startsGroup (prevEntry : option tocEntry) (entry : tocEntry) : bool :=
  match prevEntry with
  | None => true
  | Some prev =>
      negb (String.eqb (entrySubject prev) (entrySubject entry))
      || negb (String.eqb (entryYear prev) (entryYear entry))
  end.

(** The callbacks of [pageEntries.forEach] from index [idx] on, entered
    with [yPos]. *)
Fixpoint tocLinesFrom (entries : list tocEntry) (i idx : nat) (yPos : Q)
  (pageEntries : list tocEntry) : list tocLine :=
  match pageEntries with
  | [] => []
  | entry :: rest =>
      let prevEntry :=
        at_ entries (Z.of_nat (i * entriesPerPage) + Z.of_nat idx - 1) in
      if startsGroup prevEntry entry then
        GroupHeading (entrySubject entry ++ " - " ++ entryYear entry) yPos
        :: EntryLine (entryTitle entry) (pageNumber entry) (Qred (yPos + (1 # 4)))
        :: tocLinesFrom entries i (S idx) (Qred (Qred (yPos + (1 # 4)) + (1 # 4))) rest
      else
        EntryLine (entryTitle entry) (pageNumber entry) yPos
        :: tocLinesFrom entries i (S idx) (Qred (yPos + (1 # 4))) rest
  end.

Definition tocLines (i : nat) (entries : list tocEntry) : list tocLine :=
  tocLinesFrom entries i 0 (3 # 2) (pageEntries i entries).

(** ** One document per subject ([createPDF]) *)

(** [subject.replace(/[^a-z0-9]/gi, '_')] *)
Definition safeChar (c : ascii) : ascii :=
  if isLetter c || isDigit c then c else "_"%char.

Fixpoint replaceUnsafe (s : string) : string :=
  match s with
  | EmptyString => EmptyString
  | String c s' => String (safeChar c) (replaceUnsafe s')
  end.

Record pdfFile : Type := {
  pdfSubject : string;
  blob : list pdfPage;
  filename : string
}.

(** The body of [allPages.forEach] in [createPDF]:
    [if (!pagesBySubject[key]) pagesBySubject[key] = [];
     pagesBySubject[key].push(page)].
    An inherited member has no [push]. *)
Definition groupBySubject (pagesBySubject : obj (list page)) (p : page)
  : outcome (obj (list page)) :=
  let key := subject p in
  match lookup key pagesBySubject with
  | Own ps => Returns (set key (ps ++ [p]) pagesBySubject)
  | Inherited => Throws
  | Absent => Returns (set key [p] pagesBySubject)
  end.

(** [createPDF(chartImages, processedData)]; a blob is the document it was
    written from. *)
Definition createPDF (chartImages : list page) (processedData : processed)
  : outcome (list pdfFile) :=
  let topBottomPages := generateTopBottomMetadata (grouped processedData) in
  let allPages := chartImages ++ topBottomPages in
  andThen (forEach groupBySubject allPages [])
    (fun pagesBySubject =>
       let subjects := arraySort defaultCompare (keys pagesBySubject) in
       Returns
         (fold_left (fun pdfBlobs subject =>
                       match get subject pagesBySubject with
                       | Some pages =>
                           let subjectPages := sortPages pages in
                           pdfBlobs
                           ++ [{| pdfSubject := subject;
                                  blob := fst (createSubjectPDF subject subjectPages);
                                  filename := "HSC_Analysis_" ++ replaceUnsafe subject
                                              ++ ".pdf" |}]
                       | None => pdfBlobs
                       end) subjects [])).

(** ** Charts ([src/js/chart-generator.js])

    A chart is drawn by Chart.js from a configuration.  The configuration
    is kept through the parts the generators compute: which generator made
    it, which fixes all its constants, and the labels, series and titles.
    [draw] stands for rendering it and exporting the image. *)

Inductive chartKind : Type :=
| Mixed | Diff | Summary | SummaryDual | PerformanceSummary.

Inductive seriesType : Type := barSeries | lineSeries.

Record dataset : Type := {
  dsLabel : string;
  dsData : list number;
  dsType : seriesType;
  (** [backgroundColor], when it is computed bar by bar *)
  dsColors : list string;
  (** the array the data-label formatter reads besides the value *)
  dsShown : list number
}.

Record chartConfig : Type := {
  kind : chartKind;
  chartLabels : list string;
  datasets : list dataset;
  titleText : string;
  xAxisTitle : string
}.

(** The columns a chart takes its labels from. *)
Inductive labelColumn : Type :=
| Question
| Tag (groupCol : tagColumn).

Definition columnName (c : labelColumn) : string :=
  match c with
  | Question => "Question (Item)"
  | Tag QPC => "Question Per Content"
  | Tag QPO => "Question Per Outcome"
  end.

(** [d[labelCol]] *)
Definition cell (c : labelColumn) (d : record) : string :=
  match c with
  | Question => Question_Item d
  | Tag groupCol => tagOf groupCol d
  end.

(** [(mean / max) * 100] *)
Definition percentOf (mean max : number) : number :=
  JsNumber.mul (JsNumber.div mean max) (JsNumber.ofZ 100).

(** [a >= b] on numbers; false as soon as one side is [NaN]. *)
Definition geNum (a b : number) : bool :=
  match a, b with
  | NaN, _ | _, NaN => false
  | _, _ => negb (JsNumber.lt a b)
  end.

Definition chartTitle (subject year titleSuffix : string) : string :=
  subject ++ " - " ++ year ++ " - " ++ titleSuffix.

(** The configuration built by [generateMixedChart]. *)
Definition mixedChartConfig (data : list record) (subject year titleSuffix : string)
  (labelCol : labelColumn) : chartConfig :=
  let sortedData := sortQuestionsNaturally (cell labelCol) data in
  let labels := map (cell labelCol) sortedData in
  let maxMarks := map Max_Mark sortedData in
  let schoolMeans := map School_Mean sortedData in
  let successRates :=
    map (fun d => percentOf (School_Mean d) (Max_Mark d)) sortedData in
  {| kind := Mixed;
     chartLabels := labels;
     datasets :=
       [{| dsLabel := "Success Rate (%)"; dsData := successRates;
           dsType := lineSeries; dsColors := []; dsShown := schoolMeans |};
        {| dsLabel := "Maximum Mark"; dsData := maxMarks;
           dsType := barSeries; dsColors := []; dsShown := [] |}];
     titleText := chartTitle subject year titleSuffix;
     xAxisTitle := columnName labelCol |}.

(** The configuration built by [generateDiffChart]. *)
Definition diffChartConfig (data : list record) (subject year titleSuffix : string)
  : chartConfig :=
  let sortedData := sortQuestionsNaturally (cell Question) data in
  let labels := map Question_Item sortedData in
  let diffs := map (fun d => JsNumber.sub (School_Mean d) (State_Mean d)) sortedData in
  let colors :=
    map (fun v => if geNum v (JsNumber.ofZ 0) then "rgba(75, 192, 192, 0.7)"
                  else "rgba(255, 99, 132, 0.7)") diffs in
  {| kind := Diff;
     chartLabels := labels;
     datasets :=
       [{| dsLabel := "Difference"; dsData := diffs; dsType := barSeries;
           dsColors := colors; dsShown := [] |}];
     titleText := chartTitle subject year titleSuffix;
     xAxisTitle := "Question Number" |}.

(** The configuration built by [generateSummaryChart]; [d[xLabel]] is the
    tag of the row, [xLabel] being the column the rows were aggregated on
    in both calls. *)
Definition summaryChartConfig (aggData : list aggRow) (subject year titleSuffix : string)
  (xLabel : tagColumn) : chartConfig :=
  let labels := map aggTag aggData in
  let maxMarks := map aggMaxMark aggData in
  let successRates :=
    map (fun d => percentOf (aggSchoolMean d) (aggMaxMark d)) aggData in
  let schoolMeans := map aggSchoolMean aggData in
  {| kind := Summary;
     chartLabels := labels;
     datasets :=
       [{| dsLabel := "Success Rate (%)"; dsData := successRates;
           dsType := lineSeries; dsColors := []; dsShown := schoolMeans |};
        {| dsLabel := "Maximum Mark"; dsData := maxMarks;
           dsType := barSeries; dsColors := []; dsShown := [] |}];
     titleText := chartTitle subject year titleSuffix;
     xAxisTitle := columnName (Tag xLabel) |}.

(** The configuration built by [generateSummaryDualChart]. *)
Definition summaryDualChartConfig (aggData : list aggRow)
  (subject year titleSuffix : string) (xLabel : tagColumn) : chartConfig :=
  let labels := map aggTag aggData in
  let maxMarks := map aggMaxMark aggData in
  let schoolRates :=
    map (fun d => percentOf (aggSchoolMean d) (aggMaxMark d)) aggData in
  let stateRates :=
    map (fun d => percentOf (aggStateMean d) (aggMaxMark d)) aggData in
  {| kind := SummaryDual;
     chartLabels := labels;
     datasets :=
       [{| dsLabel := "School Rate (%)"; dsData := schoolRates;
           dsType := lineSeries; dsColors := []; dsShown := [] |};
        {| dsLabel := "State Rate (%)"; dsData := stateRates;
           dsType := lineSeries; dsColors := []; dsShown := [] |};
        {| dsLabel := "Maximum Mark"; dsData := maxMarks;
           dsType := barSeries; dsColors := []; dsShown := [] |}];
     titleText := chartTitle subject year titleSuffix;
     xAxisTitle := columnName (Tag xLabel) |}.

(** The configuration built by [generatePerformanceSummaryChart]. *)
Definition performanceSummaryConfig (data : list rated)
  (subject year titleSuffix : string) : chartConfig :=
  let labels := map (fun d => Question_Item (row d)) data in
  let schoolMeans := map (fun d => School_Mean (row d)) data in
  let stateMeans := map (fun d => State_Mean (row d)) data in
  {| kind := PerformanceSummary;
     chartLabels := labels;
     datasets :=
       [{| dsLabel := "School Mean"; dsData := schoolMeans; dsType := barSeries;
           dsColors := []; dsShown := [] |};
        {| dsLabel := "State Mean"; dsData := stateMeans; dsType := barSeries;
           dsColors := []; dsShown := [] |}];
     titleText := chartTitle subject year titleSuffix;
     xAxisTitle := "Question Number" |}.

(** The body of [rows.forEach] in [generateGroupBreakdowns]:
    [if (!groups[key]) groups[key] = []; groups[key].push(r)].
    An inherited member has no [push]. *)
Definition breakdownGroup (groupCol : tagColumn) (groups : obj (list record))
  (r : record) : outcome (obj (list record)) :=
  let key := trim (tagOf groupCol r) in
  if isEmpty key then Returns groups
  else
    match lookup key groups with
    | Own rs => Returns (set key (rs ++ [r]) groups)
    | Inherited => Throws
    | Absent => Returns (set key [r] groups)
    end.

Definition breakdownPrefix (groupCol : tagColumn) : string :=
  match groupCol with
  | QPC => "QPC Breakdown"
  | QPO => "QPO Breakdown"
  end.

Section Charts.
Variable draw : chartConfig -> string.

(** Each generator pushes one descriptor on [resultsArray]; here it
    returns it. *)
Definition generateMixedChart (data : list record) (subject year titleSuffix : string)
  (labelCol : labelColumn) : page :=
  chartPage subject year titleSuffix None
            (draw (mixedChartConfig data subject year titleSuffix labelCol)).

Definition generateDiffChart (data : list record) (subject year titleSuffix : string)
  : page :=
  chartPage subject year titleSuffix None
            (draw (diffChartConfig data subject year titleSuffix)).

Definition generateSummaryChart (aggData : list aggRow)
  (subject year titleSuffix : string) (xLabel : tagColumn) : page :=
  chartPage subject year titleSuffix None
            (draw (summaryChartConfig aggData subject year titleSuffix xLabel)).

Definition generateSummaryDualChart (aggData : list aggRow)
  (subject year titleSuffix : string) (xLabel : tagColumn) : page :=
  chartPage subject year titleSuffix None
            (draw (summaryDualChartConfig aggData subject year titleSuffix xLabel)).

Definition generatePerformanceSummaryChart (data : list rated)
  (subject year titleSuffix : string) : page :=
  chartPage subject year titleSuffix (Some "performance-summary")
            (draw (performanceSummaryConfig data subject year titleSuffix)).

(** The descriptors pushed by [generateGroupBreakdowns], one chart for each
    key of [groups]. *)
Definition generateGroupBreakdowns (rows : list record) (groupCol : tagColumn)
  (subject year : string) (labelCol : labelColumn) : outcome (list page) :=
  andThen (forEach (breakdownGroup groupCol) rows [])
    (fun groups =>
       Returns
         (flat_map (fun groupName =>
                      match get groupName groups with
                      | Some groupData =>
                          let titleSuffix :=
                            (breakdownPrefix groupCol ++ ": " ++ groupName)%string in
                          [generateMixedChart groupData subject year titleSuffix labelCol]
                      | None => []
                      end) (keys groups))).

(** [if (data.length > 0) await generate(...)] *)
Definition whenNonEmpty {A} (data : list A) (p : page) : list page :=
  if Nat.ltb 0 (List.length data) then [p] else [].

(** The body of the inner loop of [createAllCharts]: the descriptors pushed
    for one [(subject, year)] group, in order.  The two calls of
    [generateGroupBreakdowns] come last and are the only ones that can
    fail. *)
Definition chartsOfGroup (subject year : string) (rows : list record)
  : outcome (list page) :=
  let mcData := filter (fun r => String.eqb (MC_ER r) "MC") rows in
  let erData := filter (fun r => String.eqb (MC_ER r) "ER") rows in
  let qpcAgg := aggregateData rows QPC in
  let qpoAgg := aggregateData rows QPO in
  let chartImages :=
    whenNonEmpty mcData (generateMixedChart mcData subject year "MC" Question)
    ++ whenNonEmpty erData (generateMixedChart erData subject year "ER" Question)
    ++ whenNonEmpty mcData
         (generateDiffChart mcData subject year "MC - School vs State")
    ++ whenNonEmpty erData
         (generateDiffChart erData subject year "ER - School vs State")
    ++ whenNonEmpty (top5 rows)
         (generatePerformanceSummaryChart (top5 rows) subject year
            "Best Performing Questions (Top 5)")
    ++ whenNonEmpty (bottom5 rows)
         (generatePerformanceSummaryChart (bottom5 rows) subject year
            "Questions Needing Additional Support (Bottom 5)")
    ++ whenNonEmpty qpcAgg
         (generateSummaryChart qpcAgg subject year "QPC Summary" QPC)
    ++ whenNonEmpty qpoAgg
         (generateSummaryChart qpoAgg subject year "QPO Summary" QPO)
    ++ whenNonEmpty qpcAgg
         (generateSummaryDualChart qpcAgg subject year
            "QPC Summary (School vs State)" QPC)
    ++ whenNonEmpty qpoAgg
         (generateSummaryDualChart qpoAgg subject year
            "QPO Summary (School vs State)" QPO) in
  andThen (generateGroupBreakdowns rows QPC subject year Question)
    (fun byContent =>
       andThen (generateGroupBreakdowns rows QPO subject year (Tag QPO))
         (fun byOutcome => Returns (chartImages ++ byContent ++ byOutcome))).

(** [createAllCharts(groupedData)]: the two loops push on [chartImages]. *)
Definition createAllCharts (groupedData : obj (obj (list record)))
  : outcome (list page) :=
  forEach (fun chartImages (sy : string * obj (list record)) =>
             forEach (fun chartImages (yr : string * list record) =>
                        andThen (chartsOfGroup (fst sy) (fst yr) (snd yr))
                          (fun pushed => Returns (chartImages ++ pushed)))
                     (snd sy) chartImages)
          groupedData [].

(** The two calls of [generateReport] ([src/app.js]): the charts, then the
    documents, kept in [window.generatedPdfBlobs].  An error of either call
    is caught there and reported, and no document is kept. *)
Definition generateReport (processedData : processed) : outcome (list pdfFile) :=
  andThen (createAllCharts (grouped processedData))
    (fun chartImages => createPDF chartImages processedData).
End Charts.

(** ** Review statistics ([processData], [updateReviewSection]) *)

(** [set.add(x)] on a [Set] of strings, kept in insertion order. *)
Definition setAdd (x : string) (s : list string) : list string :=
  if existsb (String.eqb x) s then s else s ++ [x].

(** [subjects] after [cleanData.forEach]. *)
Definition subjectSet (cleanData : list record) : list string :=
  fold_left (fun subjects r => setAdd (Subject r) subjects) cleanData [].

(** [stats.subjectCount] and [stats.subjects]. *)
Definition subjectCount (p : processed) : nat := List.length (subjectSet (raw p)).
Definition subjects (p : processed) : list string :=
  arraySort defaultCompare (subjectSet (raw p)).

(** ** Steps of the page ([goToStep] in [src/app.js])

    An element is kept through its class list, an ordered set of names. *)

Definition classList : Type := list string.

Definition classAdd (c : string) (l : classList) : classList :=
  if existsb (String.eqb c) l then l else l ++ [c].

Definition classRemove (c : string) (l : classList) : classList :=
  filter (fun x => negb (String.eqb c x)) l.

Definition classContains (c : string) (l : classList) : bool :=
  existsb (String.eqb c) l.

(** The step indicators and the four sections, in the order of
    [elements.sections]. *)
Record view : Type := {
  currentStep : nat;
  steps : list classList;
  sections : list classList
}.

(** The callback of [steps.forEach], from index [idx] on. *)
Fixpoint markSteps (step idx : nat) (els : list classList) : list classList :=
  match els with
  | [] => []
  | el :: rest =>
      (if Nat.eqb (idx + 1) step then classAdd "active" el
       else if Nat.ltb (idx + 1) step then classAdd "active" el
       else classRemove "active" el)
      :: markSteps step (S idx) rest
  end.

(** [section.classList.remove('hidden'); section.classList.add('active-section')]
    on the section of index [i]. *)
Fixpoint reveal (i : nat) (els : list classList) : list classList :=
  match els, i with
  | [], _ => []
  | el :: rest, O => classAdd "active-section" (classRemove "hidden" el) :: rest
  | el :: rest, S i' => el :: reveal i' rest
  end.

(** [goToStep(step)]: sections 1 to 4 are upload, review, generate and
    download; any other step shows none.  The count of documents written at
    step 4 is a text, not a class, and is left out. *)
Definition goToStep (step : nat) (v : view) : view :=
  let hidden := map (classAdd "hidden") (sections v) in
  {| currentStep := step;
     steps := markSteps step 0 (steps v);
     sections :=
       if (Nat.leb 1 step && Nat.leb step 4)%bool
       then reveal (step - 1) hidden else hidden |}.

(** * Specification-level definitions *)

(** ** Orders and strings *)

(** Two elements that a preorder [le] does not tell apart, and the lists
    sorted by [le]. *)
Section Orders.
Context {A : Type}.
Variable le : A -> A -> bool.

Definition equivb (a b : A) : bool := le a b && le b a.

Definition sortedBy (l : list A) : Prop :=
  StronglySorted (fun a b => le a b = true) l.
End Orders.

(** [a <= b] on strings. *)
Definition leStr (a b : string) : bool := negb (ltStr b a).

(** [a <= b] on numbers. *)
Definition leNum (a b : number) : bool := negb (JsNumber.lt b a).

(** [pat] occurs in [s] as a substring. *)
Definition occursIn (pat s : string) : Prop :=
  exists pre post, s = (pre ++ pat ++ post)%string.

(** ** Natural sort *)

(** The integer a run of decimal digits denotes. *)
Fixpoint decimalOf (acc : N) (s : string) : N :=
  match s with
  | EmptyString => acc
  | String c r => decimalOf (acc * 10 + (code c - 48))%N r
  end.

Definition integerValue (digits : string) : N := decimalOf 0 digits.

(** The trimmed label is the digits [ds], not empty, followed by the
    letters [ls]. *)
Definition matchesLabel (s ds ls : string) : Prop :=
  trim s = (ds ++ ls)%string /\ ds <> "" /\
  allChars isDigit ds = true /\ allChars isLetter ls = true.

Definition matching (s : string) : Prop := exists ds ls, matchesLabel s ds ls.

(** Sort keys compared numerically on the numeric part, then on the suffix. *)
Definition keyLe (k1 k2 : number * string) : bool :=
  JsNumber.lt (fst k1) (fst k2)
  || (JsNumber.strictEq (fst k1) (fst k2) && leStr (snd k1) (snd k2)).

(** The key of an element, through its label. *)
Definition keyOf {A : Type} (label : A -> string) (a : A) : number * string :=
  naturalSortKey (label a).

Definition goodKey (k : number * string) : Prop := JsNumber.isNaN (fst k) = false.

Definition sameKey (k1 k2 : number * string) : bool :=
  JsNumber.strictEq (fst k1) (fst k2) && String.eqb (snd k1) (snd k2).

(** An object that owns no property named like an inherited member, as
    every object is that the grouping loops fill from [{}]. *)
Definition noInheritedKey {V : Type} (o : obj V) : Prop :=
  forall k, inherited k = true -> get k o = None.

(** ** Aggregation *)

(** The records of [rows] whose trimmed tag is [tag], in order. *)
Definition recordsOf (groupCol : tagColumn) (tag : string) (rows : list record)
  : list record :=
  filter (fun r => String.eqb tag (trim (tagOf groupCol r))) rows.

(** Sum and arithmetic mean, added up from the left as the code does. *)
Definition sumOf (xs : list number) : number :=
  fold_left JsNumber.add xs (JsNumber.ofZ 0).

Definition meanOf (xs : list number) : number :=
  JsNumber.div (sumOf xs) (JsNumber.ofNat (List.length xs)).

(** A freshly created bucket, and a bucket after one more record. *)
Definition emptyBucket (key : string) : bucket :=
  {| bmax := JsNumber.ofZ 0; schoolSum := JsNumber.ofZ 0;
     stateSum := JsNumber.ofZ 0; count := 0; blabel := key |}.

Definition addTo (g : bucket) (row : record) : bucket :=
  {| bmax := JsNumber.add (bmax g) (Max_Mark row);
     schoolSum := JsNumber.add (schoolSum g) (School_Mean row);
     stateSum := JsNumber.add (stateSum g) (State_Mean row);
     count := count g + 1;
     blabel := blabel g |}.

Definition hasTag (groupCol : tagColumn) (r : record) : bool :=
  negb (isEmpty (trim (tagOf groupCol r))).

(** A tag that can name a group: not the name of an inherited member. *)
Definition plainTag (groupCol : tagColumn) (r : record) : bool :=
  negb (inherited (trim (tagOf groupCol r))).

(** A run of [n] nines, for examples. *)
Fixpoint nines (n : nat) : string :=
  match n with
  | O => ""
  | S k => String "9" (nines k)
  end.

(** A record tagged [constructor], for examples. *)
Definition constructorRecord : record :=
  {| fields := []; Subject := "Maths"; Year := VNum (JsNumber.ofZ 2023);
     Question_Item := "5"; MC_ER := "MC";
     Question_Per_Content := "constructor"; Question_Per_Outcome := "MA1";
     School_Mean := JsNumber.ofZ 3; State_Mean := JsNumber.ofZ 1;
     Max_Mark := JsNumber.ofZ 5 |}.

(** ** Outlier selection *)

(** School means as the outlier selection reads them. *)
Definition schoolMeanOf (a : rated) : number := School_Mean (row a).
Definition hasSchoolMean (a : rated) : Prop := JsNumber.isNaN (schoolMeanOf a) = false.

(** ** Page ordering and numbering *)

(** Pages ordered by their [(subject, year)] key, then by score. *)
Definition pageLe (p q : page) : bool :=
  ltStr (pageKey p) (pageKey q)
  || (String.eqb (pageKey p) (pageKey q) && (score p <=? score q)%Z).

(** Pages of one subject ordered by year, then by score. *)
Definition yearThenScore (p q : page) : bool :=
  ltStr (year p) (year q)
  || (String.eqb (year p) (year q) && (score p <=? score q)%Z).

(** Same key and same score. *)
Definition samePlace (p q : page) : bool :=
  String.eqb (pageKey p) (pageKey q) && (score p =? score q)%Z.

(** A comparator for [pageLe], in the style of the code. *)
Definition byKeyThenScore (p q : page) : number :=
  if ltStr (pageKey p) (pageKey q) then JsNumber.ofZ (-1)
  else if ltStr (pageKey q) (pageKey p) then JsNumber.ofZ 1
  else JsNumber.ofZ (score p - score q).

(** The pages of [allPages] whose key is [k], in encounter order. *)
Definition pagesOf (k : string) (allPages : list page) : list page :=
  filter (fun p => String.eqb k (pageKey p)) allPages.

(** A group after the pages [f] have been pushed on it. *)
Definition extend (o : option (list page)) (f : list page) : option (list page) :=
  match f with
  | [] => o
  | _ => Some (match o with Some ps => ps | None => [] end ++ f)
  end.

(** The keys of the groups of [allPages], sorted as [Object.keys(groups).sort()]. *)
Definition sortedKeys (allPages : list page) : list string :=
  arraySort defaultCompare (keys (fold_left groupPage allPages [])).

(** A group of [sortPages], once sorted by score. *)
Definition sortedGroup (allPages : list page) (k : string) : list page :=
  arraySort byScore (pagesOf k allPages).

(** The heading of the listing page of index [i]. *)
Definition tocHeading (i : nat) : string :=
  if Nat.eqb i 0 then "Table of Contents" else "Table of Contents (continued)".

(** ** Ingestion *)

(** The values a row holds under the raw keys that canonicalise to [name],
    in the order the keys are visited. *)
Definition candidates (name : string) (row : obj value) : list value :=
  map snd (filter (fun kv => String.eqb (normalizeKey (fst kv)) name) row).

(** "The first occurrence wins." *)
Definition firstOccurrence (name : string) (row : obj value) : value :=
  hd VUndefined (candidates name row).

(** The first truthy value, or the last value when none is truthy. *)
Definition firstTruthyOrLast (vs : list value) : value :=
  match find truthy vs with
  | Some v => v
  | None => last vs VUndefined
  end.

(** The step of the grouping loop of [processData] on a row whose subject
    and year are not names of inherited members: the row is pushed on the
    array of its year, in the object of its subject, each created when it
    is not there. *)
Definition groupStep (number_to_string : number -> string)
  (grouped : obj (obj (list record))) (r : record) : obj (obj (list record)) :=
  let sub := Subject r in
  let yr := ToString number_to_string (Year r) in
  let grouped := if has sub grouped then grouped else set sub [] grouped in
  match get sub grouped with
  | Some years =>
      let years := if has yr years then years else set yr [] years in
      match get yr years with
      | Some rows => set sub (set yr (rows ++ [r]) years) grouped
      | None => grouped
      end
  | None => grouped
  end.

(** A record whose subject and year can be grouped: neither is the name of
    an inherited member. *)
Definition groupable (number_to_string : number -> string) (r : record) : bool :=
  negb (inherited (Subject r))
  && negb (inherited (ToString number_to_string (Year r))).

(** A record whose subject can name a group. *)
Definition plainSubject (r : record) : bool := negb (inherited (Subject r)).

(** Groups, and groups inside them, none of which is named like an
    inherited member. *)
Definition plainGroups (grouped : obj (obj (list record))) : Prop :=
  noInheritedKey grouped
  /\ forall sub years, get sub grouped = Some years -> noInheritedKey years.

(** The records stored for subject [sub] and year [yr], none when the group
    does not exist. *)
Definition lookupGroup (grouped : obj (obj (list record))) (sub yr : string)
  : list record :=
  match get sub grouped with
  | Some years => match get yr years with Some rows => rows | None => [] end
  | None => []
  end.

(** ** Chunk reconstruction *)

(** What a chunk field contributes, how long it is, and whether the first
    pass can accept it. *)
Definition chunkText (number_to_string : number -> string) (row : obj value)
  (k : string) : string :=
  trim (ToString number_to_string (getVal row k)).

Definition chunkLength (number_to_string : number -> string) (row : obj value)
  (k : string) : N :=
  len (ToString number_to_string (getVal row k)).

Definition acceptable (number_to_string : number -> string) (row : obj value)
  (k : string) : bool :=
  truthy (getVal row k)
  && (chunkLength number_to_string row k <=? MAX_CHUNK_SIZE)%N.

Definition totalLengthOf (number_to_string : number -> string) (row : obj value)
  (ks : list string) : N :=
  fold_right (fun k acc => (chunkLength number_to_string row k + acc)%N) 0%N ks.

(** The image-data prefix, added unless one is there already. *)
Definition withPrefix (s : string) : string :=
  if startsWith s "data:image" then s else ("data:image/png;base64," ++ s)%string.

(** The chunk fields the first pass looks at, and those it accepts. *)
Definition consideredKeys (row : obj value) : list string :=
  sliceFirst MAX_CHUNKS (arraySort byChunkNumber (filter isChunkKey (keys row))).

Definition validKeys (number_to_string : number -> string) (row : obj value)
  : list string :=
  snd (validateChunks number_to_string row (consideredKeys row) 0).

(** "The concatenation of the surviving chunks", the chunks taken as they
    are. *)
Definition untrimmedReconstruction (number_to_string : number -> string)
  (row : obj value) : option string :=
  match validKeys number_to_string row with
  | [] => None
  | ks => Some (withPrefix
                  (String.concat ""
                     (map (fun k => ToString number_to_string (getVal row k)) ks)))
  end.

(** ** Sample data *)

(** A number-to-string conversion for the examples: exact on the integers
    and on the three special values, which is all the examples hold (a
    fraction is written as its integer part). *)
Definition integerToString (n : number) : string :=
  match n with
  | Fin q => NilZero.string_of_int (Z.to_int (Qfloor q))
  | PosInf => "Infinity"
  | NegInf => "-Infinity"
  | NaN => "NaN"
  end.

(** A normalised record with the given label, tags and marks, for examples. *)
Definition sampleRecord (label content outcome : string) (school max : Z) : record :=
  {| fields := []; Subject := "Maths"; Year := VNum (JsNumber.ofZ 2023);
     Question_Item := label; MC_ER := "MC";
     Question_Per_Content := content; Question_Per_Outcome := outcome;
     School_Mean := JsNumber.ofZ school; State_Mean := JsNumber.ofZ 1;
     Max_Mark := JsNumber.ofZ max |}.

(** A group of three records, in sheet order. *)
Definition sampleGroup : list record :=
  [sampleRecord "1" "Algebra" "MA1" 2 4;
   sampleRecord "2" "Algebra" "MA2" 6 10;
   sampleRecord "3" "Number" "MA1" 4 0].

(** Four records, three of them under the content tag ["Algebra"], with
    school means 2, 4 and 6, and one with a blank tag. *)
Definition sampleTagged : list record :=
  [sampleRecord "1" " Algebra" "MA1" 2 4;
   sampleRecord "2" "  " "MA1" 9 10;
   sampleRecord "3" "Algebra " "MA2" 4 6;
   sampleRecord "4" "Algebra" "MA2" 6 10].

(** A chart page, for examples. *)
Definition samplePage (year title : string) : page :=
  {| type := chart; subType := None; subject := "Maths"; year := year;
     title := title; content := Image "" |}.

(** The first rows of a sheet whose header is on its second row. *)
Definition sampleSheet : list (list value) :=
  [[VStr "Item analysis export"];
   [VStr " Subject "; VStr "Year"; VStr "Question (Item) "; VNum (JsNumber.ofZ 7)];
   [VStr "Maths"; VNum (JsNumber.ofZ 2023); VStr "1a"; VNull]].

(** A raw row with two columns for the content tag, the first one empty. *)
Definition duplicateColumns : obj value :=
  [("Content Area", VStr ""); ("QPC", VStr "Algebra")].

(** A raw row whose subject is made of white space only. *)
Definition blankSubjectRow : obj value :=
  [("Subject", VStr "  "); ("Year", VStr "2023"); ("Question (Item)", VStr "1")].

(** A row with three chunk fields declared out of order, a field whose
    suffix is not a number, and an ordinary field. *)
Definition sampleChunks : obj value :=
  [("HSC_BASE64_2", VStr "A"); ("Question (Item)", VStr "1");
   ("HSC_BASE64_0", VStr "B"); ("HSC_BASE64_x", VStr "Z");
   ("HSC_BASE64_1", VStr "C")].

(** ** Grouping loops *)

(** The step the grouping loops share: [x] is pushed on the array under
    [k], which is created when it is not there. *)
Definition pushAt {A} (k : string) (x : A) (groups : obj (list A)) : obj (list A) :=
  let groups := if has k groups then groups else set k [] groups in
  match get k groups with
  | Some xs => set k (xs ++ [x]) groups
  | None => groups
  end.

(** The step of the grouping loop of [generateGroupBreakdowns] on a record
    whose tag is not the name of an inherited member. *)
Definition breakdownStep (groupCol : tagColumn) (groups : obj (list record))
  (r : record) : obj (list record) :=
  if isEmpty (trim (tagOf groupCol r)) then groups
  else pushAt (trim (tagOf groupCol r)) r groups.

(** A record the loop of [generateGroupBreakdowns] does not fail on: its
    tag is blank, or is not the name of an inherited member. *)
Definition breakable (groupCol : tagColumn) (r : record) : bool :=
  isEmpty (trim (tagOf groupCol r)) || negb (inherited (trim (tagOf groupCol r))).

(** What a call has returned, nothing when it has failed. *)
Definition returned {A : Type} (m : outcome (list A)) : list A :=
  match m with
  | Returns l => l
  | _ => []
  end.

(** Records on which neither call of [generateGroupBreakdowns] fails. *)
Definition chartable (rows : list record) : bool :=
  forallb (breakable QPC) rows && forallb (breakable QPO) rows.

(** The elements of [l] whose key is [k], in order. *)
Definition keyed {A} (key : A -> string) (k : string) (l : list A) : list A :=
  filter (fun x => String.eqb k (key x)) l.

(** All the elements held by the groups, group after group. *)
Definition members {A} (groups : obj (list A)) : list A := flat_map snd groups.

(** The records of all the groups of [processData], subject after subject. *)
Definition allRecords (grouped : obj (obj (list record))) : list record :=
  flat_map (fun sy : string * obj (list record) => members (snd sy)) grouped.

(** What the grouping loop of [processData] keeps true: no subject and no
    year is listed twice, and no group is empty. *)
Definition wellGrouped (grouped : obj (obj (list record))) : Prop :=
  NoDup (keys grouped)
  /\ forall sub years, In (sub, years) grouped ->
       years <> [] /\ NoDup (keys years)
       /\ forall yr rows, In (yr, rows) years -> rows <> [].

(** Keys in enumeration order: no key is one that a later key should
    precede. *)
Definition enumerationOrdered (ks : list string) : Prop :=
  StronglySorted (fun a b => precedes b a = false) ks.

(** A key that is an array index. *)
Definition isArrayIndex (k : string) : bool :=
  match arrayIndex k with Some _ => true | None => false end.

(** The strings of [l], each once, in the order in which they first occur. *)
Definition firstSeen (l : list string) : list string :=
  fold_left (fun seen k => if existsb (String.eqb k) seen then seen else seen ++ [k])
            l [].

(** The keys of an object after [o[k] = v], from its keys before. *)
Fixpoint insertName (k : string) (ks : list string) : list string :=
  match ks with
  | [] => [k]
  | k' :: rest => if precedes k k' then k :: ks else k' :: insertName k rest
  end.

Definition addName (k : string) (ks : list string) : list string :=
  if existsb (String.eqb k) ks then ks else insertName k ks.

(** ** Column names *)

(** The two tests of the canonicalisation, on a trimmed column name. *)
Definition namesContent (k : string) : bool :=
  includes k "Content Area" || includes k "(QPC)" || String.eqb k "QPC".

Definition namesOutcome (k : string) : bool :=
  includes k "Learning Outcome" || includes k "(QPO)" || String.eqb k "QPO".

(** ** Documents *)

(** The page descriptors a document was written from, in the order of its
    content pages. *)
Definition contentItems (doc : list pdfPage) : list page :=
  flat_map (fun p => match p with
                     | ContentPage _ item => [item]
                     | _ => []
                     end) doc.

(** The characters a file name is made of. *)
Definition isFileNameChar (c : ascii) : bool :=
  isLetter c || isDigit c || (code c =? 95)%N || (code c =? 46)%N.

(** ** Lines of the table of contents *)

(** The headings of a list of lines, its entries, and where a line is
    printed. *)
Definition headingsOf (lines : list tocLine) : list string :=
  flat_map (fun l => match l with
                     | GroupHeading text _ => [text]
                     | EntryLine _ _ _ => []
                     end) lines.

Definition entriesOf (lines : list tocLine) : list (string * nat) :=
  flat_map (fun l => match l with
                     | GroupHeading _ _ => []
                     | EntryLine text n _ => [(text, n)]
                     end) lines.

Definition yOf (l : tocLine) : Q :=
  match l with
  | GroupHeading _ y => y
  | EntryLine _ _ y => y
  end.

Definition headingText (e : tocEntry) : string :=
  entrySubject e ++ " - " ++ entryYear e.

(** The entries that differ from the entry before them in subject or in
    year, the first entry after [prev] included. *)
Fixpoint newGroups (prev : option tocEntry) (entries : list tocEntry)
  : list tocEntry :=
  match entries with
  | [] => []
  | e :: rest =>
      (if startsGroup prev e then [e] else []) ++ newGroups (Some e) rest
  end.

(** ** Page titles and scores *)

(** [pat] cannot start in a string and end in [b]: no proper suffix of
    [pat] starts [b]. *)
Definition noStraddle (pat b : string) : bool :=
  forallb (fun n => negb (String.prefix
                            (String.substring n (String.length pat - n) pat) b))
          (seq 1 (String.length pat - 1)).

(** A name without any of the words the page score looks for. *)
Definition plain (s : string) : bool :=
  negb (includes s "Summary") && negb (includes s "Breakdown")
  && negb (includes s "School vs State").

(** The score of a chart page that is not a performance summary, from the
    suffix of its title. *)
Definition suffixScore (titleSuffix : string) : Z :=
  if includes titleSuffix "Summary" then
    if includes titleSuffix "School vs State" then 60 else 40
  else if includes titleSuffix "Breakdown" then 50
  else if includes titleSuffix "School vs State" then 20
  else 10.

(** The pages of [l] whose score is [v], in order. *)
Definition scored (v : Z) (l : list page) : list page :=
  filter (fun p => (score p =? v)%Z) l.

(** The scores there are, in increasing order. *)
Definition scoreLevels : list Z := [10; 20; 25; 35; 40; 50; 60]%Z.

(** ** Charts *)

(** The colours of the bars of a difference chart. *)
Definition green : string := "rgba(75, 192, 192, 0.7)".
Definition red : string := "rgba(255, 99, 132, 0.7)".

(** ** More sample data *)

(** A chart page of a subject whose name has a space and a dot. *)
Definition sampleExtensionPage : page :=
  {| type := chart; subType := None; subject := "Maths Ext. 1"; year := "2023";
     title := "Maths Ext. 1 - 2023 - MC"; content := Image "" |}.

(** Processed data with no row. *)
Definition noData : processed :=
  {| raw := []; grouped := []; totalRows := 0; validRows := 0 |}.

(** * Facts about [arraySort] *)

Section ArraySortFacts.
Context {A : Type}.
Variable comparefn : A -> A -> number.

Lemma insertSorted_perm (x : A) (l : list A) :
  Permutation (x :: l) (insertSorted comparefn x l).
Proof.
  induction l as [|y l IH]; simpl.
  - apply Permutation_refl.
  - destruct (sortsAfter comparefn x y).
    + eapply perm_trans; [apply perm_swap|]. now apply perm_skip.
    + apply Permutation_refl.
Qed.

Lemma arraySort_perm (l : list A) : Permutation l (arraySort comparefn l).
Proof.
  induction l as [|x l IH]; simpl.
  - constructor.
  - eapply perm_trans; [apply perm_skip, IH|]. apply insertSorted_perm.
Qed.

Lemma arraySort_length (l : list A) :
  List.length (arraySort comparefn l) = List.length l.
Proof. symmetry. apply Permutation_length, arraySort_perm. Qed.

Lemma arraySort_In (l : list A) (x : A) :
  In x (arraySort comparefn l) <-> In x l.
Proof.
  split; apply Permutation_in;
    [apply Permutation_sym|]; apply arraySort_perm.
Qed.

(** The comparator is consistent on the elements satisfying [P]: it is the
    strict part of the total preorder [le]. *)
Variable P : A -> Prop.
Variable le : A -> A -> bool.
Hypothesis le_spec :
  forall a b, P a -> P b -> sortsAfter comparefn a b = negb (le a b).
Hypothesis le_total : forall a b, P a -> P b -> le a b = true \/ le b a = true.
Hypothesis le_trans :
  forall a b c, P a -> P b -> P c ->
                le a b = true -> le b c = true -> le a c = true.

Lemma le_refl a : P a -> le a a = true.
Proof. intros Ha. destruct (le_total Ha Ha); assumption. Qed.

Lemma Forall_arraySort (l : list A) : Forall P l -> Forall P (arraySort comparefn l).
Proof.
  intros H. eapply Permutation_Forall; [apply arraySort_perm|exact H].
Qed.

Lemma insertSorted_sorted (x : A) (l : list A) :
  P x -> Forall P l -> sortedBy le l -> sortedBy le (insertSorted comparefn x l).
Proof.
  intros Hx Hl Hs. induction Hs as [|y l Hs IH Hy]; simpl.
  - constructor; constructor.
  - inversion Hl as [|? ? Py Pl]; subst.
    rewrite (le_spec Hx Py).
    destruct (le x y) eqn:E; simpl.
    + constructor; [constructor; assumption|].
      constructor; [exact E|].
      rewrite Forall_forall in *. intros z Hz.
      apply (le_trans Hx Py (Pl z Hz) E). now apply Hy.
    + constructor; [now apply IH|].
      eapply Permutation_Forall; [apply insertSorted_perm|].
      constructor; [|exact Hy].
      destruct (le_total Hx Py) as [H|H]; [congruence|exact H].
Qed.

Lemma arraySort_sorted (l : list A) : Forall P l -> sortedBy le (arraySort comparefn l).
Proof.
  induction l as [|x l IH]; intros H; simpl.
  - constructor.
  - inversion H; subst. apply insertSorted_sorted; auto using Forall_arraySort.
Qed.

Lemma insertSorted_filter (a x : A) (l : list A) :
  P a -> P x -> Forall P l ->
  filter (equivb le a) (insertSorted comparefn x l) = filter (equivb le a) (x :: l).
Proof.
  intros Ha Hx Hl. induction l as [|y l IH]; [reflexivity|].
  inversion Hl as [|? ? Py Pl]; subst. simpl.
  rewrite (le_spec Hx Py). destruct (le x y) eqn:E; simpl; [reflexivity|].
  rewrite (IH Pl). simpl.
  destruct (equivb le a x) eqn:Eax, (equivb le a y) eqn:Eay; try reflexivity.
  exfalso. unfold equivb in *.
  apply andb_true_iff in Eax, Eay. destruct Eax as [_ Hxa], Eay as [Hay _].
  rewrite (le_trans Hx Ha Py Hxa Hay) in E. discriminate.
Qed.

(** Stability: elements that compare equal keep their relative order. *)
Lemma arraySort_stable (a : A) (l : list A) :
  P a -> Forall P l ->
  filter (equivb le a) (arraySort comparefn l) = filter (equivb le a) l.
Proof.
  intros Ha Hl. induction l as [|x l IH]; [reflexivity|].
  inversion Hl; subst. simpl arraySort.
  rewrite insertSorted_filter; auto using Forall_arraySort.
  simpl. now rewrite IH.
Qed.

(** A sorted list is determined by the order of its elements inside each
    class of equal elements. *)
Lemma stable_sorted_unique (l1 l2 : list A) :
  Forall P l1 -> Forall P l2 -> sortedBy le l1 -> sortedBy le l2 ->
  (forall a, P a -> filter (equivb le a) l1 = filter (equivb le a) l2) ->
  l1 = l2.
Proof.
  revert l2. induction l1 as [|a l1 IH]; intros l2 H1 H2 S1 S2 Hf.
  - destruct l2 as [|b l2]; [reflexivity|].
    inversion H2 as [|? ? Pb _]; subst.
    specialize (Hf b Pb). simpl in Hf.
    unfold equivb in Hf at 1. rewrite (le_refl Pb) in Hf. discriminate.
  - inversion H1 as [|? ? Pa P1]; subst.
    inversion S1 as [|? ? S1' La]; subst.
    assert (Haa : equivb le a a = true) by (unfold equivb; now rewrite (le_refl Pa)).
    destruct l2 as [|b l2].
    { specialize (Hf a Pa). simpl in Hf. rewrite Haa in Hf. discriminate. }
    inversion H2 as [|? ? Pb P2]; subst.
    inversion S2 as [|? ? S2' Lb]; subst.
    assert (Hbb : equivb le b b = true) by (unfold equivb; now rewrite (le_refl Pb)).
    assert (Hab : equivb le a b = true).
    { destruct (equivb le a b) eqn:E; [reflexivity|exfalso].
      assert (Ia : In a l2).
      { assert (I : In a (filter (equivb le a) (b :: l2))).
        { rewrite <- (Hf a Pa). simpl. rewrite Haa. now left. }
        apply filter_In in I. destruct I as [[->|I] _]; [congruence|exact I]. }
      assert (Ib : In b l1).
      { assert (I : In b (filter (equivb le b) (a :: l1))).
        { rewrite (Hf b Pb). simpl. rewrite Hbb. now left. }
        apply filter_In in I. destruct I as [[->|I] _]; [congruence|exact I]. }
      rewrite Forall_forall in La, Lb.
      unfold equivb in E. rewrite (La b Ib), (Lb a Ia) in E. discriminate. }
    assert (a = b).
    { specialize (Hf a Pa). simpl in Hf. rewrite Haa, Hab in Hf. congruence. }
    subst b. f_equal. apply IH; auto.
    intros c Pc. specialize (Hf c Pc). simpl in Hf.
    destruct (equivb le c a); congruence.
Qed.

Lemma arraySort_unique (l l' : list A) :
  Forall P l -> Forall P l' -> sortedBy le l' ->
  (forall a, P a -> filter (equivb le a) l' = filter (equivb le a) l) ->
  arraySort comparefn l = l'.
Proof.
  intros Hl Hl' Hs Hf. apply stable_sorted_unique;
    auto using Forall_arraySort, arraySort_sorted.
  intros a Pa. rewrite arraySort_stable; auto. symmetry; auto.
Qed.
End ArraySortFacts.

(** * The order on strings *)



Lemma ascii_compare_refl (c : ascii) : Ascii.compare c c = Eq.
Proof. unfold Ascii.compare. apply N.compare_refl. Qed.

Lemma string_compare_refl (s : string) : String.compare s s = Eq.
Proof. induction s as [|c s IH]; simpl; [reflexivity|]. now rewrite ascii_compare_refl. Qed.

Lemma string_compare_lt_trans (a b c : string) :
  String.compare a b = Lt -> String.compare b c = Lt -> String.compare a c = Lt.
Proof.
  revert b c. induction a as [|x a IH]; intros [|y b] [|z c]; simpl;
    try congruence.
  destruct (Ascii.compare x y) eqn:Exy; try discriminate.
  - apply Ascii.compare_eq_iff in Exy. subst y.
    destruct (Ascii.compare x z); try congruence. apply IH.
  - intros _. destruct (Ascii.compare y z) eqn:Eyz; try discriminate.
    + apply Ascii.compare_eq_iff in Eyz. subst z. now rewrite Exy.
    + intros _. unfold Ascii.compare in *.
      rewrite N.compare_lt_iff in *.
      assert (H : (N_of_ascii x < N_of_ascii z)%N) by lia.
      apply N.compare_lt_iff in H. now rewrite H.
Qed.

Lemma ltStr_compare (a b : string) : ltStr a b = true <-> String.compare a b = Lt.
Proof.
  unfold ltStr, String.ltb. destruct (String.compare a b); split; congruence.
Qed.

Lemma ltStr_irrefl (a : string) : ltStr a a = false.
Proof. unfold ltStr, String.ltb. now rewrite string_compare_refl. Qed.

Lemma ltStr_trans (a b c : string) :
  ltStr a b = true -> ltStr b c = true -> ltStr a c = true.
Proof. rewrite !ltStr_compare. apply string_compare_lt_trans. Qed.

Lemma ltStr_asym (a b : string) : ltStr a b = true -> ltStr b a = false.
Proof.
  intros H. destruct (ltStr b a) eqn:E; [|reflexivity].
  pose proof (ltStr_trans _ _ _ H E) as H'. rewrite ltStr_irrefl in H'. discriminate.
Qed.

Lemma ltStr_trichotomy (a b : string) :
  ltStr a b = false -> ltStr b a = false -> a = b.
Proof.
  unfold ltStr, String.ltb. rewrite (String.compare_antisym b a).
  destruct (String.compare a b) eqn:E; simpl; try discriminate.
  intros _ _. now apply String.compare_eq_iff.
Qed.

Lemma leStr_total (a b : string) : leStr a b = true \/ leStr b a = true.
Proof.
  unfold leStr. destruct (ltStr b a) eqn:E; [right|now left].
  now rewrite (ltStr_asym _ _ E).
Qed.

Lemma leStr_trans (a b c : string) :
  leStr a b = true -> leStr b c = true -> leStr a c = true.
Proof.
  unfold leStr. rewrite !negb_true_iff. intros Hba Hcb.
  destruct (ltStr c a) eqn:Hca; [exfalso|reflexivity].
  destruct (ltStr a b) eqn:Hab.
  - rewrite (ltStr_trans _ _ _ Hca Hab) in Hcb. discriminate.
  - assert (a = b) by now apply ltStr_trichotomy. subst. congruence.
Qed.

Lemma leStr_antisym (a b : string) :
  leStr a b = true -> leStr b a = true -> a = b.
Proof.
  unfold leStr. rewrite !negb_true_iff. intros. now apply ltStr_trichotomy.
Qed.

Lemma leStr_refl (a : string) : leStr a a = true.
Proof. unfold leStr. now rewrite ltStr_irrefl. Qed.

(** * The order on numbers *)

Module NumFacts.
Import JsNumber.


Lemma qsgn_pos (q : Q) : (0 <? qsgn q)%Z = true <-> (0 < q)%Q.
Proof.
  unfold qsgn, Qlt. simpl. rewrite Z.ltb_lt.
  destruct (Qnum q); simpl; lia.
Qed.

Lemma qsgn_pos_compat (p q : Q) : (p == q)%Q -> (0 <? qsgn p)%Z = (0 <? qsgn q)%Z.
Proof.
  intros H. apply eq_true_iff_eq. rewrite !qsgn_pos. now rewrite H.
Qed.

Lemma isPositive_sub_fin (x y : Q) :
  isPositive (sub (Fin x) (Fin y)) = negb (Qle_bool x y).
Proof.
  unfold isPositive, sub. cbn [add neg sgn].
  apply eq_true_iff_eq. rewrite qsgn_pos, negb_true_iff.
  rewrite <- not_true_iff_false, Qle_bool_iff.
  assert (E : (Qred (x + Qred (- y)) == x + - y)%Q).
  { rewrite Qred_correct. now rewrite Qred_correct. }
  rewrite E.
  split; intros H.
  - intros H'. apply (Qplus_le_l _ _ (- y)%Q) in H'.
    rewrite Qplus_opp_r in H'. apply Qle_not_lt in H'. now apply H'.
  - apply Qnot_le_lt in H. apply (Qplus_lt_l _ _ (- y)%Q) in H.
    now rewrite Qplus_opp_r in H.
Qed.

(** Away from [NaN], [a - b > 0] says [b < a]. *)
Lemma isPositive_sub (a b : number) :
  isNaN a = false -> isNaN b = false -> isPositive (sub a b) = lt b a.
Proof.
  destruct a as [x| | |], b as [y| | |]; try discriminate; intros _ _;
    try reflexivity.
  apply isPositive_sub_fin.
Qed.

Lemma leNum_total (a b : number) : leNum a b = true \/ leNum b a = true.
Proof.
  unfold leNum.
  destruct a as [x| | |], b as [y| | |]; simpl; auto.
  rewrite !negb_involutive.
  destruct (Qle_bool x y) eqn:E; [now left|right].
  apply Qle_bool_iff. apply Qlt_le_weak, Qnot_le_lt.
  rewrite <- Qle_bool_iff. congruence.
Qed.

Lemma leNum_trans (a b c : number) :
  isNaN b = false ->
  leNum a b = true -> leNum b c = true -> leNum a c = true.
Proof.
  unfold leNum.
  destruct a as [x| | |], b as [y| | |], c as [z| | |]; simpl;
    try discriminate; auto.
  rewrite !negb_involutive, !Qle_bool_iff. intros _. apply Qle_trans.
Qed.

Lemma strictEq_leNum (a b : number) :
  isNaN a = false -> isNaN b = false ->
  strictEq a b = leNum a b && leNum b a.
Proof.
  unfold leNum.
  destruct a as [x| | |], b as [y| | |]; simpl; try discriminate; auto.
  intros _ _. rewrite !negb_involutive.
  apply eq_true_iff_eq. rewrite andb_true_iff, Qeq_bool_iff, !Qle_bool_iff.
  split; [intros ->; split; apply Qle_refl|intros [? ?]; now apply Qle_antisym].
Qed.

End NumFacts.

(** * Facts about the natural sort key *)

Ltac charclass :=
  unfold isDigit, isLetter, isUpper, isLower, isWhiteSpace, between in *;
  repeat match goal with
    | H : context [(?a <=? ?b)%N] |- _ => destruct (N.leb_spec a b)
    | H : context [(?a =? ?b)%N] |- _ => destruct (N.eqb_spec a b)
    | |- context [(?a <=? ?b)%N] => destruct (N.leb_spec a b)
    | |- context [(?a =? ?b)%N] => destruct (N.eqb_spec a b)
    end;
  simpl in *; try discriminate; try reflexivity; try lia.

Lemma digit_not_space (c : ascii) : isDigit c = true -> isWhiteSpace c = false.
Proof. intros H. charclass. Qed.

Lemma digit_not_sign (c : ascii) :
  isDigit c = true -> (code c =? 45)%N = false /\ (code c =? 43)%N = false.
Proof. intros H. split; charclass. Qed.

Lemma digit_not_x (c : ascii) :
  isDigit c = true -> ((code c =? 120)%N || (code c =? 88)%N) = false.
Proof. intros H. charclass. Qed.

Lemma letter_not_digit (c : ascii) : isLetter c = true -> isDigit c = false.
Proof. intros H. charclass. Qed.

Lemma digitValue_digit (c : ascii) :
  isDigit c = true -> digitValue 10 c = Some (code c - 48)%N.
Proof.
  intros H. unfold digitValue. rewrite H.
  assert (E : (code c - 48 <? 10)%N = true) by (apply N.ltb_lt; charclass).
  now rewrite E.
Qed.

Lemma span_append (p : ascii -> bool) (a b : string) :
  allChars p a = true ->
  match b with EmptyString => True | String c _ => p c = false end ->
  span p (a ++ b) = (a, b).
Proof.
  intros Ha Hb. induction a as [|c a IH]; simpl in *.
  - destruct b as [|c b]; [reflexivity|]. simpl. now rewrite Hb.
  - apply andb_true_iff in Ha. destruct Ha as [Hc Ha].
    now rewrite Hc, (IH Ha).
Qed.

Lemma span_spec (p : ascii -> bool) (s a b : string) :
  span p s = (a, b) -> s = (a ++ b)%string /\ allChars p a = true.
Proof.
  revert a b. induction s as [|c s IH]; simpl; intros a b H.
  - inversion H; subst. now split.
  - destruct (p c) eqn:Hc.
    + destruct (span p s) as [a' b'] eqn:E. inversion H; subst.
      destruct (IH _ _ eq_refl) as [-> Ha]. simpl. now rewrite Hc, Ha.
    + inversion H; subst. now split.
Qed.

Lemma parseDigits_some (a : N) (ds : string) :
  allChars isDigit ds = true -> parseDigits 10 (Some a) ds = Some (decimalOf a ds).
Proof.
  revert a. induction ds as [|c r IH]; intros a H; simpl in *; [reflexivity|].
  apply andb_true_iff in H. destruct H as [Hc Hr].
  rewrite (digitValue_digit _ Hc). now apply IH.
Qed.

Lemma parseDigits_digits (ds : string) :
  ds <> "" -> allChars isDigit ds = true ->
  parseDigits 10 None ds = Some (integerValue ds).
Proof.
  destruct ds as [|c r]; [congruence|]. intros _ H. simpl in *.
  apply andb_true_iff in H. destruct H as [Hc Hr].
  rewrite (digitValue_digit _ Hc). unfold integerValue. simpl.
  now apply parseDigits_some.
Qed.

(** ** The double of an integer *)

Lemma toDouble_exact (n : N) : (n <= 2 ^ 53)%N -> toDouble n = JsNumber.ofN n.
Proof.
  intros H. unfold toDouble. destruct (N.ltb_spec n (2 ^ 53)) as [L|L]; [reflexivity|].
  assert (E : n = (2 ^ 53)%N) by lia. subst n. reflexivity.
Qed.

(** The leading bits kept above [2^53]: a significand of 53 bits. *)
Lemma significand_bounds (n : N) :
  (2 ^ 53 <= n)%N ->
  let e := (N.log2 n - 52)%N in
  (2 ^ 52 <= N.shiftr n e < 2 ^ 53)%N /\ (52 + e = N.log2 n)%N.
Proof.
  intros H e.
  assert (P : (0 < n)%N) by (assert (0 < 2 ^ 53)%N by reflexivity; lia).
  destruct (N.log2_spec n P) as [L1 L2].
  assert (L : (53 <= N.log2 n)%N).
  { apply N.log2_le_pow2; [exact P|exact H]. }
  assert (E : (52 + e = N.log2 n)%N) by (unfold e; lia).
  split; [|exact E].
  rewrite N.shiftr_div_pow2.
  assert (Z : (2 ^ e <> 0)%N) by (apply N.pow_nonzero; discriminate).
  rewrite <- E, N.pow_add_r in L1.
  replace (N.succ (N.log2 n)) with (53 + e)%N in L2 by lia.
  rewrite N.pow_add_r in L2.
  split.
  - apply N.div_le_lower_bound; [exact Z|]. lia.
  - apply N.Div0.div_lt_upper_bound. lia.
Qed.

(** The double of an integer is an integer or [Infinity], and is zero for
    zero only. *)
Lemma toDouble_value (n : N) :
  toDouble n = PosInf
  \/ exists m, toDouble n = JsNumber.ofN m /\ (m = 0%N <-> n = 0%N).
Proof.
  unfold toDouble. destruct (N.ltb_spec n (2 ^ 53)) as [L|L].
  - right. exists n. split; [reflexivity|tauto].
  - destruct (significand_bounds L) as [[Q1 Q2] E]. cbv zeta.
    set (e := (N.log2 n - 52)%N) in *.
    match goal with |- context [N.shiftl ?x e] => set (q' := x) end.
    destruct (1024 <=? N.log2 (N.shiftl q' e))%N; [now left|].
    right. exists (N.shiftl q' e). split; [reflexivity|].
    assert (P : (0 < 2 ^ 52)%N) by reflexivity.
    assert (Q' : (0 < q')%N) by (unfold q'; destruct (_ || _); lia).
    assert (Z : (2 ^ e <> 0)%N) by (apply N.pow_nonzero; discriminate).
    rewrite N.shiftl_mul_pow2.
    assert (P53 : (0 < 2 ^ 53)%N) by reflexivity.
    split; [intros H; apply N.eq_mul_0 in H; lia|intros H; lia].
Qed.

Lemma toDouble_notNaN (n : N) : JsNumber.isNaN (toDouble n) = false.
Proof. destruct (toDouble_value n) as [->|(m & -> & _)]; reflexivity. Qed.

(** Below [2^1023] the double is finite. *)
Lemma toDouble_finite (n : N) : (n < 2 ^ 1023)%N -> toDouble n <> PosInf.
Proof.
  intros H. unfold toDouble. destruct (N.ltb_spec n (2 ^ 53)) as [L|L]; [discriminate|].
  destruct (significand_bounds L) as [[Q1 Q2] E]. cbv zeta.
  set (e := (N.log2 n - 52)%N) in *.
  match goal with |- context [N.shiftl ?x e] => set (q' := x) end.
  assert (Q' : (0 < q' <= 2 ^ 53)%N).
  { assert (P : (0 < 2 ^ 52)%N) by reflexivity.
    unfold q'; destruct (_ || _); lia. }
  assert (P : (0 < n)%N) by (assert (0 < 2 ^ 53)%N by reflexivity; lia).
  assert (Ln : (N.log2 n < 1023)%N) by (apply N.log2_lt_pow2; [exact P|exact H]).
  assert (V : (N.log2 (N.shiftl q' e) < 1024)%N).
  { rewrite N.shiftl_mul_pow2.
    assert (Z : (0 < 2 ^ e)%N).
    { apply N.neq_0_lt_0, N.pow_nonzero. discriminate. }
    assert (B : (q' * 2 ^ e <= 2 ^ (53 + e))%N).
    { rewrite N.pow_add_r. apply N.mul_le_mono_r. lia. }
    assert (Pv : (0 < q' * 2 ^ e)%N) by (apply N.mul_pos_pos; lia).
    eapply N.le_lt_trans; [apply N.log2_le_mono, B|].
    rewrite N.log2_pow2 by lia. lia. }
  destruct (N.leb_spec 1024 (N.log2 (N.shiftl q' e))); [lia|discriminate].
Qed.

(** On a run of digits [parseInt] reads the whole run, in base ten. *)
Lemma parseInt_digits (ds : string) :
  ds <> "" -> allChars isDigit ds = true ->
  parseInt ds = toDouble (integerValue ds).
Proof.
  intros Hne Hd. unfold parseInt.
  assert (Ht : trimStart ds = ds).
  { destruct ds as [|c r]; [reflexivity|]. simpl in *.
    apply andb_true_iff in Hd. now rewrite (digit_not_space _ (proj1 Hd)). }
  rewrite Ht.
  assert (Hs : readSign ds = (false, ds)).
  { destruct ds as [|c r]; [reflexivity|]. simpl in *.
    apply andb_true_iff in Hd.
    destruct (digit_not_sign _ (proj1 Hd)) as [-> ->]. reflexivity. }
  rewrite Hs.
  assert (Hr : readRadix ds = (10%N, ds)).
  { destruct ds as [|c [|x r]]; try reflexivity. simpl in *.
    apply andb_true_iff in Hd. destruct Hd as [_ Hd].
    apply andb_true_iff in Hd. rewrite (digit_not_x _ (proj1 Hd)).
    now rewrite andb_false_r. }
  rewrite Hr, (parseDigits_digits Hne Hd). reflexivity.
Qed.

Lemma naturalSortKey_matching (s ds ls : string) :
  matchesLabel s ds ls ->
  naturalSortKey s = (toDouble (integerValue ds), toLowerCase ls).
Proof.
  intros (Ht & Hne & Hd & Hl). unfold naturalSortKey. rewrite Ht.
  rewrite span_append; auto.
  - rewrite Hl. destruct ds; [congruence|]. simpl.
    now rewrite <- parseInt_digits.
  - destruct ls as [|c ls]; [exact I|]. simpl in Hl.
    apply andb_true_iff in Hl. now apply letter_not_digit.
Qed.

Lemma naturalSortKey_cases (s : string) :
  (exists ds ls, matchesLabel s ds ls /\
                 naturalSortKey s = (toDouble (integerValue ds), toLowerCase ls))
  \/ (~ matching s /\ naturalSortKey s = (PosInf, trim s)).
Proof.
  destruct (span isDigit (trim s)) as [ds ls] eqn:E.
  destruct (span_spec _ _ E) as [Ht Hd].
  destruct (negb (isEmpty ds) && allChars isLetter ls) eqn:C.
  - left. exists ds, ls. apply andb_true_iff in C. destruct C as [C1 C2].
    assert (M : matchesLabel s ds ls).
    { repeat split; auto. intros ->. discriminate. }
    split; [exact M|now apply naturalSortKey_matching].
  - right. split.
    + intros (ds' & ls' & Ht' & Hne & Hd' & Hl').
      rewrite Ht' in E. rewrite span_append in E; auto.
      * inversion E; subst. rewrite Hl' in C. destruct ds; [congruence|discriminate].
      * destruct ls' as [|c r]; [exact I|]. simpl in Hl'.
        apply andb_true_iff in Hl'. now apply letter_not_digit.
    + unfold naturalSortKey. now rewrite E, C.
Qed.

Lemma naturalSortKey_nonmatching (s : string) :
  ~ matching s -> naturalSortKey s = (PosInf, trim s).
Proof.
  intros H. destruct (naturalSortKey_cases s) as [(ds & ls & M & _)|[_ E]]; [|exact E].
  exfalso. apply H. now exists ds, ls.
Qed.

Lemma naturalSortKey_notNaN (s : string) :
  JsNumber.isNaN (fst (naturalSortKey s)) = false.
Proof.
  destruct (naturalSortKey_cases s) as [(ds & ls & _ & ->)|[_ ->]];
    [apply toDouble_notNaN|reflexivity].
Qed.

(** A finite numeric part is found on labels inside the pattern only. *)
Lemma finite_matching (s : string) :
  fst (naturalSortKey s) <> PosInf -> matching s.
Proof.
  destruct (naturalSortKey_cases s) as [(ds & ls & M & E)|[N E]]; rewrite E; simpl.
  - intros _. now exists ds, ls.
  - congruence.
Qed.

Lemma nonmatching_infinite (s : string) :
  ~ matching s -> fst (naturalSortKey s) = PosInf.
Proof.
  intros N. destruct (naturalSortKey_cases s) as [(ds & ls & M & E)|[_ E]].
  - exfalso. apply N. now exists ds, ls.
  - now rewrite E.
Qed.

Module NumOrder.
Import JsNumber.

Ltac qbool :=
  repeat match goal with
    | H : context [Qle_bool ?x ?y] |- _ =>
        let E := fresh "E" in
        destruct (Qle_bool x y) eqn:E;
        [apply Qle_bool_iff in E
        |apply not_true_iff_false in E; rewrite Qle_bool_iff in E]
    | |- context [Qle_bool ?x ?y] =>
        let E := fresh "E" in
        destruct (Qle_bool x y) eqn:E;
        [apply Qle_bool_iff in E
        |apply not_true_iff_false in E; rewrite Qle_bool_iff in E]
    | H : context [Qeq_bool ?x ?y] |- _ =>
        let E := fresh "E" in
        destruct (Qeq_bool x y) eqn:E;
        [apply Qeq_bool_iff in E
        |apply not_true_iff_false in E; rewrite Qeq_bool_iff in E]
    | |- context [Qeq_bool ?x ?y] =>
        let E := fresh "E" in
        destruct (Qeq_bool x y) eqn:E;
        [apply Qeq_bool_iff in E
        |apply not_true_iff_false in E; rewrite Qeq_bool_iff in E]
    end;
  simpl in *; try discriminate; try reflexivity; try tauto; try (exfalso; lra).

Ltac numcases :=
  repeat match goal with
    | a : number |- _ => destruct a
    end;
  simpl in *; try discriminate; try reflexivity; try tauto; qbool.

Lemma lt_trans (a b c : number) :
  lt a b = true -> lt b c = true -> lt a c = true.
Proof. intros H1 H2. numcases. Qed.

Lemma lt_strictEq_trans (a b c : number) :
  lt a b = true -> strictEq b c = true -> lt a c = true.
Proof. intros H1 H2. numcases. Qed.

Lemma strictEq_lt_trans (a b c : number) :
  strictEq a b = true -> lt b c = true -> lt a c = true.
Proof. intros H1 H2. numcases. Qed.

Lemma strictEq_trans (a b c : number) :
  strictEq a b = true -> strictEq b c = true -> strictEq a c = true.
Proof. intros H1 H2. numcases. Qed.

Lemma strictEq_sym (a b : number) : strictEq a b = strictEq b a.
Proof. numcases. Qed.

Lemma strictEq_refl (a : number) : isNaN a = false -> strictEq a a = true.
Proof. intros H. numcases. Qed.

Lemma trichotomy (a b : number) :
  isNaN a = false -> isNaN b = false ->
  lt a b = true \/ strictEq a b = true \/ lt b a = true.
Proof.
  intros Ha Hb. destruct a as [x| | |], b as [y| | |]; simpl in *;
    try discriminate; auto.
  destruct (Qlt_le_dec x y) as [H|H].
  - left. qbool.
  - destruct (Qlt_le_dec y x) as [H'|H'].
    + right; right. qbool.
    + right; left. qbool.
Qed.

Lemma lt_excl (a b : number) :
  lt a b = true -> strictEq a b = false /\ lt b a = false.
Proof. intros H. split; numcases. Qed.

Lemma strictEq_excl (a b : number) : strictEq a b = true -> lt a b = false.
Proof. intros H. numcases. Qed.

End NumOrder.

(** * The order on sort keys *)

Lemma keyLe_cases (k1 k2 : number * string) :
  keyLe k1 k2 = true <->
  JsNumber.lt (fst k1) (fst k2) = true
  \/ (JsNumber.strictEq (fst k1) (fst k2) = true /\ leStr (snd k1) (snd k2) = true).
Proof. unfold keyLe. now rewrite orb_true_iff, andb_true_iff. Qed.

Lemma keyLe_total (k1 k2 : number * string) :
  goodKey k1 -> goodKey k2 -> keyLe k1 k2 = true \/ keyLe k2 k1 = true.
Proof.
  intros G1 G2. rewrite !keyLe_cases.
  destruct (NumOrder.trichotomy _ _ G1 G2) as [H|[H|H]]; auto.
  destruct (leStr_total (snd k1) (snd k2)); [left|right]; right; split; auto.
  now rewrite NumOrder.strictEq_sym.
Qed.

Lemma keyLe_trans (k1 k2 k3 : number * string) :
  keyLe k1 k2 = true -> keyLe k2 k3 = true -> keyLe k1 k3 = true.
Proof.
  rewrite !keyLe_cases. intros [H1|[H1 S1]] [H2|[H2 S2]].
  - left. eapply NumOrder.lt_trans; eauto.
  - left. eapply NumOrder.lt_strictEq_trans; eauto.
  - left. eapply NumOrder.strictEq_lt_trans; eauto.
  - right. split; [eapply NumOrder.strictEq_trans|eapply leStr_trans]; eauto.
Qed.

Lemma leStr_both (a b : string) : leStr a b && leStr b a = String.eqb a b.
Proof.
  destruct (String.eqb_spec a b) as [->|N].
  - now rewrite leStr_refl.
  - destruct (leStr a b) eqn:E1, (leStr b a) eqn:E2; try reflexivity.
    exfalso. apply N. now apply leStr_antisym.
Qed.

Lemma keyLe_both (k1 k2 : number * string) :
  keyLe k1 k2 && keyLe k2 k1 = sameKey k1 k2.
Proof.
  unfold keyLe, sameKey. rewrite <- leStr_both.
  rewrite (NumOrder.strictEq_sym (fst k2) (fst k1)).
  destruct (JsNumber.strictEq (fst k1) (fst k2)) eqn:E.
  - rewrite (NumOrder.strictEq_excl _ _ E).
    rewrite NumOrder.strictEq_sym in E. rewrite (NumOrder.strictEq_excl _ _ E). reflexivity.
  - simpl. rewrite !orb_false_r.
    destruct (JsNumber.lt (fst k1) (fst k2)) eqn:L; [|reflexivity].
    now rewrite (proj2 (NumOrder.lt_excl _ _ L)).
Qed.

Section NaturalSortFacts.
Context {A : Type}.
Variable label : A -> string.

Lemma naturalCompare_keyLe (a b : A) :
  sortsAfter (naturalCompare label) a b = negb (keyLe (keyOf label a) (keyOf label b)).
Proof.
  unfold sortsAfter, naturalCompare, keyLe, keyOf.
  pose proof (naturalSortKey_notNaN (label a)) as Na.
  pose proof (naturalSortKey_notNaN (label b)) as Nb.
  destruct (naturalSortKey (label a)) as [n1 s1], (naturalSortKey (label b)) as [n2 s2].
  simpl in *.
  destruct (JsNumber.strictEq n1 n2) eqn:E; simpl.
  - rewrite (NumOrder.strictEq_excl _ _ E). simpl. unfold leStr.
    destruct (ltStr s1 s2) eqn:L1.
    + now rewrite (ltStr_asym _ _ L1).
    + destruct (ltStr s2 s1); reflexivity.
  - rewrite orb_false_r, NumFacts.isPositive_sub by assumption.
    destruct (NumOrder.trichotomy _ _ Na Nb) as [H|[H|H]].
    + rewrite H. now rewrite (proj2 (NumOrder.lt_excl _ _ H)).
    + congruence.
    + rewrite H. now rewrite (proj2 (NumOrder.lt_excl _ _ H)).
Qed.

Lemma sortQuestionsNaturally_perm (data : list A) :
  Permutation data (sortQuestionsNaturally label data).
Proof. apply arraySort_perm. Qed.

Lemma sortQuestionsNaturally_sorted (data : list A) :
  StronglySorted (fun a b => keyLe (keyOf label a) (keyOf label b) = true)
                 (sortQuestionsNaturally label data).
Proof.
  apply (@arraySort_sorted A (naturalCompare label) (fun _ => True)
         (fun a b => keyLe (keyOf label a) (keyOf label b))).
  - intros a b _ _. apply naturalCompare_keyLe.
  - intros a b _ _. apply keyLe_total; apply naturalSortKey_notNaN.
  - intros a b c _ _ _. apply keyLe_trans.
  - apply Forall_forall. auto.
Qed.

Lemma sortQuestionsNaturally_stable (a : A) (data : list A) :
  filter (fun b => sameKey (keyOf label a) (keyOf label b)) (sortQuestionsNaturally label data)
  = filter (fun b => sameKey (keyOf label a) (keyOf label b)) data.
Proof.
  pose proof (@arraySort_stable A (naturalCompare label) (fun _ => True)
                (fun a b => keyLe (keyOf label a) (keyOf label b))) as H.
  specialize (H (fun a b _ _ => naturalCompare_keyLe a b)).
  specialize (H (fun a b c _ _ _ => @keyLe_trans _ _ _)).
  specialize (H a data I (proj2 (Forall_forall _ _) (fun _ _ => I))).
  unfold equivb in H.
  rewrite (filter_ext _ (fun b => keyLe (keyOf label a) (keyOf label b) && keyLe (keyOf label b) (keyOf label a)))
    by (intros; symmetry; apply keyLe_both).
  rewrite (filter_ext (fun b => sameKey (keyOf label a) (keyOf label b))
             (fun b => keyLe (keyOf label a) (keyOf label b) && keyLe (keyOf label b) (keyOf label a)))
    by (intros; symmetry; apply keyLe_both).
  exact H.
Qed.
End NaturalSortFacts.

Lemma keyLe_integers (n1 n2 : N) (s1 s2 : string) :
  keyLe (JsNumber.ofN n1, s1) (JsNumber.ofN n2, s2)
  = ((n1 <? n2)%N || ((n1 =? n2)%N && leStr s1 s2)).
Proof.
  unfold keyLe, JsNumber.ofN, JsNumber.ofZ. simpl.
  assert (H1 : negb (Qle_bool (inject_Z (Z.of_N n2)) (inject_Z (Z.of_N n1)))
               = (n1 <? n2)%N).
  { apply eq_true_iff_eq.
    rewrite negb_true_iff, <- not_true_iff_false, Qle_bool_iff, <- Zle_Qle, N.ltb_lt.
    lia. }
  assert (H2 : Qeq_bool (inject_Z (Z.of_N n1)) (inject_Z (Z.of_N n2)) = (n1 =? n2)%N).
  { apply eq_true_iff_eq. rewrite Qeq_bool_iff, inject_Z_injective, N.eqb_eq. lia. }
  now rewrite H1, H2.
Qed.

(** A key with [Infinity] is not before a key with a finite numeric part. *)
Lemma keyLe_infinite_finite (k1 k2 : number * string) :
  fst k1 = PosInf -> fst k2 <> PosInf -> JsNumber.isNaN (fst k2) = false ->
  keyLe k1 k2 = false.
Proof.
  destruct k1 as [n1 s1], k2 as [n2 s2]. simpl. intros -> F N.
  unfold keyLe. simpl. destruct n2; try reflexivity; congruence.
Qed.

Lemma keyLe_finite_nonmatching (x y : string) :
  fst (naturalSortKey x) <> PosInf -> ~ matching y ->
  keyLe (naturalSortKey y) (naturalSortKey x) = false.
Proof.
  intros F N. apply keyLe_infinite_finite;
    [now apply nonmatching_infinite|exact F|apply naturalSortKey_notNaN].
Qed.

Lemma keyLe_nonmatching (x y : string) :
  ~ matching x -> ~ matching y ->
  keyLe (naturalSortKey x) (naturalSortKey y) = leStr (trim x) (trim y).
Proof.
  intros Nx Ny.
  rewrite (naturalSortKey_nonmatching Nx), (naturalSortKey_nonmatching Ny). reflexivity.
Qed.

Lemma StronglySorted_app_inv {A} (R : A -> A -> Prop) (l1 l2 : list A) :
  StronglySorted R (l1 ++ l2) -> StronglySorted R l2.
Proof.
  induction l1 as [|x l1 IH]; simpl; [auto|].
  intros H. inversion H; auto.
Qed.

Lemma nonmatching_last {A} (label : A -> string) (data pre post : list A) (a : A) :
  sortQuestionsNaturally label data = pre ++ a :: post ->
  ~ matching (label a) ->
  Forall (fun b => fst (naturalSortKey (label b)) = PosInf) post.
Proof.
  intros E Na. pose proof (sortQuestionsNaturally_sorted label data) as S.
  rewrite E in S. apply StronglySorted_app_inv in S.
  inversion S as [|? ? _ F]; subst.
  rewrite Forall_forall in *. intros b Hb.
  specialize (F b Hb). unfold keyOf in F.
  destruct (fst (naturalSortKey (label b))) eqn:Eb; try reflexivity;
    rewrite keyLe_infinite_finite in F;
    try discriminate; try (now apply nonmatching_infinite);
    rewrite Eb; try discriminate; try reflexivity.
  pose proof (naturalSortKey_notNaN (label b)) as Nb. rewrite Eb in Nb. discriminate.
Qed.

(** * Facts about the store *)

Section StoreFacts.
Context {A : Type}.

Lemma update_last (h : Store.heap (A := A)) (a b : list A) :
  Store.update (List.length h) b (h ++ [a]) = h ++ [b].
Proof. induction h as [|x h IH]; simpl; [reflexivity|]. now rewrite IH. Qed.

Lemma nth_error_last (h : Store.heap (A := A)) (a : list A) :
  nth_error (h ++ [a]) (List.length h) = Some a.
Proof. rewrite nth_error_app2, Nat.sub_diag by lia. reflexivity. Qed.

Lemma nth_error_old (h : Store.heap (A := A)) (a b : list A) (l : Store.loc) :
  nth_error h l = Some a -> nth_error (h ++ [b]) l = Some a.
Proof.
  intros H. rewrite nth_error_app1; [exact H|].
  apply nth_error_Some. congruence.
Qed.
End StoreFacts.

(** * Natural sort: the order of the result, and the input left alone *)

(** C1.  [sortQuestionsNaturally] returns a permutation of its input that is
    sorted by the key of each label, numeric part first and suffix second,
    and that keeps the input order of the elements with equal keys.  A label
    whose trimmed string is digits followed by letters has the double of
    the integer value of the digits and the lowercased letters as its key:
    the integer value itself up to [2^53], a finite number below [2^1023],
    an integer or [Infinity] in any case.  Any other label has [Infinity] and
    its string, trimmed like the others but with its case kept.  The labels
    outside the pattern come after every label with a finite numeric part,
    ordered among themselves by plain comparison of these strings, and only
    labels with [Infinity] follow them. *)
Theorem sortQuestionsNaturally_orders_by_key :
  forall (A : Type) (label : A -> string) (data : list A),
    let key := fun a => naturalSortKey (label a) in
    let out := sortQuestionsNaturally label data in
    Permutation data out
    /\ StronglySorted (fun a b => keyLe (key a) (key b) = true) out
    /\ (forall a, filter (fun b => sameKey (key a) (key b)) out
                  = filter (fun b => sameKey (key a) (key b)) data)
    /\ (forall s ds ls, matchesLabel s ds ls ->
          naturalSortKey s = (toDouble (integerValue ds), toLowerCase ls))
    /\ (forall n, (n <= 2 ^ 53)%N -> toDouble n = JsNumber.ofN n)
    /\ (forall n, (n < 2 ^ 1023)%N -> toDouble n <> PosInf)
    /\ (forall n, toDouble n = PosInf
                  \/ exists m, toDouble n = JsNumber.ofN m /\ (m = 0%N <-> n = 0%N))
    /\ (forall s, ~ matching s -> naturalSortKey s = (PosInf, trim s))
    /\ (forall n1 n2 s1 s2,
          keyLe (JsNumber.ofN n1, s1) (JsNumber.ofN n2, s2)
          = ((n1 <? n2)%N || ((n1 =? n2)%N && leStr s1 s2)))
    /\ (forall n s1 s2,
          keyLe (JsNumber.ofN n, s1) (PosInf, s2) = true
          /\ keyLe (PosInf, s1) (JsNumber.ofN n, s2) = false
          /\ keyLe (PosInf, s1) (PosInf, s2) = leStr s1 s2)
    /\ (forall x y, fst (naturalSortKey x) <> PosInf -> ~ matching y ->
          keyLe (naturalSortKey y) (naturalSortKey x) = false)
    /\ (forall x y, ~ matching x -> ~ matching y ->
          keyLe (naturalSortKey x) (naturalSortKey y) = leStr (trim x) (trim y))
    /\ (forall pre a post, out = pre ++ a :: post -> ~ matching (label a) ->
          Forall (fun b => fst (key b) = PosInf) post).
Proof.
  intros A label data key out. repeat split.
  - apply sortQuestionsNaturally_perm.
  - apply sortQuestionsNaturally_sorted.
  - intros a. apply (sortQuestionsNaturally_stable label a data).
  - intros s ds ls. apply naturalSortKey_matching.
  - apply toDouble_exact.
  - apply toDouble_finite.
  - apply toDouble_value.
  - apply naturalSortKey_nonmatching.
  - apply keyLe_integers.
  - apply keyLe_finite_nonmatching.
  - apply keyLe_nonmatching.
  - intros pre a post. apply nonmatching_last.
Qed.

Lemma sortQuestionsNaturally_orders_by_key_witness :
  naturalSortKey " 12B " = (JsNumber.ofN 12, "b")
  /\ naturalSortKey " x-1 " = (PosInf, "x-1")
  /\ Forall (fun b => fst (naturalSortKey b) = PosInf) ["zz"].
Proof.
  pose proof (@sortQuestionsNaturally_orders_by_key string (fun s => s)
                ["zz"; " x-1 "; " 12B "]) as H.
  cbv zeta in H.
  destruct H as (_ & _ & _ & Hm & _ & _ & _ & Hn & _ & _ & _ & _ & Hlast).
  assert (N1 : ~ matching " x-1 ").
  { intros (ds & ls & Ht & Hne & Hd & _).
    destruct ds as [|c r]; [congruence|].
    change (trim " x-1 ") with "x-1" in Ht. injection Ht as <- _.
    discriminate Hd. }
  split; [|split].
  - apply (Hm " 12B " "12" "B"). unfold matchesLabel.
    split; [reflexivity|]. split; [discriminate|]. split; reflexivity.
  - apply (Hn " x-1 " N1).
  - apply (Hlast [" 12B "] " x-1 " ["zz"]); [reflexivity|exact N1].
Defined.

(** The claim takes the integer value of the digits for the numeric part.
    Above [2^53] the code has its double: the labels 9007199254740993 and
    9007199254740992 both get 9007199254740992, so they are a tie and stay
    in input order, the greater integer first.  A run of 309 nines reads as
    [Infinity]: followed by a letter it matches the pattern and yet comes
    after the label abc, which does not.  And the labels outside the pattern
    are compared after trimming: [" b"] comes after ["a"], which it precedes
    as a string. *)
Lemma sortQuestionsNaturally_rounds_counterexample :
  matchesLabel "9007199254740993" "9007199254740993" ""
  /\ matchesLabel "9007199254740992" "9007199254740992" ""
  /\ (integerValue "9007199254740992" < integerValue "9007199254740993")%N
  /\ naturalSortKey "9007199254740993"
     <> (JsNumber.ofN (integerValue "9007199254740993"), "")
  /\ sortQuestionsNaturally (fun s : string => s)
       ["9007199254740993"; "9007199254740992"]
     = ["9007199254740993"; "9007199254740992"]
  /\ matchesLabel (nines 309 ++ "z")%string (nines 309) "z"
  /\ ~ matching "abc"
  /\ naturalSortKey (nines 309 ++ "z")%string = (PosInf, "z")
  /\ sortQuestionsNaturally (fun s : string => s) [(nines 309 ++ "z")%string; "abc"]
     = ["abc"; (nines 309 ++ "z")%string]
  /\ ltStr " b" "a" = true
  /\ sortQuestionsNaturally (fun s : string => s) [" b"; "a"] = ["a"; " b"].
Proof.
  split; [|split; [|split; [|split; [|split; [|split; [|split; [|split; [|split;
    [|split]]]]]]]]].
  - unfold matchesLabel. split; [reflexivity|]. split; [discriminate|].
    split; reflexivity.
  - unfold matchesLabel. split; [reflexivity|]. split; [discriminate|].
    split; reflexivity.
  - reflexivity.
  - intros H. vm_compute in H. discriminate H.
  - vm_compute. reflexivity.
  - unfold matchesLabel. split; [vm_compute; reflexivity|].
    split; [discriminate|]. split; vm_compute; reflexivity.
  - intros (ds & ls & Ht & Hne & Hd & _).
    destruct ds as [|c r]; [congruence|].
    change (trim "abc") with "abc" in Ht. injection Ht as <- _.
    discriminate Hd.
  - vm_compute. reflexivity.
  - vm_compute. reflexivity.
  - reflexivity.
  - vm_compute. reflexivity.
Qed.

(** C10.  Run on a store in which [data] holds the array [l],
    [sortQuestionsNaturally] returns a location that was not allocated
    before, holding the sorted elements; [data] still holds [l], and so does
    every array that existed before the call. *)
Theorem sortQuestionsNaturally_leaves_input :
  forall (A : Type) (label : A -> string) (h : Store.heap (A := A))
         (data : Store.loc) (l : list A),
    nth_error h data = Some l ->
    exists (result : Store.loc) (h' : Store.heap (A := A)),
      sortQuestionsNaturally_store label data h = Some (result, h')
      /\ nth_error h' data = Some l
      /\ nth_error h result = None
      /\ nth_error h' result = Some (sortQuestionsNaturally label l)
      /\ (forall loc a, nth_error h loc = Some a -> nth_error h' loc = Some a).
Proof.
  intros A label h data l H.
  exists (List.length h), (h ++ [sortQuestionsNaturally label l]).
  split; [|repeat split].
  - unfold sortQuestionsNaturally_store, spread, sortInPlace, Store.bind,
      Store.read, Store.write, Store.alloc, Store.ret.
    rewrite H. simpl. rewrite nth_error_last. simpl. rewrite nth_error_last.
    now rewrite update_last.
  - now apply nth_error_old.
  - apply nth_error_None. lia.
  - apply nth_error_last.
  - intros loc a Ha. now apply nth_error_old.
Qed.

Lemma sortQuestionsNaturally_leaves_input_witness :
  exists result h',
    sortQuestionsNaturally_store (fun s => s) 1 [["x"]; ["10"; "9b"; "9a"]]
    = Some (result, h')
    /\ nth_error h' 1 = Some ["10"; "9b"; "9a"]
    /\ nth_error h' result = Some ["9a"; "9b"; "10"].
Proof.
  destruct (@sortQuestionsNaturally_leaves_input string (fun s => s)
              [["x"]; ["10"; "9b"; "9a"]] 1 ["10"; "9b"; "9a"] eq_refl)
    as (result & h' & E & Hd & _ & Hr & _).
  exists result, h'. split; [exact E|]. split; [exact Hd|exact Hr].
Defined.

(** * Outlier selection *)


Lemma bySchoolMeanDesc_le (a b : rated) :
  hasSchoolMean a -> hasSchoolMean b ->
  sortsAfter bySchoolMeanDesc a b = negb (leNum (schoolMeanOf b) (schoolMeanOf a)).
Proof.
  intros Ha Hb. unfold sortsAfter, bySchoolMeanDesc, leNum.
  rewrite NumFacts.isPositive_sub by assumption. now rewrite negb_involutive.
Qed.

Lemma withRate_perm (rows : list record) :
  Permutation (map addRate rows) (withRate rows).
Proof. apply arraySort_perm. Qed.

Lemma withRate_length (rows : list record) :
  List.length (withRate rows) = List.length rows.
Proof. unfold withRate. now rewrite arraySort_length, length_map. Qed.

Lemma Forall_addRate (rows : list record) :
  Forall (fun r => JsNumber.isNaN (School_Mean r) = false) rows ->
  Forall hasSchoolMean (map addRate rows).
Proof.
  intros H. apply Forall_map. revert H. apply Forall_impl. auto.
Qed.

Lemma withRate_sorted (rows : list record) :
  Forall (fun r => JsNumber.isNaN (School_Mean r) = false) rows ->
  StronglySorted (fun a b => leNum (schoolMeanOf b) (schoolMeanOf a) = true)
                 (withRate rows).
Proof.
  intros H.
  apply (@arraySort_sorted rated bySchoolMeanDesc hasSchoolMean
           (fun a b => leNum (schoolMeanOf b) (schoolMeanOf a))).
  - apply bySchoolMeanDesc_le.
  - intros a b _ _. apply NumFacts.leNum_total.
  - intros a b c _ Hb _ H1 H2. eapply NumFacts.leNum_trans; eauto.
  - now apply Forall_addRate.
Qed.

Lemma withRate_stable (a : rated) (rows : list record) :
  hasSchoolMean a ->
  Forall (fun r => JsNumber.isNaN (School_Mean r) = false) rows ->
  filter (fun b => JsNumber.strictEq (schoolMeanOf a) (schoolMeanOf b)) (withRate rows)
  = filter (fun b => JsNumber.strictEq (schoolMeanOf a) (schoolMeanOf b))
           (map addRate rows).
Proof.
  intros Ha H.
  pose proof (@arraySort_stable rated bySchoolMeanDesc hasSchoolMean
                (fun a b => leNum (schoolMeanOf b) (schoolMeanOf a))
                bySchoolMeanDesc_le) as S.
  assert (T : forall a b c : rated,
             hasSchoolMean a -> hasSchoolMean b -> hasSchoolMean c ->
             leNum (schoolMeanOf b) (schoolMeanOf a) = true ->
             leNum (schoolMeanOf c) (schoolMeanOf b) = true ->
             leNum (schoolMeanOf c) (schoolMeanOf a) = true).
  { intros x y z _ Hy _ H1 H2. eapply NumFacts.leNum_trans; eauto. }
  specialize (S T a (map addRate rows) Ha (Forall_addRate H)).
  assert (E : forall l, Forall hasSchoolMean l ->
                filter (fun b => JsNumber.strictEq (schoolMeanOf a) (schoolMeanOf b)) l
                = filter (equivb (fun a b => leNum (schoolMeanOf b) (schoolMeanOf a)) a) l).
  { induction 1 as [|b l Hb Hl IH]; [reflexivity|]. simpl. rewrite IH.
    unfold equivb at 1. rewrite (NumFacts.strictEq_leNum _ _ Ha Hb).
    now rewrite andb_comm. }
  rewrite !E; auto using Forall_addRate.
  apply Forall_arraySort. now apply Forall_addRate.
Qed.

Lemma top5_length (rows : list record) :
  List.length (top5 rows) = Nat.min 5 (List.length rows).
Proof. unfold top5, sliceFirst. now rewrite length_firstn, withRate_length. Qed.

Lemma bottom5_length (rows : list record) :
  List.length (bottom5 rows) = Nat.min 5 (List.length rows).
Proof.
  unfold bottom5, sliceLast. rewrite length_rev, length_skipn, withRate_length. lia.
Qed.

Lemma small_group (rows : list record) :
  List.length rows <= 5 ->
  top5 rows = withRate rows /\ bottom5 rows = rev (top5 rows).
Proof.
  intros H. unfold bottom5, top5, sliceFirst, sliceLast.
  rewrite firstn_all2 by (rewrite withRate_length; lia).
  replace (List.length (withRate rows) - 5) with 0 by (rewrite withRate_length; lia).
  now split.
Qed.

Lemma In_top5 (rows : list record) (i : nat) (x : rated) :
  nth_error (withRate rows) i = Some x -> i < 5 -> In x (top5 rows).
Proof.
  intros H Hi. unfold top5, sliceFirst.
  apply nth_error_In with (n := i). now rewrite nth_error_firstn, (proj2 (Nat.ltb_lt _ _) Hi).
Qed.

Lemma In_bottom5 (rows : list record) (i : nat) (x : rated) :
  nth_error (withRate rows) i = Some x -> List.length rows - 5 <= i ->
  In x (bottom5 rows).
Proof.
  intros H Hi. unfold bottom5, sliceLast. apply -> in_rev.
  rewrite withRate_length.
  apply nth_error_In with (n := i - (List.length rows - 5)).
  rewrite nth_error_skipn. now replace (List.length rows - 5 + (i - (List.length rows - 5))) with i by lia.
Qed.

Lemma topBottomPages_length (subject year : string) (rows : list record) :
  List.length (topBottomPages subject year rows) = 2 * Nat.min 5 (List.length rows).
Proof.
  unfold topBottomPages.
  rewrite length_app, !length_map, top5_length, bottom5_length. lia.
Qed.

(** With a zero maximum mark the rate is not a finite number. *)
Lemma successRate_zero_max (r : record) :
  Max_Mark r = JsNumber.ofZ 0 ->
  match successRate (addRate r) with Fin _ => False | _ => True end.
Proof.
  intros H. unfold addRate. simpl. rewrite H.
  destruct (School_Mean r) as [x| | |]; simpl; auto.
  unfold JsNumber.qsgn. destruct (Z.sgn (Qnum x)); simpl; auto.
Qed.

Lemma successRate_finite (r : record) (x y : Q) :
  School_Mean r = Fin x -> Max_Mark r = Fin y -> ~ (y == 0)%Q ->
  exists q, successRate (addRate r) = Fin q /\ (q == x / y * 100)%Q.
Proof.
  intros Hx Hy Hn. unfold addRate. cbn [successRate]. rewrite Hx, Hy.
  unfold JsNumber.div.
  destruct (Qeq_bool y 0) eqn:E; [apply Qeq_bool_iff in E; contradiction|].
  unfold JsNumber.mul, JsNumber.ofZ.
  eexists. split; [reflexivity|]. rewrite !Qred_correct. reflexivity.
Qed.

(** C3.  For the records of one group: each record gets
    [successRate = schoolMean / maxMark * 100], which is not a finite number
    when the maximum mark is zero; the group is sorted by descending school
    mean, stably; the top list is the first five and the bottom list the
    last five, reversed.  Both have [min 5 n] elements; up to five records
    the bottom list is the top list reversed; an empty group gives no page
    and no summary chart;
    the records at the positions common to both ends are in both lists, and
    one page is pushed per element of each list. *)
Theorem outlier_selection :
  forall (render : list rated -> string -> string) (subject year : string)
         (rows : list record),
    let n := List.length rows in
    Permutation (map addRate rows) (withRate rows)
    /\ (forall r, successRate (addRate r)
                  = JsNumber.mul (JsNumber.div (School_Mean r) (Max_Mark r))
                                 (JsNumber.ofZ 100))
    /\ (forall r, Max_Mark r = JsNumber.ofZ 0 ->
                  match successRate (addRate r) with Fin _ => False | _ => True end)
    /\ (Forall (fun r => JsNumber.isNaN (School_Mean r) = false) rows ->
        StronglySorted (fun a b => leNum (schoolMeanOf b) (schoolMeanOf a) = true)
                       (withRate rows)
        /\ forall a, hasSchoolMean a ->
             filter (fun b => JsNumber.strictEq (schoolMeanOf a) (schoolMeanOf b))
                    (withRate rows)
             = filter (fun b => JsNumber.strictEq (schoolMeanOf a) (schoolMeanOf b))
                      (map addRate rows))
    /\ top5 rows = firstn 5 (withRate rows)
    /\ bottom5 rows = rev (skipn (n - 5) (withRate rows))
    /\ List.length (top5 rows) = Nat.min 5 n
    /\ List.length (bottom5 rows) = Nat.min 5 n
    /\ (n <= 5 -> top5 rows = withRate rows /\ bottom5 rows = rev (top5 rows))
    /\ topBottomPages subject year [] = []
    /\ performanceSummaryCharts render subject year [] = []
    /\ (rows <> [] ->
        map title (performanceSummaryCharts render subject year rows)
        = [(subject ++ " - " ++ year ++ " - Best Performing Questions (Top 5)")%string;
           (subject ++ " - " ++ year
            ++ " - Questions Needing Additional Support (Bottom 5)")%string])
    /\ generateTopBottomMetadata [(subject, [(year, [])])] = []
    /\ generateTopBottomMetadata [(subject, [(year, rows)])]
       = topBottomPages subject year rows
    /\ map content (topBottomPages subject year rows)
       = map (fun r => Detail r "Top 5" "green") (top5 rows)
         ++ map (fun r => Detail r "Bottom 5" "red") (bottom5 rows)
    /\ List.length (topBottomPages subject year rows) = 2 * Nat.min 5 n
    /\ (forall i x, nth_error (withRate rows) i = Some x -> n - 5 <= i -> i < 5 ->
                    In x (top5 rows) /\ In x (bottom5 rows)).
Proof.
  intros render subject year rows n.
  split; [apply withRate_perm|].
  split; [reflexivity|].
  split; [apply successRate_zero_max|].
  split; [intros H; split; [now apply withRate_sorted|];
          intros a Ha; now apply withRate_stable|].
  split; [reflexivity|].
  split; [unfold bottom5, sliceLast; now rewrite withRate_length|].
  split; [apply top5_length|].
  split; [apply bottom5_length|].
  split; [apply small_group|].
  split; [reflexivity|].
  split; [reflexivity|].
  split.
  { intros Hne. unfold performanceSummaryCharts.
    rewrite top5_length, bottom5_length.
    destruct rows as [|r rows]; [congruence|]. reflexivity. }
  split; [reflexivity|].
  split; [unfold generateTopBottomMetadata; simpl; now rewrite !app_nil_r|].
  split; [unfold topBottomPages; now rewrite map_app, !map_map|].
  split; [apply topBottomPages_length|].
  intros i x H1 H2 H3. split; [eapply In_top5|eapply In_bottom5]; eauto.
Qed.

Lemma outlier_selection_witness :
  map (fun a => Question_Item (row a)) (top5 sampleGroup) = ["2"; "3"; "1"]
  /\ bottom5 sampleGroup = rev (top5 sampleGroup)
  /\ StronglySorted (fun a b => leNum (schoolMeanOf b) (schoolMeanOf a) = true)
                    (withRate sampleGroup)
  /\ match successRate (addRate (sampleRecord "3" "Number" "MA1" 4 0)) with
     | Fin _ => False
     | _ => True
     end.
Proof.
  destruct (outlier_selection (fun _ _ => "") "Maths" "2023" sampleGroup)
    as (_ & _ & Hz & Hs & _ & _ & _ & _ & Hsmall & _).
  assert (F : Forall (fun r => JsNumber.isNaN (School_Mean r) = false) sampleGroup)
    by (repeat constructor).
  assert (L : List.length sampleGroup <= 5) by (simpl; lia).
  destruct (Hsmall L) as [Ht Hb].
  split; [rewrite Ht; reflexivity|].
  split; [exact Hb|].
  split; [exact (proj1 (Hs F))|].
  apply Hz. reflexivity.
Defined.

(** * Table of contents and page numbers *)

Lemma ceilDiv_20 (n : nat) : ceilDiv n 20 = (n + 19) / 20.
Proof.
  unfold ceilDiv, Qceiling, Qfloor, Qdiv, Qmult, Qinv, Qopp, inject_Z.
  cbn [Qnum Qden Z.of_nat Pos.of_succ_nat Pos.succ Pos.mul].
  apply Nat2Z.inj. rewrite Nat2Z.inj_div, Nat2Z.inj_add.
  pose proof (Nat2Z.is_nonneg n) as Hn. revert Hn.
  change (Z.of_nat 19) with 19%Z. change (Z.of_nat 20) with 20%Z.
  generalize (Z.of_nat n). intros z Hz.
  rewrite Z2Nat.id; Z.to_euclidean_division_equations; lia.
Qed.

(** [ceilDiv n 20] is the least number of listing pages that hold [n] entries. *)
Lemma ceilDiv_spec (n : nat) :
  n <= 20 * ceilDiv n 20 /\ 20 * ceilDiv n 20 < n + 20.
Proof.
  rewrite ceilDiv_20.
  pose proof (Nat.div_mod_eq (n + 19) 20).
  pose proof (Nat.mod_upper_bound (n + 19) 20). lia.
Qed.

Lemma tocEntriesFrom_nth (idx i : nat) (pages : list page) :
  nth_error (tocEntriesFrom idx pages) i
  = option_map (fun p => {| entrySubject := subject p; entryYear := year p;
                            entryTitle := title p; pageNumber := idx + i + 2 |})
               (nth_error pages i).
Proof.
  revert idx i. induction pages as [|p ps IH]; intros idx [|i]; simpl; try reflexivity.
  - now rewrite Nat.add_0_r.
  - rewrite IH. now replace (S idx + i + 2) with (idx + S i + 2) by lia.
Qed.

Lemma tocEntriesFrom_length (idx : nat) (pages : list page) :
  List.length (tocEntriesFrom idx pages) = List.length pages.
Proof. revert idx. induction pages; intros; simpl; auto. Qed.

Lemma fold_left_snoc {A B} (f : B -> A) (l : list B) (acc : list A) :
  fold_left (fun acc i => acc ++ [f i]) l acc = acc ++ map f l.
Proof.
  revert acc. induction l as [|x l IH]; intros acc; simpl.
  - now rewrite app_nil_r.
  - rewrite IH, <- app_assoc. reflexivity.
Qed.

Lemma addTOCPages_spec (pdf : list pdfPage) (entries : list tocEntry) :
  let t := ceilDiv (List.length entries) entriesPerPage in
  addTOCPages pdf entries
  = (pdf ++ map (fun i => TocPage (tocHeading i)
                                  (pageEntries i (map (bump t) entries)))
                (seq 0 t),
     map (bump t) entries).
Proof.
  intros t. unfold addTOCPages. fold t. f_equal.
  apply (fold_left_snoc (fun i => TocPage (tocHeading i)
                                          (pageEntries i (map (bump t) entries)))).
Qed.

Lemma addContentPages_app (pdf : list pdfPage) (k : nat) (pages : list page) :
  addContentPages pdf k pages = pdf ++ addContentPages [] k pages.
Proof.
  revert pdf k. induction pages as [|p ps IH]; intros pdf k; simpl.
  - now rewrite app_nil_r.
  - rewrite (IH (pdf ++ _)), (IH [_]), <- app_assoc. reflexivity.
Qed.

Lemma addContentPages_nth (k i : nat) (pages : list page) :
  nth_error (addContentPages [] k pages) i
  = option_map (ContentPage (k + i)) (nth_error pages i).
Proof.
  revert k i. induction pages as [|p ps IH]; intros k i; simpl.
  - now destruct i.
  - rewrite addContentPages_app. destruct i as [|i]; simpl.
    + now rewrite Nat.add_0_r.
    + rewrite IH. now replace (S k + i) with (k + S i) by lia.
Qed.

Lemma addContentPages_length (k : nat) (pages : list page) :
  List.length (addContentPages [] k pages) = List.length pages.
Proof.
  revert k. induction pages as [|p ps IH]; intros k; simpl; [reflexivity|].
  rewrite addContentPages_app. simpl. now rewrite IH.
Qed.

(** The listing pages cut the entries into consecutive runs. *)
Lemma pageEntries_concat (t : nat) (entries : list tocEntry) :
  List.length entries <= entriesPerPage * t ->
  List.concat (map (fun i => pageEntries i entries) (seq 0 t)) = entries.
Proof.
  revert entries. induction t as [|t IH]; intros entries H.
  - destruct entries; simpl in *; [reflexivity|lia].
  - rewrite <- cons_seq, <- seq_shift. simpl map. rewrite map_map. simpl List.concat.
    rewrite (map_ext _ (fun i => pageEntries i (skipn entriesPerPage entries))).
    + rewrite IH.
      * unfold pageEntries. simpl skipn. apply firstn_skipn.
      * rewrite length_skipn. unfold entriesPerPage in *. lia.
    + intros i. unfold pageEntries. rewrite skipn_skipn.
      now replace (S i * entriesPerPage) with (i * entriesPerPage + entriesPerPage) by lia.
Qed.

Lemma pageEntries_length (i : nat) (entries : list tocEntry) :
  List.length (pageEntries i entries) <= entriesPerPage
  /\ (entriesPerPage * (i + 1) <= List.length entries ->
      List.length (pageEntries i entries) = entriesPerPage).
Proof.
  unfold pageEntries. rewrite length_firstn, length_skipn. unfold entriesPerPage. lia.
Qed.

(** C6.  The table of contents takes [ceil(N / 20)] listing pages of at most
    twenty entries each, full but for the last; the entry of the page at
    0-based index [i] carries the number [(i + 1) + 1 + tocPageCount], which
    is the position of that page in the document and the number printed in
    its footer; the numbers increase strictly along the list. *)
Theorem toc_page_numbers :
  forall (name : string) (pages : list page),
    let n := List.length pages in
    let tocPageCount := ceilDiv n entriesPerPage in
    let doc := fst (createSubjectPDF name pages) in
    let entries := snd (createSubjectPDF name pages) in
    (n <= 20 * tocPageCount /\ 20 * tocPageCount < n + 20)
    /\ firstn (1 + tocPageCount) doc
       = TitlePage name
         :: map (fun i => TocPage (tocHeading i) (pageEntries i entries))
                (seq 0 tocPageCount)
    /\ List.concat (map (fun i => pageEntries i entries) (seq 0 tocPageCount)) = entries
    /\ (forall i, List.length (pageEntries i entries) <= 20
                  /\ (i + 1 < tocPageCount ->
                      List.length (pageEntries i entries) = 20))
    /\ List.length entries = n
    /\ List.length doc = 1 + tocPageCount + n
    /\ (forall i p, nth_error pages i = Some p ->
          exists e, nth_error entries i = Some e
                    /\ entrySubject e = subject p
                    /\ entryYear e = year p
                    /\ entryTitle e = title p
                    /\ pageNumber e = (i + 1) + 1 + tocPageCount
                    /\ nth_error doc (pageNumber e - 1)
                       = Some (ContentPage (pageNumber e) p))
    /\ (forall i j ei ej, i < j -> nth_error entries i = Some ei ->
          nth_error entries j = Some ej -> pageNumber ei < pageNumber ej).
Proof.
  intros subj pages n t doc entries.
  assert (Hc : createSubjectPDF subj pages
               = (([TitlePage subj]
                   ++ map (fun i => TocPage (tocHeading i)
                             (pageEntries i (map (bump t) (tocEntriesFrom 0 pages))))
                          (seq 0 t))
                  ++ addContentPages [] (1 + t + 1) pages,
                  map (bump t) (tocEntriesFrom 0 pages))).
  { unfold createSubjectPDF. rewrite addTOCPages_spec.
    rewrite tocEntriesFrom_length. fold n. fold t.
    rewrite addContentPages_app. f_equal. f_equal. f_equal.
    rewrite length_app, length_map, length_seq. simpl. lia. }
  assert (He : entries = map (bump t) (tocEntriesFrom 0 pages))
    by (unfold entries; now rewrite Hc).
  assert (Hd : doc = ([TitlePage subj]
                      ++ map (fun i => TocPage (tocHeading i) (pageEntries i entries))
                             (seq 0 t))
                     ++ addContentPages [] (1 + t + 1) pages)
    by (unfold doc; rewrite He; now rewrite Hc).
  assert (Hl : List.length entries = n)
    by (rewrite He, length_map; apply tocEntriesFrom_length).
  assert (Hhead : List.length ([TitlePage subj]
                      ++ map (fun i => TocPage (tocHeading i) (pageEntries i entries))
                             (seq 0 t)) = 1 + t)
    by (rewrite length_app, length_map, length_seq; reflexivity).
  assert (Ht : n <= 20 * t /\ 20 * t < n + 20) by apply ceilDiv_spec.
  assert (Hnth : forall i, nth_error entries i
            = option_map (fun p => {| entrySubject := subject p;
                                      entryYear := year p; entryTitle := title p;
                                      pageNumber := i + 2 + t |})
                         (nth_error pages i)).
  { intros i. rewrite He, nth_error_map, tocEntriesFrom_nth.
    destruct (nth_error pages i); reflexivity. }
  split; [exact Ht|].
  split.
  { rewrite Hd, firstn_app, Hhead, Nat.sub_diag. simpl firstn at 2.
    rewrite app_nil_r, firstn_all2 by (rewrite Hhead; lia). reflexivity. }
  split; [apply pageEntries_concat; rewrite Hl; unfold entriesPerPage; lia|].
  split.
  { intros i. destruct (pageEntries_length i entries) as [H1 H2].
    split; [exact H1|]. intros Hi. apply H2. rewrite Hl. unfold entriesPerPage. lia. }
  split; [exact Hl|].
  split.
  { rewrite Hd, length_app, Hhead, addContentPages_length. reflexivity. }
  split.
  - intros i p Hp. rewrite Hnth, Hp. simpl. eexists. split; [reflexivity|].
    simpl. repeat (split; [reflexivity|]). split; [lia|].
    rewrite Hd, nth_error_app2 by (rewrite Hhead; lia).
    rewrite Hhead, addContentPages_nth.
    replace (i + 2 + t - 1 - (1 + t)) with i by lia. rewrite Hp. simpl.
    do 2 f_equal. lia.
  - intros i j ei ej Hij Hi Hj. rewrite Hnth in Hi, Hj.
    destruct (nth_error pages i), (nth_error pages j); simpl in *; try discriminate.
    inversion Hi; inversion Hj; subst; simpl. lia.
Qed.

Lemma toc_page_numbers_witness :
  exists e, nth_error (snd (createSubjectPDF "Maths"
                              [samplePage "2022" "Maths - 2022 - MC";
                               samplePage "2023" "Maths - 2023 - MC"])) 1 = Some e
            /\ pageNumber e = 4
            /\ nth_error (fst (createSubjectPDF "Maths"
                                 [samplePage "2022" "Maths - 2022 - MC";
                                  samplePage "2023" "Maths - 2023 - MC"])) 3
               = Some (ContentPage 4 (samplePage "2023" "Maths - 2023 - MC")).
Proof.
  destruct (toc_page_numbers "Maths"
              [samplePage "2022" "Maths - 2022 - MC";
               samplePage "2023" "Maths - 2023 - MC"])
    as (_ & _ & _ & _ & _ & _ & H & _).
  destruct (H 1 (samplePage "2023" "Maths - 2023 - MC") eq_refl)
    as (e & He & _ & _ & _ & Hn & Hd).
  exists e. split; [exact He|]. split; [exact Hn|].
  rewrite Hn in Hd. exact Hd.
Defined.

(** * Facts about objects *)

Section ObjectFacts.
Context {V : Type}.
Implicit Types (o : obj V) (k : string) (v : V).

Lemma has_get k o : has k o = true <-> exists v, get k o = Some v.
Proof.
  unfold has. destruct (get k o) as [v|]; split; try discriminate; eauto.
  intros [v H]. discriminate.
Qed.

Lemma has_false k o : has k o = false <-> get k o = None.
Proof. unfold has. destruct (get k o); split; congruence. Qed.

Lemma get_In k v o : get k o = Some v -> In (k, v) o.
Proof.
  induction o as [|[k' v'] o IH]; simpl; [discriminate|].
  destruct (String.eqb_spec k k') as [->|N]; [intros [= ->]; now left|auto].
Qed.

Lemma get_None_keys k o : get k o = None <-> ~ In k (keys o).
Proof.
  induction o as [|[k' v'] o IH]; simpl; [tauto|].
  destruct (String.eqb_spec k k') as [->|N].
  - split; [discriminate|]. intros H. exfalso. apply H. now left.
  - rewrite IH. split.
    + intros H [E|I]; [congruence|auto].
    + intros H I. apply H. now right.
Qed.

Lemma In_get k v o : NoDup (keys o) -> In (k, v) o -> get k o = Some v.
Proof.
  induction o as [|[k' v'] o IH]; simpl; [tauto|].
  intros ND [E|I].
  - inversion E; subst. now rewrite String.eqb_refl.
  - inversion ND as [|? ? Hn ND']; subst.
    destruct (String.eqb_spec k k') as [->|N]; [|auto].
    exfalso. apply Hn. change k' with (fst (k', v)). now apply in_map.
Qed.

Lemma get_replace_same k v o : has k o = true -> get k (replace k v o) = Some v.
Proof.
  unfold has. induction o as [|[k' v'] o IH]; simpl; [discriminate|].
  destruct (String.eqb_spec k k') as [->|N]; simpl.
  - now rewrite String.eqb_refl.
  - destruct (String.eqb_spec k k'); [congruence|]. exact IH.
Qed.

Lemma get_replace_other k k' v o : k' <> k -> get k' (replace k v o) = get k' o.
Proof.
  intros N. induction o as [|[k2 v2] o IH]; simpl; [reflexivity|].
  destruct (String.eqb_spec k k2) as [->|N2]; simpl.
  - destruct (String.eqb_spec k' k2); [congruence|reflexivity].
  - now rewrite IH.
Qed.

Lemma keys_replace k v o : keys (replace k v o) = keys o.
Proof.
  induction o as [|[k' v'] o IH]; simpl; [reflexivity|].
  destruct (String.eqb_spec k k') as [->|N]; simpl; [reflexivity|].
  f_equal. exact IH.
Qed.

(** A new property lands somewhere inside the enumeration; the others keep
    their relative order. *)
Lemma insertKey_split k v o :
  exists o1 o2, o = o1 ++ o2 /\ insertKey k v o = o1 ++ (k, v) :: o2.
Proof.
  induction o as [|[k' v'] o (o1 & o2 & E1 & E2)]; simpl.
  - exists [], []. now split.
  - destruct (precedes k k').
    + exists [], ((k', v') :: o). now split.
    + exists ((k', v') :: o1), o2. simpl. split; congruence.
Qed.

Lemma get_insertKey_same k v o : get k o = None -> get k (insertKey k v o) = Some v.
Proof.
  induction o as [|[k' v'] o IH]; simpl.
  - now rewrite String.eqb_refl.
  - destruct (String.eqb_spec k k') as [->|N]; [discriminate|]. intros H.
    destruct (precedes k k'); simpl.
    + now rewrite String.eqb_refl.
    + destruct (String.eqb_spec k k'); [congruence|auto].
Qed.

Lemma get_insertKey_other k k' v o : k' <> k -> get k' (insertKey k v o) = get k' o.
Proof.
  intros N. induction o as [|[k2 v2] o IH]; simpl.
  - destruct (String.eqb_spec k' k); [congruence|reflexivity].
  - destruct (precedes k k2); simpl.
    + destruct (String.eqb_spec k' k); [congruence|reflexivity].
    + now rewrite IH.
Qed.

Lemma get_set_same k v o : get k (set k v o) = Some v.
Proof.
  unfold set. destruct (has k o) eqn:H.
  - now apply get_replace_same.
  - apply get_insertKey_same. now apply has_false.
Qed.

Lemma get_set_other k k' v o : k' <> k -> get k' (set k v o) = get k' o.
Proof.
  intros N. unfold set. destruct (has k o).
  - now apply get_replace_other.
  - now apply get_insertKey_other.
Qed.

Lemma get_set k k' v o :
  get k' (set k v o) = if String.eqb k' k then Some v else get k' o.
Proof.
  destruct (String.eqb_spec k' k) as [->|N].
  - apply get_set_same.
  - now apply get_set_other.
Qed.

Lemma keys_set_perm k v o :
  Permutation (keys (set k v o)) (if has k o then keys o else k :: keys o).
Proof.
  unfold set. destruct (has k o).
  - now rewrite keys_replace.
  - destruct (insertKey_split k v o) as (o1 & o2 & E1 & E2).
    rewrite E2, E1. unfold keys. rewrite !map_app. simpl.
    apply Permutation_sym, Permutation_middle.
Qed.

Lemma NoDup_keys_set k v o : NoDup (keys o) -> NoDup (keys (set k v o)).
Proof.
  intros ND. eapply Permutation_NoDup; [apply Permutation_sym, keys_set_perm|].
  destruct (has k o) eqn:H; [exact ND|].
  constructor; [|exact ND]. apply get_None_keys. now apply has_false.
Qed.

Lemma In_keys_get k o : In k (keys o) <-> exists v, get k o = Some v.
Proof.
  destruct (get k o) as [v|] eqn:E.
  - split; [eauto|]. intros _. apply get_In in E.
    change k with (fst (k, v)). now apply in_map.
  - split; [|intros [v H]; discriminate].
    intros H. now apply get_None_keys in E.
Qed.

Lemma In_keys_set k k' v o : In k' (keys (set k v o)) <-> k' = k \/ In k' (keys o).
Proof.
  rewrite !In_keys_get, get_set.
  destruct (String.eqb_spec k' k) as [->|N].
  - split; [now left|eauto].
  - split; [now right|]. intros [E|H]; [congruence|exact H].
Qed.

Lemma In_values o v : In v (values o) <-> exists k, In (k, v) o.
Proof.
  unfold values. rewrite in_map_iff. split.
  - intros [[k v'] [E I]]. simpl in E. subst. eauto.
  - intros [k I]. exists (k, v). now split.
Qed.
(** A read of a name that [Object.prototype] does not have sees own
    properties only. *)
Lemma lookup_plain k o :
  inherited k = false ->
  lookup k o = match get k o with Some v => Own v | None => Absent end.
Proof. intros H. unfold lookup. destruct (get k o); [reflexivity|now rewrite H]. Qed.

Lemma lookup_own k v o : get k o = Some v -> lookup k o = Own v.
Proof. intros H. unfold lookup. now rewrite H. Qed.

Lemma lookup_cases k o :
  (exists v, get k o = Some v /\ lookup k o = Own v)
  \/ (get k o = None /\ inherited k = true /\ lookup k o = Inherited)
  \/ (get k o = None /\ inherited k = false /\ lookup k o = Absent).
Proof.
  unfold lookup. destruct (get k o) as [v|].
  - left. now exists v.
  - destruct (inherited k); [right; left|right; right]; repeat split.
Qed.

(** Writing to a key that is absent, in two steps or in one. *)
Lemma set_set k v v' o : set k v (set k v' o) = set k v o.
Proof.
  unfold set at 1. rewrite (proj2 (has_get k (set k v' o)))
    by (exists v'; apply get_set_same).
  unfold set. destruct (has k o) eqn:H.
  - clear H. induction o as [|[k0 v0] o IH]; simpl; [reflexivity|].
    destruct (String.eqb_spec k k0) as [->|N]; simpl.
    + now rewrite String.eqb_refl.
    + destruct (String.eqb_spec k k0); [congruence|]. now rewrite IH.
  - apply has_false in H. induction o as [|[k0 v0] o IH]; simpl.
    + now rewrite String.eqb_refl.
    + simpl in H. destruct (String.eqb_spec k k0) as [->|N]; [discriminate|].
      destruct (precedes k k0); simpl.
      * now rewrite String.eqb_refl.
      * destruct (String.eqb_spec k k0); [congruence|]. now rewrite (IH H).
Qed.

End ObjectFacts.

Lemma getVal_set (o : obj value) (k k' : string) (v : value) :
  getVal (set k v o) k' = if String.eqb k' k then v else getVal o k'.
Proof. unfold getVal. rewrite get_set. now destruct (String.eqb k' k). Qed.

(** * Calls that can fail *)

Lemma andThen_returns {A B} (m : outcome A) (k : A -> outcome B) (b : B) :
  andThen m k = Returns b <-> exists a, m = Returns a /\ k a = Returns b.
Proof.
  split.
  - destruct m as [a| |]; simpl; try discriminate. intros H. now exists a.
  - intros (a & -> & H). exact H.
Qed.

(** A loop whose calls all return is a fold. *)
Lemma forEach_returns {A S} (f : S -> A -> outcome S) (g : S -> A -> S)
  (P : A -> Prop) (l : list A) (s : S) :
  (forall s a, P a -> f s a = Returns (g s a)) ->
  Forall P l -> forEach f l s = Returns (fold_left g l s).
Proof.
  intros H F. revert s. induction F as [|a l Pa F IH]; intros s; simpl; [reflexivity|].
  rewrite (H s a Pa). simpl. apply IH.
Qed.

(** A loop that returns has run all its calls. *)
Lemma forEach_cons {A S} (f : S -> A -> outcome S) (a : A) (l : list A) (s s' : S) :
  forEach f (a :: l) s = Returns s' <->
  exists s1, f s a = Returns s1 /\ forEach f l s1 = Returns s'.
Proof. simpl. apply andThen_returns. Qed.

Lemma forEach_app {A S} (f : S -> A -> outcome S) (l1 l2 : list A) (s : S) :
  forEach f (l1 ++ l2) s = andThen (forEach f l1 s) (forEach f l2).
Proof.
  revert s. induction l1 as [|a l1 IH]; intros s; simpl; [reflexivity|].
  destruct (f s a); simpl; [apply IH|reflexivity|reflexivity].
Qed.

(** A loop in which a call fails on an element, whatever the state, does
    not return. *)
Lemma forEach_fails {A S} (f : S -> A -> outcome S) (l : list A) (s s' : S) (a : A) :
  In a l -> (forall s s1, f s a <> Returns s1) -> forEach f l s <> Returns s'.
Proof.
  intros I H. revert s. induction l as [|b l IH]; intros s E; [destruct I|].
  apply forEach_cons in E. destruct E as (s1 & E1 & E2).
  destruct I as [->|I]; [exact (H _ _ E1)|exact (IH I _ E2)].
Qed.

(** A loop whose step fails on some elements and on those only, whatever
    the state: it returns when none of them is met. *)
Lemma forEach_guarded {A S} (f : S -> A -> outcome S) (g : S -> A -> S)
  (ok : A -> bool) (Inv : S -> Prop) :
  (forall s a, Inv s -> f s a = if ok a then Returns (g s a) else Throws) ->
  (forall s a, Inv s -> ok a = true -> Inv (g s a)) ->
  forall l s, Inv s ->
    forEach f l s = if forallb ok l then Returns (fold_left g l s) else Throws.
Proof.
  intros Hf Hg l. induction l as [|a l IH]; intros s I; simpl; [reflexivity|].
  rewrite (Hf s a I). destruct (ok a) eqn:E; simpl; [|reflexivity].
  apply IH. now apply Hg.
Qed.

Lemma forallb_false {A} (f : A -> bool) (l : list A) :
  forallb f l = false <-> exists x, In x l /\ f x = false.
Proof.
  induction l as [|a l IH]; simpl.
  - split; [discriminate|]. intros (x & [] & _).
  - rewrite andb_false_iff, IH. split.
    + intros [H|(x & I & H)]; [exists a; auto|exists x; auto].
    + intros (x & [<-|I] & H); [now left|right; eauto].
Qed.

Lemma Returns_inj {A} (a b : A) : Returns a = Returns b -> a = b.
Proof. intros H. now injection H. Qed.

(** * Column-name canonicalisation *)

(** The step, through the own properties of [newRow]. *)
Lemma normalizeStep_eq (newRow : obj value) (kv : string * value) :
  normalizeStep newRow kv
  = let normalizedKey := normalizeKey (fst kv) in
    if inherited normalizedKey && negb (has normalizedKey newRow) then newRow
    else if negb (truthy (getVal newRow normalizedKey))
         then set normalizedKey (snd kv) newRow
         else newRow.
Proof.
  unfold normalizeStep, lookup, getVal, has. cbv zeta.
  destruct (get (normalizeKey (fst kv)) newRow) as [v|].
  - now rewrite andb_false_r.
  - destruct (inherited (normalizeKey (fst kv))); reflexivity.
Qed.

Lemma getVal_normalizeStep (newRow : obj value) (kv : string * value) (name : string) :
  inherited name = false ->
  getVal (normalizeStep newRow kv) name
  = if String.eqb (normalizeKey (fst kv)) name
    then (if truthy (getVal newRow name) then getVal newRow name else snd kv)
    else getVal newRow name.
Proof.
  intros I. rewrite normalizeStep_eq. cbv zeta.
  destruct (String.eqb_spec (normalizeKey (fst kv)) name) as [<-|N].
  - rewrite I. cbn [andb].
    destruct (truthy (getVal newRow (normalizeKey (fst kv)))); simpl; [reflexivity|].
    now rewrite getVal_set, String.eqb_refl.
  - destruct (inherited (normalizeKey (fst kv)) && negb (has (normalizeKey (fst kv)) newRow));
      [reflexivity|].
    destruct (truthy (getVal newRow (normalizeKey (fst kv)))); simpl; [reflexivity|].
    rewrite getVal_set. destruct (String.eqb_spec name (normalizeKey (fst kv))); congruence.
Qed.

Lemma getVal_fold_normalizeStep (row newRow : obj value) (name : string) :
  inherited name = false ->
  getVal (fold_left normalizeStep row newRow) name
  = fold_left (fun cur v => if truthy cur then cur else v)
              (candidates name row) (getVal newRow name).
Proof.
  intros I. revert newRow. induction row as [|kv row IH]; intros newRow; [reflexivity|].
  simpl fold_left at 1. rewrite IH, (@getVal_normalizeStep _ _ _ I).
  unfold candidates. simpl filter.
  destruct (String.eqb (normalizeKey (fst kv)) name); reflexivity.
Qed.

(** A column whose canonical name is that of an inherited member is never
    stored. *)
Lemma fold_normalizeStep_inherited (row newRow : obj value) (name : string) :
  inherited name = true -> get name newRow = None ->
  get name (fold_left normalizeStep row newRow) = None.
Proof.
  intros I. revert newRow. induction row as [|kv row IH]; intros newRow G; [exact G|].
  simpl. apply IH. rewrite normalizeStep_eq. cbv zeta.
  destruct (String.eqb_spec (normalizeKey (fst kv)) name) as [E|N].
  - rewrite E, I. unfold has. rewrite G. exact G.
  - destruct (inherited (normalizeKey (fst kv)) && negb (has (normalizeKey (fst kv)) newRow));
      [exact G|].
    destruct (negb (truthy (getVal newRow (normalizeKey (fst kv))))); [|exact G].
    rewrite get_set_other; [exact G|congruence].
Qed.

Lemma last_default_irrelevant {A} (l : list A) (a d d' : A) :
  last (a :: l) d = last (a :: l) d'.
Proof.
  revert a. induction l as [|b l IH]; intros a; [reflexivity|].
  change (last (b :: l) d = last (b :: l) d'). apply IH.
Qed.

Lemma fold_keep (vs : list value) (cur : value) :
  fold_left (fun cur v => if truthy cur then cur else v) vs cur
  = if truthy cur then cur
    else match find truthy vs with
         | Some v => v
         | None => last vs cur
         end.
Proof.
  revert cur. induction vs as [|v vs IH]; intros cur; simpl.
  - now destruct (truthy cur).
  - rewrite IH. destruct (truthy cur) eqn:C; [now rewrite C|].
    destruct (truthy v) eqn:T; [reflexivity|].
    destruct (find truthy vs); [reflexivity|].
    destruct vs as [|v0 vs]; [reflexivity|]. apply last_default_irrelevant.
Qed.

(** The value kept under a canonical name that is not the name of an
    inherited member: that of the first raw key with that canonical name
    whose value is truthy, or of the last such key when none is; so the
    first key wins whenever its value is truthy. *)
Lemma normalizeRow_value (row : obj value) (name : string) :
  inherited name = false ->
  getVal (normalizeRow row) name = firstTruthyOrLast (candidates name row)
  /\ (forall v rest, candidates name row = v :: rest -> truthy v = true ->
        getVal (normalizeRow row) name = v)
  /\ (candidates name row = [] -> getVal (normalizeRow row) name = VUndefined).
Proof.
  intros I.
  assert (H : getVal (normalizeRow row) name = firstTruthyOrLast (candidates name row)).
  { unfold normalizeRow. rewrite (@getVal_fold_normalizeStep _ _ _ I), fold_keep.
    reflexivity. }
  split; [exact H|]. split.
  - intros v rest E T. rewrite H, E. unfold firstTruthyOrLast. simpl. now rewrite T.
  - intros E. rewrite H, E. reflexivity.
Qed.

(** C8.  The first raw key should win, yet a later duplicate replaces it when
    the value kept so far is falsy: with an empty cell under
    ["Content Area"] and ["Algebra"] under ["QPC"], both canonicalised to
    ["Question Per Content"], the normalised row holds ["Algebra"], not the
    value of the first key. *)
Theorem normalizeRow_overwrites_empty_first :
  normalizeKey "Content Area" = "Question Per Content"
  /\ normalizeKey "QPC" = "Question Per Content"
  /\ firstOccurrence "Question Per Content" duplicateColumns = VStr ""
  /\ getVal (normalizeRow duplicateColumns) "Question Per Content" = VStr "Algebra"
  /\ getVal (normalizeRow duplicateColumns) "Question Per Content"
     <> firstOccurrence "Question Per Content" duplicateColumns
  /\ getVal (normalizeRow (rev duplicateColumns)) "Question Per Content"
     = firstOccurrence "Question Per Content" (rev duplicateColumns).
Proof.
  split; [reflexivity|]. split; [reflexivity|]. split; [reflexivity|].
  split; [reflexivity|]. split; [discriminate|reflexivity].
Qed.

(** * Header detection *)

Lemma prefix_spec (p s : string) :
  String.prefix p s = true <-> exists post, s = (p ++ post)%string.
Proof.
  revert s. induction p as [|a p IH]; intros s.
  - destruct s; simpl; split; eauto.
  - destruct s as [|b s]; cbn [String.prefix].
    + split; [discriminate|]. intros [post H]. discriminate.
    + destruct (ascii_dec a b) as [->|N].
      * rewrite IH. split; intros [post H]; exists post; simpl in *; congruence.
      * split; [discriminate|]. intros [post H]. simpl in H. congruence.
Qed.

Lemma includes_spec (s pat : string) :
  includes s pat = true <-> occursIn pat s.
Proof.
  unfold occursIn. induction s as [|c s IH]; cbn [includes].
  - rewrite prefix_spec. split.
    + intros [post H]. exists "", post. exact H.
    + intros (pre & post & H). destruct pre; [eauto|discriminate].
  - rewrite orb_true_iff, prefix_spec, IH. split.
    + intros [[post H]|(pre & post & H)].
      * exists "", post. exact H.
      * exists (String c pre), post. simpl. congruence.
    + intros (pre & post & H). destruct pre as [|c' pre].
      * left. exists post. exact H.
      * right. exists pre, post. simpl in H. congruence.
Qed.

Section HeaderFacts.
Variable number_to_string : number -> string.

Local Abbreviation isHeader := (isHeaderRow number_to_string).
Local Abbreviation cellText := (headerCell number_to_string).

Lemma isHeaderRow_spec (cells : list value) :
  isHeader cells = true <->
  In "Subject" (map cellText (firstn 12 cells))
  /\ exists c, In c (map cellText (firstn 12 cells)) /\ occursIn "Question (Item)" c.
Proof.
  unfold isHeaderRow, sliceFirst. rewrite andb_true_iff, !existsb_exists.
  split.
  - intros [(x & I & E) (c & Ic & Hc)]. apply String.eqb_eq in E. subst x.
    split; [exact I|]. exists c. split; [exact Ic|]. now apply includes_spec.
  - intros [I (c & Ic & Hc)]. split.
    + exists "Subject". split; [exact I|apply String.eqb_refl].
    + exists c. split; [exact Ic|]. now apply includes_spec.
Qed.

Lemma isHeaderRow_first12 (cells : list value) :
  isHeader cells = isHeader (firstn 12 cells).
Proof. unfold isHeaderRow, sliceFirst. now rewrite firstn_firstn. Qed.

Lemma scanHeader_spec (rows : list (list value)) (i : nat) :
  match scanHeader number_to_string i rows with
  | Some k =>
      exists j cells, k = i + j /\ nth_error rows j = Some cells
                      /\ isHeader cells = true
                      /\ forall j' c, j' < j -> nth_error rows j' = Some c ->
                                      isHeader c = false
  | None => forall j c, nth_error rows j = Some c -> isHeader c = false
  end.
Proof.
  revert i. induction rows as [|cells rows IH]; intros i; simpl.
  - intros [|j] c H; discriminate.
  - destruct (isHeader cells) eqn:E.
    + exists 0, cells. repeat split; auto. intros j' c Hj. lia.
    + specialize (IH (S i)). destruct (scanHeader number_to_string (S i) rows) as [k|].
      * destruct IH as (j & c & -> & Hn & Hh & Hb).
        exists (S j), c. split; [lia|]. split; [exact Hn|]. split; [exact Hh|].
        intros [|j'] c' Hj Hc; simpl in Hc.
        -- now inversion Hc; subst.
        -- apply (Hb j'); [lia|exact Hc].
      * intros [|j] c Hc; simpl in Hc; [now inversion Hc; subst|eauto].
Qed.

Lemma firstn_min_length {A} (n : nat) (l : list A) :
  firstn (Nat.min (List.length l) n) l = firstn n l.
Proof.
  destruct (Nat.le_ge_cases (List.length l) n) as [H|H].
  - rewrite Nat.min_l by exact H. now rewrite firstn_all, firstn_all2.
  - now rewrite Nat.min_r.
Qed.

(** C7.  A cell counts through its trimmed string, and as empty when it is
    null or undefined or when its string has more than 1000 characters; a
    row is a header row exactly when, among its first twelve cells,
    ["Subject"] is present and some cell contains ["Question (Item)"]; the
    scan looks at the first twenty rows only and returns the index of the
    first header row, or row 0 when there is none. *)
Theorem header_detection :
  forall (aoa : list (list value)),
    (forall c, (1000 < len (ToString number_to_string c))%N -> cellText c = "")
    /\ cellText VNull = "" /\ cellText VUndefined = ""
    /\ (forall c, c <> VNull -> c <> VUndefined ->
                  (len (ToString number_to_string c) <= 1000)%N ->
                  cellText c = trim (ToString number_to_string c))
    /\ (forall cells,
          isHeader cells = true <->
          In "Subject" (map cellText (firstn 12 cells))
          /\ exists c, In c (map cellText (firstn 12 cells))
                       /\ occursIn "Question (Item)" c)
    /\ (forall cells, isHeader cells = isHeader (firstn 12 cells))
    /\ findHeaderRow number_to_string aoa
       = findHeaderRow number_to_string (firstn 20 aoa)
    /\ match findHeaderRow number_to_string aoa with
       | (i, true) =>
           i < 20
           /\ (exists cells, nth_error aoa i = Some cells /\ isHeader cells = true)
           /\ (forall j cells, j < i -> nth_error aoa j = Some cells ->
                               isHeader cells = false)
       | (i, false) =>
           i = 0
           /\ (forall j cells, j < 20 -> nth_error aoa j = Some cells ->
                               isHeader cells = false)
       end.
Proof.
  intros aoa.
  split.
  { intros c H. unfold headerCell. apply N.ltb_lt in H. rewrite H. now destruct c. }
  split; [reflexivity|]. split; [reflexivity|].
  split.
  { intros c H1 H2 H. unfold headerCell.
    assert (E : (1000 <? len (ToString number_to_string c))%N = false)
      by (apply N.ltb_ge; exact H).
    rewrite E. destruct c; congruence. }
  split; [apply isHeaderRow_spec|].
  split; [apply isHeaderRow_first12|].
  split.
  { unfold findHeaderRow. rewrite !firstn_min_length. now rewrite firstn_firstn. }
  unfold findHeaderRow. rewrite firstn_min_length.
  pose proof (scanHeader_spec (firstn 20 aoa) 0) as S.
  destruct (scanHeader number_to_string 0 (firstn 20 aoa)) as [k|].
  - destruct S as (j & cells & -> & Hn & Hh & Hb). simpl.
    rewrite nth_error_firstn in Hn.
    destruct (Nat.ltb_spec j 20) as [L|L]; [|discriminate].
    split; [exact L|]. split; [eauto|].
    intros j' c Hj Hc. apply (Hb j'); [exact Hj|].
    rewrite nth_error_firstn.
    destruct (Nat.ltb_spec j' 20); [exact Hc|lia].
  - split; [reflexivity|]. intros j c Hj Hc. apply (S j).
    rewrite nth_error_firstn. destruct (Nat.ltb_spec j 20); [exact Hc|lia].
Qed.
End HeaderFacts.

Lemma header_detection_witness :
  findHeaderRow integerToString sampleSheet = (1, true)
  /\ exists cells, nth_error sampleSheet 1 = Some cells
                   /\ isHeaderRow integerToString cells = true.
Proof.
  destruct (header_detection integerToString sampleSheet)
    as (_ & _ & _ & _ & _ & _ & _ & H).
  split; [reflexivity|].
  change (findHeaderRow integerToString sampleSheet) with (1, true) in H.
  exact (proj1 (proj2 H)).
Defined.

(** * Cleaning and coercion *)

Lemma integerToString_nonempty (n : number) : integerToString n <> "".
Proof.
  destruct n as [q| | |]; simpl; try discriminate.
  destruct (Z.to_int (Qfloor q)) as [d|d]; simpl.
  - destruct d; discriminate.
  - discriminate.
Qed.

Section CleaningFacts.
Variable number_to_string : number -> string.
Hypothesis number_to_string_nonempty : forall n, number_to_string n <> "".

Local Abbreviation str := (ToString number_to_string).

Lemma ToString_truthy (v : value) : truthy v = true -> str v <> "".
Proof.
  destruct v as [| |[|]|n|s]; simpl; try discriminate.
  - intros _. apply number_to_string_nonempty.
  - destruct s; [discriminate|]. intros _. discriminate.
Qed.

Lemma isValidRow_spec (row : obj value) :
  isValidRow number_to_string row = true <->
  startsWith (toLowerCase (trim (str (getVal row "Question (Item)")))) "question"
  = false
  /\ truthy (getVal row "Subject") = true
  /\ truthy (getVal row "Year") = true
  /\ truthy (getVal row "Question (Item)") = true.
Proof.
  unfold isValidRow.
  destruct (startsWith _ "question"), (truthy (getVal row "Subject")),
    (truthy (getVal row "Year")), (truthy (getVal row "Question (Item)"));
    simpl; intuition congruence.
Qed.

Lemma Year_truthy (row : obj value) :
  truthy (getVal row "Year") = true ->
  truthy (Year (ensureTypes number_to_string row)) = true.
Proof.
  intros H. simpl.
  destruct (JsNumber.truthy (parseInt (str (getVal row "Year")))) eqn:E.
  - exact E.
  - simpl. apply ToString_truthy in H. now destruct (str (getVal row "Year")).
Qed.

Lemma lookupGroup_groupRow (grouped : obj (obj (list record))) (r : record)
  (sub yr : string) :
  lookupGroup (groupStep number_to_string grouped r) sub yr
  = if String.eqb sub (Subject r) && String.eqb yr (str (Year r))
    then lookupGroup grouped sub yr ++ [r]
    else lookupGroup grouped sub yr.
Proof.
  unfold groupStep, lookupGroup.
  set (s := Subject r). set (y := str (Year r)).
  set (grouped1 := if has s grouped then grouped else set s [] grouped).
  assert (G1 : get s grouped1
               = Some (match get s grouped with Some ys => ys | None => [] end)).
  { unfold grouped1, has. destruct (get s grouped) eqn:E; [exact E|].
    apply get_set_same. }
  assert (G1' : forall k, k <> s -> get k grouped1 = get k grouped).
  { intros k N. unfold grouped1. destruct (has s grouped); [reflexivity|].
    now apply get_set_other. }
  rewrite G1.
  set (years := match get s grouped with Some ys => ys | None => [] end).
  set (years1 := if has y years then years else set y [] years).
  assert (Y1 : get y years1
               = Some (match get y years with Some rs => rs | None => [] end)).
  { unfold years1, has. destruct (get y years) eqn:E; [exact E|].
    apply get_set_same. }
  assert (Y1' : forall k, k <> y -> get k years1 = get k years).
  { intros k N. unfold years1. destruct (has y years); [reflexivity|].
    now apply get_set_other. }
  rewrite Y1, get_set.
  destruct (String.eqb_spec sub s) as [->|Ns]; simpl.
  - rewrite get_set. fold years.
    destruct (String.eqb_spec yr y) as [->|Ny].
    + unfold years. destruct (get s grouped); reflexivity.
    + rewrite (Y1' _ Ny). unfold years. destruct (get s grouped); reflexivity.
  - now rewrite (G1' _ Ns).
Qed.

Lemma lookupGroup_fold (rows : list record) (grouped : obj (obj (list record)))
  (sub yr : string) :
  lookupGroup (fold_left (groupStep number_to_string) rows grouped) sub yr
  = lookupGroup grouped sub yr
    ++ filter (fun r => String.eqb sub (Subject r) && String.eqb yr (str (Year r)))
              rows.
Proof.
  revert grouped. induction rows as [|r rows IH]; intros grouped; simpl.
  - now rewrite app_nil_r.
  - rewrite IH, lookupGroup_groupRow.
    destruct (String.eqb sub (Subject r) && String.eqb yr (str (Year r)));
      [now rewrite <- app_assoc|reflexivity].
Qed.

(** On a record that can be grouped the step of the loop returns, and is
    [groupStep]. *)
Lemma groupRow_groupable (builtinHas : string -> string -> bool)
  (grouped : obj (obj (list record))) (r : record) :
  groupable number_to_string r = true ->
  groupRow number_to_string builtinHas grouped r
  = Returns (groupStep number_to_string grouped r).
Proof.
  unfold groupable. intros H. apply andb_true_iff in H. destruct H as [Hs Hy].
  apply negb_true_iff in Hs, Hy.
  unfold groupRow, groupStep, pushRow. cbv zeta.
  rewrite (@lookup_plain _ _ _ Hs). unfold has.
  destruct (get (Subject r) grouped) as [years|] eqn:E.
  - rewrite E, (@lookup_plain _ _ _ Hy).
    destruct (get (str (Year r)) years) as [rows|] eqn:Ey.
    + now rewrite Ey.
    + rewrite get_set_same.
      now rewrite (@set_set _ (str (Year r)) ([] ++ [r]) [] years).
  - rewrite get_set_same, (@lookup_plain _ _ _ Hy). cbn [get].
    rewrite get_set_same, (@set_set _ (str (Year r)) ([] ++ [r]) [] []). reflexivity.
Qed.

Lemma forEach_groupRow_groupable (builtinHas : string -> string -> bool)
  (rows : list record) (grouped : obj (obj (list record))) :
  Forall (fun r => groupable number_to_string r = true) rows ->
  forEach (groupRow number_to_string builtinHas) rows grouped
  = Returns (fold_left (groupStep number_to_string) rows grouped).
Proof.
  apply forEach_returns. intros s a. apply groupRow_groupable.
Qed.

(** What [processData] returns when every record it keeps can be
    grouped. *)
Lemma processData_groupable (builtinHas : string -> string -> bool)
  (rawData : list (obj value)) :
  let cleanData := map (ensureTypes number_to_string)
                       (filter (isValidRow number_to_string) rawData) in
  Forall (fun r => groupable number_to_string r = true) cleanData ->
  processData number_to_string builtinHas rawData
  = Returns {| raw := cleanData;
               grouped := fold_left (groupStep number_to_string) cleanData [];
               totalRows := List.length rawData;
               validRows := List.length cleanData |}.
Proof.
  intros cleanData F. unfold processData. fold cleanData.
  now rewrite (forEach_groupRow_groupable builtinHas [] F).
Qed.

(** Whatever [processData] returns holds the cleaned rows. *)
Lemma processData_raw (builtinHas : string -> string -> bool)
  (rawData : list (obj value)) (out : processed) :
  processData number_to_string builtinHas rawData = Returns out ->
  raw out = map (ensureTypes number_to_string)
                (filter (isValidRow number_to_string) rawData)
  /\ forEach (groupRow number_to_string builtinHas) (raw out) [] = Returns (grouped out)
  /\ totalRows out = List.length rawData
  /\ validRows out = List.length (raw out).
Proof.
  unfold processData. intros H. apply andThen_returns in H.
  destruct H as (g & Hg & H). injection H as <-. cbn [raw grouped totalRows validRows].
  repeat split. exact Hg.
Qed.
End CleaningFacts.

(** C9.  The filter of [processData] tests the raw cells for truthiness,
    before the coercion trims them: a row whose subject is made of white
    space passes it and leaves a record whose subject is empty, in a group
    under the empty subject.  So does every valid row whose subject trims to
    nothing. *)
Theorem processData_keeps_blank_subject :
  forall (builtinHas : string -> string -> bool),
    isValidRow integerToString blankSubjectRow = true
    /\ (exists out r,
          processData integerToString builtinHas [blankSubjectRow] = Returns out
          /\ raw out = [r] /\ Subject r = ""
          /\ lookupGroup (grouped out) "" "2023" = [r])
    /\ (forall (number_to_string : number -> string) (row : obj value),
          isValidRow number_to_string row = true <->
          startsWith (toLowerCase (trim (ToString number_to_string
                                           (getVal row "Question (Item)"))))
                     "question" = false
          /\ truthy (getVal row "Subject") = true
          /\ truthy (getVal row "Year") = true
          /\ truthy (getVal row "Question (Item)") = true)
    /\ (forall (number_to_string : number -> string) (rawData : list (obj value))
               (out : processed) (row : obj value),
          processData number_to_string builtinHas rawData = Returns out ->
          In row rawData -> isValidRow number_to_string row = true ->
          trim (ToString number_to_string (getVal row "Subject")) = "" ->
          exists r, In r (raw out) /\ Subject r = ""
                    /\ r = ensureTypes number_to_string row).
Proof.
  intros builtinHas. split; [reflexivity|]. split; [|split].
  - eexists. eexists. split; [reflexivity|]. split; [reflexivity|].
    split; reflexivity.
  - intros number_to_string row. apply isValidRow_spec.
  - intros number_to_string rawData out row H Hin Hv Ht.
    destruct (processData_raw _ _ _ H) as (E & _).
    exists (ensureTypes number_to_string row). split; [|split; [exact Ht|reflexivity]].
    rewrite E. apply in_map, filter_In. now split.
Qed.

(** * Page ordering *)

Lemma isPositive_ofZ (z : Z) : JsNumber.isPositive (JsNumber.ofZ z) = (0 <? z)%Z.
Proof.
  unfold JsNumber.isPositive, JsNumber.ofZ, JsNumber.sgn, JsNumber.qsgn. simpl.
  destruct z; reflexivity.
Qed.

Lemma defaultCompare_le (a b : string) :
  sortsAfter defaultCompare a b = negb (leStr a b).
Proof.
  unfold sortsAfter, defaultCompare, leStr. rewrite negb_involutive.
  destruct (ltStr a b) eqn:E.
  - now rewrite (ltStr_asym _ _ E).
  - destruct (ltStr b a); reflexivity.
Qed.

Lemma byScore_le (a b : page) :
  sortsAfter byScore a b = negb (score a <=? score b)%Z.
Proof.
  unfold sortsAfter, byScore. rewrite isPositive_ofZ.
  destruct (Z.leb_spec (score a) (score b)), (Z.ltb_spec 0 (score a - score b));
    simpl; try reflexivity; lia.
Qed.

Lemma byKeyThenScore_le (a b : page) :
  sortsAfter byKeyThenScore a b = negb (pageLe a b).
Proof.
  unfold sortsAfter, byKeyThenScore, pageLe.
  destruct (ltStr (pageKey a) (pageKey b)) eqn:L1; [reflexivity|].
  destruct (ltStr (pageKey b) (pageKey a)) eqn:L2.
  - destruct (String.eqb_spec (pageKey a) (pageKey b)) as [E|N]; [|reflexivity].
    rewrite E, ltStr_irrefl in L2. discriminate.
  - rewrite (ltStr_trichotomy _ _ L1 L2), String.eqb_refl. simpl.
    apply byScore_le.
Qed.

Lemma pageLe_total (a b : page) : pageLe a b = true \/ pageLe b a = true.
Proof.
  unfold pageLe.
  destruct (ltStr (pageKey a) (pageKey b)) eqn:L1; [now left|].
  destruct (ltStr (pageKey b) (pageKey a)) eqn:L2; [now right|].
  rewrite (ltStr_trichotomy _ _ L1 L2), String.eqb_refl. simpl.
  destruct (Z.leb_spec (score a) (score b)); [now left|right].
  apply Z.leb_le. lia.
Qed.

Lemma pageLe_trans (a b c : page) :
  pageLe a b = true -> pageLe b c = true -> pageLe a c = true.
Proof.
  unfold pageLe. rewrite !orb_true_iff, !andb_true_iff, !String.eqb_eq, !Z.leb_le.
  intros [H1|[E1 S1]] [H2|[E2 S2]].
  - left. eapply ltStr_trans; eauto.
  - left. congruence.
  - left. congruence.
  - right. split; [congruence|lia].
Qed.

Lemma pageLe_both (a b : page) : pageLe a b && pageLe b a = samePlace a b.
Proof.
  unfold pageLe, samePlace.
  destruct (String.eqb_spec (pageKey a) (pageKey b)) as [E|N].
  - rewrite E, ltStr_irrefl, String.eqb_refl. simpl.
    destruct (Z.leb_spec (score a) (score b)), (Z.leb_spec (score b) (score a)),
      (Z.eqb_spec (score a) (score b)); simpl; try reflexivity; lia.
  - destruct (String.eqb_spec (pageKey b) (pageKey a)); [congruence|].
    rewrite !andb_false_l, !orb_false_r.
    destruct (ltStr (pageKey a) (pageKey b)) eqn:L; [|reflexivity].
    now rewrite (ltStr_asym _ _ L).
Qed.

(** The groups built by [allPages.forEach]. *)

Lemma get_groupPage (groups : obj (list page)) (p : page) (k : string) :
  get k (groupPage groups p)
  = if String.eqb k (pageKey p) then extend (get k groups) [p] else get k groups.
Proof.
  unfold groupPage.
  set (groups1 := if has (pageKey p) groups then groups
                  else set (pageKey p) [] groups).
  assert (G1 : get (pageKey p) groups1
               = Some (match get (pageKey p) groups with Some ps => ps | None => [] end)).
  { unfold groups1, has. destruct (get (pageKey p) groups) eqn:E; [exact E|].
    apply get_set_same. }
  assert (G1' : forall k, k <> pageKey p -> get k groups1 = get k groups).
  { intros k' N. unfold groups1. destruct (has (pageKey p) groups); [reflexivity|].
    now apply get_set_other. }
  rewrite G1, get_set.
  destruct (String.eqb_spec k (pageKey p)) as [->|N]; [reflexivity|auto].
Qed.

Lemma get_fold_groupPage (allPages : list page) (groups : obj (list page)) (k : string) :
  get k (fold_left groupPage allPages groups)
  = extend (get k groups) (pagesOf k allPages).
Proof.
  revert groups. induction allPages as [|p l IH]; intros groups; [reflexivity|].
  simpl fold_left. rewrite IH, get_groupPage. unfold pagesOf. simpl filter.
  destruct (String.eqb k (pageKey p)); [|reflexivity].
  unfold extend. destruct (filter _ l); [reflexivity|].
  now rewrite <- app_assoc.
Qed.

Lemma NoDup_keys_groupPage (groups : obj (list page)) (p : page) :
  NoDup (keys groups) -> NoDup (keys (groupPage groups p)).
Proof.
  intros H. unfold groupPage.
  set (groups1 := if has (pageKey p) groups then groups
                  else set (pageKey p) [] groups).
  assert (H1 : NoDup (keys groups1)).
  { unfold groups1. destruct (has (pageKey p) groups); [exact H|].
    now apply NoDup_keys_set. }
  destruct (get (pageKey p) groups1); [now apply NoDup_keys_set|exact H1].
Qed.

Lemma NoDup_keys_fold_groupPage (allPages : list page) (groups : obj (list page)) :
  NoDup (keys groups) -> NoDup (keys (fold_left groupPage allPages groups)).
Proof.
  revert groups. induction allPages as [|p l IH]; intros groups H; [exact H|].
  simpl. apply IH. now apply NoDup_keys_groupPage.
Qed.

Lemma In_sortedGroup (allPages : list page) (k : string) (p : page) :
  In p (sortedGroup allPages k) <-> In p allPages /\ pageKey p = k.
Proof.
  unfold sortedGroup, pagesOf. rewrite arraySort_In, filter_In, String.eqb_eq.
  intuition congruence.
Qed.

Lemma sortedGroup_sorted (allPages : list page) (k : string) :
  StronglySorted (fun a b => (score a <=? score b)%Z = true) (sortedGroup allPages k).
Proof.
  apply (@arraySort_sorted page byScore (fun _ => True)
           (fun a b => (score a <=? score b)%Z)).
  - intros a b _ _. apply byScore_le.
  - intros a b _ _. rewrite !Z.leb_le. lia.
  - intros a b c _ _ _. rewrite !Z.leb_le. lia.
  - apply Forall_forall. auto.
Qed.

Lemma sortedGroup_stable (allPages : list page) (k : string) (a : page) :
  filter (fun b => (score a =? score b)%Z) (sortedGroup allPages k)
  = filter (fun b => (score a =? score b)%Z) (pagesOf k allPages).
Proof.
  pose proof (@arraySort_stable page byScore (fun _ => True)
                (fun a b => (score a <=? score b)%Z)
                (fun a b _ _ => byScore_le a b)) as S.
  assert (T : forall a b c : page, True -> True -> True ->
                (score a <=? score b)%Z = true -> (score b <=? score c)%Z = true ->
                (score a <=? score c)%Z = true)
    by (intros x y z _ _ _; rewrite !Z.leb_le; lia).
  specialize (S T a (pagesOf k allPages) I (proj2 (Forall_forall _ _) (fun _ _ => I))).
  assert (E : forall l, filter (fun b => (score a =? score b)%Z) l
                        = filter (equivb (fun a b => (score a <=? score b)%Z) a) l).
  { intros l. apply filter_ext. intros b. unfold equivb.
    destruct (Z.eqb_spec (score a) (score b)), (Z.leb_spec (score a) (score b)),
      (Z.leb_spec (score b) (score a)); simpl; try reflexivity; lia. }
  rewrite !E. exact S.
Qed.

Lemma sortPages_flat_map (allPages : list page) :
  sortPages allPages = flat_map (sortedGroup allPages) (sortedKeys allPages).
Proof.
  unfold sortPages. fold (sortedKeys allPages).
  assert (H : forall ks acc,
             fold_left (fun result k =>
                          match get k (fold_left groupPage allPages []) with
                          | Some pages => result ++ arraySort byScore pages
                          | None => result
                          end) ks acc
             = acc ++ flat_map (sortedGroup allPages) ks).
  { induction ks as [|k ks IH]; intros acc; simpl.
    - now rewrite app_nil_r.
    - rewrite IH, get_fold_groupPage. unfold sortedGroup at 2. simpl get.
      unfold extend. destruct (pagesOf k allPages) eqn:E.
      + reflexivity.
      + now rewrite <- app_assoc. }
  apply (H _ []).
Qed.

Lemma In_sortedKeys (allPages : list page) (k : string) :
  In k (sortedKeys allPages) <-> exists p, In p allPages /\ pageKey p = k.
Proof.
  unfold sortedKeys. rewrite arraySort_In, In_keys_get, get_fold_groupPage.
  simpl get. unfold extend, pagesOf. split.
  - intros [v H]. destruct (filter _ allPages) as [|p l] eqn:E; [discriminate|].
    assert (I : In p (filter (fun p => String.eqb k (pageKey p)) allPages))
      by (rewrite E; now left).
    apply filter_In in I. destruct I as [I1 I2]. apply String.eqb_eq in I2. eauto.
  - intros (p & I & <-).
    assert (I' : In p (filter (fun q => String.eqb (pageKey p) (pageKey q)) allPages))
      by (apply filter_In; split; [exact I|apply String.eqb_refl]).
    destruct (filter _ allPages); [destruct I'|eauto].
Qed.

Lemma NoDup_sortedKeys (allPages : list page) : NoDup (sortedKeys allPages).
Proof.
  unfold sortedKeys. eapply Permutation_NoDup; [apply arraySort_perm|].
  apply NoDup_keys_fold_groupPage. constructor.
Qed.

Lemma sortedKeys_sorted (allPages : list page) :
  StronglySorted (fun a b => leStr a b = true) (sortedKeys allPages).
Proof.
  apply (@arraySort_sorted string defaultCompare (fun _ => True) leStr).
  - intros a b _ _. apply defaultCompare_le.
  - intros a b _ _. apply leStr_total.
  - intros a b c _ _ _. apply leStr_trans.
  - apply Forall_forall. auto.
Qed.

Lemma StronglySorted_app {A} (R : A -> A -> Prop) (l1 l2 : list A) :
  StronglySorted R l1 -> StronglySorted R l2 ->
  (forall x y, In x l1 -> In y l2 -> R x y) ->
  StronglySorted R (l1 ++ l2).
Proof.
  intros S1 S2 H. induction S1 as [|x l1 S1 IH F]; simpl; [exact S2|].
  constructor.
  - apply IH. intros a b Ia Ib. apply H; [now right|exact Ib].
  - apply Forall_app. split; [exact F|].
    apply Forall_forall. intros y Iy. apply H; [now left|exact Iy].
Qed.

Lemma same_key_sorted (k : string) (l : list page) :
  StronglySorted (fun a b => (score a <=? score b)%Z = true) l ->
  (forall p, In p l -> pageKey p = k) ->
  StronglySorted (fun a b => pageLe a b = true) l.
Proof.
  intros S. induction S as [|a l S IH F]; intros Hk; constructor.
  - apply IH. intros p Ip. apply Hk. now right.
  - rewrite Forall_forall in *. intros b Ib. unfold pageLe.
    rewrite (Hk a (or_introl eq_refl)), (Hk b (or_intror Ib)).
    rewrite String.eqb_refl, (F b Ib). now rewrite orb_true_r.
Qed.

Lemma flat_map_groups_sorted (allPages : list page) (ks : list string) :
  StronglySorted (fun a b => leStr a b = true) ks -> NoDup ks ->
  StronglySorted (fun a b => pageLe a b = true) (flat_map (sortedGroup allPages) ks).
Proof.
  intros S. induction S as [|k ks S IH F]; intros ND; simpl; [constructor|].
  inversion ND as [|? ? Hk ND']; subst.
  apply StronglySorted_app.
  - apply same_key_sorted with (k := k); [apply sortedGroup_sorted|].
    intros p Ip. now apply In_sortedGroup in Ip.
  - now apply IH.
  - intros x y Ix Iy. apply In_sortedGroup in Ix. destruct Ix as [_ Kx].
    apply in_flat_map in Iy. destruct Iy as (k' & Ik' & Iy).
    apply In_sortedGroup in Iy. destruct Iy as [_ Ky].
    rewrite Forall_forall in F. specialize (F k' Ik').
    unfold pageLe. rewrite Kx, Ky.
    assert (L : ltStr k k' = true).
    { destruct (ltStr k k') eqn:L; [reflexivity|exfalso].
      unfold leStr in F. apply negb_true_iff in F.
      apply Hk. now rewrite (ltStr_trichotomy _ _ L F). }
    now rewrite L.
Qed.

Lemma sortPages_sorted (allPages : list page) :
  StronglySorted (fun a b => pageLe a b = true) (sortPages allPages).
Proof.
  rewrite sortPages_flat_map.
  apply flat_map_groups_sorted; [apply sortedKeys_sorted|apply NoDup_sortedKeys].
Qed.

Lemma filter_flat_map {A B} (f : B -> bool) (g : A -> list B) (l : list A) :
  filter f (flat_map g l) = flat_map (fun x => filter f (g x)) l.
Proof.
  induction l as [|x l IH]; simpl; [reflexivity|]. now rewrite filter_app, IH.
Qed.

Lemma filter_none {A} (f : A -> bool) (l : list A) :
  (forall x, In x l -> f x = false) -> filter f l = [].
Proof.
  induction l as [|x l IH]; intros H; simpl; [reflexivity|].
  rewrite (H x (or_introl eq_refl)). apply IH. intros y Iy. apply H. now right.
Qed.

Lemma filter_filter_implied {A} (f g : A -> bool) (l : list A) :
  (forall x, f x = true -> g x = true) -> filter f (filter g l) = filter f l.
Proof.
  intros H. induction l as [|x l IH]; simpl; [reflexivity|].
  destruct (g x) eqn:G; simpl.
  - now rewrite IH.
  - rewrite IH. destruct (f x) eqn:F; [|reflexivity].
    rewrite (H x F) in G. discriminate.
Qed.

Lemma flat_map_select {B} (X : list B) (k0 : string) (ks : list string) :
  NoDup ks ->
  flat_map (fun k => if String.eqb k k0 then X else []) ks
  = if existsb (fun k => String.eqb k k0) ks then X else [].
Proof.
  induction 1 as [|k ks Hk ND IH]; simpl; [reflexivity|].
  rewrite IH. destruct (String.eqb_spec k k0) as [->|N]; simpl; [|reflexivity].
  destruct (existsb (fun k => String.eqb k k0) ks) eqn:E; [|apply app_nil_r].
  exfalso. apply existsb_exists in E. destruct E as (k & Ik & E).
  apply String.eqb_eq in E. subst. contradiction.
Qed.

Lemma filter_sortedGroup (allPages : list page) (a : page) (k : string) :
  filter (samePlace a) (sortedGroup allPages k)
  = if String.eqb k (pageKey a) then filter (samePlace a) allPages else [].
Proof.
  destruct (String.eqb_spec k (pageKey a)) as [->|N].
  - rewrite (filter_ext_in (samePlace a) (fun b => (score a =? score b)%Z)).
    + rewrite sortedGroup_stable.
      rewrite <- (filter_ext_in (samePlace a) (fun b => (score a =? score b)%Z)).
      * unfold pagesOf. apply filter_filter_implied.
        intros x H. unfold samePlace in H. now apply andb_true_iff in H.
      * intros b Ib. unfold pagesOf in Ib. apply filter_In in Ib.
        unfold samePlace. now rewrite (proj2 Ib).
    + intros b Ib. apply In_sortedGroup in Ib. unfold samePlace.
      now rewrite (proj2 Ib), String.eqb_refl.
  - apply filter_none. intros b Ib. apply In_sortedGroup in Ib.
    unfold samePlace. rewrite (proj2 Ib).
    destruct (String.eqb_spec (pageKey a) k); [congruence|reflexivity].
Qed.

Lemma sortPages_stable (allPages : list page) (a : page) :
  filter (samePlace a) (sortPages allPages) = filter (samePlace a) allPages.
Proof.
  rewrite sortPages_flat_map, filter_flat_map.
  rewrite (flat_map_ext _ (fun k => if String.eqb k (pageKey a)
                                    then filter (samePlace a) allPages else []))
    by (intros k; apply filter_sortedGroup).
  rewrite flat_map_select by apply NoDup_sortedKeys.
  destruct (existsb _ (sortedKeys allPages)) eqn:E; [reflexivity|].
  symmetry. apply filter_none. intros b Ib.
  destruct (samePlace a b) eqn:S; [exfalso|reflexivity].
  unfold samePlace in S. apply andb_true_iff in S. destruct S as [S _].
  apply String.eqb_eq in S.
  assert (I : In (pageKey a) (sortedKeys allPages))
    by (apply In_sortedKeys; exists b; split; [exact Ib|now symmetry]).
  assert (E' : existsb (fun k => String.eqb k (pageKey a)) (sortedKeys allPages) = true)
    by (apply existsb_exists; exists (pageKey a); split;
        [exact I|apply String.eqb_refl]).
  congruence.
Qed.

(** [sortPages] is the stable sort by key, then score. *)
Lemma sortPages_is_stable_sort (allPages : list page) :
  sortPages allPages = arraySort byKeyThenScore allPages.
Proof.
  symmetry.
  apply (@arraySort_unique page byKeyThenScore (fun _ => True) pageLe).
  - intros a b _ _. apply byKeyThenScore_le.
  - intros a b _ _. apply pageLe_total.
  - intros a b c _ _ _. apply pageLe_trans.
  - apply Forall_forall. auto.
  - apply Forall_forall. auto.
  - apply sortPages_sorted.
  - intros a _. unfold equivb.
    rewrite !(filter_ext _ _ (fun b => pageLe_both a b)).
    apply sortPages_stable.
Qed.

Lemma score_table (p : page) :
  (type p = topbottom -> score p = 35%Z)
  /\ (type p = chart -> subType p = Some "performance-summary" -> score p = 25%Z)
  /\ (type p = chart -> subType p <> Some "performance-summary" ->
      (occursIn "Summary" (title p) -> occursIn "School vs State" (title p) ->
       score p = 60%Z)
      /\ (occursIn "Summary" (title p) -> ~ occursIn "School vs State" (title p) ->
          score p = 40%Z)
      /\ (~ occursIn "Summary" (title p) -> occursIn "Breakdown" (title p) ->
          score p = 50%Z)
      /\ (~ occursIn "Summary" (title p) -> ~ occursIn "Breakdown" (title p) ->
          occursIn "School vs State" (title p) -> score p = 20%Z)
      /\ (~ occursIn "Summary" (title p) -> ~ occursIn "Breakdown" (title p) ->
          ~ occursIn "School vs State" (title p) -> score p = 10%Z)).
Proof.
  unfold score, isPerformanceSummary.
  split; [intros ->; reflexivity|].
  split; [intros -> ->; reflexivity|].
  intros -> Hs.
  assert (E : match subType p with
              | Some s => String.eqb s "performance-summary"
              | None => false
              end = false).
  { destruct (subType p) as [s|]; [|reflexivity].
    destruct (String.eqb_spec s "performance-summary"); congruence. }
  rewrite E. rewrite <- !includes_spec.
  destruct (includes (title p) "Summary"), (includes (title p) "School vs State"),
    (includes (title p) "Breakdown"); repeat split; intros; congruence.
Qed.

Lemma lower_score_first (allPages pre post : list page) (p q : page) :
  sortPages allPages = pre ++ q :: post ->
  pageKey p = pageKey q -> (score p < score q)%Z -> ~ In p post.
Proof.
  intros E K S I. pose proof (sortPages_sorted allPages) as H.
  rewrite E in H. apply StronglySorted_app_inv in H.
  inversion H as [|? ? _ F]; subst. rewrite Forall_forall in F.
  specialize (F p I). unfold pageLe in F.
  rewrite K, ltStr_irrefl, String.eqb_refl in F. simpl in F.
  apply Z.leb_le in F. lia.
Qed.

Lemma lower_score_before (allPages : list page) (p q : page) :
  In p allPages -> In q allPages ->
  pageKey p = pageKey q -> (score p < score q)%Z ->
  exists l1 l2 l3, sortPages allPages = l1 ++ p :: l2 ++ q :: l3.
Proof.
  intros Ip Iq K S.
  assert (Perm : Permutation allPages (sortPages allPages))
    by (rewrite sortPages_is_stable_sort; apply arraySort_perm).
  apply (Permutation_in _ Perm) in Ip, Iq.
  destruct (in_split _ _ Iq) as (pre & post & E).
  pose proof (@lower_score_first allPages pre post p q E K S) as N.
  rewrite E in Ip. apply in_app_or in Ip. destruct Ip as [Ip|[Ip|Ip]].
  - destruct (in_split _ _ Ip) as (l1 & l2 & ->).
    exists l1, l2, post. rewrite E, <- app_assoc. reflexivity.
  - subst. lia.
  - contradiction.
Qed.

(** ** The key and the year *)

Lemma sortPages_perm (allPages : list page) : Permutation allPages (sortPages allPages).
Proof. rewrite sortPages_is_stable_sort. apply arraySort_perm. Qed.

(** Under a common prefix strings compare as their remainders do. *)
Lemma compare_common_prefix (s a b : string) :
  String.compare (s ++ a) (s ++ b) = String.compare a b.
Proof.
  induction s as [|c s IH]; simpl; [reflexivity|].
  now rewrite ascii_compare_refl.
Qed.

Lemma ltStr_common_prefix (s a b : string) : ltStr (s ++ a) (s ++ b) = ltStr a b.
Proof. unfold ltStr, String.ltb. now rewrite compare_common_prefix. Qed.

Lemma eqb_common_prefix (s a b : string) :
  String.eqb (s ++ a) (s ++ b) = String.eqb a b.
Proof.
  induction s as [|c s IH]; simpl; [reflexivity|].
  now rewrite Ascii.eqb_refl.
Qed.

Lemma pageLe_same_subject (p q : page) :
  subject p = subject q -> pageLe p q = yearThenScore p q.
Proof.
  intros E. unfold pageLe, yearThenScore, pageKey. rewrite E.
  now rewrite !ltStr_common_prefix, !eqb_common_prefix.
Qed.

Lemma pageKey_same_subject (p q : page) :
  subject p = subject q -> (pageKey p = pageKey q <-> year p = year q).
Proof.
  intros E. unfold pageKey. rewrite E. split; [|now intros ->].
  intros H. apply String.eqb_eq in H. rewrite !eqb_common_prefix in H.
  now apply String.eqb_eq.
Qed.

Lemma StronglySorted_impl {A} (R R' : A -> A -> Prop) (P : A -> Prop) (l : list A) :
  (forall a b, P a -> P b -> R a b -> R' a b) -> Forall P l ->
  StronglySorted R l -> StronglySorted R' l.
Proof.
  intros H F S. induction S as [|a l S IH Ha]; [constructor|].
  inversion F as [|? ? Pa Fl]; subst. constructor; [now apply IH|].
  rewrite Forall_forall in *. intros b Hb. apply H; auto.
Qed.

(** C5.  [sortPages] returns its pages sorted by their key, the subject and
    the year joined by a bar, in ascending order of the keys as strings, and
    inside one key by score, pages of equal key and score keeping their
    encounter order.  For the pages of one subject this is the order of the
    years as strings, then of the scores, and two pages have the same key
    exactly when they have the same year.  The score is 35 for a top/bottom
    page, 25 for a performance-summary chart, then by title 60 for Summary
    with School vs State, 40 for Summary alone, 50 for Breakdown, 20 for
    School vs State alone and 10 otherwise, the first rule that applies
    deciding.  A page of lower score therefore comes before any page of
    higher score of the same subject and year, a breakdown page (50) before
    a summary school-vs-state page (60). *)
Theorem sortPages_policy :
  forall (allPages : list page),
    let out := sortPages allPages in
    Permutation allPages out
    /\ out = arraySort byKeyThenScore allPages
    /\ out = flat_map (sortedGroup allPages) (sortedKeys allPages)
    /\ StronglySorted (fun a b => pageLe a b = true) out
    /\ (forall a, filter (samePlace a) out = filter (samePlace a) allPages)
    /\ (forall p, pageKey p = (subject p ++ "|" ++ year p)%string)
    /\ (forall p q, subject p = subject q ->
          (pageKey p = pageKey q <-> year p = year q)
          /\ pageLe p q
             = (ltStr (year p) (year q)
                || (String.eqb (year p) (year q) && (score p <=? score q)%Z)))
    /\ (forall name, Forall (fun p => subject p = name) allPages ->
          StronglySorted
            (fun a b => ltStr (year a) (year b) = true
                        \/ (year a = year b /\ (score a <= score b)%Z)) out)
    /\ (forall p,
          (type p = topbottom -> score p = 35%Z)
          /\ (type p = chart -> subType p = Some "performance-summary" ->
              score p = 25%Z)
          /\ (type p = chart -> subType p <> Some "performance-summary" ->
              (occursIn "Summary" (title p) ->
               occursIn "School vs State" (title p) -> score p = 60%Z)
              /\ (occursIn "Summary" (title p) ->
                  ~ occursIn "School vs State" (title p) -> score p = 40%Z)
              /\ (~ occursIn "Summary" (title p) ->
                  occursIn "Breakdown" (title p) -> score p = 50%Z)
              /\ (~ occursIn "Summary" (title p) ->
                  ~ occursIn "Breakdown" (title p) ->
                  occursIn "School vs State" (title p) -> score p = 20%Z)
              /\ (~ occursIn "Summary" (title p) ->
                  ~ occursIn "Breakdown" (title p) ->
                  ~ occursIn "School vs State" (title p) -> score p = 10%Z)))
    /\ (forall p q, In p allPages -> In q allPages ->
          subject p = subject q -> year p = year q ->
          (score p < score q)%Z ->
          exists l1 l2 l3, out = l1 ++ p :: l2 ++ q :: l3)
    /\ (forall p q pre post, out = pre ++ q :: post ->
          subject p = subject q -> year p = year q ->
          (score p < score q)%Z -> ~ In p post).
Proof.
  intros allPages out.
  split; [unfold out; rewrite sortPages_is_stable_sort; apply arraySort_perm|].
  split; [apply sortPages_is_stable_sort|].
  split; [apply sortPages_flat_map|].
  split; [apply sortPages_sorted|].
  split; [intros a; apply sortPages_stable|].
  split; [reflexivity|].
  split.
  { intros p q E. split; [now apply pageKey_same_subject|].
    rewrite (pageLe_same_subject _ _ E). reflexivity. }
  split.
  { intros name F.
    assert (F' : Forall (fun p => subject p = name) out).
    { rewrite Forall_forall in *. intros p Hp. apply F.
      apply (Permutation_in p (Permutation_sym (sortPages_perm allPages))). exact Hp. }
    apply (@StronglySorted_impl page (fun a b => pageLe a b = true) _
             (fun p => subject p = name) out); [|exact F'|apply sortPages_sorted].
    intros a b Ha Hb L. rewrite (@pageLe_same_subject a b) in L by congruence.
    unfold yearThenScore in L. apply orb_true_iff in L.
    destruct L as [L|L]; [now left|right].
    apply andb_true_iff in L. destruct L as [L1 L2].
    split; [now apply String.eqb_eq|now apply Z.leb_le]. }
  split; [apply score_table|].
  split.
  { intros p q Hp Hq Es Ey. apply lower_score_before; auto.
    now apply pageKey_same_subject. }
  intros p q pre post E Es Ey.
  apply (@lower_score_first allPages pre post p q E).
  now apply pageKey_same_subject.
Qed.

Lemma sortPages_policy_witness :
  score (samplePage "2023" "Maths - 2023 - QPC Breakdown: Algebra") = 50%Z
  /\ score (samplePage "2023" "Maths - 2023 - QPC Summary (School vs State)") = 60%Z
  /\ exists l1 l2 l3,
       sortPages [samplePage "2023" "Maths - 2023 - QPC Summary (School vs State)";
                  samplePage "2022" "Maths - 2022 - MC";
                  samplePage "2023" "Maths - 2023 - QPC Breakdown: Algebra"]
       = l1 ++ samplePage "2023" "Maths - 2023 - QPC Breakdown: Algebra"
            :: l2 ++ samplePage "2023" "Maths - 2023 - QPC Summary (School vs State)"
            :: l3.
Proof.
  destruct (sortPages_policy
              [samplePage "2023" "Maths - 2023 - QPC Summary (School vs State)";
               samplePage "2022" "Maths - 2022 - MC";
               samplePage "2023" "Maths - 2023 - QPC Breakdown: Algebra"])
    as (_ & _ & _ & _ & _ & _ & _ & _ & Hscore & Hbefore & _).
  destruct (Hscore (samplePage "2023" "Maths - 2023 - QPC Breakdown: Algebra"))
    as (_ & _ & Hb).
  destruct (Hscore (samplePage "2023" "Maths - 2023 - QPC Summary (School vs State)"))
    as (_ & _ & Hs).
  assert (N : forall s, (None : option string) <> Some s) by discriminate.
  destruct (Hb eq_refl (N _)) as (_ & _ & Hb50 & _).
  destruct (Hs eq_refl (N _)) as (Hs60 & _).
  assert (B : score (samplePage "2023" "Maths - 2023 - QPC Breakdown: Algebra") = 50%Z).
  { apply Hb50.
    - intros H. apply includes_spec in H. discriminate H.
    - apply includes_spec. reflexivity. }
  assert (S : score (samplePage "2023" "Maths - 2023 - QPC Summary (School vs State)")
              = 60%Z).
  { apply Hs60; apply includes_spec; reflexivity. }
  split; [exact B|]. split; [exact S|].
  apply Hbefore.
  - right. right. now left.
  - now left.
  - reflexivity.
  - reflexivity.
  - rewrite B, S. lia.
Defined.

(** * Aggregation by tag *)

Lemma isEmpty_true (s : string) : isEmpty s = true <-> s = "".
Proof. destruct s; simpl; split; congruence. Qed.

Section AggregationFacts.
Variable groupCol : tagColumn.

Local Abbreviation tagKey := (fun r => trim (tagOf groupCol r)).

Lemma accumulate_eq (groups : obj bucket) (row : record) :
  accumulate groupCol groups row
  = if isEmpty (tagKey row)
       || (inherited (tagKey row) && negb (has (tagKey row) groups))
    then groups
    else set (tagKey row)
             (addTo (match get (tagKey row) groups with
                     | Some g => g
                     | None => emptyBucket (tagKey row)
                     end) row)
             groups.
Proof.
  unfold accumulate, lookup, has. destruct (isEmpty (tagKey row)); [reflexivity|].
  cbn [orb]. destruct (get (tagKey row) groups) as [g|] eqn:E.
  - rewrite andb_false_r. reflexivity.
  - destruct (inherited (tagKey row)); reflexivity.
Qed.

Lemma noInheritedKey_nil {V : Type} : noInheritedKey (@nil (string * V)).
Proof. intros k _. reflexivity. Qed.

Lemma noInheritedKey_has {V : Type} (o : obj V) (k : string) :
  noInheritedKey o -> inherited k && negb (has k o) = inherited k.
Proof.
  intros H. destruct (inherited k) eqn:I; [|reflexivity].
  unfold has. now rewrite (H k I).
Qed.

Lemma noInheritedKey_accumulate (groups : obj bucket) (row : record) :
  noInheritedKey groups -> noInheritedKey (accumulate groupCol groups row).
Proof.
  intros H k I. rewrite accumulate_eq, (noInheritedKey_has _ H).
  destruct (isEmpty (tagKey row) || inherited (tagKey row)) eqn:C; [now apply H|].
  apply orb_false_iff in C. destruct C as [_ C].
  rewrite get_set_other; [now apply H|]. intros ->. congruence.
Qed.

Lemma noInheritedKey_fold (rows : list record) (groups : obj bucket) :
  noInheritedKey groups -> noInheritedKey (fold_left (accumulate groupCol) rows groups).
Proof.
  revert groups. induction rows as [|r rows IH]; intros groups H; [exact H|].
  simpl. apply IH. now apply noInheritedKey_accumulate.
Qed.

Lemma get_accumulate (groups : obj bucket) (row : record) (k : string) :
  noInheritedKey groups ->
  get k (accumulate groupCol groups row)
  = if negb (isEmpty (tagKey row)) && negb (inherited (tagKey row))
       && String.eqb k (tagKey row)
    then Some (addTo (match get k groups with
                      | Some g => g
                      | None => emptyBucket k
                      end) row)
    else get k groups.
Proof.
  intros H. rewrite accumulate_eq, (noInheritedKey_has _ H).
  destruct (isEmpty (tagKey row)); [reflexivity|].
  destruct (inherited (tagKey row)); [reflexivity|]. simpl.
  rewrite get_set. destruct (String.eqb_spec k (tagKey row)) as [->|N]; reflexivity.
Qed.

Lemma NoDup_keys_accumulate (groups : obj bucket) (row : record) :
  NoDup (keys groups) -> NoDup (keys (accumulate groupCol groups row)).
Proof.
  intros H. rewrite accumulate_eq.
  destruct (isEmpty (tagKey row) || _); [exact H|].
  now apply NoDup_keys_set.
Qed.

Lemma NoDup_keys_fold_accumulate (rows : list record) (groups : obj bucket) :
  NoDup (keys groups) -> NoDup (keys (fold_left (accumulate groupCol) rows groups)).
Proof.
  revert groups. induction rows as [|r rows IH]; intros groups H; [exact H|].
  simpl. apply IH. now apply NoDup_keys_accumulate.
Qed.

Lemma get_fold_accumulate (rows : list record) (groups : obj bucket) (k : string) :
  noInheritedKey groups ->
  get k (fold_left (accumulate groupCol) rows groups)
  = if isEmpty k || inherited k then get k groups
    else match recordsOf groupCol k rows with
         | [] => get k groups
         | rs => Some (fold_left addTo rs (match get k groups with
                                           | Some g => g
                                           | None => emptyBucket k
                                           end))
         end.
Proof.
  revert groups. induction rows as [|r rows IH]; intros groups H.
  - simpl. now destruct (isEmpty k || inherited k).
  - simpl fold_left. rewrite (IH _ (noInheritedKey_accumulate r H)), (get_accumulate r k H).
    unfold recordsOf. simpl filter.
    destruct (String.eqb_spec k (tagKey r)) as [E|N].
    + rewrite <- E. destruct (isEmpty k); [reflexivity|].
      destruct (inherited k); [reflexivity|]. simpl. now destruct (filter _ rows).
    + rewrite andb_false_r. reflexivity.
Qed.

Lemma fold_addTo_fields (rs : list record) (g : bucket) :
  bmax (fold_left addTo rs g) = fold_left JsNumber.add (map Max_Mark rs) (bmax g)
  /\ schoolSum (fold_left addTo rs g)
     = fold_left JsNumber.add (map School_Mean rs) (schoolSum g)
  /\ stateSum (fold_left addTo rs g)
     = fold_left JsNumber.add (map State_Mean rs) (stateSum g)
  /\ count (fold_left addTo rs g) = count g + List.length rs
  /\ blabel (fold_left addTo rs g) = blabel g.
Proof.
  revert g. induction rs as [|r rs IH]; intros g; simpl.
  - repeat split; lia.
  - destruct (IH (addTo g r)) as (H1 & H2 & H3 & H4 & H5).
    rewrite H1, H2, H3, H4, H5. simpl. repeat split; lia.
Qed.

(** A bucket of the final object holds the sums over the records of its tag. *)
Lemma bucket_spec (rows : list record) (k : string) (g : bucket) :
  In (k, g) (fold_left (accumulate groupCol) rows []) ->
  k <> "" /\ inherited k = false /\ recordsOf groupCol k rows <> []
  /\ finalize g
     = {| aggTag := k;
          aggMaxMark := sumOf (map Max_Mark (recordsOf groupCol k rows));
          aggSchoolMean := meanOf (map School_Mean (recordsOf groupCol k rows));
          aggStateMean := meanOf (map State_Mean (recordsOf groupCol k rows)) |}.
Proof.
  intros H. apply In_get in H; [|apply NoDup_keys_fold_accumulate; constructor].
  rewrite (get_fold_accumulate rows k noInheritedKey_nil) in H. simpl get in H.
  destruct (isEmpty k) eqn:Ek; [discriminate|].
  destruct (inherited k) eqn:Ik; [discriminate|]. cbn [orb] in H.
  split; [intros ->; discriminate|]. split; [reflexivity|].
  destruct (recordsOf groupCol k rows) as [|r rs] eqn:E; [discriminate|].
  split; [discriminate|].
  destruct (fold_addTo_fields (r :: rs) (emptyBucket k)) as (H1 & H2 & H3 & H4 & H5).
  remember (fold_left addTo (r :: rs) (emptyBucket k)) as b eqn:Eb.
  injection H as <-.
  unfold finalize, meanOf, sumOf. rewrite H1, H2, H3, H4, H5, !length_map.
  reflexivity.
Qed.

Lemma bucket_exists (rows : list record) (r : record) :
  In r rows -> tagKey r <> "" -> inherited (tagKey r) = false ->
  exists g, In (tagKey r, g) (fold_left (accumulate groupCol) rows []).
Proof.
  intros I N P.
  assert (G : exists g, get (tagKey r) (fold_left (accumulate groupCol) rows [])
                        = Some g).
  { rewrite (get_fold_accumulate rows (tagKey r) noInheritedKey_nil), P.
    destruct (isEmpty (tagKey r)) eqn:E; [apply isEmpty_true in E; contradiction|].
    assert (I' : In r (recordsOf groupCol (tagKey r) rows))
      by (apply filter_In; split; [exact I|apply String.eqb_refl]).
    cbn [orb]. destruct (recordsOf groupCol (tagKey r) rows); [destruct I'|eauto]. }
  destruct G as [g G]. exists g. now apply get_In.
Qed.

(** The records without a tag, and those whose tag is the name of an
    inherited member, leave the buckets as they are. *)
Lemma fold_accumulate_skips (rows : list record) (groups : obj bucket) :
  noInheritedKey groups ->
  fold_left (accumulate groupCol) rows groups
  = fold_left (accumulate groupCol)
              (filter (fun r => hasTag groupCol r && plainTag groupCol r) rows) groups.
Proof.
  revert groups. induction rows as [|r rows IH]; intros groups H; [reflexivity|].
  simpl. unfold hasTag at 1, plainTag at 1.
  pose proof (accumulate_eq groups r) as E. rewrite (noInheritedKey_has _ H) in E.
  destruct (isEmpty (tagKey r)); simpl.
  - rewrite E. now apply IH.
  - destruct (inherited (tagKey r)); simpl.
    + rewrite E. now apply IH.
    + apply IH. now apply noInheritedKey_accumulate.
Qed.

Lemma fold_accumulate_skips_blank (rows : list record) (groups : obj bucket) :
  fold_left (accumulate groupCol) rows groups
  = fold_left (accumulate groupCol) (filter (hasTag groupCol) rows) groups.
Proof.
  revert groups. induction rows as [|r rows IH]; intros groups; [reflexivity|].
  simpl. unfold hasTag at 1. destruct (isEmpty (tagKey r)) eqn:E; simpl.
  - rewrite <- IH. f_equal. unfold accumulate. now rewrite E.
  - apply IH.
Qed.

Lemma fold_accumulate_skips_inherited (rows : list record) :
  fold_left (accumulate groupCol) rows []
  = fold_left (accumulate groupCol) (filter (plainTag groupCol) rows) [].
Proof.
  rewrite (fold_accumulate_skips rows noInheritedKey_nil).
  rewrite (fold_accumulate_skips (filter (plainTag groupCol) rows) noInheritedKey_nil).
  f_equal. induction rows as [|r rows IH]; [reflexivity|]. simpl.
  destruct (plainTag groupCol r) eqn:P; simpl.
  - rewrite P, andb_true_r. destruct (hasTag groupCol r); [now rewrite IH|exact IH].
  - rewrite andb_false_r. exact IH.
Qed.
End AggregationFacts.

Lemma In_aggregateData (rows : list record) (groupCol : tagColumn) (a : aggRow) :
  In a (aggregateData rows groupCol) <->
  exists k g, In (k, g) (fold_left (accumulate groupCol) rows []) /\ a = finalize g.
Proof.
  unfold aggregateData, sortQuestionsNaturally.
  rewrite arraySort_In, in_map_iff. split.
  - intros (g & <- & I). apply In_values in I. destruct I as [k I]. eauto.
  - intros (k & g & I & ->). exists g. split; [reflexivity|].
    apply In_values. eauto.
Qed.

Lemma aggTags_are_keys (rows : list record) (groupCol : tagColumn) :
  map aggTag (map finalize (values (fold_left (accumulate groupCol) rows [])))
  = keys (fold_left (accumulate groupCol) rows []).
Proof.
  unfold values, keys. rewrite !map_map. apply map_ext_in.
  intros [k g] I. simpl.
  destruct (bucket_spec groupCol rows k g I) as (_ & _ & _ & E).
  change (blabel g) with (aggTag (finalize g)). now rewrite E.
Qed.

(** C2.  A tag that is the name of a member of [Object.prototype] gets no
    row: the test [!groups[key]] finds the inherited member and no bucket is
    made.  A record tagged [constructor] alone gives no row at all, and
    added to other records it changes nothing.  No row ever carries such a
    tag, and the records that do can be left out without changing the
    result. *)
Theorem aggregateData_drops_inherited_tag :
  trim (tagOf QPC constructorRecord) = "constructor"
  /\ aggregateData [constructorRecord] QPC = []
  /\ aggregateData (sampleTagged ++ [constructorRecord]) QPC
     = aggregateData sampleTagged QPC
  /\ (forall rows groupCol a,
        In a (aggregateData rows groupCol) -> inherited (aggTag a) = false)
  /\ (forall rows groupCol,
        aggregateData rows groupCol
        = aggregateData (filter (plainTag groupCol) rows) groupCol).
Proof.
  split; [reflexivity|]. split; [reflexivity|]. split; [reflexivity|]. split.
  - intros rows groupCol a Ia. apply In_aggregateData in Ia.
    destruct Ia as (k & g & I & ->).
    destruct (bucket_spec groupCol rows k g I) as (_ & P & _ & E).
    rewrite E. exact P.
  - intros rows groupCol. unfold aggregateData.
    now rewrite <- fold_accumulate_skips_inherited.
Qed.

(** * Chunk reconstruction *)

Lemma substring_all (s : string) : String.substring 0 (String.length s) s = s.
Proof. induction s as [|c s IH]; simpl; [reflexivity|]. now rewrite IH. Qed.

Lemma append_nil_r (s : string) : (s ++ "")%string = s.
Proof. induction s as [|c s IH]; simpl; [reflexivity|]. now rewrite IH. Qed.

Lemma append_assoc (a b c : string) : ((a ++ b) ++ c = a ++ (b ++ c))%string.
Proof. induction a as [|x a IH]; simpl; [reflexivity|]. now rewrite IH. Qed.

Lemma length_append (a b : string) :
  String.length (a ++ b) = String.length a + String.length b.
Proof. induction a as [|x a IH]; simpl; [reflexivity|]. now rewrite IH. Qed.

Lemma substring_skip (p s : string) :
  String.substring (String.length p) (String.length (p ++ s) - String.length p)
                   (p ++ s) = s.
Proof.
  rewrite length_append. replace (String.length p + String.length s - String.length p)
    with (String.length s) by lia.
  induction p as [|c p IH]; simpl; [apply substring_all|exact IH].
Qed.

Lemma removeFirst_unfold (s pat : string) :
  removeFirst s pat
  = if String.prefix pat s
    then String.substring (String.length pat) (String.length s - String.length pat) s
    else match s with
         | EmptyString => EmptyString
         | String c s' => String c (removeFirst s' pat)
         end.
Proof. destruct s; reflexivity. Qed.

Lemma removeFirst_prefix (p s : string) : removeFirst (p ++ s) p = s.
Proof.
  assert (H : String.prefix p (p ++ s) = true) by (apply prefix_spec; eauto).
  rewrite removeFirst_unfold, H. apply substring_skip.
Qed.

Lemma isChunkKey_spec (k : string) :
  isChunkKey k = true <->
  exists ds, k = ("HSC_BASE64_" ++ ds)%string /\ ds <> ""
             /\ allChars isDigit ds = true.
Proof.
  unfold isChunkKey, startsWith. rewrite andb_true_iff, prefix_spec. split.
  - intros [[ds ->] H].
    change 11 with (String.length "HSC_BASE64_") in H.
    rewrite substring_skip in H. apply andb_true_iff in H. destruct H as [H1 H2].
    exists ds. split; [reflexivity|]. split; [|exact H2].
    intros ->. discriminate.
  - intros (ds & -> & N & D). split; [eauto|].
    change 11 with (String.length "HSC_BASE64_").
    rewrite substring_skip, D. destruct ds; [congruence|reflexivity].
Qed.

Lemma Qred_inject_Z (z : Z) : Qred (inject_Z z) = inject_Z z.
Proof.
  unfold Qred, inject_Z.
  pose proof (Z.ggcd_gcd z 1) as G. pose proof (Z.ggcd_correct_divisors z 1) as D.
  destruct (Z.ggcd z 1) as [g [aa bb]]. simpl in G, D.
  rewrite Z.gcd_1_r in G. subst g. destruct D as [D1 D2].
  assert (Ea : z = aa) by lia. assert (Eb : bb = 1%Z) by lia.
  rewrite Ea, Eb. reflexivity.
Qed.

(** A number that is an integer or an infinity. *)
Lemma toDouble_integral (n : N) : toDouble n = PosInf \/ exists z, toDouble n = JsNumber.ofZ z.
Proof.
  destruct (toDouble_value n) as [H|(m & H & _)]; [now left|right].
  exists (Z.of_N m). exact H.
Qed.

Lemma chunkNumber_integer (k : string) :
  chunkNumber k = PosInf \/ chunkNumber k = NegInf
  \/ exists z, chunkNumber k = JsNumber.ofZ z.
Proof.
  unfold chunkNumber, JsNumber.orElse, parseInt.
  destruct (readSign _) as [negative s2]. destruct (readRadix s2) as [radix s3].
  destruct (parseDigits radix None s3) as [v|]; simpl; [|right; right; now exists 0%Z].
  destruct (toDouble_integral v) as [E|[z E]]; rewrite E; destruct negative; simpl.
  - right. now left.
  - now left.
  - destruct (negb (Qeq_bool _ 0)); right; right; eauto.
    exists (- z)%Z. unfold JsNumber.ofZ. f_equal.
    change (- inject_Z z)%Q with (inject_Z (- z)). apply Qred_inject_Z.
  - destruct (negb (Qeq_bool _ 0)); right; right; eauto.
Qed.

Lemma chunkNumber_notNaN (k : string) : JsNumber.isNaN (chunkNumber k) = false.
Proof.
  destruct (chunkNumber_integer k) as [->|[->|[z ->]]]; reflexivity.
Qed.

Lemma chunkNumber_digits (ds : string) :
  ds <> "" -> allChars isDigit ds = true ->
  chunkNumber ("HSC_BASE64_" ++ ds) = toDouble (integerValue ds).
Proof.
  intros N D. unfold chunkNumber. rewrite removeFirst_prefix, (parseInt_digits N D).
  unfold JsNumber.orElse.
  destruct (toDouble_value (integerValue ds)) as [->|(m & -> & Z)]; [reflexivity|].
  unfold JsNumber.ofN, JsNumber.ofZ, JsNumber.truthy.
  destruct (Qeq_bool (inject_Z (Z.of_N m)) 0) eqn:E; [|reflexivity].
  apply Qeq_bool_iff in E. unfold Qeq in E. simpl in E.
  assert (Z0 : Z.of_N m = 0%Z) by lia.
  rewrite Z0. reflexivity.
Qed.

Lemma byChunkNumber_le (a b : string) :
  sortsAfter byChunkNumber a b = negb (leNum (chunkNumber a) (chunkNumber b)).
Proof.
  unfold sortsAfter, byChunkNumber, leNum.
  rewrite NumFacts.isPositive_sub by apply chunkNumber_notNaN.
  now rewrite negb_involutive.
Qed.

Lemma sortedChunkKeys_sorted (ks : list string) :
  StronglySorted (fun a b => leNum (chunkNumber a) (chunkNumber b) = true)
                 (arraySort byChunkNumber ks).
Proof.
  apply (@arraySort_sorted string byChunkNumber (fun _ => True)
           (fun a b => leNum (chunkNumber a) (chunkNumber b))).
  - intros a b _ _. apply byChunkNumber_le.
  - intros a b _ _. apply NumFacts.leNum_total.
  - intros a b c _ _ _. apply NumFacts.leNum_trans, chunkNumber_notNaN.
  - apply Forall_forall. auto.
Qed.

Lemma sortedChunkKeys_stable (a : string) (ks : list string) :
  filter (fun b => JsNumber.strictEq (chunkNumber a) (chunkNumber b))
         (arraySort byChunkNumber ks)
  = filter (fun b => JsNumber.strictEq (chunkNumber a) (chunkNumber b)) ks.
Proof.
  pose proof (@arraySort_stable string byChunkNumber (fun _ => True)
                (fun a b => leNum (chunkNumber a) (chunkNumber b))
                (fun a b _ _ => byChunkNumber_le a b)) as S.
  assert (T : forall a b c : string, True -> True -> True ->
                leNum (chunkNumber a) (chunkNumber b) = true ->
                leNum (chunkNumber b) (chunkNumber c) = true ->
                leNum (chunkNumber a) (chunkNumber c) = true)
    by (intros x y z _ _ _; apply NumFacts.leNum_trans, chunkNumber_notNaN).
  specialize (S T a ks I (proj2 (Forall_forall _ _) (fun _ _ => I))).
  assert (E : forall l,
             filter (fun b => JsNumber.strictEq (chunkNumber a) (chunkNumber b)) l
             = filter (equivb (fun a b => leNum (chunkNumber a) (chunkNumber b)) a) l).
  { intros l. apply filter_ext. intros b. unfold equivb.
    apply NumFacts.strictEq_leNum; apply chunkNumber_notNaN. }
  rewrite !E. exact S.
Qed.

Lemma concat_cons (x : string) (xs : list string) :
  String.concat "" (x :: xs) = (x ++ String.concat "" xs)%string.
Proof. destruct xs; simpl; [now rewrite append_nil_r|reflexivity]. Qed.

Lemma concat_skip_empty (l : list string) :
  String.concat "" (filter (fun s => negb (isEmpty s)) l) = String.concat "" l.
Proof.
  induction l as [|x l IH]; [reflexivity|]. simpl filter.
  destruct x as [|c x]; simpl negb; cbv iota.
  - now rewrite concat_cons, IH.
  - now rewrite !concat_cons, IH.
Qed.

Lemma filter_nonempty_nil (l : list string) :
  filter (fun s => negb (isEmpty s)) l = [] <-> String.concat "" l = "".
Proof.
  induction l as [|x l IH]; [simpl; tauto|]. rewrite concat_cons.
  destruct x as [|c x]; simpl; [exact IH|]. split; discriminate.
Qed.

Lemma Permutation_filter {A} (f : A -> bool) (l l' : list A) :
  Permutation l l' -> Permutation (filter f l) (filter f l').
Proof.
  induction 1 as [|x l l' H IH|x y l|l l' l'' H1 IH1 H2 IH2]; simpl.
  - constructor.
  - destruct (f x); [now constructor|exact IH].
  - destruct (f x), (f y); try apply Permutation_refl. apply perm_swap.
  - eapply perm_trans; eauto.
Qed.

Lemma strictEq_ofZ (z1 z2 : Z) :
  JsNumber.strictEq (JsNumber.ofZ z1) (JsNumber.ofZ z2) = true -> z1 = z2.
Proof.
  intros H. change (Qeq_bool (inject_Z z1) (inject_Z z2) = true) in H.
  apply Qeq_bool_iff in H. apply inject_Z_injective. exact H.
Qed.

Lemma strictEq_integral (a b : number) :
  (a = PosInf \/ a = NegInf \/ exists z, a = JsNumber.ofZ z) ->
  (b = PosInf \/ b = NegInf \/ exists z, b = JsNumber.ofZ z) ->
  JsNumber.strictEq a b = true -> a = b.
Proof.
  intros [->|[->|[za ->]]] [->|[->|[zb ->]]] H; try reflexivity; try discriminate H.
  apply strictEq_ofZ in H. now subst.
Qed.

(** Two permutations of keys with distinct chunk numbers sort alike. *)
Lemma sortedChunkKeys_perm (ks ks' : list string) :
  Permutation ks ks' -> NoDup (map chunkNumber ks) ->
  arraySort byChunkNumber ks' = arraySort byChunkNumber ks.
Proof.
  intros Perm ND.
  apply (@arraySort_unique string byChunkNumber (fun _ => True)
           (fun a b => leNum (chunkNumber a) (chunkNumber b))).
  - intros a b _ _. apply byChunkNumber_le.
  - intros a b _ _. apply NumFacts.leNum_total.
  - intros a b c _ _ _. apply NumFacts.leNum_trans, chunkNumber_notNaN.
  - apply Forall_forall. auto.
  - apply Forall_forall. auto.
  - apply sortedChunkKeys_sorted.
  - intros a _.
    set (p := equivb (fun a b => leNum (chunkNumber a) (chunkNumber b)) a).
    assert (Hp : forall x y, p x = true -> p y = true -> chunkNumber x = chunkNumber y).
    { intros x y Hx Hy. unfold p, equivb in *.
      rewrite <- NumFacts.strictEq_leNum in Hx, Hy by apply chunkNumber_notNaN.
      transitivity (chunkNumber a); [symmetry|];
        apply strictEq_integral; auto using chunkNumber_integer. }
    assert (Short : forall l, NoDup (map chunkNumber l) ->
                      List.length (filter p l) <= 1).
    { intros l Hl.
      assert (N : NoDup (map chunkNumber (filter p l))).
      { clear -Hl. induction l as [|x l IH]; simpl; [constructor|].
        inversion Hl as [|? ? Hx Hl']; subst.
        destruct (p x); simpl; [|auto]. constructor; [|auto].
        intros I. apply Hx. apply in_map_iff in I. destruct I as (y & E & I).
        apply filter_In in I. apply in_map_iff. exists y. tauto. }
      destruct (filter p l) as [|x [|y r]] eqn:E; simpl; try lia.
      exfalso. inversion N as [|? ? Hx _]; subst. apply Hx. simpl. left.
      assert (Ix : In x (filter p l)) by (rewrite E; now left).
      assert (Iy : In y (filter p l)) by (rewrite E; right; now left).
      apply filter_In in Ix, Iy. symmetry. apply Hp; tauto. }
    assert (P1 : Permutation (filter p (arraySort byChunkNumber ks)) (filter p ks'))
      by (apply Permutation_filter;
          eapply perm_trans; [apply Permutation_sym, arraySort_perm|exact Perm]).
    assert (L1 : List.length (filter p ks') <= 1).
    { apply Short. eapply Permutation_NoDup; [|exact ND].
      now apply Permutation_map. }
    pose proof (Permutation_length P1) as Len.
    destruct (filter p (arraySort byChunkNumber ks)) as [|x [|? ?]],
      (filter p ks') as [|y [|? ?]]; simpl in *; try lia; try reflexivity.
    now rewrite (Permutation_length_1 P1).
Qed.

Lemma getVal_perm (row row' : obj value) (k : string) :
  NoDup (keys row) -> Permutation row row' -> getVal row' k = getVal row k.
Proof.
  intros ND Perm. unfold getVal.
  assert (ND' : NoDup (keys row'))
    by (eapply Permutation_NoDup; [apply Permutation_map, Perm|exact ND]).
  destruct (get k row) as [v|] eqn:E.
  - apply get_In in E. apply (Permutation_in _ Perm) in E.
    now rewrite (@In_get _ k v row' ND' E).
  - destruct (get k row') as [v|] eqn:E'; [|reflexivity].
    apply get_In in E'. apply (Permutation_in _ (Permutation_sym Perm)) in E'.
    rewrite (@In_get _ k v row ND E') in E. discriminate.
Qed.

Section ChunkFacts.
Variable number_to_string : number -> string.

Local Abbreviation validate := (validateChunks number_to_string).
Local Abbreviation lengthOf := (chunkLength number_to_string).
Local Abbreviation total := (totalLengthOf number_to_string).
Local Abbreviation ok := (acceptable number_to_string).

Lemma validateChunks_step (row : obj value) (k : string) (rest : list string) (t : N) :
  validate row (k :: rest) t
  = if ok row k
    then if (MAX_SAFE_SIZE <? t + lengthOf row k)%N then (t, [])
         else (fst (validate row rest (t + lengthOf row k)%N),
               k :: snd (validate row rest (t + lengthOf row k)%N))
    else validate row rest t.
Proof.
  simpl. unfold acceptable, chunkLength.
  destruct (truthy (getVal row k)); simpl; [|reflexivity].
  destruct (N.ltb_spec MAX_CHUNK_SIZE (len (ToString number_to_string (getVal row k))));
    destruct (N.leb_spec (len (ToString number_to_string (getVal row k))) MAX_CHUNK_SIZE);
    try lia; try reflexivity.
  destruct (MAX_SAFE_SIZE <? _)%N; [reflexivity|].
  now destruct (validate row rest _).
Qed.

(** The first pass accepts the acceptable chunks in order, up to the first
    one that would take the running total over the limit. *)
Lemma validateChunks_spec (row : obj value) (ks : list string) (t : N) :
  fst (validate row ks t) = (t + total row (snd (validate row ks t)))%N
  /\ ((t <= MAX_SAFE_SIZE)%N -> (fst (validate row ks t) <= MAX_SAFE_SIZE)%N)
  /\ (snd (validate row ks t) = filter (ok row) ks
      \/ exists pre k0 post,
           ks = pre ++ k0 :: post /\ ok row k0 = true
           /\ snd (validate row ks t) = filter (ok row) pre
           /\ (MAX_SAFE_SIZE < t + total row (filter (ok row) pre) + lengthOf row k0)%N).
Proof.
  revert t. induction ks as [|k rest IH]; intros t.
  - simpl. split; [lia|]. split; [auto|]. now left.
  - rewrite validateChunks_step. simpl filter.
    destruct (ok row k) eqn:A.
    + destruct (N.ltb_spec MAX_SAFE_SIZE (t + lengthOf row k)) as [L|L]; simpl.
      * split; [lia|]. split; [auto|]. right.
        exists [], k, rest. simpl. repeat split; auto. lia.
      * destruct (IH (t + lengthOf row k)%N) as (H1 & H2 & H3).
        split; [rewrite H1; lia|]. split; [auto|].
        destruct H3 as [H3|(pre & k0 & post & E & A0 & H3 & H4)].
        -- left. now rewrite H3.
        -- right. exists (k :: pre), k0, post. simpl. rewrite A.
           repeat split; auto; [now rewrite E|now rewrite H3|simpl; lia].
    + destruct (IH t) as (H1 & H2 & H3).
      split; [exact H1|]. split; [exact H2|].
      destruct H3 as [H3|(pre & k0 & post & E & A0 & H3 & H4)].
      * now left.
      * right. exists (k :: pre), k0, post. simpl. rewrite A.
        repeat split; auto. now rewrite E.
Qed.

Lemma validKeys_accepted (row : obj value) (ks : list string) (t : N) (k : string) :
  In k (snd (validate row ks t)) -> In k ks /\ ok row k = true.
Proof.
  intros I.
  destruct (validateChunks_spec row ks t) as (_ & _ & [H|(pre & k0 & post & E & _ & H & _)]);
    rewrite H in I; apply filter_In in I; destruct I as [I A]; split; auto.
  rewrite E. apply in_or_app. now left.
Qed.

Lemma validateChunks_ext (row row' : obj value) (ks : list string) (t : N) :
  (forall k, getVal row' k = getVal row k) ->
  validate row' ks t = validate row ks t.
Proof.
  intros H. revert t. induction ks as [|k rest IH]; intros t; simpl; [reflexivity|].
  rewrite H. destruct (truthy (getVal row k)); [|apply IH].
  destruct (MAX_CHUNK_SIZE <? _)%N; [apply IH|].
  destruct (MAX_SAFE_SIZE <? _)%N; [reflexivity|]. now rewrite IH.
Qed.

(** The value returned, from the keys the first pass accepts. *)
Lemma reconstructBase64_result (row : obj value) :
  reconstructBase64 number_to_string (Some row)
  = let text := String.concat ""
                  (map (chunkText number_to_string row)
                       (validKeys number_to_string row)) in
    if isEmpty text then None else Some (withPrefix text).
Proof.
  unfold reconstructBase64, validKeys, consideredKeys. cbv zeta.
  remember (arraySort byChunkNumber (filter isChunkKey (keys row))) as b eqn:Eb.
  remember (snd (validate row (sliceFirst MAX_CHUNKS b) 0)) as valid eqn:Ev.
  assert (T : map (fun k => trim (ToString number_to_string (orEmpty (getVal row k))))
                  valid
              = map (chunkText number_to_string row) valid).
  { apply map_ext_in. intros k I. rewrite Ev in I. apply validKeys_accepted in I.
    destruct I as [_ A]. unfold acceptable in A. apply andb_true_iff in A.
    unfold orEmpty, chunkText. now rewrite (proj1 A). }
  rewrite T.
  remember (map (chunkText number_to_string row) valid) as texts eqn:Et.
  destruct b as [|k0 b'].
  { unfold sliceFirst in Ev. rewrite firstn_nil in Ev. simpl in Ev.
    subst valid texts. reflexivity. }
  simpl Nat.eqb. cbv iota.
  destruct valid as [|v0 valid'].
  { subst texts. reflexivity. }
  simpl Nat.eqb. cbv iota.
  pose proof (filter_nonempty_nil texts) as FN.
  rewrite concat_skip_empty.
  destruct (filter (fun val => negb (isEmpty val)) texts) as [|p0 parts] eqn:EP.
  - simpl. rewrite (proj1 FN eq_refl). reflexivity.
  - simpl Nat.eqb. cbv iota.
    destruct (String.concat "" texts) as [|c rest] eqn:EC.
    + exfalso. pose proof (proj2 FN eq_refl) as C. discriminate C.
    + unfold withPrefix.
      remember (startsWith (String c rest) "data:image") as sw eqn:Esw.
      cbn [isEmpty negb andb]. destruct sw; reflexivity.
Qed.
End ChunkFacts.

Lemma reconstructBase64_perm (number_to_string : number -> string)
  (row row' : obj value) :
  NoDup (keys row) -> Permutation row row' ->
  NoDup (map chunkNumber (filter isChunkKey (keys row))) ->
  reconstructBase64 number_to_string (Some row')
  = reconstructBase64 number_to_string (Some row).
Proof.
  intros ND Perm NDc.
  assert (G : forall k, getVal row' k = getVal row k)
    by (intros k; now apply getVal_perm).
  assert (C : consideredKeys row' = consideredKeys row).
  { unfold consideredKeys. f_equal. apply sortedChunkKeys_perm; [|exact NDc].
    apply Permutation_filter. unfold keys. now apply Permutation_map. }
  assert (V : validKeys number_to_string row' = validKeys number_to_string row).
  { unfold validKeys. rewrite C. now rewrite (validateChunks_ext _ _ _ _ _ G). }
  rewrite !reconstructBase64_result. cbv zeta. rewrite V.
  rewrite (map_ext (chunkText number_to_string row') (chunkText number_to_string row))
    by (intros k; unfold chunkText; now rewrite G).
  reflexivity.
Qed.

(** C4, as amended.  Only the fields named [HSC_BASE64_] followed by digits
    count; they are sorted by the number [parseInt] reads from their digits,
    the double of the integer they denote (the integer itself up to
    [2^53]), fields with the same number keeping their enumeration order,
    and the first 200 are looked at.  Of these the first pass accepts the
    truthy chunks of at most 500 KiB, in order, until one would take the
    running total over 50 MiB, which ends the pass.  The result is the concatenation of the trimmed
    strings of the accepted chunks, with the PNG prefix added unless the
    text starts with [data:image], and [null] when that text is empty, so
    also when no chunk is accepted.  With distinct suffix numbers the result
    does not depend on the order in which the fields are declared. *)
Theorem reconstructBase64_bounded :
  forall (number_to_string : number -> string) (row : obj value),
    let candidates := filter isChunkKey (keys row) in
    let sorted := arraySort byChunkNumber candidates in
    let considered := consideredKeys row in
    let valid := validKeys number_to_string row in
    let text := String.concat "" (map (chunkText number_to_string row) valid) in
    (forall k, isChunkKey k = true <->
               exists ds, k = ("HSC_BASE64_" ++ ds)%string /\ ds <> ""
                          /\ allChars isDigit ds = true)
    /\ (forall ds, ds <> "" -> allChars isDigit ds = true ->
          chunkNumber ("HSC_BASE64_" ++ ds) = toDouble (integerValue ds))
    /\ (forall n, (n <= 2 ^ 53)%N -> toDouble n = JsNumber.ofN n)
    /\ Permutation candidates sorted
    /\ StronglySorted (fun a b => leNum (chunkNumber a) (chunkNumber b) = true) sorted
    /\ (forall a, filter (fun b => JsNumber.strictEq (chunkNumber a) (chunkNumber b))
                         sorted
                  = filter (fun b => JsNumber.strictEq (chunkNumber a) (chunkNumber b))
                           candidates)
    /\ considered = firstn 200 sorted
    /\ List.length considered <= 200
    /\ (forall k, In k valid ->
          In k considered /\ truthy (getVal row k) = true
          /\ (chunkLength number_to_string row k <= 500 * 1024)%N)
    /\ (totalLengthOf number_to_string row valid <= 50 * 1024 * 1024)%N
    /\ (valid = filter (acceptable number_to_string row) considered
        \/ exists pre k0 post,
             considered = pre ++ k0 :: post
             /\ acceptable number_to_string row k0 = true
             /\ valid = filter (acceptable number_to_string row) pre
             /\ (50 * 1024 * 1024
                 < totalLengthOf number_to_string row valid
                   + chunkLength number_to_string row k0)%N)
    /\ reconstructBase64 number_to_string (Some row)
       = (if isEmpty text then None else Some (withPrefix text))
    /\ (valid = [] -> reconstructBase64 number_to_string (Some row) = None)
    /\ reconstructBase64 number_to_string None = None
    /\ (forall s, withPrefix s
                  = if startsWith s "data:image" then s
                    else ("data:image/png;base64," ++ s)%string)
    /\ (forall row', NoDup (keys row) -> Permutation row row' ->
          NoDup (map chunkNumber candidates) ->
          reconstructBase64 number_to_string (Some row')
          = reconstructBase64 number_to_string (Some row)).
Proof.
  intros nts row candidates sorted considered valid text.
  pose proof (validateChunks_spec nts row considered 0) as (H1 & H2 & H3).
  fold valid in H1, H3. change (snd (validateChunks nts row considered 0)) with valid in *.
  split; [apply isChunkKey_spec|].
  split; [apply chunkNumber_digits|].
  split; [apply toDouble_exact|].
  split; [apply arraySort_perm|].
  split; [apply sortedChunkKeys_sorted|].
  split; [intros a; apply sortedChunkKeys_stable|].
  split; [reflexivity|].
  split; [apply firstn_le_length|].
  split.
  { intros k I. apply validKeys_accepted in I. destruct I as [I A].
    split; [exact I|]. unfold acceptable in A. apply andb_true_iff in A.
    split; [tauto|]. apply N.leb_le. tauto. }
  split.
  { assert (B : (0 <= MAX_SAFE_SIZE)%N) by apply N.le_0_l.
    specialize (H2 B). rewrite H1 in H2. exact H2. }
  split.
  { destruct H3 as [H3|(pre & k0 & post & E & A & H3 & H4)]; [now left|].
    right. exists pre, k0, post. rewrite H3. auto. }
  split; [apply reconstructBase64_result|].
  split.
  { intros E. rewrite reconstructBase64_result. fold valid. now rewrite E. }
  split; [reflexivity|]. split; [reflexivity|].
  intros row'. apply reconstructBase64_perm.
Qed.

Lemma reconstructBase64_bounded_witness :
  reconstructBase64 integerToString (Some sampleChunks)
  = Some "data:image/png;base64,BCA"
  /\ reconstructBase64 integerToString (Some (rev sampleChunks))
     = reconstructBase64 integerToString (Some sampleChunks)
  /\ (forall k, In k (validKeys integerToString sampleChunks) ->
                truthy (getVal sampleChunks k) = true).
Proof.
  destruct (reconstructBase64_bounded integerToString sampleChunks)
    as (_ & _ & _ & _ & _ & _ & _ & _ & Hv & _ & _ & Hr & _ & _ & _ & Hp).
  split; [rewrite Hr; reflexivity|]. split.
  - apply Hp.
    + vm_compute. repeat constructor; simpl; intuition discriminate.
    + apply Permutation_rev.
    + vm_compute. repeat constructor; simpl; intuition discriminate.
  - intros k I. exact (proj1 (proj2 (Hv k I))).
Defined.

(** C4 as stated fails: the chunks are trimmed before they are joined, and
    a chunk made of white space passes the first pass yet gives [null].
    Above [2^53] two suffixes can read as the same number: the fields then
    stay in the order of their declaration, the greater suffix first
    here. *)
Lemma reconstructBase64_trims_counterexample :
  let row := [("HSC_BASE64_0", VStr " A")] in
  let blank := [("HSC_BASE64_0", VStr "  ")] in
  validKeys integerToString row = ["HSC_BASE64_0"]
  /\ reconstructBase64 integerToString (Some row) = Some "data:image/png;base64,A"
  /\ untrimmedReconstruction integerToString row = Some "data:image/png;base64, A"
  /\ reconstructBase64 integerToString (Some row)
     <> untrimmedReconstruction integerToString row
  /\ validKeys integerToString blank = ["HSC_BASE64_0"]
  /\ reconstructBase64 integerToString (Some blank) = None
  /\ reconstructBase64 integerToString
       (Some [("HSC_BASE64_9007199254740993", VStr "A");
              ("HSC_BASE64_9007199254740992", VStr "B")])
     = Some "data:image/png;base64,AB".
Proof.
  cbv zeta. split; [reflexivity|]. split; [reflexivity|]. split; [reflexivity|].
  split; [discriminate|]. split; [reflexivity|]. split; [reflexivity|].
  vm_compute. reflexivity.
Qed.

(** * More on [trim] *)

Lemma trimEnd_cons (c : ascii) (s : string) :
  isWhiteSpace c = false -> trimEnd (String c s) = String c (trimEnd s).
Proof. intros H. simpl. rewrite H. now destruct (trimEnd s). Qed.

Lemma trimEnd_idempotent (s : string) : trimEnd (trimEnd s) = trimEnd s.
Proof.
  induction s as [|c s IH]; [reflexivity|]. simpl.
  destruct (trimEnd s) as [|d t] eqn:E.
  - destruct (isWhiteSpace c) eqn:W; [reflexivity|]. simpl. now rewrite W.
  - simpl in IH |- *. rewrite IH. reflexivity.
Qed.

Lemma trimStart_head (s : string) :
  match trimStart s with
  | EmptyString => True
  | String c _ => isWhiteSpace c = false
  end.
Proof.
  induction s as [|c s IH]; simpl; [exact I|].
  destruct (isWhiteSpace c) eqn:W; [exact IH|exact W].
Qed.

Lemma trimStart_fixed (c : ascii) (s : string) :
  isWhiteSpace c = false -> trimStart (String c s) = String c s.
Proof. intros H. simpl. now rewrite H. Qed.

Lemma trim_cases (s : string) :
  trim s = "" \/ exists c t, trimStart s = String c t /\ isWhiteSpace c = false
                             /\ trim s = String c (trimEnd t).
Proof.
  unfold trim. pose proof (trimStart_head s) as H.
  destruct (trimStart s) as [|c t]; [now left|right].
  exists c, t. repeat split; auto. now apply trimEnd_cons.
Qed.

Lemma trim_idempotent (s : string) : trim (trim s) = trim s.
Proof.
  destruct (trim_cases s) as [->|(c & t & _ & W & ->)]; [reflexivity|].
  unfold trim. rewrite (trimStart_fixed _ _ W), (trimEnd_cons _ _ W).
  now rewrite trimEnd_idempotent.
Qed.

Lemma length_trimStart (s : string) : String.length (trimStart s) <= String.length s.
Proof.
  induction s as [|c s IH]; simpl; [lia|].
  destruct (isWhiteSpace c); simpl; lia.
Qed.

Lemma length_trimEnd (s : string) : String.length (trimEnd s) <= String.length s.
Proof.
  induction s as [|c s IH]; simpl; [lia|].
  destruct (trimEnd s); [destruct (isWhiteSpace c)|]; simpl in *; lia.
Qed.

Lemma length_trim (s : string) : String.length (trim s) <= String.length s.
Proof.
  unfold trim. etransitivity; [apply length_trimEnd|apply length_trimStart].
Qed.

(** White space around a string that neither starts nor ends with white
    space is what [trim] removes. *)
Lemma trimStart_spaces (w s : string) :
  allChars isWhiteSpace w = true -> trimStart (w ++ s)%string = trimStart s.
Proof.
  induction w as [|c w IH]; simpl; [reflexivity|].
  intros H. apply andb_true_iff in H. destruct H as [-> H]. auto.
Qed.

Lemma trimEnd_spaces (w : string) :
  allChars isWhiteSpace w = true -> trimEnd w = "".
Proof.
  induction w as [|c w IH]; simpl; [reflexivity|].
  intros H. apply andb_true_iff in H. destruct H as [-> H]. now rewrite IH.
Qed.

Lemma trimEnd_append (s w : string) :
  allChars isWhiteSpace w = true -> trimEnd (s ++ w)%string = trimEnd s.
Proof.
  intros H. induction s as [|c s IH]; simpl.
  - now apply trimEnd_spaces.
  - now rewrite IH.
Qed.

Lemma trim_padding (w1 w2 s : string) :
  allChars isWhiteSpace w1 = true -> allChars isWhiteSpace w2 = true ->
  trim (w1 ++ s ++ w2)%string = trim s.
Proof.
  intros H1 H2. unfold trim. rewrite (trimStart_spaces _ _ H1).
  destruct s as [|c s]; simpl.
  - destruct (trimStart w2) eqn:E; [reflexivity|].
    pose proof (trimStart_spaces w2 "" H2) as T. rewrite append_nil_r in T.
    rewrite T in E. discriminate.
  - destruct (isWhiteSpace c) eqn:W.
    + clear W. induction s as [|d s IH]; simpl.
      * pose proof (trimStart_spaces w2 "" H2) as T. rewrite append_nil_r in T.
        now rewrite T.
      * destruct (isWhiteSpace d); [exact IH|].
        change (String d (s ++ w2)) with (String d s ++ w2)%string.
        now apply trimEnd_append.
    + change (String c (s ++ w2)) with (String c s ++ w2)%string.
      now apply trimEnd_append.
Qed.

(** * More on [arraySort] *)

(** A predicate that holds of elements with the same image under [f] only,
    on a list whose images are distinct, selects one element at most. *)
Lemma filter_short {A B} (f : A -> B) (p : A -> bool) (l : list A) :
  NoDup (map f l) ->
  (forall x y, p x = true -> p y = true -> f x = f y) ->
  List.length (filter p l) <= 1.
Proof.
  intros ND Hp.
  assert (N : NoDup (map f (filter p l))).
  { clear Hp. induction l as [|x l IH]; simpl; [constructor|].
    inversion ND as [|? ? Hx Hl']; subst.
    destruct (p x); simpl; [|auto]. constructor; [|auto].
    intros I. apply Hx. apply in_map_iff in I. destruct I as (y & E & I).
    apply filter_In in I. apply in_map_iff. exists y. tauto. }
  destruct (filter p l) as [|x [|y r]] eqn:E; simpl; try lia.
  exfalso. inversion N as [|? ? Hx _]; subst. apply Hx. simpl. left.
  assert (Ix : In x (filter p l)) by (rewrite E; now left).
  assert (Iy : In y (filter p l)) by (rewrite E; right; now left).
  apply filter_In in Ix, Iy. symmetry. apply Hp; tauto.
Qed.

Lemma Permutation_short {A} (l l' : list A) :
  Permutation l l' -> List.length l <= 1 -> l = l'.
Proof.
  intros Perm Len. pose proof (Permutation_length Perm) as E.
  destruct l as [|x [|? ?]], l' as [|y [|? ?]]; simpl in *; try lia; try reflexivity.
  now rewrite (Permutation_length_1 Perm).
Qed.

Section MoreArraySortFacts.
Context {A : Type}.
Variable comparefn : A -> A -> number.
Variable P : A -> Prop.
Variable le : A -> A -> bool.
Hypothesis le_spec :
  forall a b, P a -> P b -> sortsAfter comparefn a b = negb (le a b).
Hypothesis le_total : forall a b, P a -> P b -> le a b = true \/ le b a = true.
Hypothesis le_trans :
  forall a b c, P a -> P b -> P c ->
                le a b = true -> le b c = true -> le a c = true.

(** A sorted array is left as it is. *)
Lemma arraySort_fixed (l : list A) :
  Forall P l -> sortedBy le l -> arraySort comparefn l = l.
Proof.
  intros Hl Hs. apply (@arraySort_unique A comparefn P le le_spec le_total le_trans); auto.
Qed.

Lemma arraySort_idempotent (l : list A) :
  Forall P l ->
  arraySort comparefn (arraySort comparefn l) = arraySort comparefn l.
Proof.
  intros Hl. apply arraySort_fixed.
  - now apply Forall_arraySort.
  - now apply (@arraySort_sorted A comparefn P le le_spec le_total le_trans).
Qed.

(** When no two elements are equivalent, the result does not depend on the
    order of the input. *)
Lemma arraySort_order_independent (l l' : list A) :
  Forall P l -> Permutation l l' ->
  (forall a, P a -> List.length (filter (equivb le a) l) <= 1) ->
  arraySort comparefn l' = arraySort comparefn l.
Proof.
  intros Hl Perm Short.
  assert (Hl' : Forall P l') by (eapply Permutation_Forall; eauto).
  apply (@arraySort_unique A comparefn P le le_spec le_total le_trans); auto.
  - now apply Forall_arraySort.
  - now apply (@arraySort_sorted A comparefn P le le_spec le_total le_trans).
  - intros a Pa. rewrite (@arraySort_stable A comparefn P le le_spec le_trans) by assumption.
    apply Permutation_short; [|now apply Short].
    now apply Permutation_filter.
Qed.
End MoreArraySortFacts.

(** * Natural sort: fixed points and ties *)

Lemma trimEnd_no_spaces (s : string) :
  allChars (fun c => negb (isWhiteSpace c)) s = true -> trimEnd s = s.
Proof.
  induction s as [|c s IH]; simpl; [reflexivity|].
  intros H. apply andb_true_iff in H. destruct H as [Hc Hs].
  rewrite (IH Hs). apply negb_true_iff in Hc. rewrite Hc. now destruct s.
Qed.

Lemma trim_no_spaces (s : string) :
  allChars (fun c => negb (isWhiteSpace c)) s = true -> trim s = s.
Proof.
  intros H. unfold trim.
  assert (E : trimStart s = s).
  { destruct s as [|c s]; [reflexivity|]. simpl in *.
    apply andb_true_iff in H. destruct H as [Hc _].
    apply negb_true_iff in Hc. now rewrite Hc. }
  rewrite E. now apply trimEnd_no_spaces.
Qed.

Lemma allChars_append (p : ascii -> bool) (a b : string) :
  allChars p (a ++ b) = allChars p a && allChars p b.
Proof.
  induction a as [|c a IH]; simpl; [reflexivity|].
  now rewrite IH, andb_assoc.
Qed.

Lemma allChars_impl (p q : ascii -> bool) (s : string) :
  (forall c, p c = true -> q c = true) -> allChars p s = true -> allChars q s = true.
Proof.
  intros Hpq. induction s as [|c s IH]; simpl; [reflexivity|].
  intros H. apply andb_true_iff in H. destruct H as [Hc Hs].
  now rewrite (Hpq _ Hc), (IH Hs).
Qed.

Lemma letter_not_space (c : ascii) : isLetter c = true -> isWhiteSpace c = false.
Proof. intros H. charclass. Qed.

Lemma lowerChar_letter (c : ascii) : isLetter c = true -> isLetter (lowerChar c) = true.
Proof. destruct c as [[] [] [] [] [] [] [] []]; simpl; intros H; try reflexivity; discriminate. Qed.

Lemma lowerChar_idempotent (c : ascii) : lowerChar (lowerChar c) = lowerChar c.
Proof. destruct c as [[] [] [] [] [] [] [] []]; reflexivity. Qed.

Lemma toLowerCase_letters (s : string) :
  allChars isLetter s = true -> allChars isLetter (toLowerCase s) = true.
Proof.
  induction s as [|c s IH]; simpl; [reflexivity|].
  intros H. apply andb_true_iff in H. destruct H as [Hc Hs].
  now rewrite (lowerChar_letter _ Hc), (IH Hs).
Qed.

Lemma toLowerCase_idempotent (s : string) :
  toLowerCase (toLowerCase s) = toLowerCase s.
Proof.
  induction s as [|c s IH]; simpl; [reflexivity|].
  now rewrite lowerChar_idempotent, IH.
Qed.

(** A label made of digits and letters, as it is. *)
Lemma matchesLabel_plain (ds ls : string) :
  ds <> "" -> allChars isDigit ds = true -> allChars isLetter ls = true ->
  matchesLabel (ds ++ ls) ds ls.
Proof.
  intros Hne Hd Hl. repeat split; auto.
  apply trim_no_spaces. rewrite allChars_append.
  apply andb_true_iff. split.
  - eapply allChars_impl; [|exact Hd]. intros c H.
    now rewrite (digit_not_space _ H).
  - eapply allChars_impl; [|exact Hl]. intros c H.
    now rewrite (letter_not_space _ H).
Qed.

Lemma naturalSortKey_integral (s : string) :
  fst (naturalSortKey s) = PosInf \/ fst (naturalSortKey s) = NegInf
  \/ exists z, fst (naturalSortKey s) = JsNumber.ofZ z.
Proof.
  destruct (naturalSortKey_cases s) as [(d & l & _ & E)|[_ E]]; rewrite E; simpl.
  - destruct (toDouble_integral (integerValue d)) as [H|H]; auto.
  - now left.
Qed.

(** Equal keys, as the comparator sees them, are equal. *)
Lemma sameKey_eq (s1 s2 : string) :
  sameKey (naturalSortKey s1) (naturalSortKey s2) = true ->
  naturalSortKey s1 = naturalSortKey s2.
Proof.
  unfold sameKey. intros H. apply andb_true_iff in H. destruct H as [Hn Hs].
  apply String.eqb_eq in Hs.
  apply strictEq_integral in Hn; try apply naturalSortKey_integral.
  destruct (naturalSortKey s1), (naturalSortKey s2). simpl in *. congruence.
Qed.

Section NaturalSortMore.
Context {A : Type}.
Variable label : A -> string.

Local Abbreviation key := (keyOf label).
Local Abbreviation leKey := (fun a b : A => keyLe (key a) (key b)).

Lemma naturalCompare_consistent :
  (forall a b : A, True -> True ->
     sortsAfter (naturalCompare label) a b = negb (leKey a b))
  /\ (forall a b : A, True -> True -> leKey a b = true \/ leKey b a = true)
  /\ (forall a b c : A, True -> True -> True ->
        leKey a b = true -> leKey b c = true -> leKey a c = true).
Proof.
  repeat split.
  - intros a b _ _. apply naturalCompare_keyLe.
  - intros a b _ _. apply keyLe_total; apply naturalSortKey_notNaN.
  - intros a b c _ _ _. apply keyLe_trans.
Qed.

Lemma all_true (l : list A) : Forall (fun _ => True) l.
Proof. apply Forall_forall. auto. Qed.

Lemma sortQuestionsNaturally_fixed (data : list A) :
  StronglySorted (fun a b => keyLe (key a) (key b) = true) data ->
  sortQuestionsNaturally label data = data.
Proof.
  intros S. destruct naturalCompare_consistent as (H1 & H2 & H3).
  apply (@arraySort_fixed A (naturalCompare label) (fun _ => True) leKey H1 H2 H3).
  - apply all_true.
  - exact S.
Qed.

Lemma sortQuestionsNaturally_perm_invariant (data data' : list A) :
  Permutation data data' ->
  NoDup (map (fun a => naturalSortKey (label a)) data) ->
  sortQuestionsNaturally label data' = sortQuestionsNaturally label data.
Proof.
  intros Perm ND. destruct naturalCompare_consistent as (H1 & H2 & H3).
  apply (@arraySort_order_independent A (naturalCompare label) (fun _ => True)
           leKey H1 H2 H3); auto using all_true.
  intros a _. apply (filter_short (fun a => naturalSortKey (label a))); [exact ND|].
  intros x y Hx Hy. unfold equivb in Hx, Hy. rewrite keyLe_both in Hx, Hy.
  apply sameKey_eq in Hx, Hy. unfold keyOf in *. congruence.
Qed.
End NaturalSortMore.

(** X1.  A list that is already in natural order is returned unchanged, and
    sorting twice gives what sorting once gives. *)
Theorem sortQuestionsNaturally_idempotent :
  forall (A : Type) (label : A -> string) (data : list A),
    sortQuestionsNaturally label (sortQuestionsNaturally label data)
    = sortQuestionsNaturally label data
    /\ (StronglySorted
          (fun a b => keyLe (naturalSortKey (label a)) (naturalSortKey (label b))
                      = true) data ->
        sortQuestionsNaturally label data = data).
Proof.
  intros A label data. split.
  - apply sortQuestionsNaturally_fixed, sortQuestionsNaturally_sorted.
  - apply sortQuestionsNaturally_fixed.
Qed.

Lemma sortQuestionsNaturally_idempotent_witness :
  sortQuestionsNaturally (fun s : string => s) ["2"; "10a"; "10B"; "Q1"]
  = ["2"; "10a"; "10B"; "Q1"].
Proof.
  apply (proj2 (sortQuestionsNaturally_idempotent (fun s : string => s)
                  ["2"; "10a"; "10B"; "Q1"])).
  repeat constructor.
Defined.

(** X2.  When the labels have pairwise different keys, the sorted list does
    not depend on the order of the input: any rearrangement of the rows
    sorts to the same list. *)
Theorem sortQuestionsNaturally_order_independent :
  forall (A : Type) (label : A -> string) (data data' : list A),
    Permutation data data' ->
    NoDup (map (fun a => naturalSortKey (label a)) data) ->
    sortQuestionsNaturally label data' = sortQuestionsNaturally label data.
Proof. intros. now apply sortQuestionsNaturally_perm_invariant. Qed.

Lemma sortQuestionsNaturally_order_independent_witness :
  sortQuestionsNaturally (fun s : string => s) ["Q1"; "10a"; "2"]
  = sortQuestionsNaturally (fun s : string => s) ["2"; "Q1"; "10a"].
Proof.
  apply sortQuestionsNaturally_order_independent.
  - apply (Permutation_cons_app ["Q1"; "10a"] [] "2"), Permutation_refl.
  - repeat constructor; simpl; intuition discriminate.
Defined.

(** X3.  White space around a label, zeros in front of its digits and the
    case of its letters do not count: such labels have the same key, so the
    sort takes them for ties.  The key is the double of the integer the
    digits denote, which is that integer up to [2^53], with the lowercased
    letters. *)
Theorem naturalSortKey_ties :
  forall (w1 w2 ds ls : string),
    allChars isWhiteSpace w1 = true -> allChars isWhiteSpace w2 = true ->
    ds <> "" -> allChars isDigit ds = true -> allChars isLetter ls = true ->
    naturalSortKey (w1 ++ ("0" ++ ds ++ ls) ++ w2)
    = naturalSortKey (ds ++ toLowerCase ls)
    /\ naturalSortKey (ds ++ toLowerCase ls)
       = (toDouble (integerValue ds), toLowerCase ls)
    /\ ((integerValue ds <= 2 ^ 53)%N ->
        toDouble (integerValue ds) = JsNumber.ofN (integerValue ds)).
Proof.
  intros w1 w2 ds ls H1 H2 Hne Hd Hl.
  assert (R : naturalSortKey (ds ++ toLowerCase ls)
              = (toDouble (integerValue ds), toLowerCase ls)).
  { rewrite (naturalSortKey_matching
               (@matchesLabel_plain ds (toLowerCase ls) Hne Hd
                  (@toLowerCase_letters ls Hl))).
    now rewrite toLowerCase_idempotent. }
  split; [|split; [exact R|apply toDouble_exact]]. rewrite R.
  assert (M : matchesLabel (w1 ++ ("0" ++ ds ++ ls) ++ w2) ("0" ++ ds) ls).
  { assert (M0 : matchesLabel (("0" ++ ds) ++ ls) ("0" ++ ds) ls)
      by (apply matchesLabel_plain; [discriminate|simpl; exact Hd|exact Hl]).
    destruct M0 as (T & N0 & D0 & L0). repeat split; auto.
    rewrite trim_padding by assumption. exact T. }
  rewrite (naturalSortKey_matching M). reflexivity.
Qed.

Lemma naturalSortKey_ties_witness :
  naturalSortKey " 007A  " = naturalSortKey "07a".
Proof.
  apply (proj1 (@naturalSortKey_ties " " "  " "07" "A"
                  eq_refl eq_refl ltac:(discriminate) eq_refl eq_refl)).
Defined.

(** * Chunk reconstruction: the shape of the result, and what it reads *)

Lemma withPrefix_starts (s : string) : startsWith (withPrefix s) "data:image" = true.
Proof.
  unfold withPrefix. destruct (startsWith s "data:image") eqn:E; [exact E|].
  reflexivity.
Qed.

Lemma length_withPrefix (s : string) :
  String.length (withPrefix s) <= String.length s + 22.
Proof.
  unfold withPrefix. destruct (startsWith s "data:image"); [lia|].
  rewrite length_append. simpl. lia.
Qed.

Lemma length_concat (l : list string) :
  String.length (String.concat "" l) = list_sum (map String.length l).
Proof.
  induction l as [|x l IH]; [reflexivity|].
  rewrite concat_cons, length_append, IH. reflexivity.
Qed.

Lemma In_firstn {A} (n : nat) (l : list A) (x : A) : In x (firstn n l) -> In x l.
Proof.
  revert l. induction n as [|n IH]; intros [|y l]; simpl; try tauto.
  intros [H|H]; [now left|right; now apply IH].
Qed.

Section ChunkShape.
Variable number_to_string : number -> string.

Lemma chunkText_length (row : obj value) (ks : list string) :
  (N.of_nat (list_sum (map String.length (map (chunkText number_to_string row) ks)))
   <= totalLengthOf number_to_string row ks)%N.
Proof.
  induction ks as [|k ks IH]; simpl; [lia|].
  unfold chunkLength at 1, chunkText at 1, len.
  pose proof (length_trim (ToString number_to_string (getVal row k))). lia.
Qed.

Lemma validKeys_total (row : obj value) :
  (totalLengthOf number_to_string row (validKeys number_to_string row)
   <= MAX_SAFE_SIZE)%N.
Proof.
  destruct (validateChunks_spec number_to_string row (consideredKeys row) 0)
    as (H1 & H2 & _).
  specialize (H2 (N.le_0_l _)). rewrite H1 in H2. exact H2.
Qed.

(** The first pass reads the row at the keys it is given only. *)
Lemma validateChunks_ext_in (row row' : obj value) (ks : list string) (t : N) :
  (forall k, In k ks -> getVal row' k = getVal row k) ->
  validateChunks number_to_string row' ks t = validateChunks number_to_string row ks t.
Proof.
  revert t. induction ks as [|k rest IH]; intros t H; simpl; [reflexivity|].
  rewrite (H k) by now left.
  assert (H' : forall k0, In k0 rest -> getVal row' k0 = getVal row k0)
    by (intros k0 I; apply H; now right).
  destruct (truthy (getVal row k)); [|now apply IH].
  destruct (MAX_CHUNK_SIZE <? _)%N; [now apply IH|].
  destruct (MAX_SAFE_SIZE <? _)%N; [reflexivity|]. now rewrite IH.
Qed.

(** The result depends on the chunk fields only. *)
Lemma reconstructBase64_ext (row row' : obj value) :
  filter isChunkKey (keys row') = filter isChunkKey (keys row) ->
  (forall k, isChunkKey k = true -> getVal row' k = getVal row k) ->
  reconstructBase64 number_to_string (Some row')
  = reconstructBase64 number_to_string (Some row).
Proof.
  intros K G.
  assert (C : consideredKeys row' = consideredKeys row)
    by (unfold consideredKeys; now rewrite K).
  assert (IC : forall k, In k (consideredKeys row) -> isChunkKey k = true).
  { intros k I. unfold consideredKeys, sliceFirst in I.
    apply In_firstn in I. apply arraySort_In in I.
    apply filter_In in I. tauto. }
  assert (V : validKeys number_to_string row' = validKeys number_to_string row).
  { unfold validKeys. rewrite C. f_equal. apply validateChunks_ext_in.
    intros k I. apply G. now apply IC. }
  rewrite !reconstructBase64_result. cbv zeta. rewrite V.
  assert (T : map (chunkText number_to_string row') (validKeys number_to_string row)
              = map (chunkText number_to_string row) (validKeys number_to_string row)).
  { apply map_ext_in. intros k I. unfold chunkText. rewrite G; [reflexivity|].
    apply IC. unfold validKeys in I. apply validKeys_accepted in I. tauto. }
  now rewrite T.
Qed.

Lemma reconstructBase64_set (row : obj value) (k : string) (v : value) :
  isChunkKey k = false ->
  reconstructBase64 number_to_string (Some (set k v row))
  = reconstructBase64 number_to_string (Some row).
Proof.
  intros Hk. apply reconstructBase64_ext.
  - unfold set. destruct (has k row).
    + now rewrite keys_replace.
    + destruct (insertKey_split k v row) as (o1 & o2 & E1 & E2).
      rewrite E2, E1. unfold keys. rewrite !map_app, !filter_app. simpl.
      now rewrite Hk.
  - intros k' Hk'. rewrite getVal_set.
    destruct (String.eqb_spec k' k); [congruence|reflexivity].
Qed.

Lemma reconstructBase64_assign (props : list (string * value)) (row : obj value) :
  Forall (fun kv => isChunkKey (fst kv) = false) props ->
  reconstructBase64 number_to_string (Some (assign row props))
  = reconstructBase64 number_to_string (Some row).
Proof.
  revert row. induction props as [|[k v] props IH]; intros row H.
  - reflexivity.
  - inversion H; subst.
    change (assign row ((k, v) :: props)) with (assign (set k v row) props).
    rewrite IH by assumption. now apply reconstructBase64_set.
Qed.
End ChunkShape.

(** X4.  An image that is returned is a data URL of bounded size: the
    string starts with [data:image], so it is not empty, and it has at most
    22 characters more than the 50 MiB the chunks may add up to. *)
Theorem reconstructBase64_data_url :
  forall (number_to_string : number -> string) (row : obj value) (s : string),
    reconstructBase64 number_to_string (Some row) = Some s ->
    startsWith s "data:image" = true
    /\ s <> ""
    /\ (len s <= MAX_SAFE_SIZE + 22)%N.
Proof.
  intros nts row s H. rewrite reconstructBase64_result in H. cbv zeta in H.
  destruct (isEmpty _); [discriminate|]. inversion H as [E]. clear H.
  split; [apply withPrefix_starts|]. split.
  - intros E'. pose proof (withPrefix_starts
                             (String.concat "" (map (chunkText nts row) (validKeys nts row)))) as W.
    rewrite E' in W. discriminate.
  - pose proof (length_withPrefix
                  (String.concat "" (map (chunkText nts row) (validKeys nts row)))) as L.
    rewrite length_concat in L.
    pose proof (chunkText_length nts row (validKeys nts row)) as T.
    pose proof (validKeys_total nts row) as B.
    unfold len. lia.
Qed.

Lemma reconstructBase64_data_url_witness :
  startsWith "data:image/png;base64,BCA" "data:image" = true
  /\ "data:image/png;base64,BCA" <> ""
  /\ (len "data:image/png;base64,BCA" <= MAX_SAFE_SIZE + 22)%N.
Proof.
  apply (@reconstructBase64_data_url integerToString sampleChunks).
  vm_compute. reflexivity.
Defined.

(** X5.  Only the chunk fields count: writing a property whose name is not
    [HSC_BASE64_] followed by digits, new or not, leaves the reconstructed
    image as it was. *)
Theorem reconstructBase64_ignores_other_fields :
  forall (number_to_string : number -> string) (row : obj value)
         (k : string) (v : value),
    isChunkKey k = false ->
    reconstructBase64 number_to_string (Some (set k v row))
    = reconstructBase64 number_to_string (Some row).
Proof. intros. now apply reconstructBase64_set. Qed.

Lemma reconstructBase64_ignores_other_fields_witness :
  reconstructBase64 integerToString
    (Some (set "HSC_BASE64_x" (VStr "Q") sampleChunks))
  = reconstructBase64 integerToString (Some sampleChunks).
Proof.
  apply reconstructBase64_ignores_other_fields. reflexivity.
Defined.

(** X6.  The image of a detail page is the one of the raw row: the nine
    fields coerced by [processData] and the success rate added by the
    outlier selection do not touch the chunk columns. *)
Theorem questionImage_of_raw_row :
  forall (number_to_string : number -> string) (r : rated) (rawRow : obj value),
    questionImage number_to_string r
    = reconstructBase64 number_to_string (Some (fields (row r)))
    /\ questionImage number_to_string (addRate (ensureTypes number_to_string rawRow))
       = reconstructBase64 number_to_string (Some rawRow).
Proof.
  intros nts r rawRow.
  assert (G : forall r, questionImage nts r
                        = reconstructBase64 nts (Some (fields (row r)))).
  { intros x. unfold questionImage, ratedObject, recordObject.
    rewrite !reconstructBase64_assign; [reflexivity| |];
      repeat constructor. }
  split; [apply G|]. rewrite G. reflexivity.
Qed.

(** * More on objects, and the grouping loops *)

Section ObjectMore.
Context {V : Type}.
Implicit Types (o : obj V) (k : string) (v : V).

Lemma replace_split k v old o :
  get k o = Some old ->
  exists o1 o2, o = o1 ++ (k, old) :: o2 /\ ~ In k (keys o1)
                /\ replace k v o = o1 ++ (k, v) :: o2.
Proof.
  induction o as [|[k' v'] o IH]; simpl; [discriminate|].
  destruct (String.eqb_spec k k') as [->|N].
  - intros [= ->]. exists [], o. simpl. tauto.
  - intros H. destruct (IH H) as (o1 & o2 & E & Hn & R).
    exists ((k', v') :: o1), o2. simpl. rewrite <- E, R.
    repeat split; auto. intros [E'|I]; [congruence|auto].
Qed.

Lemma set_existing k v old o :
  get k o = Some old ->
  exists o1 o2, o = o1 ++ (k, old) :: o2 /\ ~ In k (keys o1)
                /\ set k v o = o1 ++ (k, v) :: o2.
Proof.
  intros H. unfold set, has. rewrite H. now apply replace_split.
Qed.

Lemma set_new k v o :
  get k o = None ->
  exists o1 o2, o = o1 ++ o2 /\ set k v o = o1 ++ (k, v) :: o2.
Proof.
  intros H. unfold set, has. rewrite H. apply insertKey_split.
Qed.

(** The properties of an object after an assignment. *)
Lemma In_set_entries k v o (kv : string * V) :
  NoDup (keys o) ->
  In kv (set k v o) -> kv = (k, v) \/ (In kv o /\ fst kv <> k).
Proof.
  intros ND I. destruct (get k o) as [old|] eqn:E.
  - destruct (@set_existing k v old o E) as (o1 & o2 & E1 & Hn & E2).
    rewrite E2 in I. rewrite E1 in ND |- *.
    unfold keys in ND. rewrite map_app in ND. simpl in ND.
    apply NoDup_remove_2 in ND.
    apply in_app_or in I. destruct I as [I|[I|I]]; [|now left|]; right.
    + split; [apply in_or_app; now left|].
      intros F. apply Hn. rewrite <- F. now apply in_map.
    + split; [apply in_or_app; right; now right|].
      intros F. apply ND. apply in_or_app. right. rewrite <- F. now apply in_map.
  - destruct (@set_new k v o E) as (o1 & o2 & E1 & E2).
    rewrite E2 in I. rewrite E1.
    apply get_None_keys in E. rewrite E1 in E.
    apply in_app_or in I. destruct I as [I|[I|I]]; [|now left|]; right.
    + split; [apply in_or_app; now left|].
      intros F. apply E. rewrite <- F. apply in_map. apply in_or_app. now left.
    + split; [apply in_or_app; now right|].
      intros F. apply E. rewrite <- F. apply in_map. apply in_or_app. now right.
Qed.

(** An object with distinct keys is the list of its keys, each with the
    value found under it. *)
Lemma entries_by_get (d : V) o :
  NoDup (keys o) ->
  o = map (fun k => (k, match get k o with Some v => v | None => d end)) (keys o).
Proof.
  induction o as [|[k v] o IH]; intros ND; [reflexivity|].
  inversion ND as [|? ? Hn ND']; subst. simpl. rewrite String.eqb_refl.
  f_equal. rewrite (IH ND') at 1. apply map_ext_in. intros k' I.
  destruct (String.eqb_spec k' k) as [->|N]; [contradiction|reflexivity].
Qed.

(** What a measure [m] of the values adds up to, after an assignment. *)
Section Measure.
Context {X : Type}.
Variable m : V -> list X.

Local Abbreviation total := (flat_map (fun kv : string * V => m (snd kv))).

Lemma total_set_existing k v old o (x : X) :
  get k o = Some old -> Permutation (m v) (x :: m old) ->
  Permutation (total (set k v o)) (x :: total o).
Proof.
  intros H Pm. destruct (@set_existing k v old o H) as (o1 & o2 & E1 & _ & E2).
  rewrite E2, E1, !flat_map_app. simpl.
  eapply perm_trans; [apply Permutation_app_head, Permutation_app_tail, Pm|].
  simpl. apply Permutation_sym, Permutation_middle.
Qed.

Lemma total_set_new k v o :
  get k o = None -> m v = [] -> total (set k v o) = total o.
Proof.
  intros H Hm. destruct (@set_new k v o H) as (o1 & o2 & E1 & E2).
  rewrite E2, E1, !flat_map_app. simpl. now rewrite Hm.
Qed.
End Measure.
End ObjectMore.

Section Grouping.
Context {A : Type}.
Variable key : A -> string.
Implicit Types (groups : obj (list A)) (k : string) (x : A).

Local Abbreviation stored := (fun groups k =>
  match get k groups with Some xs => xs | None => [] end).

Lemma pushAt_eq k x groups :
  pushAt k x groups
  = set k (stored groups k ++ [x]) (if has k groups then groups else set k [] groups).
Proof.
  unfold pushAt, has. destruct (get k groups) as [xs|] eqn:E.
  - now rewrite E.
  - now rewrite get_set_same.
Qed.

Lemma get_pushAt k x groups k' :
  get k' (pushAt k x groups)
  = if String.eqb k' k then Some (stored groups k ++ [x]) else get k' groups.
Proof.
  rewrite pushAt_eq, get_set.
  destruct (String.eqb_spec k' k) as [->|N]; [reflexivity|].
  destruct (has k groups); [reflexivity|]. now apply get_set_other.
Qed.

Lemma NoDup_keys_pushAt k x groups :
  NoDup (keys groups) -> NoDup (keys (pushAt k x groups)).
Proof.
  intros H. rewrite pushAt_eq. apply NoDup_keys_set.
  destruct (has k groups); [exact H|now apply NoDup_keys_set].
Qed.

Lemma members_pushAt k x groups :
  Permutation (members (pushAt k x groups)) (x :: members groups).
Proof.
  rewrite pushAt_eq. unfold members.
  set (g1 := if has k groups then groups else set k [] groups).
  assert (G : get k g1 = Some (stored groups k)).
  { unfold g1, has. destruct (get k groups) eqn:E; [exact E|apply get_set_same]. }
  assert (M : flat_map snd g1 = flat_map snd groups).
  { unfold g1, has. destruct (get k groups) eqn:E; [reflexivity|].
    now apply (@total_set_new (list A) A (fun xs : list A => xs) k [] groups). }
  rewrite <- M.
  apply (@total_set_existing (list A) A (fun xs : list A => xs) k
           (stored groups k ++ [x]) (stored groups k) g1 x G).
  apply Permutation_sym, Permutation_cons_append.
Qed.

Lemma noInheritedKey_pushAt k x groups :
  inherited k = false -> noInheritedKey groups -> noInheritedKey (pushAt k x groups).
Proof.
  intros P H k' I. rewrite get_pushAt.
  destruct (String.eqb_spec k' k) as [->|N]; [congruence|now apply H].
Qed.

(** The step of a loop written
    [if (!groups[k]) groups[k] = []; groups[k].push(x)], with its result. *)
Lemma push_step k x groups :
  noInheritedKey groups ->
  match lookup k groups with
  | Own xs => Returns (set k (xs ++ [x]) groups)
  | Inherited => Throws
  | Absent => Returns (set k [x] groups)
  end
  = if negb (inherited k) then Returns (pushAt k x groups) else Throws.
Proof.
  intros H. unfold lookup, pushAt, has.
  destruct (inherited k) eqn:I; cbn [negb].
  - now rewrite (H k I).
  - destruct (get k groups) as [xs|] eqn:E.
    + now rewrite E.
    + rewrite get_set_same. now rewrite set_set.
Qed.

(** The loop over a whole list. *)
Local Abbreviation groupAll :=
  (fold_left (fun groups x => pushAt (key x) x groups)).

Lemma get_groupAll (l : list A) groups k :
  get k (groupAll l groups)
  = match keyed key k l with
    | [] => get k groups
    | f => Some (stored groups k ++ f)
    end.
Proof.
  revert groups. induction l as [|x l IH]; intros groups; [reflexivity|].
  simpl fold_left. rewrite IH. unfold keyed. simpl filter.
  rewrite !get_pushAt.
  destruct (String.eqb_spec k (key x)) as [->|N].
  - destruct (filter _ l); [reflexivity|]. now rewrite <- app_assoc.
  - reflexivity.
Qed.

Lemma NoDup_keys_groupAll (l : list A) groups :
  NoDup (keys groups) -> NoDup (keys (groupAll l groups)).
Proof.
  revert groups. induction l as [|x l IH]; intros groups H; [exact H|].
  simpl. apply IH. now apply NoDup_keys_pushAt.
Qed.

Lemma members_groupAll (l : list A) groups :
  Permutation (members (groupAll l groups)) (members groups ++ l).
Proof.
  revert groups. induction l as [|x l IH]; intros groups; simpl.
  - now rewrite app_nil_r.
  - eapply perm_trans; [apply IH|].
    eapply perm_trans; [apply Permutation_app_tail, members_pushAt|].
    simpl. apply Permutation_middle.
Qed.

Lemma keyed_nonempty (l : list A) k :
  keyed key k l <> [] <-> exists x, In x l /\ key x = k.
Proof.
  unfold keyed. split.
  - destruct (filter _ l) as [|x f] eqn:E; [congruence|]. intros _.
    assert (I : In x (filter (fun x => String.eqb k (key x)) l))
      by (rewrite E; now left).
    apply filter_In in I. destruct I as [I H]. apply String.eqb_eq in H. eauto.
  - intros (x & I & <-) E.
    assert (I' : In x (filter (fun y => String.eqb (key x) (key y)) l))
      by (apply filter_In; split; [exact I|apply String.eqb_refl]).
    rewrite E in I'. destruct I'.
Qed.

Lemma In_keys_groupAll (l : list A) k :
  In k (keys (groupAll l [])) <-> exists x, In x l /\ key x = k.
Proof.
  rewrite In_keys_get, get_groupAll, <- keyed_nonempty. simpl get.
  destruct (keyed key k l); split; try congruence; eauto.
  intros [v H]. discriminate.
Qed.

(** The groups, read off the list: each key with the elements of that key,
    in the order of the list. *)
Lemma groupAll_entries (l : list A) :
  groupAll l [] = map (fun k => (k, keyed key k l)) (keys (groupAll l [])).
Proof.
  rewrite (@entries_by_get (list A) [] (groupAll l [])
             (@NoDup_keys_groupAll l [] (NoDup_nil _))) at 1.
  apply map_ext_in. intros k I. rewrite get_groupAll. simpl.
  now destruct (keyed key k l).
Qed.
End Grouping.

(** * Grouping and statistics of [processData] *)

(** Distinct strings, once sorted, increase strictly. *)
Lemma strictly_sorted (l : list string) :
  NoDup l -> StronglySorted (fun a b => leStr a b = true) l ->
  StronglySorted (fun a b => ltStr a b = true) l.
Proof.
  intros ND S. induction S as [|a l S IH Ha]; [constructor|].
  inversion ND as [|? ? Hn ND']; subst.
  constructor; [auto|]. rewrite Forall_forall in *. intros b Ib.
  specialize (Ha b Ib). unfold leStr in Ha. apply negb_true_iff in Ha.
  destruct (ltStr a b) eqn:L; [reflexivity|exfalso].
  apply Hn. now rewrite (ltStr_trichotomy _ _ L Ha).
Qed.

Lemma sort_strings_strict (l : list string) :
  NoDup l -> StronglySorted (fun a b => ltStr a b = true) (arraySort defaultCompare l).
Proof.
  intros ND. apply strictly_sorted.
  - eapply Permutation_NoDup; [apply arraySort_perm|exact ND].
  - apply (@arraySort_sorted string defaultCompare (fun _ => True) leStr).
    + intros a b _ _. apply defaultCompare_le.
    + intros a b _ _. apply leStr_total.
    + intros a b c _ _ _. apply leStr_trans.
    + apply Forall_forall. auto.
Qed.

Lemma In_setAdd (x s : string) (set : list string) :
  In s (setAdd x set) <-> s = x \/ In s set.
Proof.
  unfold setAdd. destruct (existsb (String.eqb x) set) eqn:E.
  - split; [now right|]. intros [->|H]; [|exact H].
    apply existsb_exists in E. destruct E as (y & I & Ey).
    apply String.eqb_eq in Ey. now subst.
  - rewrite in_app_iff. simpl. intuition.
Qed.

Lemma NoDup_setAdd (x : string) (set : list string) :
  NoDup set -> NoDup (setAdd x set).
Proof.
  intros ND. unfold setAdd. destruct (existsb (String.eqb x) set) eqn:E; [exact ND|].
  apply NoDup_rev in ND. rewrite <- (rev_involutive (set ++ [x])), rev_app_distr.
  apply NoDup_rev. simpl. constructor; [|exact ND].
  intros I. apply in_rev in I.
  assert (T : existsb (String.eqb x) set = true)
    by (apply existsb_exists; exists x; split; [exact I|apply String.eqb_refl]).
  congruence.
Qed.

Lemma subjectSet_spec (cleanData : list record) (acc : list string) :
  let out := fold_left (fun subjects r => setAdd (Subject r) subjects) cleanData acc in
  (NoDup acc -> NoDup out)
  /\ forall s, In s out <-> In s acc \/ exists r, In r cleanData /\ Subject r = s.
Proof.
  revert acc. induction cleanData as [|r l IH]; intros acc; simpl.
  - split; [auto|]. intros s. split; [now left|]. intros [H|(r & [] & _)]. exact H.
  - destruct (IH (setAdd (Subject r) acc)) as [H1 H2]. split.
    + intros ND. apply H1. now apply NoDup_setAdd.
    + intros s. rewrite H2, In_setAdd. split.
      * intros [[->|H]|(x & I & E)]; eauto.
      * intros [H|(x & [<-|I] & E)]; eauto.
Qed.

Section ProcessFacts.
Variable number_to_string : number -> string.

Local Abbreviation str := (ToString number_to_string).
Local Abbreviation step := (groupStep number_to_string).

Lemma groupStep_eq (grouped : obj (obj (list record))) (r : record) :
  step grouped r
  = set (Subject r)
        (pushAt (str (Year r)) r
           (match get (Subject r) grouped with Some ys => ys | None => [] end))
        (if has (Subject r) grouped then grouped else set (Subject r) [] grouped).
Proof.
  unfold groupStep, pushAt, has at 1 3.
  destruct (get (Subject r) grouped) as [years|] eqn:E.
  - rewrite E. unfold has.
    destruct (get (str (Year r)) years) as [rows|] eqn:Ey.
    + now rewrite Ey.
    + now rewrite get_set_same.
  - rewrite get_set_same. simpl. rewrite String.eqb_refl. reflexivity.
Qed.

Lemma allRecords_groupStep (grouped : obj (obj (list record))) (r : record) :
  Permutation (allRecords (step grouped r)) (r :: allRecords grouped).
Proof.
  rewrite groupStep_eq. unfold allRecords.
  set (sub := Subject r).
  set (years := match get sub grouped with Some ys => ys | None => [] end).
  set (g1 := if has sub grouped then grouped else set sub [] grouped).
  assert (G : get sub g1 = Some years).
  { unfold g1, years, has. destruct (get sub grouped) eqn:E; [exact E|apply get_set_same]. }
  assert (M : flat_map (fun sy : string * obj (list record) => members (snd sy)) g1
              = flat_map (fun sy : string * obj (list record) => members (snd sy)) grouped).
  { unfold g1, has. destruct (get sub grouped) eqn:E; [reflexivity|].
    now apply (@total_set_new (obj (list record)) record (@members record) sub [] grouped). }
  rewrite <- M.
  apply (@total_set_existing (obj (list record)) record (@members record) sub
           (pushAt (str (Year r)) r years) years g1 r G).
  apply members_pushAt.
Qed.

Lemma allRecords_fold (rows : list record) (grouped : obj (obj (list record))) :
  Permutation (allRecords (fold_left step rows grouped)) (allRecords grouped ++ rows).
Proof.
  revert grouped. induction rows as [|r rows IH]; intros grouped; simpl.
  - now rewrite app_nil_r.
  - eapply perm_trans; [apply IH|].
    eapply perm_trans; [apply Permutation_app_tail, allRecords_groupStep|].
    simpl. apply Permutation_middle.
Qed.

Lemma wellGrouped_groupStep (grouped : obj (obj (list record))) (r : record) :
  wellGrouped grouped -> wellGrouped (step grouped r).
Proof.
  intros [ND W]. rewrite groupStep_eq.
  set (sub := Subject r). set (yr := str (Year r)).
  set (years := match get sub grouped with Some ys => ys | None => [] end).
  set (g1 := if has sub grouped then grouped else set sub [] grouped).
  assert (ND1 : NoDup (keys g1))
    by (unfold g1; destruct (has sub grouped); [exact ND|now apply NoDup_keys_set]).
  assert (Wy : NoDup (keys years) /\ forall y rows, In (y, rows) years -> rows <> []).
  { unfold years. destruct (get sub grouped) as [ys|] eqn:E.
    - apply get_In in E. destruct (W _ _ E) as (_ & H1 & H2). now split.
    - split; [constructor|]. intros y rows []. }
  destruct Wy as [NDy Wy].
  assert (In1 : forall kv, In kv g1 -> fst kv <> sub -> In kv grouped).
  { intros kv I N. unfold g1 in I. destruct (has sub grouped); [exact I|].
    apply In_set_entries in I; [|exact ND].
    destruct I as [->|[I _]]; [now elim N|exact I]. }
  split; [now apply NoDup_keys_set|].
  intros s ys I. apply In_set_entries in I; [|exact ND1].
  destruct I as [E|[I N]].
  - inversion E; subst s ys. clear E.
    assert (NDp : NoDup (keys (pushAt yr r years))) by now apply NoDup_keys_pushAt.
    split; [|split; [exact NDp|]].
    + intros E. pose proof (get_pushAt yr r years yr) as G.
      rewrite String.eqb_refl, E in G. discriminate.
    + intros y rows Iy. pose proof (@In_get _ y rows _ NDp Iy) as G.
      rewrite get_pushAt in G.
      destruct (String.eqb_spec y yr) as [->|Ny].
      * inversion G. now destruct (match get yr years with Some xs => xs | None => [] end).
      * apply get_In in G. eauto.
  - apply (W s ys). now apply (In1 (s, ys)).
Qed.

Lemma wellGrouped_fold (rows : list record) (grouped : obj (obj (list record))) :
  wellGrouped grouped -> wellGrouped (fold_left step rows grouped).
Proof.
  revert grouped. induction rows as [|r rows IH]; intros grouped H; [exact H|].
  simpl. apply IH. now apply wellGrouped_groupStep.
Qed.

Lemma In_keys_groupStep (grouped : obj (obj (list record))) (r : record) (k : string) :
  In k (keys (step grouped r)) <-> k = Subject r \/ In k (keys grouped).
Proof.
  rewrite groupStep_eq, In_keys_set.
  destruct (has (Subject r) grouped); [tauto|]. rewrite In_keys_set. tauto.
Qed.

Lemma In_keys_fold_groupStep (rows : list record) (grouped : obj (obj (list record)))
  (k : string) :
  In k (keys (fold_left step rows grouped))
  <-> In k (keys grouped) \/ exists r, In r rows /\ Subject r = k.
Proof.
  revert grouped. induction rows as [|r rows IH]; intros grouped; simpl.
  - split; [now left|]. intros [H|(r & [] & _)]. exact H.
  - rewrite IH, In_keys_groupStep. split.
    + intros [[->|H]|(x & I & E)]; eauto.
    + intros [H|(x & [<-|I] & E)]; eauto.
Qed.

(** *** The loop of [processData], with its failures *)

Variable builtinHas : string -> string -> bool.

Lemma plainGroups_nil : plainGroups [].
Proof. split; [intros k _; reflexivity|]. intros sub years H. discriminate H. Qed.

Lemma plainGroups_groupStep (grouped : obj (obj (list record))) (r : record) :
  groupable number_to_string r = true ->
  plainGroups grouped -> plainGroups (step grouped r).
Proof.
  unfold groupable. intros G [P1 P2]. apply andb_true_iff in G.
  destruct G as [Gs Gy]. apply negb_true_iff in Gs, Gy.
  rewrite groupStep_eq.
  set (sub := Subject r) in *. set (yr := str (Year r)) in *.
  set (years := match get sub grouped with Some ys => ys | None => [] end).
  set (g1 := if has sub grouped then grouped else set sub [] grouped).
  assert (G1 : forall k, k <> sub -> get k g1 = get k grouped).
  { intros k N. unfold g1. destruct (has sub grouped); [reflexivity|].
    now apply get_set_other. }
  assert (Py : noInheritedKey years).
  { unfold years. destruct (get sub grouped) as [ys|] eqn:E; [now apply (P2 sub)|].
    intros k _. reflexivity. }
  split.
  - intros k I. rewrite get_set_other by congruence.
    rewrite G1 by congruence. now apply P1.
  - intros s ys H. rewrite get_set in H.
    destruct (String.eqb_spec s sub) as [->|N].
    + injection H as <-. intros k I. rewrite get_pushAt.
      destruct (String.eqb_spec k yr) as [->|Ny]; [congruence|now apply Py].
    + rewrite G1 in H by exact N. now apply (P2 s).
Qed.

(** When the step returns, either the subject is the name of an inherited
    member and the groups are as before, or the record is grouped. *)
Lemma groupRow_returns (grouped g' : obj (obj (list record))) (r : record) :
  plainGroups grouped ->
  groupRow number_to_string builtinHas grouped r = Returns g' ->
  (plainSubject r = false /\ g' = grouped
   /\ inherited (str (Year r)) = false /\ Subject r <> "__proto__"
   /\ builtinHas (Subject r) (str (Year r)) = false)
  \/ (groupable number_to_string r = true /\ g' = step grouped r).
Proof.
  intros [P1 P2] H.
  destruct (groupable number_to_string r) eqn:G.
  { right. split; [reflexivity|].
    rewrite (@groupRow_groupable number_to_string builtinHas grouped r G) in H. now injection H. }
  unfold groupable in G. unfold plainSubject.
  destruct (inherited (Subject r)) eqn:Is.
  - left. unfold groupRow in H. cbv zeta in H.
    unfold lookup in H. rewrite (P1 _ Is), Is in H.
    destruct (inherited (str (Year r))); [discriminate H|].
    destruct (String.eqb_spec (Subject r) "__proto__") as [E|N]; [discriminate H|].
    destruct (builtinHas (Subject r) (str (Year r))); [discriminate H|].
    injection H as <-. repeat split. exact N.
  - exfalso. cbn [negb andb] in G. apply negb_false_iff in G.
    unfold groupRow, pushRow in H. cbv zeta in H.
    rewrite (@lookup_plain _ _ grouped Is) in H.
    destruct (get (Subject r) grouped) as [years|] eqn:E.
    + unfold lookup in H. rewrite (P2 _ _ E _ G), G in H. discriminate H.
    + unfold lookup in H. simpl get in H. rewrite G in H. discriminate H.
Qed.

(** What the step does when it does not return. *)
Lemma groupRow_fails (grouped : obj (obj (list record))) (r : record) :
  plainGroups grouped ->
  groupRow number_to_string builtinHas grouped r
  = if plainSubject r then
      (if inherited (str (Year r)) then Throws else Returns (step grouped r))
    else if inherited (str (Year r)) then Throws
    else if String.eqb (Subject r) "__proto__" then Pollutes
    else if builtinHas (Subject r) (str (Year r)) then Throws
    else Returns grouped.
Proof.
  intros [P1 P2]. unfold plainSubject.
  destruct (inherited (Subject r)) eqn:Is; cbn [negb].
  - unfold groupRow. cbv zeta. unfold lookup. now rewrite (P1 _ Is), Is.
  - destruct (inherited (str (Year r))) eqn:Iy.
    + unfold groupRow, pushRow. cbv zeta.
      rewrite (@lookup_plain _ _ grouped Is).
      destruct (get (Subject r) grouped) as [years|] eqn:E.
      * unfold lookup. now rewrite (P2 _ _ E _ Iy), Iy.
      * unfold lookup. simpl get. now rewrite Iy.
    + apply (@groupRow_groupable number_to_string builtinHas grouped r).
      unfold groupable. now rewrite Is, Iy.
Qed.

(** The loop over the cleaned rows, when it returns: the rows whose subject
    is not the name of an inherited member have been grouped, the others
    left out. *)
Lemma forEach_groupRow_returns (rows : list record)
  (grouped g' : obj (obj (list record))) :
  plainGroups grouped ->
  forEach (groupRow number_to_string builtinHas) rows grouped = Returns g' ->
  g' = fold_left step (filter plainSubject rows) grouped
  /\ plainGroups g'
  /\ Forall (fun r => groupable number_to_string r = true) (filter plainSubject rows)
  /\ Forall (fun r => plainSubject r = false ->
                      inherited (str (Year r)) = false /\ Subject r <> "__proto__"
                      /\ builtinHas (Subject r) (str (Year r)) = false) rows.
Proof.
  revert grouped. induction rows as [|r rows IH]; intros grouped P H.
  - simpl in H. injection H as <-. repeat split; [exact (proj1 P)|exact (proj2 P)| |];
      constructor.
  - apply forEach_cons in H. destruct H as (g1 & H1 & H2).
    destruct (groupRow_returns r P H1) as [(Ps & -> & Hs)|[G ->]].
    + destruct (IH _ P H2) as (E & P' & F & F'). simpl filter. rewrite Ps.
      repeat split; try assumption; try (now apply P').
      constructor; [intros _; exact Hs|exact F'].
    + destruct (IH _ (plainGroups_groupStep r G P) H2) as (E & P' & F & F').
      assert (Ps : plainSubject r = true).
      { unfold groupable in G. apply andb_true_iff in G. exact (proj1 G). }
      simpl filter. rewrite Ps. simpl fold_left.
      repeat split; try assumption; try (now apply P').
      * constructor; assumption.
      * constructor; [intros C; congruence|exact F'].
Qed.

(** The loop returns exactly when no step fails. *)
Lemma forEach_groupRow_total (rows : list record) (grouped : obj (obj (list record))) :
  plainGroups grouped ->
  Forall (fun r => if plainSubject r then inherited (str (Year r)) = false
                   else inherited (str (Year r)) = false
                        /\ Subject r <> "__proto__"
                        /\ builtinHas (Subject r) (str (Year r)) = false) rows ->
  exists g', forEach (groupRow number_to_string builtinHas) rows grouped = Returns g'.
Proof.
  intros P F. revert grouped P. induction F as [|r rows Hr F IH]; intros grouped P.
  - now exists grouped.
  - simpl. rewrite (groupRow_fails r P).
    destruct (plainSubject r) eqn:Ps.
    + rewrite Hr. simpl. apply IH. apply plainGroups_groupStep; [|exact P].
      unfold groupable. unfold plainSubject in Ps. now rewrite Ps, Hr.
    + destruct Hr as (Hy & Hp & Hb). rewrite Hy, Hb.
      destruct (String.eqb_spec (Subject r) "__proto__"); [contradiction|].
      simpl. now apply IH.
Qed.

Lemma toFloat_notNaN (v : value) : JsNumber.isNaN (toFloat number_to_string v) = false.
Proof.
  unfold toFloat, JsNumber.orElse.
  destruct (parseFloat (str v)) as [q| | |]; simpl; try reflexivity.
  now destruct (negb (Qeq_bool q 0)).
Qed.
End ProcessFacts.

(** What [processData] returns, from the general description of its
    loop. *)
Lemma processData_returns (number_to_string : number -> string)
  (builtinHas : string -> string -> bool) (rawData : list (obj value))
  (out : processed) :
  processData number_to_string builtinHas rawData = Returns out ->
  raw out = map (ensureTypes number_to_string)
                (filter (isValidRow number_to_string) rawData)
  /\ grouped out
     = fold_left (groupStep number_to_string) (filter plainSubject (raw out)) []
  /\ plainGroups (grouped out)
  /\ Forall (fun r => groupable number_to_string r = true)
            (filter plainSubject (raw out)).
Proof.
  intros H. destruct (processData_raw _ _ _ H) as (E & L & _).
  destruct (forEach_groupRow_returns number_to_string builtinHas (raw out)
              plainGroups_nil L) as (G & P & F & _).
  auto.
Qed.

(** X7.  When every record kept has a subject and a year that are not
    names of inherited members, [processData] returns.  Whenever it
    returns, grouping has neither lost nor repeated a row whose subject is
    not such a name: the records of all the groups are these rows,
    rearranged; each is in the group of its subject and year; no subject and
    no year is listed twice, none is the name of an inherited member, and no
    group is empty.  The rows whose subject is such a name are in no
    group. *)
Theorem processData_groups_partition :
  forall (number_to_string : number -> string)
         (builtinHas : string -> string -> bool) (rawData : list (obj value)),
    (Forall (fun r => groupable number_to_string r = true)
            (map (ensureTypes number_to_string)
                 (filter (isValidRow number_to_string) rawData)) ->
     exists out, processData number_to_string builtinHas rawData = Returns out)
    /\ forall out,
         processData number_to_string builtinHas rawData = Returns out ->
         let kept := filter plainSubject (raw out) in
         Forall (fun r => groupable number_to_string r = true) kept
         /\ Permutation kept (allRecords (grouped out))
         /\ (forall r, In r kept ->
               In r (lookupGroup (grouped out) (Subject r)
                                 (ToString number_to_string (Year r))))
         /\ NoDup (keys (grouped out))
         /\ (forall sub years, In (sub, years) (grouped out) ->
               inherited sub = false /\ years <> [] /\ NoDup (keys years)
               /\ forall yr rows, In (yr, rows) years ->
                    inherited yr = false /\ rows <> []
                    /\ rows = filter (fun r =>
                                        String.eqb sub (Subject r)
                                        && String.eqb yr (ToString number_to_string
                                                            (Year r)))
                                     (raw out)).
Proof.
  intros nts bh rawData. split.
  { intros F. eexists. apply (processData_groupable nts bh rawData F). }
  intros out H kept.
  destruct (processData_returns _ _ _ H) as (_ & G & [P1 P2] & F). fold kept in G, F.
  assert (W : wellGrouped (grouped out)).
  { rewrite G. apply wellGrouped_fold. split; [constructor|]. intros s y []. }
  assert (L : forall sub yr,
             lookupGroup (grouped out) sub yr
             = filter (fun r => String.eqb sub (Subject r)
                                && String.eqb yr (ToString nts (Year r))) kept).
  { intros sub yr. rewrite G. apply (lookupGroup_fold nts kept [] sub yr). }
  split; [exact F|]. split.
  { rewrite G. apply Permutation_sym. apply (allRecords_fold nts kept []). }
  split.
  { intros r I. rewrite L. apply filter_In. split; [exact I|].
    now rewrite !String.eqb_refl. }
  destruct W as [ND W]. split; [exact ND|].
  intros sub years I. destruct (W _ _ I) as (H1 & H2 & H3).
  pose proof (@In_get _ sub years _ ND I) as Gs.
  assert (Is : inherited sub = false).
  { destruct (inherited sub) eqn:E; [|reflexivity].
    rewrite (P1 _ E) in Gs. discriminate. }
  split; [exact Is|]. split; [exact H1|]. split; [exact H2|].
  intros yr rows Iy.
  pose proof (@In_get _ yr rows _ H2 Iy) as Gy.
  split.
  { destruct (inherited yr) eqn:E; [|reflexivity].
    rewrite (P2 _ _ Gs _ E) in Gy. discriminate. }
  split; [eauto|].
  assert (E : rows = lookupGroup (grouped out) sub yr).
  { unfold lookupGroup. now rewrite Gs, Gy. }
  rewrite E, L. unfold kept. apply filter_filter_implied.
  intros r Hr. apply andb_true_iff in Hr. destruct Hr as [Hr _].
  apply String.eqb_eq in Hr. unfold plainSubject. now rewrite <- Hr, Is.
Qed.

(** X8.  Every record kept has numbers that are not [NaN] for its three
    marks, tags and subject without white space around them, and a year
    that is either a number other than zero or a string that does not read
    as such a number. *)
Theorem processData_record_invariants :
  forall (number_to_string : number -> string)
         (builtinHas : string -> string -> bool) (rawData : list (obj value))
         (out : processed) (r : record),
    processData number_to_string builtinHas rawData = Returns out ->
    In r (raw out) ->
    JsNumber.isNaN (School_Mean r) = false
    /\ JsNumber.isNaN (State_Mean r) = false
    /\ JsNumber.isNaN (Max_Mark r) = false
    /\ trim (Subject r) = Subject r
    /\ trim (MC_ER r) = MC_ER r
    /\ trim (Question_Per_Content r) = Question_Per_Content r
    /\ trim (Question_Per_Outcome r) = Question_Per_Outcome r
    /\ match Year r with
       | VNum n => JsNumber.truthy n = true
       | VStr s => JsNumber.truthy (parseInt s) = false
       | _ => False
       end.
Proof.
  intros nts bh rawData out r H I.
  destruct (processData_raw _ _ _ H) as (E & _). rewrite E in I.
  apply in_map_iff in I. destruct I as (row & <- & _).
  cbn [ensureTypes School_Mean State_Mean Max_Mark Subject MC_ER
       Question_Per_Content Question_Per_Outcome Year].
  rewrite !toFloat_notNaN, !trim_idempotent.
  repeat split.
  destruct (JsNumber.truthy (parseInt (ToString nts (getVal row "Year")))) eqn:Ey;
    exact Ey.
Qed.

Lemma processData_record_invariants_witness :
  exists out r,
    processData integerToString (fun _ _ => false)
      [[("Subject", VStr " Maths "); ("Year", VStr "Year 12");
        ("Question (Item)", VStr "3"); ("Max Mark (Item)", VStr "n/a")]]
    = Returns out
    /\ raw out = [r]
    /\ Max_Mark r = JsNumber.ofZ 0 /\ Subject r = "Maths"
    /\ Year r = VStr "Year 12"
    /\ JsNumber.isNaN (School_Mean r) = false.
Proof.
  eexists. eexists. split; [reflexivity|]. split; [reflexivity|].
  split; [reflexivity|]. split; [reflexivity|]. split; [reflexivity|].
  apply (@processData_record_invariants integerToString (fun _ _ => false)
           [[("Subject", VStr " Maths "); ("Year", VStr "Year 12");
             ("Question (Item)", VStr "3"); ("Max Mark (Item)", VStr "n/a")]]
           _ _ eq_refl).
  left. reflexivity.
Defined.

Lemma NoDup_filter {A} (f : A -> bool) (l : list A) : NoDup l -> NoDup (filter f l).
Proof.
  induction 1 as [|x l Hx ND IH]; simpl; [constructor|].
  destruct (f x); [|exact IH]. constructor; [|exact IH].
  intros I. apply filter_In in I. tauto.
Qed.

(** The subjects of the statistics: those of the cleaned rows, each once,
    in strictly increasing order. *)
Lemma subjects_spec (out : processed) :
  StronglySorted (fun a b => ltStr a b = true) (subjects out)
  /\ NoDup (subjects out)
  /\ (forall s, In s (subjects out) <-> exists r, In r (raw out) /\ Subject r = s).
Proof.
  destruct (subjectSet_spec (raw out) []) as [ND M]. cbv zeta in ND, M.
  specialize (ND (NoDup_nil _)). fold (subjectSet (raw out)) in ND, M.
  split; [now apply sort_strings_strict|]. split.
  - eapply Permutation_NoDup; [apply arraySort_perm|exact ND].
  - intros s. unfold subjects. rewrite arraySort_In, M. simpl. tauto.
Qed.

(** The groups are keyed by the subjects that are not names of inherited
    members. *)
Lemma plain_subjects_keys (number_to_string : number -> string)
  (builtinHas : string -> string -> bool) (rawData : list (obj value))
  (out : processed) :
  processData number_to_string builtinHas rawData = Returns out ->
  Permutation (filter (fun s => negb (inherited s)) (subjects out))
              (keys (grouped out)).
Proof.
  intros H.
  destruct (processData_returns _ _ _ H) as (_ & G & _ & _).
  destruct (subjects_spec out) as (_ & NDs & M').
  apply NoDup_Permutation.
  - now apply NoDup_filter.
  - rewrite G. apply (wellGrouped_fold number_to_string (filter plainSubject (raw out))).
    split; [constructor|]. intros s y [].
  - intros s. rewrite filter_In, M', G, In_keys_fold_groupStep. simpl. split.
    + intros [(r & I & E) Ps]. right. exists r. split; [|exact E].
      apply filter_In. split; [exact I|]. unfold plainSubject. now rewrite E.
    + intros [[]|(r & I & E)]. apply filter_In in I. destruct I as [I Ps].
      split; [eauto|]. unfold plainSubject in Ps. now rewrite <- E.
Qed.

(** X9.  The subjects shown for review are the subjects of the cleaned
    rows, each once, in strictly increasing order, and their count is the
    number shown.  The groups are keyed by those of them that are not names
    of inherited members: by all of them when no row has such a subject. *)
Theorem review_subjects :
  forall (number_to_string : number -> string)
         (builtinHas : string -> string -> bool) (rawData : list (obj value))
         (out : processed),
    processData number_to_string builtinHas rawData = Returns out ->
    StronglySorted (fun a b => ltStr a b = true) (subjects out)
    /\ (forall s, In s (subjects out) <-> exists r, In r (raw out) /\ Subject r = s)
    /\ subjectCount out = List.length (subjects out)
    /\ Permutation (filter (fun s => negb (inherited s)) (subjects out))
                   (keys (grouped out))
    /\ ((forall r, In r (raw out) -> inherited (Subject r) = false) ->
        Permutation (subjects out) (keys (grouped out))).
Proof.
  intros nts bh rawData out H.
  destruct (subjects_spec out) as (S & _ & M').
  pose proof (plain_subjects_keys _ _ _ H) as P.
  split; [exact S|]. split; [exact M'|]. split.
  { unfold subjectCount, subjects. now rewrite arraySort_length. }
  split; [exact P|].
  intros A. eapply perm_trans; [|exact P].
  assert (E : filter (fun s => negb (inherited s)) (subjects out) = subjects out).
  { apply forallb_filter_id. apply forallb_forall. intros s Is.
    apply M' in Is. destruct Is as (r & I & <-). now rewrite (A r I). }
  rewrite E. apply Permutation_refl.
Qed.

(** A row whose subject is [constructor] is counted among the subjects and
    is in no group. *)
Lemma review_subjects_witness :
  exists out,
    processData integerToString (fun _ _ => false)
      [[("Subject", VStr "Maths"); ("Year", VStr "2023");
        ("Question (Item)", VStr "1")];
       [("Subject", VStr "constructor"); ("Year", VStr "2023");
        ("Question (Item)", VStr "2")]]
    = Returns out
    /\ subjects out = ["Maths"; "constructor"]
    /\ Permutation (filter (fun s => negb (inherited s)) (subjects out))
                   (keys (grouped out))
    /\ keys (grouped out) = ["Maths"].
Proof.
  eexists. split; [reflexivity|]. split; [reflexivity|]. split; [|reflexivity].
  apply (@review_subjects integerToString (fun _ _ => false)
           [[("Subject", VStr "Maths"); ("Year", VStr "2023");
             ("Question (Item)", VStr "1")];
            [("Subject", VStr "constructor"); ("Year", VStr "2023");
             ("Question (Item)", VStr "2")]] _ eq_refl).
Defined.

(** * Enumeration order *)

Lemma precedes_asym (a b : string) : precedes a b = true -> precedes b a = false.
Proof.
  unfold precedes. destruct (arrayIndex a) as [i|], (arrayIndex b) as [j|];
    try discriminate; try reflexivity.
  intros H. apply N.ltb_lt in H. apply N.ltb_ge. lia.
Qed.

Lemma precedes_trans (a b c : string) :
  precedes a b = true -> precedes b c = true -> precedes a c = true.
Proof.
  unfold precedes.
  destruct (arrayIndex a) as [i|], (arrayIndex b) as [j|], (arrayIndex c) as [k|];
    try discriminate; try reflexivity.
  intros H1 H2. apply N.ltb_lt in H1, H2. apply N.ltb_lt. lia.
Qed.

Section EnumerationOrder.
Context {V : Type}.
Implicit Types (o : obj V) (k : string) (v : V).

Lemma keys_insertKey k v o :
  exists ks1 ks2, keys o = ks1 ++ ks2 /\ keys (insertKey k v o) = ks1 ++ k :: ks2
                /\ Forall (fun x => precedes k x = false) ks1
                /\ match ks2 with [] => True | x :: _ => precedes k x = true end.
Proof.
  induction o as [|[k' v'] o (ks1 & ks2 & E1 & E2 & F & H)]; simpl.
  - exists [], []. repeat split; constructor.
  - destruct (precedes k k') eqn:P.
    + exists [], (k' :: keys o). repeat split; auto.
    + exists (k' :: ks1), ks2. simpl. rewrite E1, E2. repeat split; auto.
Qed.

Lemma enumerationOrdered_insertKey k v o :
  enumerationOrdered (keys o) -> enumerationOrdered (keys (insertKey k v o)).
Proof.
  unfold enumerationOrdered. intros S.
  destruct (keys_insertKey k v o) as (ks1 & ks2 & E1 & E2 & F & H).
  rewrite E2. rewrite E1 in S. clear E1 E2.
  induction ks1 as [|x ks1 IH]; simpl in *.
  - constructor; [exact S|].
    destruct ks2 as [|y ks2]; [constructor|].
    inversion S as [|? ? S' Hy]; subst.
    constructor; [now apply precedes_asym|].
    rewrite Forall_forall in *. intros z Iz.
    destruct (precedes z k) eqn:Pz; [|reflexivity].
    rewrite <- (Hy z Iz). symmetry. eapply precedes_trans; eauto.
  - inversion S as [|? ? S' Hx]; subst. inversion F as [|? ? Fx F']; subst.
    constructor; [now apply IH|].
    rewrite Forall_forall in *. intros z Iz.
    apply in_app_or in Iz. destruct Iz as [Iz|[<-|Iz]]; [|exact Fx|];
      apply Hx, in_or_app; auto.
Qed.

Lemma enumerationOrdered_set k v o :
  enumerationOrdered (keys o) -> enumerationOrdered (keys (set k v o)).
Proof.
  intros S. unfold set. destruct (has k o).
  - now rewrite keys_replace.
  - now apply enumerationOrdered_insertKey.
Qed.

(** A key that precedes none of the properties is added at the end. *)
Lemma insertKey_last k v o :
  Forall (fun x => precedes k x = false) (keys o) -> insertKey k v o = o ++ [(k, v)].
Proof.
  induction o as [|[k' v'] o IH]; simpl; [reflexivity|].
  intros F. inversion F as [|? ? H F']; subst. rewrite H. now rewrite IH.
Qed.
End EnumerationOrder.

(** * Column names after canonicalisation *)

Lemma normalizeKey_eq (key : string) :
  normalizeKey key
  = if namesContent (trim key) then "Question Per Content"
    else if namesOutcome (trim key) then "Question Per Outcome"
    else trim key.
Proof. reflexivity. Qed.

Lemma normalizeKey_idempotent (key : string) :
  normalizeKey (normalizeKey key) = normalizeKey key.
Proof.
  rewrite (normalizeKey_eq key).
  destruct (namesContent (trim key)) eqn:C; [reflexivity|].
  destruct (namesOutcome (trim key)) eqn:O; [reflexivity|].
  rewrite normalizeKey_eq, trim_idempotent, C, O. reflexivity.
Qed.

(** A canonical name carries no white space around it and is not one of
    the variants. *)
Lemma normalizeKey_canonical (key : string) :
  trim (normalizeKey key) = normalizeKey key
  /\ namesContent (normalizeKey key) = false
  /\ namesOutcome (normalizeKey key) = false.
Proof.
  rewrite normalizeKey_eq.
  destruct (namesContent (trim key)) eqn:C; [repeat split|].
  destruct (namesOutcome (trim key)) eqn:O; [repeat split|].
  rewrite trim_idempotent. auto.
Qed.

Lemma keys_normalizeStep (newRow : obj value) (kv : string * value) (k : string) :
  In k (keys (normalizeStep newRow kv))
  <-> (k = normalizeKey (fst kv) /\ inherited k = false) \/ In k (keys newRow).
Proof.
  rewrite normalizeStep_eq. cbv zeta. unfold has, getVal.
  destruct (get (normalizeKey (fst kv)) newRow) as [v|] eqn:G.
  - rewrite andb_false_r.
    assert (I : In (normalizeKey (fst kv)) (keys newRow))
      by (apply In_keys_get; eauto).
    destruct (negb (truthy v)).
    + rewrite In_keys_set. split; [intros [->|H]; now right|].
      intros [[-> _]|H]; [now left|now right].
    + split; [now right|]. intros [[-> _]|H]; assumption.
  - destruct (inherited (normalizeKey (fst kv))) eqn:E; cbn [andb negb].
    + split; [now right|]. intros [[-> C]|H]; [congruence|exact H].
    + cbn [truthy negb]. rewrite In_keys_set. split.
      * intros [->|H]; [left; now split|now right].
      * intros [[-> _]|H]; [now left|now right].
Qed.

Lemma keys_fold_normalizeStep (row newRow : obj value) (k : string) :
  In k (keys (fold_left normalizeStep row newRow))
  <-> In k (keys newRow)
      \/ exists k0, In k0 (keys row) /\ normalizeKey k0 = k /\ inherited k = false.
Proof.
  revert newRow. induction row as [|[k1 v1] row IH]; intros newRow; simpl.
  - split; [now left|]. intros [H|(k0 & [] & _)]. exact H.
  - rewrite IH, keys_normalizeStep. simpl. split.
    + intros [[[-> E]|H]|(k0 & I & E & P)].
      * right. exists k1. auto.
      * now left.
      * right. exists k0. auto.
    + intros [H|(k0 & [<-|I] & E & P)].
      * left. now right.
      * left. left. split; [now symmetry|exact P].
      * right. exists k0. auto.
Qed.

Lemma normalizeStep_invariant (newRow : obj value) (kv : string * value) :
  NoDup (keys newRow) /\ enumerationOrdered (keys newRow) ->
  NoDup (keys (normalizeStep newRow kv))
  /\ enumerationOrdered (keys (normalizeStep newRow kv)).
Proof.
  intros [ND S]. rewrite normalizeStep_eq. cbv zeta.
  destruct (inherited _ && negb _); [now split|].
  destruct (negb (truthy (getVal newRow (normalizeKey (fst kv))))); [|now split].
  split; [now apply NoDup_keys_set|now apply enumerationOrdered_set].
Qed.

Lemma normalizeRow_invariant (row newRow : obj value) :
  NoDup (keys newRow) /\ enumerationOrdered (keys newRow) ->
  NoDup (keys (fold_left normalizeStep row newRow))
  /\ enumerationOrdered (keys (fold_left normalizeStep row newRow)).
Proof.
  revert newRow. induction row as [|kv row IH]; intros newRow H; [exact H|].
  simpl. apply IH. now apply normalizeStep_invariant.
Qed.

Lemma sorted_before {A} (R : A -> A -> Prop) (xs ys : list A) (k : A) :
  StronglySorted R (xs ++ k :: ys) -> Forall (fun x => R x k) xs.
Proof.
  induction xs as [|x xs IH]; simpl; intros S; [constructor|].
  inversion S as [|? ? S' Hx]; subst.
  constructor; [|now apply IH].
  rewrite Forall_forall in Hx. apply Hx. apply in_or_app. right. now left.
Qed.

(** Canonical names that are not names of inherited members, distinct and
    in enumeration order, are written back as they are. *)
Lemma normalizeStep_rebuild (l acc : obj value) :
  NoDup (keys (acc ++ l)) -> enumerationOrdered (keys (acc ++ l)) ->
  Forall (fun kv => normalizeKey (fst kv) = fst kv /\ inherited (fst kv) = false) l ->
  fold_left normalizeStep l acc = acc ++ l.
Proof.
  revert acc. induction l as [|[k v] l IH]; intros acc ND S F; simpl.
  - now rewrite app_nil_r.
  - inversion F as [|? ? [Hk Hi] F']; subst. simpl in Hk, Hi.
    assert (E : acc ++ (k, v) :: l = (acc ++ [(k, v)]) ++ l)
      by now rewrite <- app_assoc.
    assert (Hn : ~ In k (keys acc)).
    { unfold keys in ND. rewrite map_app in ND. simpl in ND.
      apply NoDup_remove_2 in ND. intros I. apply ND, in_or_app. now left. }
    assert (Step : normalizeStep acc (k, v) = acc ++ [(k, v)]).
    { rewrite normalizeStep_eq. cbv zeta. simpl fst. simpl snd. rewrite Hk, Hi.
      apply get_None_keys in Hn. unfold getVal. rewrite Hn. simpl.
      unfold set, has. rewrite Hn. apply insertKey_last.
      unfold enumerationOrdered, keys in S. rewrite map_app in S. simpl in S.
      apply (@sorted_before _ _ _ _ _ S). }
    rewrite Step, E. apply IH; [now rewrite <- E|now rewrite <- E|exact F'].
Qed.

(** X10.  The normalised row has canonical column names only: no name
    twice, no white space around a name, none of the variants of the two
    tag columns, no name of an inherited member.  Its names are the
    canonical forms of the raw names, but for those that are names of
    inherited members, which are dropped; and canonicalising a canonical
    name changes nothing. *)
Theorem normalizeRow_canonical_keys :
  forall (row : obj value),
    NoDup (keys (normalizeRow row))
    /\ (forall k, In k (keys (normalizeRow row))
                  <-> exists k0, In k0 (keys row) /\ normalizeKey k0 = k
                                 /\ inherited k = false)
    /\ (forall k, In k (keys (normalizeRow row)) ->
          normalizeKey k = k /\ trim k = k
          /\ namesContent k = false /\ namesOutcome k = false)
    /\ (forall k0, normalizeKey (normalizeKey k0) = normalizeKey k0).
Proof.
  intros row.
  assert (M : forall k, In k (keys (normalizeRow row))
                        <-> exists k0, In k0 (keys row) /\ normalizeKey k0 = k
                                       /\ inherited k = false).
  { intros k. unfold normalizeRow. rewrite keys_fold_normalizeStep. simpl. tauto. }
  split.
  { apply (normalizeRow_invariant row []). split; constructor. }
  split; [exact M|]. split; [|apply normalizeKey_idempotent].
  intros k I. apply M in I. destruct I as (k0 & _ & <- & _).
  split; [apply normalizeKey_idempotent|apply normalizeKey_canonical].
Qed.

(** X11.  Normalising a row that is already normalised returns it as it
    is, values and order of the columns included. *)
Theorem normalizeRow_idempotent :
  forall (row : obj value), normalizeRow (normalizeRow row) = normalizeRow row.
Proof.
  intros row.
  destruct (normalizeRow_invariant row []) as [ND S]; [split; constructor|].
  fold (normalizeRow row) in ND, S.
  unfold normalizeRow at 1. apply (@normalizeStep_rebuild (normalizeRow row) []);
    [exact ND|exact S|].
  apply Forall_forall. intros [k v] I. simpl.
  assert (Ik : In k (keys (normalizeRow row)))
    by (change k with (fst (k, v)); now apply in_map).
  unfold normalizeRow in Ik. rewrite keys_fold_normalizeStep in Ik.
  destruct Ik as [[]|(k0 & _ & <- & P)].
  split; [apply normalizeKey_idempotent|exact P].
Qed.

(** * One document per subject *)

Lemma sortPages_fixed (allPages : list page) :
  StronglySorted (fun a b => pageLe a b = true) allPages ->
  sortPages allPages = allPages.
Proof.
  intros S. rewrite sortPages_is_stable_sort.
  apply (@arraySort_fixed page byKeyThenScore (fun _ => True) pageLe).
  - intros a b _ _. apply byKeyThenScore_le.
  - intros a b _ _. apply pageLe_total.
  - intros a b c _ _ _. apply pageLe_trans.
  - apply Forall_forall. auto.
  - exact S.
Qed.

Lemma contentItems_app (a b : list pdfPage) :
  contentItems (a ++ b) = contentItems a ++ contentItems b.
Proof. apply flat_map_app. Qed.

Lemma contentItems_content (k : nat) (pages : list page) :
  contentItems (addContentPages [] k pages) = pages.
Proof.
  revert k. induction pages as [|p ps IH]; intros k; simpl; [reflexivity|].
  rewrite addContentPages_app, contentItems_app, IH. reflexivity.
Qed.

Lemma contentItems_listing {A} (h : A -> string) (e : A -> list tocEntry) (l : list A) :
  contentItems (map (fun i => TocPage (h i) (e i)) l) = [].
Proof. induction l as [|i l IH]; [reflexivity|exact IH]. Qed.

Lemma contentItems_createSubjectPDF (name : string) (pages : list page) :
  contentItems (fst (createSubjectPDF name pages)) = pages.
Proof.
  unfold createSubjectPDF. rewrite addTOCPages_spec. cbv zeta. cbn [fst snd].
  rewrite addContentPages_app, !contentItems_app, contentItems_content.
  rewrite contentItems_listing. reflexivity.
Qed.

Lemma groupBySubject_pushAt (groups : obj (list page)) (p : page) :
  noInheritedKey groups ->
  groupBySubject groups p
  = if negb (inherited (subject p)) then Returns (pushAt (subject p) p groups)
    else Throws.
Proof. intros H. unfold groupBySubject. now apply push_step. Qed.

(** The grouping loop of [createPDF] returns when no page has the name of
    an inherited member for subject, and throws otherwise. *)
Lemma forEach_groupBySubject (allPages : list page) :
  forEach groupBySubject allPages []
  = if forallb (fun p => negb (inherited (subject p))) allPages
    then Returns (fold_left (fun groups x => pushAt (subject x) x groups) allPages [])
    else Throws.
Proof.
  apply (@forEach_guarded page (obj (list page)) groupBySubject
           (fun groups x => pushAt (subject x) x groups)
           (fun p => negb (inherited (subject p))) noInheritedKey).
  - intros s a I. now apply groupBySubject_pushAt.
  - intros s a I E. apply negb_true_iff in E. now apply noInheritedKey_pushAt.
  - intros k _. reflexivity.
Qed.

Lemma safeChar_ok (c : ascii) : isFileNameChar (safeChar c) = true.
Proof. destruct c as [[] [] [] [] [] [] [] []]; reflexivity. Qed.

Lemma safeChar_idempotent (c : ascii) : safeChar (safeChar c) = safeChar c.
Proof. destruct c as [[] [] [] [] [] [] [] []]; reflexivity. Qed.

Lemma replaceUnsafe_chars (s : string) : allChars isFileNameChar (replaceUnsafe s) = true.
Proof.
  induction s as [|c s IH]; [reflexivity|].
  cbn [replaceUnsafe allChars]. now rewrite safeChar_ok, IH.
Qed.

Lemma replaceUnsafe_length (s : string) :
  String.length (replaceUnsafe s) = String.length s.
Proof. induction s as [|c s IH]; simpl; congruence. Qed.

Lemma replaceUnsafe_idempotent (s : string) :
  replaceUnsafe (replaceUnsafe s) = replaceUnsafe s.
Proof.
  induction s as [|c s IH]; [reflexivity|].
  cbn [replaceUnsafe]. now rewrite safeChar_idempotent, IH.
Qed.

(** The documents, read off the list of pages. *)
Lemma createPDF_eq (chartImages : list page) (processedData : processed) :
  let allPages := chartImages ++ generateTopBottomMetadata (grouped processedData) in
  let subjects := arraySort defaultCompare
                    (keys (fold_left (fun groups x => pushAt (subject x) x groups)
                                     allPages [])) in
  createPDF chartImages processedData
  = (if forallb (fun p => negb (inherited (subject p))) allPages
     then Returns
            (map (fun s => {| pdfSubject := s;
                              blob := fst (createSubjectPDF s
                                             (sortPages (keyed subject s allPages)));
                              filename := "HSC_Analysis_" ++ replaceUnsafe s ++ ".pdf" |})
                 subjects)
     else Throws)
  /\ NoDup subjects
  /\ forall s, In s subjects <-> exists p, In p allPages /\ subject p = s.
Proof.
  intros allPages subjects. unfold createPDF. fold allPages.
  rewrite forEach_groupBySubject.
  set (groups := fold_left (fun groups x => pushAt (subject x) x groups) allPages []).
  assert (G : forall s, get s groups
                        = match keyed subject s allPages with
                          | [] => None
                          | f => Some f
                          end).
  { intros s. exact (get_groupAll subject allPages [] s). }
  assert (K : forall s, In s subjects <-> exists p, In p allPages /\ subject p = s).
  { intros s. unfold subjects. rewrite arraySort_In.
    exact (In_keys_groupAll subject allPages s). }
  split; [|split; [|exact K]].
  - destruct (forallb _ allPages); [|reflexivity]. cbn [andThen]. fold subjects.
    f_equal.
    assert (H : forall l acc,
               (forall s, In s l -> keyed subject s allPages <> []) ->
               fold_left
                 (fun pdfBlobs s =>
                    match get s groups with
                    | Some pages =>
                        pdfBlobs
                        ++ [{| pdfSubject := s;
                               blob := fst (createSubjectPDF s (sortPages pages));
                               filename := "HSC_Analysis_" ++ replaceUnsafe s ++ ".pdf" |}]
                    | None => pdfBlobs
                    end) l acc
               = acc ++ map (fun s =>
                               {| pdfSubject := s;
                                  blob := fst (createSubjectPDF s
                                                 (sortPages (keyed subject s allPages)));
                                  filename := "HSC_Analysis_" ++ replaceUnsafe s
                                              ++ ".pdf" |}) l).
    { induction l as [|s l IH]; intros acc Hl; simpl.
      - now rewrite app_nil_r.
      - rewrite G. pose proof (Hl s (or_introl eq_refl)) as Hs.
        destruct (keyed subject s allPages) as [|p f] eqn:E; [congruence|].
        rewrite IH by (intros s' I; apply Hl; now right).
        rewrite <- app_assoc. reflexivity. }
    apply (H subjects []). intros s I. apply keyed_nonempty. now apply K.
  - unfold subjects. eapply Permutation_NoDup; [apply arraySort_perm|].
    apply (NoDup_keys_groupAll subject allPages). constructor.
Qed.

(** X12.  [createPDF] throws when a page has the name of an inherited
    member for subject, and returns otherwise.  It then has written one
    document for each subject that has a page, in strictly increasing order
    of the subjects; the content pages of a document are the pages of its
    subject, ordered by year and then by score; every page goes into one
    document and no page into two. *)
Theorem createPDF_one_per_subject :
  forall (chartImages : list page) (processedData : processed),
    let allPages := chartImages ++ generateTopBottomMetadata (grouped processedData) in
    (createPDF chartImages processedData = Throws
     <-> exists p, In p allPages /\ inherited (subject p) = true)
    /\ ((forall p, In p allPages -> inherited (subject p) = false)
        <-> exists out, createPDF chartImages processedData = Returns out)
    /\ forall out,
         createPDF chartImages processedData = Returns out ->
         StronglySorted (fun a b => ltStr a b = true) (map pdfSubject out)
         /\ (forall s, In s (map pdfSubject out)
                       <-> exists p, In p allPages /\ subject p = s)
         /\ (forall f, In f out ->
               contentItems (blob f)
               = sortPages (keyed subject (pdfSubject f) allPages)
               /\ Forall (fun p => subject p = pdfSubject f) (contentItems (blob f))
               /\ StronglySorted (fun p q => yearThenScore p q = true)
                                 (contentItems (blob f)))
         /\ Permutation allPages (flat_map (fun f => contentItems (blob f)) out).
Proof.
  intros chartImages processedData allPages.
  destruct (createPDF_eq chartImages processedData) as (E0 & ND & K).
  fold allPages in E0, ND, K.
  set (subjects := arraySort defaultCompare
                     (keys (fold_left (fun groups x => pushAt (subject x) x groups)
                                      allPages []))) in *.
  assert (B : forallb (fun p => negb (inherited (subject p))) allPages = false
              <-> exists p, In p allPages /\ inherited (subject p) = true).
  { rewrite forallb_false. split; intros (p & I & H); exists p; split; auto.
    - now apply negb_false_iff in H.
    - now apply negb_false_iff. }
  split.
  { rewrite <- B, E0. destruct (forallb _ allPages); split; congruence. }
  split.
  { split.
    - intros A. rewrite E0.
      assert (T : forallb (fun p => negb (inherited (subject p))) allPages = true).
      { apply forallb_forall. intros p I. now rewrite (A p I). }
      rewrite T. eauto.
    - intros [out H] p I. rewrite E0 in H.
      destruct (forallb (fun p => negb (inherited (subject p))) allPages) eqn:T;
        [|discriminate H].
      rewrite forallb_forall in T. apply negb_true_iff. now apply T. }
  intros out H. rewrite E0 in H.
  destruct (forallb (fun p => negb (inherited (subject p))) allPages); [|discriminate H].
  injection H as E. symmetry in E.
  assert (Names : map pdfSubject out = subjects).
  { rewrite E, map_map. simpl. apply map_id. }
  assert (Items : forall f, In f out ->
            contentItems (blob f) = sortPages (keyed subject (pdfSubject f) allPages)).
  { intros f I. rewrite E in I. apply in_map_iff in I. destruct I as (s & <- & _).
    simpl. apply contentItems_createSubjectPDF. }
  assert (Same : forall f, In f out ->
            Forall (fun p => subject p = pdfSubject f) (contentItems (blob f))).
  { intros f I. rewrite (Items f I). apply Forall_forall. intros p Ip.
    apply (Permutation_in _ (Permutation_sym (sortPages_perm _))) in Ip.
    apply filter_In in Ip. destruct Ip as [_ Hp]. apply String.eqb_eq in Hp.
    now symmetry. }
  split.
  { rewrite Names. unfold subjects. apply sort_strings_strict.
    apply (NoDup_keys_groupAll subject allPages). constructor. }
  split; [rewrite Names; exact K|]. split.
  { intros f I. split; [now apply Items|]. split; [now apply Same|].
    pose proof (Same f I) as Sf. rewrite (Items f I) in Sf |- *.
    pose proof (sortPages_sorted (keyed subject (pdfSubject f) allPages)) as S.
    revert S Sf. generalize (sortPages (keyed subject (pdfSubject f) allPages)).
    intros l S. induction S as [|a l S IH Ha]; intros Sf; [constructor|].
    inversion Sf as [|? ? Ea Sl]; subst.
    constructor; [now apply IH|].
    rewrite Forall_forall in *. intros b Ib.
    rewrite <- pageLe_same_subject; [now apply Ha|].
    rewrite Ea. symmetry. now apply Sl. }
  assert (F : flat_map (fun f => contentItems (blob f)) out
              = flat_map (fun s => sortPages (keyed subject s allPages)) subjects).
  { rewrite E, flat_map_concat_map, map_map, <- flat_map_concat_map.
    apply flat_map_ext. intros s. simpl. apply contentItems_createSubjectPDF. }
  rewrite F.
  apply Permutation_sym.
  eapply perm_trans.
  { instantiate (1 := flat_map (fun s => keyed subject s allPages) subjects).
    clear. induction subjects as [|s l IH]; simpl; [constructor|].
    apply Permutation_app; [apply Permutation_sym, sortPages_perm|exact IH]. }
  pose proof (members_groupAll subject allPages []) as M. simpl in M.
  rewrite (groupAll_entries subject allPages) in M.
  unfold members in M. rewrite flat_map_concat_map, map_map in M.
  simpl in M. rewrite <- flat_map_concat_map in M.
  eapply perm_trans; [|exact M].
  assert (P : Permutation subjects
                (keys (fold_left (fun groups x => pushAt (subject x) x groups)
                                 allPages [])))
    by (apply Permutation_sym, arraySort_perm).
  clear -P. revert P.
  generalize (keys (fold_left (fun groups x => pushAt (subject x) x groups)
                              allPages [])).
  intros ks P.
  induction P; simpl.
  - constructor.
  - now apply Permutation_app_head.
  - rewrite !app_assoc. apply Permutation_app_tail, Permutation_app_comm.
  - eapply perm_trans; eauto.
Qed.

(** X13.  A document is named after its subject, every character that is
    neither a letter nor a digit replaced by an underscore: between the
    fixed prefix and extension the name has the length of the subject, and
    it holds letters, digits, underscores and the dot of the extension
    only. *)
Theorem createPDF_filenames :
  forall (chartImages : list page) (processedData : processed)
         (out : list pdfFile) (f : pdfFile),
    createPDF chartImages processedData = Returns out ->
    In f out ->
    filename f = ("HSC_Analysis_" ++ replaceUnsafe (pdfSubject f) ++ ".pdf")%string
    /\ allChars isFileNameChar (filename f) = true
    /\ String.length (filename f) = 17 + String.length (pdfSubject f)
    /\ replaceUnsafe (replaceUnsafe (pdfSubject f)) = replaceUnsafe (pdfSubject f).
Proof.
  intros ci pd out f H I.
  destruct (createPDF_eq ci pd) as (E & _ & _). rewrite E in H.
  destruct (forallb _ _); [|discriminate H]. apply Returns_inj in H. subst out.
  apply in_map_iff in I. destruct I as (s & <- & _). cbn [filename pdfSubject].
  split; [reflexivity|]. split; [|split].
  - rewrite !allChars_append, replaceUnsafe_chars. reflexivity.
  - rewrite !length_append, replaceUnsafe_length. simpl. lia.
  - apply replaceUnsafe_idempotent.
Qed.

Lemma createPDF_filenames_witness :
  exists f, createPDF [sampleExtensionPage] noData = Returns [f]
            /\ filename f = "HSC_Analysis_Maths_Ext__1.pdf"
            /\ allChars isFileNameChar (filename f) = true.
Proof.
  eexists. split; [reflexivity|]. split; [reflexivity|].
  apply (proj1 (proj2 (@createPDF_filenames [sampleExtensionPage] noData _ _
                         eq_refl (or_introl eq_refl)))).
Defined.

(** X14.  Pages that are already in report order stay as they are, so
    sorting the pages twice gives what sorting them once gives. *)
Theorem sortPages_idempotent :
  forall (allPages : list page), sortPages (sortPages allPages) = sortPages allPages.
Proof. intros allPages. apply sortPages_fixed, sortPages_sorted. Qed.

(** * The lines of the table of contents *)

Lemma at_last {A} (pre rest : list A) (x : A) :
  at_ (pre ++ x :: rest) (Z.of_nat (List.length pre)) = Some x.
Proof.
  unfold at_. destruct (Z.ltb_spec (Z.of_nat (List.length pre)) 0) as [H|_]; [lia|].
  rewrite Nat2Z.id, nth_error_app2 by lia. now rewrite Nat.sub_diag.
Qed.

Lemma headingsOf_heading (t : string) (y : Q) (ls : list tocLine) :
  headingsOf (GroupHeading t y :: ls) = t :: headingsOf ls.
Proof. reflexivity. Qed.

Lemma headingsOf_entry (t : string) (n : nat) (y : Q) (ls : list tocLine) :
  headingsOf (EntryLine t n y :: ls) = headingsOf ls.
Proof. reflexivity. Qed.

Lemma entriesOf_heading (t : string) (y : Q) (ls : list tocLine) :
  entriesOf (GroupHeading t y :: ls) = entriesOf ls.
Proof. reflexivity. Qed.

Lemma entriesOf_entry (t : string) (n : nat) (y : Q) (ls : list tocLine) :
  entriesOf (EntryLine t n y :: ls) = (t, n) :: entriesOf ls.
Proof. reflexivity. Qed.

Lemma tocLinesFrom_scan (entries : list tocEntry) (i : nat) (rest : list tocEntry) :
  forall (idx : nat) (y : Q) (pre post : list tocEntry),
    entries = pre ++ rest ++ post ->
    List.length pre = i * entriesPerPage + idx ->
    headingsOf (tocLinesFrom entries i idx y rest)
    = map headingText (newGroups (at_ entries (Z.of_nat (List.length pre) - 1)) rest)
    /\ entriesOf (tocLinesFrom entries i idx y rest)
       = map (fun e => (entryTitle e, pageNumber e)) rest.
Proof.
  induction rest as [|e rest IH]; intros idx y pre post E L; [now split|].
  cbn [tocLinesFrom newGroups].
  assert (P : at_ entries (Z.of_nat (i * entriesPerPage) + Z.of_nat idx - 1)
              = at_ entries (Z.of_nat (List.length pre) - 1))
    by (rewrite L, Nat2Z.inj_add; reflexivity).
  rewrite P.
  assert (N : at_ entries (Z.of_nat (List.length (pre ++ [e])) - 1) = Some e).
  { rewrite length_app. simpl.
    replace (Z.of_nat (List.length pre + 1) - 1)%Z with (Z.of_nat (List.length pre)) by lia.
    rewrite E. simpl. apply at_last. }
  assert (E' : entries = (pre ++ [e]) ++ rest ++ post)
    by (rewrite E, <- app_assoc; reflexivity).
  assert (L' : List.length (pre ++ [e]) = i * entriesPerPage + S idx)
    by (rewrite length_app; simpl; lia).
  destruct (startsGroup (at_ entries (Z.of_nat (List.length pre) - 1)) e).
  - destruct (IH (S idx) (Qred (Qred (y + (1 # 4)) + (1 # 4))) _ _ E' L') as [H1 H2].
    rewrite N in H1.
    rewrite headingsOf_heading, headingsOf_entry, entriesOf_heading, entriesOf_entry.
    rewrite H1, H2. split; reflexivity.
  - destruct (IH (S idx) (Qred (y + (1 # 4))) _ _ E' L') as [H1 H2].
    rewrite N in H1. rewrite headingsOf_entry, entriesOf_entry.
    rewrite H1, H2. split; reflexivity.
Qed.

Lemma Some_inj {A} (a b : A) : Some a = Some b -> a = b.
Proof. congruence. Qed.

Lemma tocLinesFrom_y (entries : list tocEntry) (i : nat) (rest : list tocEntry) :
  forall (idx : nat) (y : Q) (k : nat) (l : tocLine),
    nth_error (tocLinesFrom entries i idx y rest) k = Some l ->
    (yOf l == y + inject_Z (Z.of_nat k) * (1 # 4))%Q.
Proof.
  induction rest as [|e rest IH]; intros idx y k l H.
  - destruct k; discriminate.
  - cbn [tocLinesFrom] in H.
    destruct (startsGroup _ e).
    + destruct k as [|[|k]]; cbn [nth_error] in H.
      * apply Some_inj in H. subst l. cbn [yOf]. change (Z.of_nat 0) with 0%Z.
        unfold inject_Z. lra.
      * apply Some_inj in H. subst l. cbn [yOf]. rewrite Qred_correct.
        change (inject_Z (Z.of_nat 1)) with 1%Q. lra.
      * apply IH in H. rewrite H, !Qred_correct, !Nat2Z.inj_succ.
        unfold Z.succ. rewrite !inject_Z_plus. change (inject_Z 1) with 1%Q. lra.
    + destruct k as [|k]; cbn [nth_error] in H.
      * apply Some_inj in H. subst l. cbn [yOf]. change (Z.of_nat 0) with 0%Z.
        unfold inject_Z. lra.
      * apply IH in H. rewrite H, !Qred_correct, !Nat2Z.inj_succ.
        unfold Z.succ. rewrite !inject_Z_plus. change (inject_Z 1) with 1%Q. lra.
Qed.

Lemma tocLinesFrom_length (entries : list tocEntry) (i : nat) (rest : list tocEntry) :
  forall (idx : nat) (y : Q),
    List.length (tocLinesFrom entries i idx y rest)
    = List.length rest + List.length (headingsOf (tocLinesFrom entries i idx y rest))
    /\ List.length (headingsOf (tocLinesFrom entries i idx y rest)) <= List.length rest.
Proof.
  induction rest as [|e rest IH]; intros idx y; [simpl; lia|].
  cbn [tocLinesFrom]. destruct (startsGroup _ e).
  - destruct (IH (S idx) (Qred (Qred (y + (1 # 4)) + (1 # 4)))) as [H1 H2].
    rewrite headingsOf_heading, headingsOf_entry. cbn [List.length]. lia.
  - destruct (IH (S idx) (Qred (y + (1 # 4)))) as [H1 H2].
    rewrite headingsOf_entry. cbn [List.length]. lia.
Qed.

(** The listing page of index [i] inside the list of entries. *)
Lemma pageEntries_segment (i : nat) (entries : list tocEntry) :
  pageEntries i entries <> [] ->
  exists pre post, entries = pre ++ pageEntries i entries ++ post
                   /\ List.length pre = i * entriesPerPage + 0.
Proof.
  intros H. unfold pageEntries in *.
  exists (firstn (i * entriesPerPage) entries),
         (skipn entriesPerPage (skipn (i * entriesPerPage) entries)).
  split.
  - now rewrite firstn_skipn, firstn_skipn.
  - rewrite length_firstn, Nat.add_0_r. apply Nat.min_l.
    destruct (Nat.le_gt_cases (i * entriesPerPage) (List.length entries)) as [L|L];
      [exact L|].
    rewrite skipn_all2 in H by lia. now destruct entriesPerPage.
Qed.

Lemma firstn_add {A} (a b : nat) (l : list A) :
  firstn (a + b) l = firstn a l ++ firstn b (skipn a l).
Proof.
  revert l. induction a as [|a IH]; intros l; [reflexivity|].
  destruct l as [|x l]; simpl; [now rewrite firstn_nil|]. now rewrite IH.
Qed.

Lemma newGroups_snoc_app (prev : option tocEntry) (l1 l2 : list tocEntry) (x : tocEntry) :
  newGroups prev ((l1 ++ [x]) ++ l2)
  = newGroups prev (l1 ++ [x]) ++ newGroups (Some x) l2.
Proof.
  revert prev. induction l1 as [|a l1 IH]; intros prev; simpl.
  - now rewrite app_nil_r.
  - now rewrite IH, app_assoc.
Qed.

(** The entries up to the end of a listing page: those before the page,
    then the page, scanned from the last entry before it. *)
Lemma newGroups_page (t : nat) (entries : list tocEntry) :
  newGroups None (firstn (S t * entriesPerPage) entries)
  = newGroups None (firstn (t * entriesPerPage) entries)
    ++ newGroups (at_ entries (Z.of_nat (t * entriesPerPage) - 1))
                 (pageEntries t entries).
Proof.
  replace (S t * entriesPerPage) with (t * entriesPerPage + entriesPerPage)
    by (unfold entriesPerPage; lia).
  rewrite firstn_add. fold (pageEntries t entries).
  destruct (pageEntries t entries) as [|c chunk] eqn:C.
  { simpl. now rewrite !app_nil_r. }
  assert (NE : pageEntries t entries <> []) by (rewrite C; discriminate).
  destruct (@pageEntries_segment _ _ NE) as (pre & post & E & L).
  rewrite Nat.add_0_r in L.
  assert (F : firstn (t * entriesPerPage) entries = pre).
  { rewrite E, <- L, firstn_app, Nat.sub_diag, firstn_all. simpl. apply app_nil_r. }
  rewrite F, <- L, <- C.
  destruct pre as [|a pre'] eqn:Ep.
  - reflexivity.
  - destruct (@exists_last _ (a :: pre') ltac:(discriminate)) as (q & x & Eq).
    rewrite Eq in *. clear Eq.
    assert (A : at_ entries (Z.of_nat (List.length (q ++ [x])) - 1) = Some x).
    { rewrite length_app. simpl.
      replace (Z.of_nat (List.length q + 1) - 1)%Z with (Z.of_nat (List.length q)) by lia.
      rewrite E, <- app_assoc. simpl. apply at_last. }
    rewrite A. apply newGroups_snoc_app.
Qed.

Lemma newGroups_pages (t : nat) (entries : list tocEntry) :
  flat_map (fun i => newGroups (at_ entries (Z.of_nat (i * entriesPerPage) - 1))
                               (pageEntries i entries)) (seq 0 t)
  = newGroups None (firstn (t * entriesPerPage) entries).
Proof.
  induction t as [|t IH]; [reflexivity|].
  rewrite seq_S, flat_map_app, IH, newGroups_page. simpl. now rewrite app_nil_r.
Qed.

Lemma headingsOf_tocLines (i : nat) (entries : list tocEntry) :
  headingsOf (tocLines i entries)
  = map headingText
        (newGroups (at_ entries (Z.of_nat (i * entriesPerPage) - 1))
                   (pageEntries i entries))
  /\ entriesOf (tocLines i entries)
     = map (fun e => (entryTitle e, pageNumber e)) (pageEntries i entries).
Proof.
  unfold tocLines.
  destruct (pageEntries i entries) as [|c chunk] eqn:C; [now split|].
  assert (NE : pageEntries i entries <> []) by (rewrite C; discriminate).
  destruct (@pageEntries_segment _ _ NE) as (pre & post & E & L).
  rewrite <- C.
  destruct (@tocLinesFrom_scan entries i (pageEntries i entries) 0 (3 # 2) pre post E L)
    as [H1 H2].
  rewrite Nat.add_0_r in L. rewrite L in H1. now split.
Qed.

(** With one subject and the years in order, a new group starts where the
    year increases: the years of the headings increase strictly, and every
    year has its heading. *)
Lemma newGroups_years (name : string) (entries : list tocEntry) :
  Forall (fun e => entrySubject e = name) entries ->
  StronglySorted (fun a b => leStr a b = true) (map entryYear entries) ->
  forall prev,
    match prev with
    | None => True
    | Some p => entrySubject p = name
                /\ Forall (fun y => leStr (entryYear p) y = true) (map entryYear entries)
    end ->
    let years := map entryYear (newGroups prev entries) in
    StronglySorted (fun a b => ltStr a b = true) years
    /\ Forall (fun e => entrySubject e = name) (newGroups prev entries)
    /\ match prev with
       | None => True
       | Some p => Forall (fun y => ltStr (entryYear p) y = true) years
       end
    /\ forall y, In y (map entryYear entries) ->
                 In y years \/ match prev with
                               | None => False
                               | Some p => y = entryYear p
                               end.
Proof.
  intros Hs. induction entries as [|e entries IH]; intros S prev Hp; cbv zeta.
  - simpl. split; [constructor|]. split; [constructor|].
    split; [destruct prev; constructor|]. intros yr [].
  - inversion Hs as [|? ? He Hs']; subst.
    simpl map in S. inversion S as [|? ? S' Le]; subst.
    destruct (IH Hs' S' (Some e) (conj eq_refl Le)) as (I1 & I2 & I3 & I4).
    cbv zeta in I1, I3, I4. cbn [newGroups].
    assert (Tr : forall a, ltStr a (entryYear e) = true ->
                   Forall (fun y => ltStr a y = true)
                          (map entryYear (newGroups (Some e) entries))).
    { intros a La. revert I3. apply Forall_impl. intros z Lz.
      eapply ltStr_trans; eauto. }
    destruct prev as [p|].
    + destruct Hp as [Ep Lp]. simpl map in Lp. inversion Lp as [|? ? Lpe Lp']; subst.
      unfold startsGroup. rewrite Ep, String.eqb_refl. cbn [negb orb].
      destruct (String.eqb_spec (entryYear p) (entryYear e)) as [Ey|Ny]; cbn [negb app].
      * rewrite Ey. repeat split; auto.
        intros yr [<-|Iy]; [now right|]. destruct (I4 yr Iy) as [H|H]; auto.
      * assert (Lt : ltStr (entryYear p) (entryYear e) = true).
        { unfold leStr in Lpe. apply negb_true_iff in Lpe.
          destruct (ltStr (entryYear p) (entryYear e)) eqn:L; [reflexivity|].
          elim Ny. now apply ltStr_trichotomy. }
        cbn [map]. repeat split.
        -- constructor; [exact I1|exact I3].
        -- constructor; [reflexivity|exact I2].
        -- constructor; [exact Lt|now apply Tr].
        -- intros yr [<-|Iy]; [left; now left|].
           destruct (I4 yr Iy) as [H|H]; [left; now right|left; left; now symmetry].
    + cbn [startsGroup app map]. repeat split.
      * constructor; [exact I1|exact I3].
      * constructor; [reflexivity|exact I2].
      * intros yr [<-|Iy]; [left; now left|].
        destruct (I4 yr Iy) as [H|H]; [left; now right|left; left; now symmetry].
Qed.

Lemma tocEntries_fields (k idx : nat) (pages : list page) :
  map entrySubject (map (bump k) (tocEntriesFrom idx pages)) = map subject pages
  /\ map entryYear (map (bump k) (tocEntriesFrom idx pages)) = map year pages.
Proof.
  revert idx. induction pages as [|p ps IH]; intros idx; [now split|].
  destruct (IH (S idx)) as [H1 H2]. simpl. now rewrite H1, H2.
Qed.

Lemma flat_map_map {A B C} (f : B -> C) (g : A -> list B) (l : list A) :
  flat_map (fun i => map f (g i)) l = map f (flat_map g l).
Proof.
  induction l as [|x l IH]; simpl; [reflexivity|]. now rewrite IH, map_app.
Qed.

Lemma yearThenScore_leStr (p q : page) :
  yearThenScore p q = true -> leStr (year p) (year q) = true.
Proof.
  unfold yearThenScore, leStr. intros H. apply orb_true_iff in H.
  destruct H as [H|H].
  - now rewrite (ltStr_asym _ _ H).
  - apply andb_true_iff in H. destruct H as [H _]. apply String.eqb_eq in H.
    now rewrite H, ltStr_irrefl.
Qed.

Lemma StronglySorted_map {A B} (R : B -> B -> Prop) (f : A -> B) (l : list A) :
  StronglySorted (fun a b => R (f a) (f b)) l -> StronglySorted R (map f l).
Proof.
  induction 1 as [|a l S IH Ha]; simpl; constructor; auto.
  rewrite Forall_forall in *. intros b Ib. apply in_map_iff in Ib.
  destruct Ib as (x & <- & Ix). auto.
Qed.

(** X15.  A listing page prints its entries in order, each with its page
    number, and a heading before some of them: at most two lines for an
    entry and forty on a page.  The lines are a quarter of an inch apart
    from 1.5 inches down: the line of index [k] is at [1.5 + k / 4]. *)
Theorem toc_lines_layout :
  forall (i : nat) (entries : list tocEntry),
    let lines := tocLines i entries in
    let page := pageEntries i entries in
    entriesOf lines = map (fun e => (entryTitle e, pageNumber e)) page
    /\ List.length lines = List.length page + List.length (headingsOf lines)
    /\ List.length (headingsOf lines) <= List.length page
    /\ List.length lines <= 40
    /\ (forall k l, nth_error lines k = Some l ->
          (yOf l == (3 # 2) + inject_Z (Z.of_nat k) * (1 # 4))%Q).
Proof.
  intros i entries lines page.
  destruct (tocLinesFrom_length entries i (pageEntries i entries) 0 (3 # 2))
    as [L1 L2].
  destruct (pageEntries_length i entries) as [L3 _].
  unfold entriesPerPage in L3.
  change (tocLinesFrom entries i 0 (3 # 2) (pageEntries i entries)) with lines in L1, L2.
  change (pageEntries i entries) with page in L1, L2, L3.
  split; [apply headingsOf_tocLines|].
  split; [exact L1|]. split; [exact L2|]. split; [lia|].
  intros k l H.
  apply (@tocLinesFrom_y entries i (pageEntries i entries) 0 (3 # 2) k l H).
Qed.

Lemma StronglySorted_weaken {A} (R R' : A -> A -> Prop) (l : list A) :
  (forall a b, R a b -> R' a b) -> StronglySorted R l -> StronglySorted R' l.
Proof.
  intros H. induction 1 as [|a l S IH Ha]; constructor; auto.
  revert Ha. apply Forall_impl. auto.
Qed.

(** X16.  In the table of contents of a document whose pages have one
    subject and come in the order of their years, each year has one
    heading and one only, over all the listing pages: a year that runs over
    the end of a listing page is not headed again on the next one.  The
    headings come in strictly increasing order of the years. *)
Theorem toc_headings_once :
  forall (name : string) (pages : list page),
    Forall (fun p => subject p = name) pages ->
    StronglySorted (fun p q => yearThenScore p q = true) pages ->
    let entries := snd (createSubjectPDF name pages) in
    let tocPageCount := ceilDiv (List.length pages) entriesPerPage in
    exists years,
      flat_map (fun i => headingsOf (tocLines i entries)) (seq 0 tocPageCount)
      = map (fun y => name ++ " - " ++ y)%string years
      /\ StronglySorted (fun a b => ltStr a b = true) years
      /\ forall y, In y years <-> exists p, In p pages /\ year p = y.
Proof.
  intros name pages Hs Hy entries t.
  assert (E : entries = map (bump t) (tocEntriesFrom 0 pages)).
  { unfold entries, createSubjectPDF. rewrite addTOCPages_spec.
    cbv zeta. rewrite tocEntriesFrom_length. reflexivity. }
  destruct (tocEntries_fields t 0 pages) as [F1 F2]. rewrite <- E in F1, F2.
  assert (Len : List.length entries = List.length pages)
    by (rewrite E, length_map; apply tocEntriesFrom_length).
  assert (Hs' : Forall (fun e => entrySubject e = name) entries).
  { apply Forall_forall. intros e I.
    assert (I' : In (entrySubject e) (map subject pages))
      by (rewrite <- F1; now apply in_map).
    apply in_map_iff in I'. destruct I' as (p & Ep & Ip).
    rewrite Forall_forall in Hs. rewrite <- Ep. now apply Hs. }
  assert (Hy' : StronglySorted (fun a b => leStr a b = true) (map entryYear entries)).
  { rewrite F2. apply StronglySorted_map.
    revert Hy. apply StronglySorted_weaken. apply yearThenScore_leStr. }
  destruct (@newGroups_years name entries Hs' Hy' None I) as (G1 & G2 & _ & G4).
  cbv zeta in G1, G4.
  exists (map entryYear (newGroups None entries)).
  split; [|split; [exact G1|]].
  - rewrite (flat_map_ext _ (fun i => map headingText
               (newGroups (at_ entries (Z.of_nat (i * entriesPerPage) - 1))
                          (pageEntries i entries))))
      by (intros i; apply headingsOf_tocLines).
    rewrite flat_map_map, newGroups_pages, firstn_all2.
    + rewrite map_map. apply map_ext_in. intros e I.
      rewrite Forall_forall in G2. unfold headingText. now rewrite (G2 e I).
    + rewrite Len. unfold t, entriesPerPage.
      pose proof (ceilDiv_spec (List.length pages)). lia.
  - intros y. split.
    + intros I. apply in_map_iff in I. destruct I as (e & <- & Ie).
      assert (Iy : In (entryYear e) (map year pages)).
      { rewrite <- F2. apply in_map.
        clear -Ie. revert Ie. generalize (@None tocEntry).
        induction entries as [|x l IH]; intros prev Ie; [destruct Ie|].
        simpl in Ie. apply in_app_or in Ie. destruct Ie as [Ie|Ie].
        - destruct (startsGroup prev x); [|destruct Ie].
          destruct Ie as [<-|[]]. now left.
        - right. eapply IH; eauto. }
      apply in_map_iff in Iy. destruct Iy as (p & Ep & Ip). eauto.
    + intros (p & Ip & <-).
      assert (Iy : In (year p) (map entryYear entries))
        by (rewrite F2; now apply in_map).
      destruct (G4 _ Iy) as [H|[]]. exact H.
Qed.

Lemma toc_headings_once_witness :
  let pages := [samplePage "2022" "Maths - 2022 - MC";
                samplePage "2022" "Maths - 2022 - ER";
                samplePage "2023" "Maths - 2023 - MC"] in
  exists years,
    flat_map (fun i => headingsOf (tocLines i (snd (createSubjectPDF "Maths" pages))))
             (seq 0 (ceilDiv (List.length pages) entriesPerPage))
    = map (fun y => "Maths - " ++ y)%string years
    /\ StronglySorted (fun a b => ltStr a b = true) years
    /\ forall y, In y years <-> exists p, In p pages /\ year p = y.
Proof.
  intros pages.
  apply (@toc_headings_once "Maths" pages).
  - repeat constructor.
  - repeat constructor.
Defined.

(** * The image of a detail page *)

(** ** Powers of two *)

Lemma two_pos (k : Z) : (0 < 2 ^ k)%Q.
Proof. apply Qpower_0_lt. reflexivity. Qed.

Lemma two_neq (k : Z) : ~ (2 ^ k == 0)%Q.
Proof.
  intros E. pose proof (two_pos k) as P. rewrite E in P. now apply Qlt_irrefl in P.
Qed.

Lemma two_inject (k : Z) : (0 <= k)%Z -> (inject_Z (2 ^ k) == 2 ^ k)%Q.
Proof. intros H. now rewrite Zpower_Qpower. Qed.

Lemma two_plus (a b : Z) : (2 ^ (a + b) == 2 ^ a * 2 ^ b)%Q.
Proof. apply Qpower_plus. discriminate. Qed.

Lemma two_le (a b : Z) : (a <= b)%Z -> (2 ^ a <= 2 ^ b)%Q.
Proof. intros H. apply Qpower_le_compat_l; [exact H|]. discriminate. Qed.

Lemma two_lt (a b : Z) : (a < b)%Z -> (2 ^ a < 2 ^ b)%Q.
Proof. intros H. apply Qpower_lt_compat_l; [exact H|]. reflexivity. Qed.

Lemma two_lt_inv (a b : Z) : (2 ^ a < 2 ^ b)%Q -> (a < b)%Z.
Proof. intros H. apply (Qpower_lt_compat_l_inv 2); [exact H|reflexivity]. Qed.

(** ** Rounding to a double *)

(** [JsNumber.floorLog2 x] is the exponent of the power of two at or below [x]. *)
Lemma floorLog2_spec (x : Q) :
  (0 < x)%Q -> (2 ^ JsNumber.floorLog2 x <= x /\ x < 2 ^ (JsNumber.floorLog2 x + 1))%Q.
Proof.
  intros Hx. destruct x as [p q]. unfold JsNumber.floorLog2. cbn [Qnum Qden].
  assert (Hp : (0 < p)%Z) by (unfold Qlt in Hx; simpl in Hx; lia).
  pose proof (Z.log2_spec p Hp) as [P1 P2].
  pose proof (Z.log2_spec (Zpos q) (Pos2Z.is_pos q)) as [Q1 Q2].
  pose proof (Z.log2_nonneg p) as Lp. pose proof (Z.log2_nonneg (Zpos q)) as Lq.
  set (lp := Z.log2 p) in *. set (lq := Z.log2 (Zpos q)) in *.
  assert (X : (p # q == inject_Z p / inject_Z (Zpos q))%Q) by apply Qmake_Qdiv.
  assert (Qp : (0 < inject_Z (Zpos q))%Q) by reflexivity.
  assert (A1 : (2 ^ lp <= inject_Z p)%Q)
    by (rewrite <- two_inject by exact Lp; now rewrite <- Zle_Qle).
  assert (A2 : (inject_Z p < 2 ^ (lp + 1))%Q)
    by (rewrite <- two_inject by lia; now rewrite <- Zlt_Qlt).
  assert (B1 : (2 ^ lq <= inject_Z (Zpos q))%Q)
    by (rewrite <- two_inject by exact Lq; now rewrite <- Zle_Qle).
  assert (B2 : (inject_Z (Zpos q) < 2 ^ (lq + 1))%Q)
    by (rewrite <- two_inject by lia; now rewrite <- Zlt_Qlt).
  assert (Up : (p # q < 2 ^ (lp - lq + 1))%Q).
  { rewrite X. apply Qlt_shift_div_r; [exact Qp|].
    apply Qlt_le_trans with (1 := A2).
    replace (lp + 1)%Z with ((lp - lq + 1) + lq)%Z at 1 by lia.
    rewrite two_plus. apply Qmult_le_l; [apply two_pos|exact B1]. }
  destruct (Qle_bool (2 ^ (lp - lq)) (p # q)) eqn:E.
  - apply Qle_bool_iff in E. split; [exact E|exact Up].
  - assert (L : (p # q < 2 ^ (lp - lq))%Q).
    { apply Qnot_le_lt. intros C. apply Qle_bool_iff in C. congruence. }
    replace (lp - lq - 1 + 1)%Z with (lp - lq)%Z by lia. split; [|exact L].
    rewrite X. apply Qle_shift_div_l; [exact Qp|].
    apply Qle_trans with (2 := A1).
    replace lp with ((lp - lq - 1) + (lq + 1))%Z at 2 by lia.
    rewrite two_plus. apply Qmult_le_l; [apply two_pos|]. now apply Qlt_le_weak.
Qed.

Lemma floorLog2_lt (x : Q) (k : Z) : (0 < x)%Q -> (x < 2 ^ k)%Q -> (JsNumber.floorLog2 x < k)%Z.
Proof.
  intros Hx H. apply two_lt_inv. apply Qle_lt_trans with (2 := H).
  now apply floorLog2_spec.
Qed.

Lemma floorLog2_ge (x : Q) (k : Z) : (2 ^ k <= x)%Q -> (k <= JsNumber.floorLog2 x)%Z.
Proof.
  intros H.
  assert (Hx : (0 < x)%Q) by (apply Qlt_le_trans with (2 := H); apply two_pos).
  destruct (floorLog2_spec Hx) as [_ U].
  assert (L : (k < JsNumber.floorLog2 x + 1)%Z).
  { apply two_lt_inv. now apply Qle_lt_trans with (1 := H). }
  lia.
Qed.

(** Rounding to an integer does not cross an integer, and moves by a half at
    most. *)
Lemma nearestEven_spec (y : Q) :
  (forall D : Z, (y <= inject_Z D)%Q -> (JsNumber.nearestEven y <= D)%Z)
  /\ (forall D : Z, (inject_Z D <= y)%Q -> (D <= JsNumber.nearestEven y)%Z)
  /\ (Qabs (inject_Z (JsNumber.nearestEven y) - y) <= 1 # 2)%Q.
Proof.
  pose proof (Qfloor_le y) as F1. pose proof (Qlt_floor y) as F2.
  unfold JsNumber.nearestEven. set (f := Qfloor y) in *.
  rewrite inject_Z_plus in F2. change (inject_Z 1) with 1%Q in F2.
  assert (Up : forall D : Z, (y <= inject_Z D)%Q -> (inject_Z f < y)%Q -> (f + 1 <= D)%Z).
  { intros D H G. assert (L : (inject_Z f < inject_Z D)%Q) by lra.
    rewrite <- Zlt_Qlt in L. lia. }
  assert (Lo : forall D : Z, (inject_Z D <= y)%Q -> (D <= f)%Z).
  { intros D H. assert (L : (inject_Z D < inject_Z f + 1)%Q) by lra.
    change 1%Q with (inject_Z 1) in L. rewrite <- inject_Z_plus, <- Zlt_Qlt in L. lia. }
  destruct (y - inject_Z f ?= 1 # 2)%Q eqn:C.
  - apply Qeq_alt in C. destruct (Z.even f).
    + split; [|split].
      * intros D H. assert (L : (inject_Z f <= inject_Z D)%Q) by lra.
        now rewrite <- Zle_Qle in L.
      * exact Lo.
      * apply Qabs_Qle_condition. lra.
    + split; [|split].
      * intros D H. apply Up; [exact H|lra].
      * intros D H. specialize (Lo D H). lia.
      * rewrite inject_Z_plus. change (inject_Z 1) with 1%Q.
        apply Qabs_Qle_condition. lra.
  - apply Qlt_alt in C. split; [|split].
    + intros D H. assert (L : (inject_Z f <= inject_Z D)%Q) by lra.
      now rewrite <- Zle_Qle in L.
    + exact Lo.
    + apply Qabs_Qle_condition. lra.
  - apply Qgt_alt in C. split; [|split].
    + intros D H. apply Up; [exact H|lra].
    + intros D H. specialize (Lo D H). lia.
    + rewrite inject_Z_plus. change (inject_Z 1) with 1%Q.
      apply Qabs_Qle_condition. lra.
Qed.


Lemma floorLog2_unique (x : Q) (e : Z) :
  (2 ^ e <= x)%Q -> (x < 2 ^ (e + 1))%Q -> JsNumber.floorLog2 x = e.
Proof.
  intros L U.
  assert (Hx : (0 < x)%Q) by (apply Qlt_le_trans with (2 := L); apply two_pos).
  pose proof (@floorLog2_ge x e L). pose proof (@floorLog2_lt x (e + 1) Hx U). lia.
Qed.

Lemma floorLog2_comp (x y : Q) :
  (x == y)%Q -> (0 < x)%Q -> JsNumber.floorLog2 x = JsNumber.floorLog2 y.
Proof.
  intros E Hx. symmetry. destruct (@floorLog2_spec x Hx) as [L U].
  apply floorLog2_unique; now rewrite <- E.
Qed.

Lemma nearestEven_comp (x y : Q) :
  (x == y)%Q -> JsNumber.nearestEven x = JsNumber.nearestEven y.
Proof.
  intros E. unfold JsNumber.nearestEven. rewrite <- (Qfloor_comp _ _ E).
  assert (C : (x - inject_Z (Qfloor x) ?= 1 # 2)%Q
              = (y - inject_Z (Qfloor x) ?= 1 # 2)%Q).
  { apply Qcompare_comp; [|reflexivity]. now apply Qplus_comp. }
  now rewrite C.
Qed.

Lemma nearestMultiple_comp (x y : Q) :
  (x == y)%Q -> (0 < x)%Q ->
  (JsNumber.nearestMultiple x == JsNumber.nearestMultiple y)%Q.
Proof.
  intros E Hx. unfold JsNumber.nearestMultiple, JsNumber.lastPlace.
  rewrite <- (@floorLog2_comp x y E Hx).
  set (u := Z.max (JsNumber.floorLog2 x - 52) (-1074)).
  assert (N : JsNumber.nearestEven (x / 2 ^ u) = JsNumber.nearestEven (y / 2 ^ u))
    by (apply nearestEven_comp; now rewrite E).
  now rewrite N.
Qed.

Lemma roundPositive_comp (x y : Q) :
  (x == y)%Q -> (0 < x)%Q -> JsNumber.roundPositive x = JsNumber.roundPositive y.
Proof.
  intros E Hx. unfold JsNumber.roundPositive.
  pose proof (@nearestMultiple_comp x y E Hx) as M.
  assert (B : Qle_bool (2 ^ 1024) (JsNumber.nearestMultiple x)
              = Qle_bool (2 ^ 1024) (JsNumber.nearestMultiple y)).
  { destruct (Qle_bool (2 ^ 1024) (JsNumber.nearestMultiple x)) eqn:Bx;
      destruct (Qle_bool (2 ^ 1024) (JsNumber.nearestMultiple y)) eqn:By;
      try reflexivity.
    - apply Qle_bool_iff in Bx. rewrite M in Bx. apply Qle_bool_iff in Bx. congruence.
    - apply Qle_bool_iff in By. rewrite <- M in By. apply Qle_bool_iff in By.
      congruence. }
  cbv zeta. rewrite B.
  destruct (Qle_bool (2 ^ 1024) (JsNumber.nearestMultiple y)); [reflexivity|].
  f_equal. now apply Qred_complete.
Qed.

Lemma roundToDouble_comp (x y : Q) :
  (x == y)%Q -> JsNumber.roundToDouble x = JsNumber.roundToDouble y.
Proof.
  intros E. unfold JsNumber.roundToDouble.
  assert (C : (x ?= 0)%Q = (y ?= 0)%Q) by (apply Qcompare_comp; [exact E|reflexivity]).
  rewrite <- C. destruct (x ?= 0)%Q eqn:S; [reflexivity| |].
  - apply Qlt_alt in S. f_equal. apply roundPositive_comp; [now rewrite E|lra].
  - apply Qgt_alt in S. now apply roundPositive_comp.
Qed.

(** A multiple [D * 2^k] of the unit in the last place is not crossed. *)
Lemma nearestMultiple_le (x : Q) (D k : Z) :
  (JsNumber.lastPlace x <= k)%Z -> (x <= inject_Z D * 2 ^ k)%Q ->
  (JsNumber.nearestMultiple x <= inject_Z D * 2 ^ k)%Q.
Proof.
  intros K H. unfold JsNumber.nearestMultiple.
  set (u := JsNumber.lastPlace x) in *.
  assert (E : (inject_Z D * 2 ^ k == inject_Z (D * 2 ^ (k - u)) * 2 ^ u)%Q).
  { rewrite inject_Z_mult, two_inject by lia.
    replace k with ((k - u) + u)%Z at 1 by lia. rewrite two_plus. ring. }
  rewrite E in *. apply Qmult_le_compat_r; [|apply Qlt_le_weak, two_pos].
  rewrite <- Zle_Qle. apply nearestEven_spec.
  apply Qle_shift_div_r; [apply two_pos|exact H].
Qed.

Lemma nearestMultiple_ge (x : Q) (D k : Z) :
  (JsNumber.lastPlace x <= k)%Z -> (inject_Z D * 2 ^ k <= x)%Q ->
  (inject_Z D * 2 ^ k <= JsNumber.nearestMultiple x)%Q.
Proof.
  intros K H. unfold JsNumber.nearestMultiple.
  set (u := JsNumber.lastPlace x) in *.
  assert (E : (inject_Z D * 2 ^ k == inject_Z (D * 2 ^ (k - u)) * 2 ^ u)%Q).
  { rewrite inject_Z_mult, two_inject by lia.
    replace k with ((k - u) + u)%Z at 1 by lia. rewrite two_plus. ring. }
  rewrite E in *. apply Qmult_le_compat_r; [|apply Qlt_le_weak, two_pos].
  rewrite <- Zle_Qle. apply nearestEven_spec.
  apply Qle_shift_div_l; [apply two_pos|exact H].
Qed.

(** The error is half a unit in the last place at most. *)
Lemma nearestMultiple_error (x : Q) :
  (Qabs (JsNumber.nearestMultiple x - x) <= 2 ^ (JsNumber.lastPlace x - 1))%Q.
Proof.
  unfold JsNumber.nearestMultiple. set (u := JsNumber.lastPlace x).
  destruct (nearestEven_spec (x / 2 ^ u)) as (_ & _ & H).
  set (n := JsNumber.nearestEven (x / 2 ^ u)) in *.
  assert (E : (inject_Z n * 2 ^ u - x == (inject_Z n - x / 2 ^ u) * 2 ^ u)%Q)
    by (field; apply two_neq).
  rewrite E, Qabs_Qmult, (Qabs_pos (2 ^ u)) by (apply Qlt_le_weak, two_pos).
  replace u with ((u - 1) + 1)%Z at 2 by lia. rewrite two_plus.
  change (2 ^ 1)%Q with 2%Q.
  pose proof (two_pos (u - 1)) as P.
  assert (M : (Qabs (inject_Z n - x / 2 ^ u) * (2 ^ (u - 1) * 2)
               <= (1 # 2) * (2 ^ (u - 1) * 2))%Q).
  { apply Qmult_le_compat_r; [exact H|]. lra. }
  lra.
Qed.

Lemma roundPositive_finite (x : Q) :
  (JsNumber.nearestMultiple x < 2 ^ 1024)%Q ->
  JsNumber.roundPositive x = Fin (Qred (JsNumber.nearestMultiple x)).
Proof.
  intros H. unfold JsNumber.roundPositive.
  destruct (Qle_bool (2 ^ 1024) (JsNumber.nearestMultiple x)) eqn:E; [|reflexivity].
  apply Qle_bool_iff in E. exfalso. now apply (Qlt_not_le _ _ H).
Qed.

(** In the range of the normal doubles the result is positive and off by one
    part in [2^53] at most. *)
Lemma roundPositive_normal (x : Q) :
  (2 ^ (-1022) <= x)%Q -> (x < 2 ^ 1023)%Q ->
  JsNumber.roundPositive x = Fin (Qred (JsNumber.nearestMultiple x))
  /\ (0 < JsNumber.nearestMultiple x)%Q
  /\ (Qabs (JsNumber.nearestMultiple x - x) <= x / 2 ^ 53)%Q.
Proof.
  intros L U.
  assert (Hx : (0 < x)%Q) by (apply Qlt_le_trans with (2 := L); apply two_pos).
  destruct (@floorLog2_spec x Hx) as [E1 E2].
  pose proof (@floorLog2_ge x (-1022) L) as G. pose proof (@floorLog2_lt x 1023 Hx U) as B.
  set (e := JsNumber.floorLog2 x) in *.
  assert (Eu : JsNumber.lastPlace x = (e - 52)%Z)
    by (unfold JsNumber.lastPlace; fold e; lia).
  assert (Lo : (2 ^ e <= JsNumber.nearestMultiple x)%Q).
  { assert (P : (2 ^ e == inject_Z (2 ^ 52) * 2 ^ (e - 52))%Q).
    { rewrite two_inject by lia. rewrite <- two_plus. now replace (52 + (e - 52))%Z with e by lia. }
    rewrite P. apply nearestMultiple_ge; [lia|]. now rewrite <- P. }
  assert (Hi : (JsNumber.nearestMultiple x <= 2 ^ (e + 1))%Q).
  { assert (P : (2 ^ (e + 1) == inject_Z (2 ^ 53) * 2 ^ (e - 52))%Q).
    { rewrite two_inject by lia. rewrite <- two_plus.
      now replace (53 + (e - 52))%Z with (e + 1)%Z by lia. }
    rewrite P. apply nearestMultiple_le; [lia|]. rewrite <- P. now apply Qlt_le_weak. }
  split; [|split].
  - apply roundPositive_finite. apply Qle_lt_trans with (1 := Hi).
    apply two_lt. lia.
  - apply Qlt_le_trans with (2 := Lo). apply two_pos.
  - apply Qle_trans with (1 := nearestMultiple_error x). rewrite Eu.
    apply Qle_shift_div_l; [apply two_pos|].
    rewrite <- two_plus. now replace (e - 52 - 1 + 53)%Z with e by lia.
Qed.

(** An integer at or above [x] is not crossed, for [x] below [2^53]. *)
Lemma nearestMultiple_below (x : Q) (D : Z) :
  (0 < x)%Q -> (x < 2 ^ 53)%Q -> (x <= inject_Z D)%Q ->
  (JsNumber.nearestMultiple x <= inject_Z D)%Q.
Proof.
  intros Hx U H. pose proof (@floorLog2_lt x 53 Hx U) as B.
  assert (K : (JsNumber.lastPlace x <= 0)%Z) by (unfold JsNumber.lastPlace; lia).
  pose proof (@nearestMultiple_le x D 0 K) as M.
  change (2 ^ 0)%Q with 1%Q in M. rewrite Qmult_1_r in M. now apply M.
Qed.

(** The integers up to [2^53] are doubles. *)
Lemma roundToDouble_integer (n : Z) :
  (0 <= n <= 2 ^ 53)%Z -> JsNumber.roundToDouble (inject_Z n) = Fin (inject_Z n).
Proof.
  intros [N0 N1]. unfold JsNumber.roundToDouble.
  destruct (inject_Z n ?= 0)%Q eqn:C.
  - apply Qeq_alt in C. unfold Qeq in C. simpl in C.
    assert (n = 0)%Z as -> by lia. reflexivity.
  - apply Qlt_alt in C. change 0%Q with (inject_Z 0) in C. rewrite <- Zlt_Qlt in C. lia.
  - apply Qgt_alt in C. change 0%Q with (inject_Z 0) in C. rewrite <- Zlt_Qlt in C.
    assert (R : (JsNumber.nearestMultiple (inject_Z n) == inject_Z n)%Q).
    { assert (exists D k, (JsNumber.lastPlace (inject_Z n) <= k)%Z
                          /\ (inject_Z n == inject_Z D * 2 ^ k)%Q) as (D & k & K & E).
      { destruct (Z.eq_dec n (2 ^ 53)) as [->|Ne].
        - exists (2 ^ 52)%Z, 1%Z. split; [|reflexivity].
          assert (F : (JsNumber.floorLog2 (inject_Z (2 ^ 53)) < 54)%Z).
          { apply floorLog2_lt; [reflexivity|]. rewrite two_inject by lia.
            apply two_lt. lia. }
          unfold JsNumber.lastPlace. lia.
        - exists n, 0%Z. split; [|change (2 ^ 0)%Q with 1%Q; ring].
          assert (F : (JsNumber.floorLog2 (inject_Z n) < 53)%Z).
          { apply floorLog2_lt; [now rewrite Zlt_Qlt in C|].
            rewrite <- two_inject by lia. rewrite <- Zlt_Qlt. lia. }
          unfold JsNumber.lastPlace. lia. }
      apply Qle_antisym.
      - rewrite E at 2. apply nearestMultiple_le; [exact K|]. rewrite <- E. apply Qle_refl.
      - rewrite E at 1. apply nearestMultiple_ge; [exact K|]. rewrite <- E. apply Qle_refl. }
    rewrite roundPositive_finite.
    + f_equal. transitivity (Qred (inject_Z n));
        [now apply Qred_complete|apply Qred_inject_Z].
    + rewrite R. rewrite <- two_inject by lia. rewrite <- Zlt_Qlt.
      apply Z.le_lt_trans with (1 := N1). apply Z.pow_lt_mono_r; lia.
Qed.

(** ** The double of an integer *)

Lemma floorLog2_integer (z : Z) :
  (0 < z)%Z -> JsNumber.floorLog2 (inject_Z z) = Z.log2 z.
Proof.
  intros H. destruct (Z.log2_spec z H) as [L U].
  pose proof (Z.log2_nonneg z) as N.
  apply floorLog2_unique.
  - rewrite <- two_inject by exact N. now rewrite <- Zle_Qle.
  - rewrite <- two_inject by lia. rewrite <- Zlt_Qlt. lia.
Qed.

(** The integer nearest to a quotient of integers, from the remainder. *)
Lemma nearestEven_quotient (z d : Z) :
  (0 < d)%Z ->
  JsNumber.nearestEven (inject_Z z / inject_Z d)
  = match (2 * (z mod d) ?= d)%Z with
    | Lt => (z / d)%Z
    | Gt => (z / d + 1)%Z
    | Eq => if Z.even (z / d) then (z / d)%Z else (z / d + 1)%Z
    end.
Proof.
  intros D. unfold JsNumber.nearestEven.
  assert (Pd : (0 < inject_Z d)%Q) by (change 0%Q with (inject_Z 0); now rewrite <- Zlt_Qlt).
  assert (Nd : ~ (inject_Z d == 0)%Q) by (intros E; rewrite E in Pd; now apply Qlt_irrefl in Pd).
  assert (F : Qfloor (inject_Z z / inject_Z d) = (z / d)%Z).
  { pose proof (Z.div_mod z d ltac:(lia)) as M.
    pose proof (Z.mod_pos_bound z d D) as B.
    assert (L : (inject_Z (z / d) <= inject_Z z / inject_Z d)%Q).
    { apply Qle_shift_div_l; [exact Pd|]. rewrite <- inject_Z_mult, <- Zle_Qle. nia. }
    assert (U : (inject_Z z / inject_Z d < inject_Z (z / d + 1))%Q).
    { apply Qlt_shift_div_r; [exact Pd|]. rewrite <- inject_Z_mult, <- Zlt_Qlt. nia. }
    pose proof (Qfloor_le (inject_Z z / inject_Z d)) as F1.
    pose proof (Qlt_floor (inject_Z z / inject_Z d)) as F2.
    set (f := Qfloor (inject_Z z / inject_Z d)) in *.
    assert (A : (inject_Z f < inject_Z (z / d + 1))%Q) by lra.
    assert (B' : (inject_Z (z / d) < inject_Z (f + 1))%Q) by lra.
    rewrite <- Zlt_Qlt in A, B'. lia. }
  rewrite F.
  assert (C : (inject_Z z / inject_Z d - inject_Z (z / d) ?= 1 # 2)%Q
              = (2 * (z mod d) ?= d)%Z).
  { pose proof (Z.div_mod z d ltac:(lia)) as M.
    assert (E : (inject_Z z / inject_Z d - inject_Z (z / d)
                 == inject_Z (z mod d) / inject_Z d)%Q).
    { rewrite M at 1. rewrite inject_Z_plus, inject_Z_mult. field. exact Nd. }
    destruct (Z.compare_spec (2 * (z mod d)) d) as [H|H|H].
    - apply Qeq_alt. rewrite E.
      assert (Hd : (inject_Z d == 2 * inject_Z (z mod d))%Q)
        by (transitivity (inject_Z (2 * (z mod d)));
            [now rewrite H|now rewrite inject_Z_mult]).
      assert (Pm : ~ (inject_Z (z mod d) == 0)%Q) by (intros Z; rewrite Z in Hd; lra).
      rewrite Hd. field. exact Pm.
    - apply Qlt_alt. rewrite E. apply Qlt_shift_div_r; [exact Pd|].
      rewrite Zlt_Qlt, inject_Z_mult in H. change (inject_Z 2) with 2%Q in H. lra.
    - apply Qgt_alt. rewrite E. apply Qlt_shift_div_l; [exact Pd|].
      rewrite Zlt_Qlt, inject_Z_mult in H. change (inject_Z 2) with 2%Q in H. lra. }
  now rewrite C.
Qed.

(** [toDouble] is [roundToDouble] on the natural numbers. *)
Lemma toDouble_nearest (n : N) :
  toDouble n = JsNumber.roundToDouble (inject_Z (Z.of_N n)).
Proof.
  unfold toDouble. destruct (n <? 2 ^ 53)%N eqn:S.
  - apply N.ltb_lt in S. symmetry. unfold JsNumber.ofN, JsNumber.ofZ.
    apply roundToDouble_integer. split; [apply N2Z.is_nonneg|].
    change (2 ^ 53)%Z with (Z.of_N (2 ^ 53)). lia.
  - apply N.ltb_ge in S. cbv zeta.
    set (z := Z.of_N n).
    assert (Z53 : (2 ^ 53 <= z)%Z)
      by (change (2 ^ 53)%Z with (Z.of_N (2 ^ 53)); unfold z; lia).
    assert (Zp : (0 < z)%Z) by lia.
    assert (L53 : (53 <= Z.log2 z)%Z)
      by (change 53%Z with (Z.log2 (2 ^ 53)); now apply Z.log2_le_mono).
    assert (Ln : Z.of_N (N.log2 n) = Z.log2 z)
      by (unfold z; destruct n as [|[p|p|]]; reflexivity).
    set (e := (N.log2 n - 52)%N).
    set (u := (Z.log2 z - 52)%Z).
    assert (Eu : Z.of_N e = u) by (unfold e, u; lia).
    assert (U1 : (1 <= u)%Z) by (unfold u; lia).
    set (d := (2 ^ u)%Z).
    assert (Dp : (0 < d)%Z) by (apply Z.pow_pos_nonneg; lia).
    assert (Ed : Z.of_N (2 ^ e) = d) by (rewrite N2Z.inj_pow, Eu; reflexivity).
    assert (Dh : (d = 2 * 2 ^ (u - 1))%Z).
    { unfold d. replace u with (Z.succ (u - 1)) at 1 by lia.
      apply Z.pow_succ_r. lia. }
    assert (Eh : Z.of_N (N.shiftl 1 (e - 1)) = (2 ^ (u - 1))%Z).
    { rewrite N.shiftl_1_l, N2Z.inj_pow. f_equal. lia. }
    assert (Eq : Z.of_N (N.shiftr n e) = (z / d)%Z).
    { rewrite N.shiftr_div_pow2, N2Z.inj_div, Ed. reflexivity. }
    assert (Er : Z.of_N (N.land n (N.ones e)) = (z mod d)%Z).
    { rewrite N.land_ones, N2Z.inj_mod, Ed. reflexivity. }
    set (q := N.shiftr n e) in *. set (r := N.land n (N.ones e)) in *.
    set (half := N.shiftl 1 (e - 1)) in *.
    set (q' := if (half <? r)%N || ((r =? half)%N && N.odd q) then (q + 1)%N else q).
    (* the rational side *)
    assert (Pz : (0 < inject_Z z)%Q)
      by (change 0%Q with (inject_Z 0); now rewrite <- Zlt_Qlt).
    unfold JsNumber.roundToDouble. apply Qgt_alt in Pz. rewrite Pz.
    unfold JsNumber.roundPositive, JsNumber.nearestMultiple, JsNumber.lastPlace.
    rewrite (floorLog2_integer Zp). fold u.
    replace (Z.max u (-1074)) with u by lia.
    assert (P2 : (2 ^ u == inject_Z d)%Q) by (unfold d; rewrite two_inject by lia; reflexivity).
    assert (Ne : JsNumber.nearestEven (inject_Z z / 2 ^ u) = Z.of_N q').
    { rewrite (@nearestEven_comp (inject_Z z / 2 ^ u) (inject_Z z / inject_Z d))
        by now rewrite P2.
      rewrite (nearestEven_quotient z Dp). unfold q'.
      rewrite <- Er, <- Eq.
      assert (Bh : (half <? r)%N = (Z.of_N half <? Z.of_N r)%Z).
      { destruct (N.ltb_spec half r), (Z.ltb_spec (Z.of_N half) (Z.of_N r)); lia. }
      assert (Be : (r =? half)%N = (Z.of_N r =? Z.of_N half)%Z).
      { destruct (N.eqb_spec r half), (Z.eqb_spec (Z.of_N r) (Z.of_N half)); lia. }
      assert (Bo : N.odd q = negb (Z.even (Z.of_N q))).
      { rewrite <- Z.negb_odd, negb_involutive.
        destruct q as [|p]; [reflexivity|]. now destruct p. }
      rewrite Bh, Be, Bo, Eh.
      destruct (Z.compare_spec (2 * Z.of_N r) d) as [C|C|C].
      - replace (2 ^ (u - 1) <? Z.of_N r)%Z with false
          by (symmetry; apply Z.ltb_ge; lia).
        replace (Z.of_N r =? 2 ^ (u - 1))%Z with true
          by (symmetry; apply Z.eqb_eq; lia).
        simpl. destruct (Z.even (Z.of_N q)); simpl; [reflexivity|lia].
      - replace (2 ^ (u - 1) <? Z.of_N r)%Z with false
          by (symmetry; apply Z.ltb_ge; lia).
        replace (Z.of_N r =? 2 ^ (u - 1))%Z with false
          by (symmetry; apply Z.eqb_neq; lia).
        reflexivity.
      - replace (2 ^ (u - 1) <? Z.of_N r)%Z with true
          by (symmetry; apply Z.ltb_lt; lia).
        simpl. lia. }
    rewrite Ne.
    assert (V : (inject_Z (Z.of_N q') * 2 ^ u
                 == inject_Z (Z.of_N (N.shiftl q' e)))%Q).
    { rewrite N.shiftl_mul_pow2, N2Z.inj_mul, Ed, inject_Z_mult, P2. reflexivity. }
    assert (Q1 : (1 <= q')%N).
    { assert (1 <= q)%N.
      { unfold q. rewrite N.shiftr_div_pow2.
        apply N.div_le_lower_bound; [apply N.pow_nonzero; discriminate|].
        rewrite N.mul_1_r. destruct (N.log2_spec n) as [Lo _]; [lia|].
        apply N.le_trans with (2 := Lo). apply N.pow_le_mono_r; [discriminate|].
        unfold e. lia. }
      unfold q'. destruct (_ || _); lia. }
    assert (Vp : (0 < N.shiftl q' e)%N).
    { rewrite N.shiftl_mul_pow2. apply N.mul_pos_pos; [lia|].
      apply N.neq_0_lt_0, N.pow_nonzero. discriminate. }
    set (v := N.shiftl q' e) in *.
    assert (O : Qle_bool (2 ^ 1024) (inject_Z (Z.of_N q') * 2 ^ u)
                = (1024 <=? N.log2 v)%N).
    { destruct (N.leb_spec 1024 (N.log2 v)) as [G|G].
      - apply Qle_bool_iff. rewrite V. rewrite <- two_inject by lia.
        rewrite <- Zle_Qle. change (2 ^ 1024)%Z with (Z.of_N (2 ^ 1024)).
        apply N2Z.inj_le. destruct (N.log2_spec v Vp) as [Lo _].
        apply N.le_trans with (2 := Lo). now apply N.pow_le_mono_r.
      - destruct (Qle_bool (2 ^ 1024) (inject_Z (Z.of_N q') * 2 ^ u)) eqn:B;
          [|reflexivity].
        apply Qle_bool_iff in B. rewrite V in B. rewrite <- two_inject in B by lia.
        rewrite <- Zle_Qle in B. change (2 ^ 1024)%Z with (Z.of_N (2 ^ 1024)) in B.
        apply N2Z.inj_le in B. apply N.log2_le_mono in B.
        rewrite N.log2_pow2 in B by lia. lia. }
    rewrite O. destruct (1024 <=? N.log2 v)%N; [reflexivity|].
    unfold JsNumber.ofN, JsNumber.ofZ. f_equal.
    transitivity (Qred (inject_Z (Z.of_N v)));
      [symmetry; apply Qred_inject_Z|apply Qred_complete; now symmetry].
Qed.

(** ** Products and quotients of pixel counts *)

Lemma mulRounded_integers (a b : Z) :
  (0 <= a * b <= 2 ^ 53)%Z ->
  JsNumber.mulRounded (JsNumber.ofZ a) (JsNumber.ofZ b) = JsNumber.ofZ (a * b).
Proof.
  intros H. unfold JsNumber.mulRounded, JsNumber.ofZ, JsNumber.mul, JsNumber.rounded.
  rewrite <- (roundToDouble_integer H). apply roundToDouble_comp.
  rewrite Qred_correct. now rewrite inject_Z_mult.
Qed.

Lemma divRounded_integers (a b : Z) :
  (0 < a)%Z -> (0 < b)%Z ->
  JsNumber.divRounded (JsNumber.ofZ a) (JsNumber.ofZ b)
  = JsNumber.roundPositive (inject_Z a / inject_Z b).
Proof.
  intros Ha Hb. unfold JsNumber.divRounded, JsNumber.ofZ, JsNumber.div.
  assert (Pa : (0 < inject_Z a)%Q) by (change 0%Q with (inject_Z 0); now rewrite <- Zlt_Qlt).
  assert (Pb : (0 < inject_Z b)%Q) by (change 0%Q with (inject_Z 0); now rewrite <- Zlt_Qlt).
  assert (Z : Qeq_bool (inject_Z b) 0 = false).
  { destruct (Qeq_bool (inject_Z b) 0) eqn:E; [|reflexivity].
    apply Qeq_bool_iff in E. rewrite E in Pb. now apply Qlt_irrefl in Pb. }
  rewrite Z. unfold JsNumber.rounded.
  rewrite (@roundToDouble_comp _ (inject_Z a / inject_Z b) (Qred_correct _)).
  unfold JsNumber.roundToDouble.
  assert (P : (0 < inject_Z a / inject_Z b)%Q) by (apply Qlt_shift_div_l; [exact Pb|lra]).
  apply Qgt_alt in P. now rewrite P.
Qed.

(** A quotient of two pixel counts, times 4 or 5, is in the range of the
    normal doubles. *)
Lemma pixel_ratio_normal (a b : Z) :
  (0 < a < 2 ^ 35)%Z -> (0 < b < 2 ^ 35)%Z ->
  (2 ^ (-1022) <= inject_Z a / inject_Z b /\ inject_Z a / inject_Z b < 2 ^ 1023)%Q.
Proof.
  intros [A0 A1] [B0 B1].
  assert (Pa : (1 <= inject_Z a)%Q) by (change 1%Q with (inject_Z 1); rewrite <- Zle_Qle; lia).
  assert (Pb : (1 <= inject_Z b)%Q) by (change 1%Q with (inject_Z 1); rewrite <- Zle_Qle; lia).
  assert (Ua : (inject_Z a < 2 ^ 35)%Q)
    by (rewrite <- two_inject by lia; now rewrite <- Zlt_Qlt).
  assert (Ub : (inject_Z b < 2 ^ 35)%Q)
    by (rewrite <- two_inject by lia; now rewrite <- Zlt_Qlt).
  split.
  - apply Qle_shift_div_l; [lra|].
    apply Qle_trans with (2 ^ (-1022) * 2 ^ 35)%Q.
    + apply Qmult_le_l; [apply two_pos|now apply Qlt_le_weak].
    + rewrite <- two_plus. apply Qle_trans with (2 := Pa).
      change 1%Q with (2 ^ 0)%Q. apply two_le. lia.
  - apply Qlt_shift_div_r; [lra|].
    apply Qlt_le_trans with (1 := Ua).
    apply Qle_trans with (2 ^ 1023 * 1)%Q.
    + rewrite Qmult_1_r. apply two_le. lia.
    + apply Qmult_le_l; [apply two_pos|exact Pb].
Qed.

(** X17.  The image of a question is scaled to fit a box five inches wide
    and four high.  For an image of [w] by [h] pixels the size handed to the
    document is positive and at most 5 by 4.  Either the width is 5 and the
    height is the double nearest to [5 h / w], or the height is 4 and the
    width is the double nearest to [4 w / h]: the proportions of the image
    are kept to one part in [2^53]. *)
Theorem questionImageSize_fits :
  forall (w h : Z),
    (0 < w < 2 ^ 32)%Z -> (0 < h < 2 ^ 32)%Z ->
    exists W H : Q,
      questionImageSize {| width := JsNumber.ofZ w; height := JsNumber.ofZ h |}
      = (Fin W, Fin H)
      /\ (0 < W /\ W <= 5)%Q /\ (0 < H /\ H <= 4)%Q
      /\ ((W == 5
           /\ Fin H = JsNumber.roundToDouble (inject_Z h * 5 / inject_Z w)
           /\ Qabs (H * inject_Z w - inject_Z h * 5) <= inject_Z h * 5 / 2 ^ 53)
          \/ (H == 4
              /\ Fin W = JsNumber.roundToDouble (inject_Z w * 4 / inject_Z h)
              /\ Qabs (W * inject_Z h - inject_Z w * 4)
                 <= inject_Z w * 4 / 2 ^ 53))%Q.
Proof.
  intros w h [W0 W1] [H0 H1].
  assert (P32 : (2 ^ 32 = 4294967296)%Z) by reflexivity.
  assert (P35 : (2 ^ 35 = 34359738368)%Z) by reflexivity.
  assert (P53 : (2 ^ 53 = 9007199254740992)%Z) by reflexivity.
  assert (Pw : (0 < inject_Z w)%Q) by (change 0%Q with (inject_Z 0); now rewrite <- Zlt_Qlt).
  assert (Ph : (0 < inject_Z h)%Q) by (change 0%Q with (inject_Z 0); now rewrite <- Zlt_Qlt).
  unfold questionImageSize. cbn [width height].
  rewrite (@mulRounded_integers h 5) by lia.
  rewrite (@divRounded_integers (h * 5) w) by lia.
  rewrite (@mulRounded_integers w 4) by lia.
  rewrite (@divRounded_integers (w * 4) h) by lia.
  destruct (@pixel_ratio_normal (h * 5) w) as [N1 N2]; [lia|lia|].
  destruct (@roundPositive_normal (inject_Z (h * 5) / inject_Z w) N1 N2) as (R & Rp & Re).
  set (x := (inject_Z (h * 5) / inject_Z w)%Q) in *.
  assert (Ex : (x == inject_Z h * 5 / inject_Z w)%Q)
    by (unfold x; now rewrite inject_Z_mult).
  assert (Px : (0 < x)%Q) by (apply Qlt_le_trans with (2 := N1); apply two_pos).
  rewrite R. unfold JsNumber.lt, JsNumber.ofZ. change (inject_Z 4) with 4%Q.
  destruct (Qle_bool (Qred (JsNumber.nearestMultiple x)) 4) eqn:L; cbn [negb].
  - apply Qle_bool_iff in L. rewrite Qred_correct in L.
    exists (inject_Z 5), (Qred (JsNumber.nearestMultiple x)).
    split; [reflexivity|].
    split; [split; [reflexivity|apply Qle_refl]|].
    split; [rewrite Qred_correct; split; assumption|].
    left. split; [reflexivity|]. split.
    + rewrite <- (@roundToDouble_comp x _ Ex). unfold JsNumber.roundToDouble.
      apply Qgt_alt in Px. now rewrite Px, R.
    + rewrite Qred_correct.
      assert (M : (JsNumber.nearestMultiple x * inject_Z w - inject_Z h * 5
                   == (JsNumber.nearestMultiple x - x) * inject_Z w)%Q).
      { assert (Xw : (x * inject_Z w == inject_Z h * 5)%Q).
        { rewrite Ex. field. intros Z. rewrite Z in Pw. now apply Qlt_irrefl in Pw. }
        rewrite <- Xw. ring. }
      rewrite M, Qabs_Qmult, (Qabs_pos (inject_Z w)) by now apply Qlt_le_weak.
      apply Qle_trans with (x / 2 ^ 53 * inject_Z w)%Q.
      * apply Qmult_le_compat_r; [exact Re|now apply Qlt_le_weak].
      * rewrite Ex. apply Qle_lteq. right. field.
        try split; try apply two_neq;
          intros Z; try (rewrite Z in Pw; now apply Qlt_irrefl in Pw);
          now apply (two_neq 53).
  - assert (G : (4 < x)%Q).
    { apply Qnot_le_lt. intros C.
      assert (B : (JsNumber.nearestMultiple x <= inject_Z 4)%Q).
      { apply nearestMultiple_below; [exact Px| |exact C].
        apply Qle_lt_trans with (1 := C). reflexivity. }
      change (inject_Z 4) with 4%Q in B. rewrite <- Qred_correct in B.
      apply Qle_bool_iff in B. congruence. }
    assert (T : (inject_Z w * 4 < inject_Z h * 5)%Q).
    { assert (Xw : (x * inject_Z w == inject_Z h * 5)%Q).
      { rewrite Ex. field. intros Z. rewrite Z in Pw. now apply Qlt_irrefl in Pw. }
      assert (G' : (4 * inject_Z w < x * inject_Z w)%Q)
        by (apply Qmult_lt_compat_r; assumption).
      lra. }
    destruct (@pixel_ratio_normal (w * 4) h) as [M1 M2]; [lia|lia|].
    destruct (@roundPositive_normal (inject_Z (w * 4) / inject_Z h) M1 M2)
      as (S & Sp & Se).
    set (y := (inject_Z (w * 4) / inject_Z h)%Q) in *.
    assert (Ey : (y == inject_Z w * 4 / inject_Z h)%Q)
      by (unfold y; now rewrite inject_Z_mult).
    assert (Py : (0 < y)%Q) by (apply Qlt_le_trans with (2 := M1); apply two_pos).
    assert (Y5 : (y <= inject_Z 5)%Q).
    { rewrite Ey. apply Qle_shift_div_r; [exact Ph|].
      change (inject_Z 5) with 5%Q. lra. }
    rewrite S.
    exists (Qred (JsNumber.nearestMultiple y)), 4%Q.
    split; [reflexivity|].
    split; [rewrite Qred_correct; split; [exact Sp|]|].
    { change 5%Q with (inject_Z 5). apply nearestMultiple_below; [exact Py| |exact Y5].
      apply Qle_lt_trans with (1 := Y5). reflexivity. }
    split; [split; [reflexivity|apply Qle_refl]|].
    right. split; [reflexivity|]. split.
    + rewrite <- (@roundToDouble_comp y _ Ey). unfold JsNumber.roundToDouble.
      apply Qgt_alt in Py. now rewrite Py, S.
    + rewrite Qred_correct.
      assert (M : (JsNumber.nearestMultiple y * inject_Z h - inject_Z w * 4
                   == (JsNumber.nearestMultiple y - y) * inject_Z h)%Q).
      { assert (Yh : (y * inject_Z h == inject_Z w * 4)%Q).
        { rewrite Ey. field. intros Z. rewrite Z in Ph. now apply Qlt_irrefl in Ph. }
        rewrite <- Yh. ring. }
      rewrite M, Qabs_Qmult, (Qabs_pos (inject_Z h)) by now apply Qlt_le_weak.
      apply Qle_trans with (y / 2 ^ 53 * inject_Z h)%Q.
      * apply Qmult_le_compat_r; [exact Se|now apply Qlt_le_weak].
      * rewrite Ey. apply Qle_lteq. right. field.
        try split; try apply two_neq;
          intros Z; try (rewrite Z in Ph; now apply Qlt_irrefl in Ph);
          now apply (two_neq 53).
Qed.

(** An image of 800 by 1000 pixels is four inches high; its width is the
    double nearest to 3.2, which is not 3.2. *)
Lemma questionImageSize_fits_witness :
  questionImageSize {| width := JsNumber.ofZ 800; height := JsNumber.ofZ 1000 |}
  = (Fin (3602879701896397 # 1125899906842624), Fin 4)
  /\ exists W H : Q,
      questionImageSize {| width := JsNumber.ofZ 800; height := JsNumber.ofZ 1000 |}
      = (Fin W, Fin H)
      /\ (0 < W /\ W <= 5)%Q /\ (0 < H /\ H <= 4)%Q
      /\ ((W == 5
           /\ Fin H = JsNumber.roundToDouble (inject_Z 1000 * 5 / inject_Z 800)
           /\ Qabs (H * inject_Z 800 - inject_Z 1000 * 5)
              <= inject_Z 1000 * 5 / 2 ^ 53)
          \/ (H == 4
              /\ Fin W = JsNumber.roundToDouble (inject_Z 800 * 4 / inject_Z 1000)
              /\ Qabs (W * inject_Z 1000 - inject_Z 800 * 4)
                 <= inject_Z 800 * 4 / 2 ^ 53))%Q.
Proof.
  split; [vm_compute; reflexivity|].
  apply (@questionImageSize_fits 800 1000); split; reflexivity.
Defined.

(** * Words in titles *)

Lemma prefix_append (pat x b : string) :
  String.prefix pat x = true -> String.prefix pat (x ++ b) = true.
Proof.
  rewrite !prefix_spec. intros [post ->]. exists (post ++ b)%string.
  now rewrite append_assoc.
Qed.

Lemma prefix_append_cases (pat x b : string) :
  String.prefix pat (x ++ b) = true ->
  String.prefix pat x = true
  \/ exists p2, p2 <> "" /\ pat = (x ++ p2)%string /\ String.prefix p2 b = true.
Proof.
  revert pat. induction x as [|c x IH]; intros pat H.
  - destruct pat as [|a pat]; [now left|]. right.
    exists (String a pat). repeat split; [discriminate|exact H].
  - destruct pat as [|a pat]; [now left|]. cbn [append String.prefix] in *.
    destruct (ascii_dec a c) as [->|N]; [|discriminate].
    destruct (IH _ H) as [L|(p2 & N2 & -> & P)]; [now left|right].
    exists p2. now repeat split.
Qed.

Lemma includes_append (a b pat : string) :
  pat <> "" -> noStraddle pat b = true ->
  includes (a ++ b) pat = includes a pat || includes b pat.
Proof.
  intros Hne Hs. induction a as [|c a IH].
  - simpl. destruct pat; [congruence|reflexivity].
  - change (String c a ++ b)%string with (String c (a ++ b)).
    cbn [includes]. rewrite IH, orb_assoc. f_equal. f_equal.
    change (String c (a ++ b)) with (String c a ++ b)%string.
    destruct (String.prefix pat (String c a)) eqn:P.
    + now apply prefix_append.
    + destruct (String.prefix pat (String c a ++ b)) eqn:Q; [exfalso|reflexivity].
      apply prefix_append_cases in Q.
      destruct Q as [Q|(p2 & N2 & E & Q)]; [congruence|].
      unfold noStraddle in Hs. rewrite forallb_forall in Hs.
      assert (L : String.length pat = String.length (String c a) + String.length p2)
        by (rewrite E; apply length_append).
      assert (L2 : 0 < String.length p2) by (destruct p2; [congruence|simpl; lia]).
      assert (I : In (String.length (String c a)) (seq 1 (String.length pat - 1)))
        by (apply in_seq; simpl in *; lia).
      apply Hs in I. rewrite E, substring_skip, Q in I. discriminate I.
Qed.

(** The three words cannot straddle the separator of a title. *)
Lemma title_includes (subject year titleSuffix pat : string) :
  In pat ["Summary"; "Breakdown"; "School vs State"] ->
  includes (chartTitle subject year titleSuffix) pat
  = includes subject pat || includes year pat || includes titleSuffix pat.
Proof.
  intros I. unfold chartTitle.
  assert (S : forall a r, includes (a ++ " - " ++ r) pat
                          = includes a pat || includes r pat).
  { intros a r.
    destruct I as [<-|[<-|[<-|[]]]];
      (rewrite includes_append; [reflexivity|discriminate|reflexivity]). }
  now rewrite !S, orb_assoc.
Qed.

Lemma score_chartPage (subject year titleSuffix image : string) :
  plain subject = true -> plain year = true ->
  score (chartPage subject year titleSuffix None image) = suffixScore titleSuffix.
Proof.
  unfold plain. intros Hs Hy.
  apply andb_true_iff in Hs, Hy. destruct Hs as [Hs S3], Hy as [Hy Y3].
  apply andb_true_iff in Hs, Hy. destruct Hs as [S1 S2], Hy as [Y1 Y2].
  apply negb_true_iff in S1, S2, S3, Y1, Y2, Y3.
  unfold score, suffixScore, chartPage, isPerformanceSummary.
  cbn [type subType title].
  change (subject ++ " - " ++ year ++ " - " ++ titleSuffix)%string
    with (chartTitle subject year titleSuffix).
  rewrite !title_includes by (simpl; tauto).
  rewrite S1, S2, S3, Y1, Y2, Y3. reflexivity.
Qed.

(** * Charts *)

(** ** The keys of an object, as properties are written *)

Section KeysOnly.
Context {V : Type}.
Implicit Types (o : obj V) (k : string) (v : V).

Lemma has_keys k o : has k o = existsb (String.eqb k) (keys o).
Proof.
  unfold has. induction o as [|[k' v'] o IH]; simpl; [reflexivity|].
  destruct (String.eqb k k'); [reflexivity|exact IH].
Qed.

Lemma keys_insertName k v o : keys (insertKey k v o) = insertName k (keys o).
Proof.
  induction o as [|[k' v'] o IH]; simpl; [reflexivity|].
  destruct (precedes k k'); simpl; [reflexivity|now rewrite IH].
Qed.

Lemma keys_set k v o : keys (set k v o) = addName k (keys o).
Proof.
  unfold set, addName. rewrite has_keys.
  destruct (existsb (String.eqb k) (keys o)).
  - apply keys_replace.
  - apply keys_insertName.
Qed.
End KeysOnly.

Lemma existsb_insertName (k : string) (ks : list string) :
  existsb (String.eqb k) (insertName k ks) = true.
Proof.
  induction ks as [|k' ks IH]; simpl.
  - now rewrite String.eqb_refl.
  - destruct (precedes k k'); simpl.
    + now rewrite String.eqb_refl.
    + rewrite IH. apply orb_true_r.
Qed.

Lemma addName_idempotent (k : string) (ks : list string) :
  addName k (addName k ks) = addName k ks.
Proof.
  assert (H : existsb (String.eqb k) (addName k ks) = true).
  { unfold addName. destruct (existsb (String.eqb k) ks) eqn:E; [exact E|].
    apply existsb_insertName. }
  unfold addName at 1. now rewrite H.
Qed.

Lemma keys_pushAt {A} (k : string) (x : A) (groups : obj (list A)) :
  keys (pushAt k x groups) = addName k (keys groups).
Proof.
  rewrite pushAt_eq, keys_set.
  destruct (has k groups) eqn:H; [reflexivity|].
  rewrite keys_set. apply addName_idempotent.
Qed.

Section BreakdownFacts.
Variable groupCol : tagColumn.

Local Abbreviation tagKey := (fun r => trim (tagOf groupCol r)).

Lemma keys_accumulate (groups : obj bucket) (r : record) :
  keys (accumulate groupCol groups r)
  = if isEmpty (tagKey r) || (inherited (tagKey r) && negb (has (tagKey r) groups))
    then keys groups else addName (tagKey r) (keys groups).
Proof.
  rewrite accumulate_eq. destruct (isEmpty (tagKey r) || _); [reflexivity|].
  apply keys_set.
Qed.

Lemma breakdownGroup_eq (groups : obj (list record)) (r : record) :
  noInheritedKey groups ->
  breakdownGroup groupCol groups r
  = if breakable groupCol r then Returns (breakdownStep groupCol groups r)
    else Throws.
Proof.
  intros H. unfold breakdownGroup, breakable, breakdownStep.
  destruct (isEmpty (tagKey r)); [reflexivity|]. cbn [orb].
  now apply push_step.
Qed.

Lemma noInheritedKey_breakdownStep (groups : obj (list record)) (r : record) :
  noInheritedKey groups -> breakable groupCol r = true ->
  noInheritedKey (breakdownStep groupCol groups r).
Proof.
  intros H B. unfold breakdownStep, breakable in *.
  destruct (isEmpty (tagKey r)); [exact H|]. cbn [orb] in B.
  apply negb_true_iff in B. now apply noInheritedKey_pushAt.
Qed.

(** The grouping loop of [generateGroupBreakdowns] returns when no tag is
    the name of an inherited member, and throws otherwise. *)
Lemma forEach_breakdownGroup (rows : list record) :
  forEach (breakdownGroup groupCol) rows []
  = if forallb (breakable groupCol) rows
    then Returns (fold_left (breakdownStep groupCol) rows [])
    else Throws.
Proof.
  apply (@forEach_guarded record (obj (list record)) (breakdownGroup groupCol)
           (breakdownStep groupCol) (breakable groupCol) noInheritedKey).
  - intros s a I. now apply breakdownGroup_eq.
  - intros s a I E. now apply noInheritedKey_breakdownStep.
  - intros k _. reflexivity.
Qed.

(** The tags come in the same order for the aggregates and for the
    breakdowns. *)
Lemma keys_breakdown_accumulate (rows : list record) (g1 : obj bucket)
  (g2 : obj (list record)) :
  forallb (breakable groupCol) rows = true ->
  keys g1 = keys g2 ->
  keys (fold_left (accumulate groupCol) rows g1)
  = keys (fold_left (breakdownStep groupCol) rows g2).
Proof.
  revert g1 g2. induction rows as [|r rows IH]; intros g1 g2 B E; [exact E|].
  simpl in B. apply andb_true_iff in B. destruct B as [Br B].
  simpl. apply IH; [exact B|]. rewrite keys_accumulate. unfold breakdownStep.
  unfold breakable in Br.
  destruct (isEmpty (tagKey r)); [exact E|]. cbn [orb] in Br |- *.
  apply negb_true_iff in Br. rewrite Br. cbn [andb].
  now rewrite keys_pushAt, E.
Qed.

Lemma fold_breakdownStep (rows : list record) (groups : obj (list record)) :
  fold_left (breakdownStep groupCol) rows groups
  = fold_left (fun g r => pushAt (tagKey r) r g) (filter (hasTag groupCol) rows) groups.
Proof.
  revert groups. induction rows as [|r rows IH]; intros groups; [reflexivity|].
  simpl. unfold breakdownStep at 2. unfold hasTag at 1.
  destruct (isEmpty (tagKey r)); simpl; apply IH.
Qed.

Lemma keyed_hasTag (rows : list record) (k : string) :
  k <> "" ->
  keyed (fun r => trim (tagOf groupCol r)) k (filter (hasTag groupCol) rows)
  = recordsOf groupCol k rows.
Proof.
  intros N. unfold keyed, recordsOf.
  induction rows as [|r rows IH]; [reflexivity|]. simpl.
  unfold hasTag at 1.
  destruct (isEmpty (tagKey r)) eqn:E; simpl.
  - apply isEmpty_true in E. rewrite E.
    destruct (String.eqb_spec k ""); [congruence|exact IH].
  - destruct (String.eqb k (tagKey r)); [now rewrite IH|exact IH].
Qed.

Lemma breakdown_names (rows : list record) :
  let groups := fold_left (breakdownStep groupCol) rows [] in
  NoDup (keys groups)
  /\ (forall k, In k (keys groups)
                <-> k <> "" /\ exists r, In r rows /\ tagKey r = k)
  /\ groups = map (fun k => (k, recordsOf groupCol k rows)) (keys groups).
Proof.
  intros groups. unfold groups. rewrite fold_breakdownStep.
  set (rows' := filter (hasTag groupCol) rows).
  assert (M : forall k, In k (keys (fold_left (fun g r => pushAt (tagKey r) r g) rows' []))
                        <-> k <> "" /\ exists r, In r rows /\ tagKey r = k).
  { intros k. rewrite (In_keys_groupAll (fun r => trim (tagOf groupCol r)) rows' k).
    unfold rows'. split.
    - intros (r & I & <-). apply filter_In in I. destruct I as [I H].
      unfold hasTag in H. apply negb_true_iff in H. split; [|eauto].
      intros E. rewrite E in H. discriminate.
    - intros (N & r & I & <-). exists r. split; [|reflexivity].
      apply filter_In. split; [exact I|]. unfold hasTag.
      destruct (tagKey r); [congruence|reflexivity]. }
  split; [apply (NoDup_keys_groupAll (fun r => trim (tagOf groupCol r)) rows');
          constructor|].
  split; [exact M|].
  rewrite (groupAll_entries (fun r => trim (tagOf groupCol r)) rows') at 1.
  apply map_ext_in. intros k I. apply M in I. destruct I as [N _].
  f_equal. now apply keyed_hasTag.
Qed.

(** The tags that get a bucket: the distinct trimmed tags that are neither
    blank nor names of inherited members. *)
Lemma aggregate_names (rows : list record) :
  let names := keys (fold_left (accumulate groupCol) rows []) in
  NoDup names
  /\ forall k, In k names
               <-> k <> "" /\ inherited k = false
                   /\ exists r, In r rows /\ tagKey r = k.
Proof.
  intros names. split; [apply NoDup_keys_fold_accumulate; constructor|].
  intros k. unfold names. rewrite In_keys_get. split.
  - intros [g G]. apply get_In in G.
    destruct (bucket_spec groupCol rows k g G) as (N & P & R & _).
    split; [exact N|]. split; [exact P|].
    destruct (recordsOf groupCol k rows) as [|r rs] eqn:E; [congruence|].
    assert (I : In r (recordsOf groupCol k rows)) by (rewrite E; now left).
    apply filter_In in I. destruct I as [I H]. apply String.eqb_eq in H. eauto.
  - intros (N & P & r & I & <-).
    destruct (bucket_exists groupCol rows r I N P) as [g G].
    exists g. apply In_get; [apply NoDup_keys_fold_accumulate; constructor|exact G].
Qed.

Lemma breakable_false (rows : list record) :
  forallb (breakable groupCol) rows = false
  <-> exists r, In r rows /\ inherited (tagKey r) = true.
Proof.
  rewrite forallb_false. unfold breakable. split.
  - intros (r & I & H). apply orb_false_iff in H. destruct H as [_ H].
    apply negb_false_iff in H. eauto.
  - intros (r & I & H). exists r. split; [exact I|]. rewrite H.
    destruct (tagKey r) eqn:E; [|reflexivity]. discriminate H.
Qed.
End BreakdownFacts.

(** Sorting commutes with taking the labels. *)
Lemma insertSorted_map {A} (label : A -> string) (x : A) (l : list A) :
  map label (insertSorted (naturalCompare label) x l)
  = insertSorted (naturalCompare (fun s : string => s)) (label x) (map label l).
Proof.
  induction l as [|y l IH]; [reflexivity|]. simpl.
  change (sortsAfter (naturalCompare (fun s : string => s)) (label x) (label y))
    with (sortsAfter (naturalCompare label) x y).
  destruct (sortsAfter (naturalCompare label) x y); simpl; [now rewrite IH|reflexivity].
Qed.

Lemma sortQuestionsNaturally_map {A} (label : A -> string) (l : list A) :
  map label (sortQuestionsNaturally label l)
  = sortQuestionsNaturally (fun s : string => s) (map label l).
Proof.
  unfold sortQuestionsNaturally. induction l as [|x l IH]; [reflexivity|].
  simpl. now rewrite insertSorted_map, IH.
Qed.

Lemma generateGroupBreakdowns_names (draw : chartConfig -> string)
  (rows : list record) (groupCol : tagColumn) (subject year : string)
  (labelCol : labelColumn) :
  generateGroupBreakdowns draw rows groupCol subject year labelCol
  = if forallb (breakable groupCol) rows
    then Returns
           (map (fun k => generateMixedChart draw (recordsOf groupCol k rows)
                            subject year
                            (breakdownPrefix groupCol ++ ": " ++ k)%string labelCol)
                (keys (fold_left (breakdownStep groupCol) rows [])))
    else Throws.
Proof.
  destruct (breakdown_names groupCol rows) as (ND & M & E). cbv zeta in ND, M, E.
  unfold generateGroupBreakdowns. rewrite forEach_breakdownGroup.
  destruct (forallb (breakable groupCol) rows); [|reflexivity]. cbn [andThen].
  f_equal.
  set (groups := fold_left (breakdownStep groupCol) rows []) in *.
  assert (G : forall k, In k (keys groups)
                        -> get k groups = Some (recordsOf groupCol k rows)).
  { intros k I. apply In_get; [exact ND|]. rewrite E at 1.
    apply in_map_iff. exists k. now split. }
  revert G. generalize (keys groups). intros ks G.
  induction ks as [|k ks IH]; [reflexivity|]. simpl.
  rewrite (G k (or_introl eq_refl)). simpl. f_equal.
  apply IH. intros k' I. apply G. now right.
Qed.

(** ** The order of the tags *)

Lemma precedes_plain (k k' : string) : isArrayIndex k = false -> precedes k k' = false.
Proof. unfold isArrayIndex, precedes. now destruct (arrayIndex k). Qed.

Lemma insertName_plain (k : string) (ks : list string) :
  isArrayIndex k = false -> insertName k ks = ks ++ [k].
Proof.
  intros H. induction ks as [|k' ks IH]; simpl; [reflexivity|].
  now rewrite (@precedes_plain k k' H), IH.
Qed.

Lemma filter_insertName (f : string -> bool) (k : string) (ks : list string) :
  f k = false -> filter f (insertName k ks) = filter f ks.
Proof.
  intros H. induction ks as [|k' ks IH]; simpl.
  - now rewrite H.
  - destruct (precedes k k'); simpl.
    + now rewrite H.
    + now rewrite IH.
Qed.

Lemma existsb_filter_plain (k : string) (ks : list string) :
  isArrayIndex k = false ->
  existsb (String.eqb k) (filter (fun x => negb (isArrayIndex x)) ks)
  = existsb (String.eqb k) ks.
Proof.
  intros H. induction ks as [|k' ks IH]; simpl; [reflexivity|].
  destruct (isArrayIndex k') eqn:E; simpl.
  - rewrite IH. destruct (String.eqb_spec k k') as [->|]; [congruence|reflexivity].
  - now rewrite IH.
Qed.

(** Among the keys of an object those that are not array indices come in
    the order in which they were first written. *)
Lemma plain_keys_in_order (l acc : list string) :
  filter (fun x => negb (isArrayIndex x)) (fold_left (fun ks k => addName k ks) l acc)
  = fold_left (fun seen k => if existsb (String.eqb k) seen then seen else seen ++ [k])
              (filter (fun x => negb (isArrayIndex x)) l)
              (filter (fun x => negb (isArrayIndex x)) acc).
Proof.
  revert acc. induction l as [|k l IH]; intros acc; simpl; [reflexivity|].
  rewrite IH. destruct (isArrayIndex k) eqn:E; simpl.
  - f_equal. unfold addName. destruct (existsb (String.eqb k) acc); [reflexivity|].
    apply filter_insertName. now rewrite E.
  - f_equal. unfold addName. rewrite (@existsb_filter_plain k acc E).
    destruct (existsb (String.eqb k) acc); [reflexivity|].
    rewrite (@insertName_plain k acc E), filter_app. simpl. now rewrite E.
Qed.

Lemma enumerationOrdered_fold (l : list string) (acc : list string) :
  enumerationOrdered acc ->
  enumerationOrdered (fold_left (fun ks k => addName k ks) l acc).
Proof.
  revert acc. induction l as [|k l IH]; intros acc H; simpl; [exact H|].
  apply IH.
  pose proof (@enumerationOrdered_set unit k tt (map (fun x => (x, tt)) acc)) as S.
  assert (K : keys (map (fun x : string => (x, tt)) acc) = acc).
  { unfold keys. rewrite map_map. apply map_id. }
  rewrite keys_set, K in S. now apply S.
Qed.

(** The keys of the buckets, from the tags in the order of the records. *)
Lemma keys_fold_accumulate (groupCol : tagColumn) (rows : list record) :
  keys (fold_left (accumulate groupCol) rows [])
  = fold_left (fun ks k => addName k ks)
              (map (fun r => trim (tagOf groupCol r))
                   (filter (fun r => hasTag groupCol r && plainTag groupCol r) rows))
              [].
Proof.
  rewrite (fold_accumulate_skips groupCol rows noInheritedKey_nil).
  assert (F : Forall (fun r => hasTag groupCol r && plainTag groupCol r = true)
                     (filter (fun r => hasTag groupCol r && plainTag groupCol r) rows)).
  { apply Forall_forall. intros r I. now apply filter_In in I. }
  revert F. generalize (filter (fun r => hasTag groupCol r && plainTag groupCol r) rows).
  intros l F.
  change (@nil string) with (keys (@nil (string * bucket))).
  generalize (@nil (string * bucket)). induction F as [|r l H F IH]; intros groups.
  - reflexivity.
  - simpl. rewrite IH, keys_accumulate.
    apply andb_true_iff in H. destruct H as [H1 H2].
    unfold hasTag in H1. unfold plainTag in H2.
    apply negb_true_iff in H1, H2. now rewrite H1, H2.
Qed.

(** X18.  The breakdown charts and the rows of the summary chart go by the
    same tags, the distinct trimmed tags that are neither blank nor names of
    inherited members: the summary lists them in natural order, and
    [generateGroupBreakdowns] gives one chart for each, drawn from the
    records of that tag, in the order in which the tags are enumerated:
    the array indices first, in ascending order, then the other tags in the
    order in which they first occur.  It throws when a record has the name
    of an inherited member for tag, a tag the summary leaves out without
    failing. *)
Theorem breakdowns_match_summary :
  forall (draw : chartConfig -> string) (rows : list record) (groupCol : tagColumn)
         (subject year : string) (labelCol : labelColumn),
    exists names,
      NoDup names
      /\ (forall k, In k names
                    <-> k <> "" /\ inherited k = false
                        /\ exists r, In r rows /\ trim (tagOf groupCol r) = k)
      /\ enumerationOrdered names
      /\ filter (fun k => negb (isArrayIndex k)) names
         = firstSeen
             (filter (fun k => negb (isArrayIndex k))
                (map (fun r => trim (tagOf groupCol r))
                   (filter (fun r => hasTag groupCol r && plainTag groupCol r) rows)))
      /\ map aggTag (aggregateData rows groupCol)
         = sortQuestionsNaturally (fun k : string => k) names
      /\ ((exists r, In r rows /\ inherited (trim (tagOf groupCol r)) = true) ->
          generateGroupBreakdowns draw rows groupCol subject year labelCol = Throws)
      /\ ((forall r, In r rows -> inherited (trim (tagOf groupCol r)) = false) ->
          generateGroupBreakdowns draw rows groupCol subject year labelCol
          = Returns
              (map (fun k => generateMixedChart draw (recordsOf groupCol k rows)
                                subject year
                                (breakdownPrefix groupCol ++ ": " ++ k)%string
                                labelCol)
                   names)).
Proof.
  intros draw rows groupCol subject year labelCol.
  destruct (aggregate_names groupCol rows) as (ND & M). cbv zeta in ND, M.
  exists (keys (fold_left (accumulate groupCol) rows [])).
  split; [exact ND|]. split; [exact M|].
  split; [rewrite keys_fold_accumulate; apply enumerationOrdered_fold; constructor|].
  split; [rewrite keys_fold_accumulate; apply plain_keys_in_order|].
  split; [|split].
  - unfold aggregateData. rewrite sortQuestionsNaturally_map, aggTags_are_keys.
    reflexivity.
  - intros H. apply breakable_false in H.
    now rewrite generateGroupBreakdowns_names, H.
  - intros H.
    assert (B : forallb (breakable groupCol) rows = true).
    { apply forallb_forall. intros r I. unfold breakable.
      rewrite (H r I). apply orb_true_r. }
    rewrite generateGroupBreakdowns_names, B.
    now rewrite (@keys_breakdown_accumulate groupCol rows [] [] B eq_refl).
Qed.

(** ** Charts whose labels are the tag itself *)

Lemma naturalSortKey_trim (s : string) : naturalSortKey (trim s) = naturalSortKey s.
Proof. unfold naturalSortKey. now rewrite trim_idempotent. Qed.

Lemma keyLe_refl (s : string) : keyLe (naturalSortKey s) (naturalSortKey s) = true.
Proof.
  destruct (@keyLe_total (naturalSortKey s) (naturalSortKey s)
              (naturalSortKey_notNaN s) (naturalSortKey_notNaN s)); auto.
Qed.

(** Elements whose labels trim to the same string are left in their order. *)
Lemma sortQuestionsNaturally_ties {A} (label : A -> string) (k : string) (l : list A) :
  Forall (fun a => trim (label a) = k) l -> sortQuestionsNaturally label l = l.
Proof.
  intros H. apply sortQuestionsNaturally_fixed.
  induction H as [|a l Ha Hl IH]; constructor; [exact IH|].
  revert Hl. apply Forall_impl. intros b Hb. unfold keyOf.
  rewrite <- (naturalSortKey_trim (label a)), <- (naturalSortKey_trim (label b)).
  rewrite Ha, Hb. apply keyLe_refl.
Qed.

(** X19.  A breakdown chart by outcome takes its labels from the outcome
    column itself: every bar is labelled with the outcome of the chart, not
    with its question, and the bars stay in the order of the sheet, the
    natural sort finding ties only. *)
Theorem outcome_breakdown_in_sheet_order :
  forall (rows : list record) (k subject year titleSuffix : string),
    let data := recordsOf QPO k rows in
    let config := mixedChartConfig data subject year titleSuffix (Tag QPO) in
    chartLabels config = map Question_Per_Outcome data
    /\ Forall (fun l => trim l = k) (chartLabels config)
    /\ map dsData (datasets config)
       = [map (fun d => percentOf (School_Mean d) (Max_Mark d)) data;
          map Max_Mark data]
    /\ xAxisTitle config = "Question Per Outcome".
Proof.
  intros rows k subject year titleSuffix data config.
  assert (T : Forall (fun d => trim (cell (Tag QPO) d) = k) data).
  { apply Forall_forall. intros d I. apply filter_In in I. destruct I as [_ H].
    apply String.eqb_eq in H. now symmetry. }
  assert (S : sortQuestionsNaturally (cell (Tag QPO)) data = data)
    by (eapply sortQuestionsNaturally_ties; exact T).
  unfold config, mixedChartConfig. cbn [chartLabels datasets xAxisTitle].
  rewrite S. split; [reflexivity|]. split; [|split; reflexivity].
  apply Forall_forall. intros l I. apply in_map_iff in I.
  destruct I as (d & <- & I). rewrite Forall_forall in T. now apply T.
Qed.

(** ** Difference charts *)

Lemma geNum_sub (a b : Q) :
  geNum (JsNumber.sub (Fin a) (Fin b)) (JsNumber.ofZ 0) = Qle_bool b a.
Proof.
  unfold JsNumber.sub, JsNumber.neg, JsNumber.add, geNum, JsNumber.ofZ, JsNumber.lt.
  rewrite negb_involutive. change (inject_Z 0) with 0%Q.
  destruct (Qle_bool b a) eqn:E.
  - apply Qle_bool_iff. apply Qle_bool_iff in E. rewrite !Qred_correct. lra.
  - destruct (Qle_bool 0 (Qred (a + Qred (- b)))) eqn:F; [|reflexivity].
    apply Qle_bool_iff in F. rewrite !Qred_correct in F.
    assert (G : (b <= a)%Q) by lra. apply Qle_bool_iff in G. congruence.
Qed.

(** X20.  A difference chart has one bar for each record, in the natural
    order of the question labels; the bar is the school mean less the state
    mean, green when the school mean is at least the state mean and red
    otherwise. *)
Theorem diff_chart_bars :
  forall (data : list record) (subject year titleSuffix : string),
    let sorted := sortQuestionsNaturally Question_Item data in
    let config := diffChartConfig data subject year titleSuffix in
    exists bars,
      datasets config = [bars]
      /\ chartLabels config = map Question_Item sorted
      /\ dsData bars
         = map (fun d => JsNumber.sub (School_Mean d) (State_Mean d)) sorted
      /\ List.length (dsColors bars) = List.length data
      /\ forall i d school state,
           nth_error sorted i = Some d ->
           School_Mean d = Fin school -> State_Mean d = Fin state ->
           nth_error (dsColors bars) i
           = Some (if Qle_bool state school then green else red).
Proof.
  intros data subject year titleSuffix sorted config.
  eexists. split; [reflexivity|]. cbn [dsData dsColors].
  split; [reflexivity|]. split; [reflexivity|]. split.
  - rewrite !length_map. symmetry. apply Permutation_length, arraySort_perm.
  - intros i d school state H Hs Ht.
    rewrite map_map, nth_error_map.
    change (sortQuestionsNaturally (cell Question) data) with sorted.
    rewrite H. cbn [option_map]. rewrite Hs, Ht, geNum_sub. reflexivity.
Qed.

(** * The order of the pages of a group *)

Lemma score_in_levels (p : page) : In (score p) scoreLevels.
Proof.
  unfold score, scoreLevels.
  destruct (type p); [|simpl; tauto].
  destruct (isPerformanceSummary p); [simpl; tauto|].
  destruct (includes (title p) "Summary"), (includes (title p) "School vs State"),
    (includes (title p) "Breakdown"); simpl; tauto.
Qed.

Lemma scored_app (v : Z) (a b : list page) :
  scored v (a ++ b) = scored v a ++ scored v b.
Proof. apply filter_app. Qed.

Lemma scored_uniform (u v : Z) (l : list page) :
  Forall (fun p => score p = u) l ->
  scored v l = if (u =? v)%Z then l else [].
Proof.
  intros H. unfold scored. induction H as [|p l Hp Hl IH]; simpl.
  - now destruct (u =? v)%Z.
  - rewrite IH, Hp. now destruct (u =? v)%Z.
Qed.

Lemma flat_map_selectZ {B} (X : list B) (u : Z) (vs : list Z) :
  NoDup vs ->
  flat_map (fun v => if (v =? u)%Z then X else []) vs
  = if existsb (fun v => (v =? u)%Z) vs then X else [].
Proof.
  induction 1 as [|v vs Hv ND IH]; simpl; [reflexivity|].
  rewrite IH. destruct (Z.eqb_spec v u) as [->|N]; simpl; [|reflexivity].
  destruct (existsb (fun v => (v =? u)%Z) vs) eqn:E; [|apply app_nil_r].
  exfalso. apply existsb_exists in E. destruct E as (w & Iw & E).
  apply Z.eqb_eq in E. subst. contradiction.
Qed.

Lemma scored_sorted (v : Z) (l : list page) :
  StronglySorted (fun a b => (score a <=? score b)%Z = true) (scored v l).
Proof.
  unfold scored. induction l as [|p l IHl]; simpl; [constructor|].
  destruct (Z.eqb_spec (score p) v) as [E|N]; [|exact IHl].
  constructor; [exact IHl|].
  apply Forall_forall. intros q Iq. apply filter_In in Iq.
  destruct Iq as [_ Eq]. apply Z.eqb_eq in Eq. apply Z.leb_le. lia.
Qed.

Lemma buckets_sorted (k : string) (l : list page) (vs : list Z) :
  (forall p, In p l -> pageKey p = k) ->
  StronglySorted Z.lt vs ->
  StronglySorted (fun a b => pageLe a b = true) (flat_map (fun v => scored v l) vs).
Proof.
  intros Hk S. induction S as [|v vs S IH F]; simpl; [constructor|].
  apply StronglySorted_app; [|exact IH|].
  - apply (@same_key_sorted k).
    + apply scored_sorted.
    + intros p I. apply filter_In in I. apply Hk, I.
  - intros a b Ia Ib. apply filter_In in Ia. destruct Ia as [Ia Ea].
    apply in_flat_map in Ib. destruct Ib as (w & Iw & Ib).
    apply filter_In in Ib. destruct Ib as [Ib Eb].
    apply Z.eqb_eq in Ea, Eb. rewrite Forall_forall in F. specialize (F w Iw).
    unfold pageLe. rewrite (Hk a Ia), (Hk b Ib), String.eqb_refl.
    assert (L : (score a <=? score b)%Z = true) by (apply Z.leb_le; lia).
    rewrite L. apply orb_true_r.
Qed.

(** Pages of one group, sorted: the pages of the lowest score in their
    order, then those of the next score, and so on. *)
Lemma sortPages_one_group (k : string) (l : list page) :
  (forall p, In p l -> pageKey p = k) ->
  sortPages l = flat_map (fun v => scored v l) scoreLevels.
Proof.
  intros Hk. rewrite sortPages_is_stable_sort.
  apply (@arraySort_unique page byKeyThenScore (fun _ => True) pageLe).
  - intros a b _ _. apply byKeyThenScore_le.
  - intros a b _ _. apply pageLe_total.
  - intros a b c _ _ _. apply pageLe_trans.
  - apply Forall_forall. auto.
  - apply Forall_forall. auto.
  - apply (@buckets_sorted k); [exact Hk|]. unfold scoreLevels.
    repeat constructor.
  - intros a _. unfold equivb.
    rewrite !(filter_ext _ _ (fun b => pageLe_both a b)).
    rewrite filter_flat_map.
    rewrite (flat_map_ext _ (fun v => if (v =? score a)%Z
                                      then filter (samePlace a) l else [])).
    + rewrite flat_map_selectZ by (unfold scoreLevels; repeat constructor;
                                    simpl; intuition discriminate).
      assert (E : existsb (fun v => (v =? score a)%Z) scoreLevels = true).
      { apply existsb_exists. exists (score a).
        split; [apply score_in_levels|apply Z.eqb_refl]. }
      now rewrite E.
    + intros v. unfold scored. destruct (Z.eqb_spec v (score a)) as [->|N].
      * apply filter_filter_implied. intros x H. unfold samePlace in H.
        apply andb_true_iff in H. destruct H as [_ H].
        apply Z.eqb_eq in H. apply Z.eqb_eq. lia.
      * apply filter_none. intros x Ix. apply filter_In in Ix.
        destruct Ix as [_ Ex]. apply Z.eqb_eq in Ex. unfold samePlace.
        destruct (Z.eqb_spec (score a) (score x)); [lia|apply andb_false_r].
Qed.

Lemma thirteen_segments (k : string)
  (A1 A2 B1 B2 P1 P2 S1 S2 D1 D2 K1 K2 TB : list page) :
  Forall (fun p => score p = 10%Z) A1 -> Forall (fun p => score p = 10%Z) A2 ->
  Forall (fun p => score p = 20%Z) B1 -> Forall (fun p => score p = 20%Z) B2 ->
  Forall (fun p => score p = 25%Z) P1 -> Forall (fun p => score p = 25%Z) P2 ->
  Forall (fun p => score p = 40%Z) S1 -> Forall (fun p => score p = 40%Z) S2 ->
  Forall (fun p => score p = 60%Z) D1 -> Forall (fun p => score p = 60%Z) D2 ->
  Forall (fun p => score p = 50%Z) K1 -> Forall (fun p => score p = 50%Z) K2 ->
  Forall (fun p => score p = 35%Z) TB ->
  (forall p, In p ((A1 ++ A2 ++ B1 ++ B2 ++ P1 ++ P2 ++ S1 ++ S2 ++ D1 ++ D2
                    ++ K1 ++ K2) ++ TB) -> pageKey p = k) ->
  sortPages ((A1 ++ A2 ++ B1 ++ B2 ++ P1 ++ P2 ++ S1 ++ S2 ++ D1 ++ D2 ++ K1 ++ K2)
             ++ TB)
  = A1 ++ A2 ++ B1 ++ B2 ++ P1 ++ P2 ++ TB ++ S1 ++ S2 ++ K1 ++ K2 ++ D1 ++ D2.
Proof.
  intros HA1 HA2 HB1 HB2 HP1 HP2 HS1 HS2 HD1 HD2 HK1 HK2 HTB Hk.
  rewrite (@sortPages_one_group k _ Hk). unfold scoreLevels. cbn [flat_map].
  rewrite !scored_app.
  rewrite !(scored_uniform _ HA1), !(scored_uniform _ HA2), !(scored_uniform _ HB1),
    !(scored_uniform _ HB2), !(scored_uniform _ HP1), !(scored_uniform _ HP2),
    !(scored_uniform _ HS1), !(scored_uniform _ HS2), !(scored_uniform _ HD1),
    !(scored_uniform _ HD2), !(scored_uniform _ HK1), !(scored_uniform _ HK2),
    !(scored_uniform _ HTB).
  cbn [Z.eqb Pos.eqb]. cbn [app]. rewrite ?app_nil_r.
  repeat (rewrite <- ?app_assoc; cbn [app]; rewrite ?app_nil_r).
  reflexivity.
Qed.

Lemma whenNonEmpty_Forall {A} (P : page -> Prop) (data : list A) (p : page) :
  P p -> Forall P (whenNonEmpty data p).
Proof.
  intros H. unfold whenNonEmpty. destruct (Nat.ltb 0 (List.length data)); repeat constructor.
  exact H.
Qed.

Lemma suffixScore_breakdown (groupCol : tagColumn) (k : string) :
  plain k = true -> suffixScore (breakdownPrefix groupCol ++ ": " ++ k) = 50%Z.
Proof.
  unfold plain. intros H. apply andb_true_iff in H. destruct H as [H _].
  apply andb_true_iff in H. destruct H as [H _]. apply negb_true_iff in H.
  unfold suffixScore.
  assert (E : includes (breakdownPrefix groupCol ++ ": " ++ k) "Summary"
              = includes k "Summary") by (destruct groupCol; reflexivity).
  assert (B : includes (breakdownPrefix groupCol ++ ": " ++ k) "Breakdown" = true)
    by (destruct groupCol; reflexivity).
  now rewrite E, H, B.
Qed.

Section GroupOrder.
Variable draw : chartConfig -> string.
Variables subject year : string.
Hypothesis plain_subject : plain subject = true.
Hypothesis plain_year : plain year = true.

Lemma score_breakdowns (rows : list record) (groupCol : tagColumn)
  (labelCol : labelColumn) (pages : list page) :
  Forall (fun r => plain (trim (tagOf groupCol r)) = true) rows ->
  generateGroupBreakdowns draw rows groupCol subject year labelCol = Returns pages ->
  Forall (fun p => score p = 50%Z) pages.
Proof.
  intros H E. rewrite generateGroupBreakdowns_names in E.
  destruct (forallb (breakable groupCol) rows); [|discriminate E].
  apply Returns_inj in E. subst pages.
  destruct (breakdown_names groupCol rows) as (_ & M & _). cbv zeta in M.
  apply Forall_forall. intros p I. apply in_map_iff in I.
  destruct I as (k & <- & Ik). apply M in Ik. destruct Ik as (_ & r & Ir & <-).
  unfold generateMixedChart. rewrite score_chartPage by assumption.
  apply suffixScore_breakdown. rewrite Forall_forall in H. now apply H.
Qed.

Lemma pageKey_breakdowns (rows : list record) (groupCol : tagColumn)
  (labelCol : labelColumn) (pages : list page) (p : page) :
  generateGroupBreakdowns draw rows groupCol subject year labelCol = Returns pages ->
  In p pages -> pageKey p = (subject ++ "|" ++ year)%string.
Proof.
  intros E. rewrite generateGroupBreakdowns_names in E.
  destruct (forallb (breakable groupCol) rows); [|discriminate E].
  apply Returns_inj in E. subst pages.
  intros I. apply in_map_iff in I.
  destruct I as (k & <- & _). reflexivity.
Qed.

Lemma pageKey_whenNonEmpty {A} (data : list A) (q p : page) :
  pageKey q = (subject ++ "|" ++ year)%string ->
  In p (whenNonEmpty data q) -> pageKey p = (subject ++ "|" ++ year)%string.
Proof.
  intros H I. unfold whenNonEmpty in I.
  destruct (Nat.ltb 0 (List.length data)); [|destruct I].
  destruct I as [<-|[]]. exact H.
Qed.

Lemma pageKey_topBottomPages (rows : list record) (p : page) :
  In p (topBottomPages subject year rows) ->
  pageKey p = (subject ++ "|" ++ year)%string /\ score p = 35%Z.
Proof.
  unfold topBottomPages. intros I. apply in_app_or in I.
  destruct I as [I|I]; apply in_map_iff in I; destruct I as (r & <- & _);
    split; reflexivity.
Qed.
End GroupOrder.

(** The pages of a group, when [chartsOfGroup] returns: the two calls of
    [generateGroupBreakdowns] have returned, and their pages come last. *)
Lemma chartsOfGroup_returns (draw : chartConfig -> string) (subject year : string)
  (rows : list record) (pages : list page) :
  chartsOfGroup draw subject year rows = Returns pages ->
  let mcData := filter (fun r => String.eqb (MC_ER r) "MC") rows in
  let erData := filter (fun r => String.eqb (MC_ER r) "ER") rows in
  let qpcAgg := aggregateData rows QPC in
  let qpoAgg := aggregateData rows QPO in
  exists byContent byOutcome,
    generateGroupBreakdowns draw rows QPC subject year Question = Returns byContent
    /\ generateGroupBreakdowns draw rows QPO subject year (Tag QPO) = Returns byOutcome
    /\ pages
       = whenNonEmpty mcData (generateMixedChart draw mcData subject year "MC" Question)
         ++ whenNonEmpty erData
              (generateMixedChart draw erData subject year "ER" Question)
         ++ whenNonEmpty mcData
              (generateDiffChart draw mcData subject year "MC - School vs State")
         ++ whenNonEmpty erData
              (generateDiffChart draw erData subject year "ER - School vs State")
         ++ whenNonEmpty (top5 rows)
              (generatePerformanceSummaryChart draw (top5 rows) subject year
                 "Best Performing Questions (Top 5)")
         ++ whenNonEmpty (bottom5 rows)
              (generatePerformanceSummaryChart draw (bottom5 rows) subject year
                 "Questions Needing Additional Support (Bottom 5)")
         ++ whenNonEmpty qpcAgg
              (generateSummaryChart draw qpcAgg subject year "QPC Summary" QPC)
         ++ whenNonEmpty qpoAgg
              (generateSummaryChart draw qpoAgg subject year "QPO Summary" QPO)
         ++ whenNonEmpty qpcAgg
              (generateSummaryDualChart draw qpcAgg subject year
                 "QPC Summary (School vs State)" QPC)
         ++ whenNonEmpty qpoAgg
              (generateSummaryDualChart draw qpoAgg subject year
                 "QPO Summary (School vs State)" QPO)
         ++ byContent ++ byOutcome.
Proof.
  intros H mcData erData qpcAgg qpoAgg. unfold chartsOfGroup in H.
  fold mcData erData qpcAgg qpoAgg in H. cbv zeta in H.
  apply andThen_returns in H. destruct H as (bc & Hc & H).
  apply andThen_returns in H. destruct H as (bo & Ho & H).
  apply Returns_inj in H. exists bc, bo. split; [exact Hc|]. split; [exact Ho|].
  rewrite <- H. now rewrite <- !app_assoc.
Qed.

(** [chartsOfGroup] returns when no tag is the name of an inherited
    member. *)
Lemma chartsOfGroup_total (draw : chartConfig -> string) (subject year : string)
  (rows : list record) :
  forallb (breakable QPC) rows = true -> forallb (breakable QPO) rows = true ->
  exists pages, chartsOfGroup draw subject year rows = Returns pages.
Proof.
  intros Bc Bo. unfold chartsOfGroup. cbv zeta.
  rewrite !generateGroupBreakdowns_names, Bc, Bo. cbn [andThen]. eauto.
Qed.

Lemma chartsOfGroup_throws (draw : chartConfig -> string) (subject year : string)
  (rows : list record) :
  forallb (breakable QPC) rows && forallb (breakable QPO) rows = false ->
  chartsOfGroup draw subject year rows = Throws.
Proof.
  intros B. unfold chartsOfGroup. cbv zeta.
  rewrite !generateGroupBreakdowns_names.
  destruct (forallb (breakable QPC) rows); [|reflexivity].
  destruct (forallb (breakable QPO) rows); [discriminate B|reflexivity].
Qed.

(** X21.  In the report the pages of one subject and year come in this
    order: the two charts of marks, the two charts of differences, the two
    performance summaries, the detail pages of the best and of the weakest
    questions, the two summaries by tag, the breakdowns by content and by
    outcome, and last the two summaries against the state.  This is so when
    neither the subject, the year nor any tag holds one of the words the
    page score looks for, for the pages [chartsOfGroup] returns; and it
    returns them when no tag is the name of an inherited member. *)
Theorem group_pages_in_report_order :
  forall (draw : chartConfig -> string) (subject year : string) (rows : list record),
    plain subject = true -> plain year = true ->
    Forall (fun r => plain (trim (Question_Per_Content r)) = true
                     /\ plain (trim (Question_Per_Outcome r)) = true) rows ->
    (Forall (fun r => inherited (trim (Question_Per_Content r)) = false
                      /\ inherited (trim (Question_Per_Outcome r)) = false) rows ->
     exists pages, chartsOfGroup draw subject year rows = Returns pages)
    /\ forall pages : list page,
    chartsOfGroup draw subject year rows = Returns pages ->
    let mcData := filter (fun r => String.eqb (MC_ER r) "MC") rows in
    let erData := filter (fun r => String.eqb (MC_ER r) "ER") rows in
    let qpcAgg := aggregateData rows QPC in
    let qpoAgg := aggregateData rows QPO in
    exists byContent byOutcome,
      generateGroupBreakdowns draw rows QPC subject year Question = Returns byContent
      /\ generateGroupBreakdowns draw rows QPO subject year (Tag QPO)
         = Returns byOutcome
      /\ sortPages (pages ++ topBottomPages subject year rows)
         = whenNonEmpty mcData
             (generateMixedChart draw mcData subject year "MC" Question)
           ++ whenNonEmpty erData
                (generateMixedChart draw erData subject year "ER" Question)
           ++ whenNonEmpty mcData
                (generateDiffChart draw mcData subject year "MC - School vs State")
           ++ whenNonEmpty erData
                (generateDiffChart draw erData subject year "ER - School vs State")
           ++ whenNonEmpty (top5 rows)
                (generatePerformanceSummaryChart draw (top5 rows) subject year
                   "Best Performing Questions (Top 5)")
           ++ whenNonEmpty (bottom5 rows)
                (generatePerformanceSummaryChart draw (bottom5 rows) subject year
                   "Questions Needing Additional Support (Bottom 5)")
           ++ topBottomPages subject year rows
           ++ whenNonEmpty qpcAgg
                (generateSummaryChart draw qpcAgg subject year "QPC Summary" QPC)
           ++ whenNonEmpty qpoAgg
                (generateSummaryChart draw qpoAgg subject year "QPO Summary" QPO)
           ++ byContent
           ++ byOutcome
           ++ whenNonEmpty qpcAgg
                (generateSummaryDualChart draw qpcAgg subject year
                   "QPC Summary (School vs State)" QPC)
           ++ whenNonEmpty qpoAgg
                (generateSummaryDualChart draw qpoAgg subject year
                   "QPO Summary (School vs State)" QPO).
Proof.
  intros draw subject year rows Hs Hy Ht. split.
  { intros Hi. apply chartsOfGroup_total; apply forallb_forall; intros r I;
      rewrite Forall_forall in Hi; destruct (Hi r I) as [Ic Io];
      unfold breakable; cbn [tagOf]; [rewrite Ic|rewrite Io]; apply orb_true_r. }
  intros pages Hr mcData erData qpcAgg qpoAgg.
  assert (Tc : Forall (fun r => plain (trim (tagOf QPC r)) = true) rows)
    by (revert Ht; apply Forall_impl; intros r H; exact (proj1 H)).
  assert (To : Forall (fun r => plain (trim (tagOf QPO r)) = true) rows)
    by (revert Ht; apply Forall_impl; intros r H; exact (proj2 H)).
  destruct (chartsOfGroup_returns _ _ _ _ Hr) as (bc & bo & Hc & Ho & E).
  fold mcData erData qpcAgg qpoAgg in E.
  exists bc, bo. split; [exact Hc|]. split; [exact Ho|]. rewrite E.
  apply (@thirteen_segments (subject ++ "|" ++ year)%string).
  - apply whenNonEmpty_Forall. unfold generateMixedChart.
    now rewrite score_chartPage.
  - apply whenNonEmpty_Forall. unfold generateMixedChart.
    now rewrite score_chartPage.
  - apply whenNonEmpty_Forall. unfold generateDiffChart.
    now rewrite score_chartPage.
  - apply whenNonEmpty_Forall. unfold generateDiffChart.
    now rewrite score_chartPage.
  - apply whenNonEmpty_Forall. reflexivity.
  - apply whenNonEmpty_Forall. reflexivity.
  - apply whenNonEmpty_Forall. unfold generateSummaryChart.
    now rewrite score_chartPage.
  - apply whenNonEmpty_Forall. unfold generateSummaryChart.
    now rewrite score_chartPage.
  - apply whenNonEmpty_Forall. unfold generateSummaryDualChart.
    now rewrite score_chartPage.
  - apply whenNonEmpty_Forall. unfold generateSummaryDualChart.
    now rewrite score_chartPage.
  - exact (@score_breakdowns draw subject year Hs Hy rows QPC Question bc Tc Hc).
  - exact (@score_breakdowns draw subject year Hs Hy rows QPO (Tag QPO) bo To Ho).
  - apply Forall_forall. intros p I. now apply pageKey_topBottomPages in I.
  - intros p I. apply in_app_or in I.
    destruct I as [I|I]; [|now apply pageKey_topBottomPages in I].
    do 10 (apply in_app_or in I; destruct I as [I|I];
           [eapply pageKey_whenNonEmpty; [|exact I]; reflexivity|]).
    apply in_app_or in I. destruct I as [I|I].
    + exact (@pageKey_breakdowns draw subject year rows QPC Question bc p Hc I).
    + exact (@pageKey_breakdowns draw subject year rows QPO (Tag QPO) bo p Ho I).
Qed.

Lemma group_pages_in_report_order_witness :
  exists pages,
    chartsOfGroup (fun _ => "") "Maths" "2023" sampleGroup = Returns pages
    /\ map score (sortPages (pages ++ topBottomPages "Maths" "2023" sampleGroup))
       = [10; 20; 25; 25; 35; 35; 35; 35; 35; 35; 40; 40; 50; 50; 50; 50; 60; 60]%Z.
Proof.
  destruct (@group_pages_in_report_order (fun _ => "") "Maths" "2023" sampleGroup
              eq_refl eq_refl ltac:(repeat constructor)) as [T O].
  destruct T as [pages R]; [repeat constructor|].
  exists pages. split; [exact R|].
  destruct (O pages R) as (bc & bo & Hc & Ho & E).
  rewrite E. vm_compute in Hc, Ho.
  apply Returns_inj in Hc. apply Returns_inj in Ho.
  rewrite <- Hc, <- Ho. reflexivity.
Defined.

(** * The report as a whole *)

(** Strictly increasing lists with the same elements are equal. *)
Lemma strictly_sorted_unique (l1 l2 : list string) :
  StronglySorted (fun a b => ltStr a b = true) l1 ->
  StronglySorted (fun a b => ltStr a b = true) l2 ->
  (forall x, In x l1 <-> In x l2) -> l1 = l2.
Proof.
  intros S1. revert l2. induction S1 as [|a l1 S1 IH Ha]; intros l2 S2 M.
  - destruct l2 as [|b l2]; [reflexivity|].
    destruct (proj2 (M b) (or_introl eq_refl)).
  - destruct S2 as [|b l2 S2 Hb].
    { destruct (proj1 (M a) (or_introl eq_refl)). }
    rewrite Forall_forall in Ha, Hb.
    assert (E : a = b).
    { destruct (proj1 (M a) (or_introl eq_refl)) as [E|Ia]; [now symmetry|].
      destruct (proj2 (M b) (or_introl eq_refl)) as [E|Ib]; [exact E|].
      pose proof (Hb a Ia) as L1. pose proof (Ha b Ib) as L2.
      rewrite (ltStr_asym _ _ L1) in L2. discriminate. }
    subst b. f_equal. apply IH; [exact S2|].
    intros x. split; intros I.
    + destruct (proj1 (M x) (or_intror I)) as [E|I']; [|exact I'].
      subst x. pose proof (Ha a I) as L. rewrite ltStr_irrefl in L. discriminate.
    + destruct (proj2 (M x) (or_intror I)) as [E|I']; [|exact I'].
      subst x. pose proof (Hb a I) as L. rewrite ltStr_irrefl in L. discriminate.
Qed.

Lemma In_whenNonEmpty {A} (data : list A) (q p : page) :
  In p (whenNonEmpty data q) -> p = q.
Proof.
  unfold whenNonEmpty. destruct (Nat.ltb 0 (List.length data)); [|intros []].
  intros [<-|[]]. reflexivity.
Qed.

(** Every page made for a group carries the subject and the year of the
    group. *)
Lemma chartsOfGroup_group (draw : chartConfig -> string) (subject0 year0 : string)
  (rows : list record) (p : page) :
  In p (returned (chartsOfGroup draw subject0 year0 rows)) ->
  subject p = subject0 /\ year p = year0 /\ type p = chart.
Proof.
  destruct (chartsOfGroup draw subject0 year0 rows) as [pages| |] eqn:E;
    try (intros []).
  cbn [returned]. intros I.
  destruct (chartsOfGroup_returns _ _ _ _ E) as (bc & bo & Hc & Ho & ->).
  rewrite generateGroupBreakdowns_names in Hc, Ho.
  destruct (forallb (breakable QPC) rows); [|discriminate Hc].
  destruct (forallb (breakable QPO) rows); [|discriminate Ho].
  apply Returns_inj in Hc. apply Returns_inj in Ho. subst bc bo.
  repeat (apply in_app_or in I; destruct I as [I|I]);
    try (apply In_whenNonEmpty in I; subst p; repeat split);
    apply in_map_iff in I; destruct I as (k & <- & _); repeat split.
Qed.

Lemma chartsOfGroup_chartable (draw : chartConfig -> string) (subject0 year0 : string)
  (rows : list record) :
  chartsOfGroup draw subject0 year0 rows
  = if chartable rows
    then Returns (returned (chartsOfGroup draw subject0 year0 rows))
    else Throws.
Proof.
  unfold chartable. destruct (forallb (breakable QPC) rows) eqn:Bc.
  - destruct (forallb (breakable QPO) rows) eqn:Bo.
    + destruct (chartsOfGroup_total draw subject0 year0 rows Bc Bo) as [pages E].
      now rewrite E.
    + apply chartsOfGroup_throws. now rewrite Bc, Bo.
  - apply chartsOfGroup_throws. now rewrite Bc.
Qed.

Lemma topBottomPages_group (subject0 year0 : string) (rows : list record) (p : page) :
  In p (topBottomPages subject0 year0 rows) ->
  subject p = subject0 /\ year p = year0 /\ type p = topbottom.
Proof.
  unfold topBottomPages. intros I. apply in_app_or in I.
  destruct I as [I|I]; apply in_map_iff in I; destruct I as (r & <- & _);
    repeat split.
Qed.

Lemma topBottomPages_nonempty (subject0 year0 : string) (rows : list record) :
  rows <> [] -> topBottomPages subject0 year0 rows <> [].
Proof.
  intros H E. apply (f_equal (@List.length page)) in E.
  rewrite topBottomPages_length in E. destruct rows; [congruence|simpl in E; lia].
Qed.

(** A loop that pushes what each call returns. *)
Lemma forEach_push {A B} (h : A -> outcome (list B)) (ok : A -> bool) (l : list A)
  (acc : list B) :
  (forall a, h a = if ok a then Returns (returned (h a)) else Throws) ->
  forEach (fun acc a => andThen (h a) (fun pushed => Returns (acc ++ pushed))) l acc
  = if forallb ok l
    then Returns (acc ++ flat_map (fun a => returned (h a)) l)
    else Throws.
Proof.
  intros H. revert acc. induction l as [|a l IH]; intros acc; simpl.
  - now rewrite app_nil_r.
  - rewrite (H a). destruct (ok a); simpl; [|reflexivity].
    rewrite IH, <- app_assoc. reflexivity.
Qed.

Section Report.
Variable draw : chartConfig -> string.

Lemma createAllCharts_loop (groupedData : obj (obj (list record))) (acc : list page) :
  forEach (fun chartImages (sy : string * obj (list record)) =>
             forEach (fun chartImages (yr : string * list record) =>
                        andThen (chartsOfGroup draw (fst sy) (fst yr) (snd yr))
                          (fun pushed => Returns (chartImages ++ pushed)))
                     (snd sy) chartImages)
          groupedData acc
  = if forallb (fun sy : string * obj (list record) =>
                  forallb (fun yr : string * list record => chartable (snd yr))
                          (snd sy)) groupedData
    then Returns
           (acc ++ flat_map (fun sy : string * obj (list record) =>
              flat_map (fun yr : string * list record =>
                returned (chartsOfGroup draw (fst sy) (fst yr) (snd yr))) (snd sy))
              groupedData)
    else Throws.
Proof.
  revert acc. induction groupedData as [|sy l IH]; intros acc; simpl.
  - now rewrite app_nil_r.
  - rewrite (@forEach_push (string * list record) page
               (fun yr => chartsOfGroup draw (fst sy) (fst yr) (snd yr))
               (fun yr => chartable (snd yr)) (snd sy) acc
               (fun yr => chartsOfGroup_chartable draw (fst sy) (fst yr) (snd yr))).
    destruct (forallb (fun yr : string * list record => chartable (snd yr)) (snd sy));
      simpl; [|reflexivity].
    rewrite IH. destruct (forallb _ l); [|reflexivity].
    now rewrite <- app_assoc.
Qed.

(** The charts of all the groups: [createAllCharts] throws as soon as a
    group has the name of an inherited member among its tags. *)
Lemma createAllCharts_eq (groupedData : obj (obj (list record))) :
  createAllCharts draw groupedData
  = if forallb (fun sy : string * obj (list record) =>
                  forallb (fun yr : string * list record => chartable (snd yr))
                          (snd sy)) groupedData
    then Returns
           (flat_map (fun sy : string * obj (list record) =>
              flat_map (fun yr : string * list record =>
                returned (chartsOfGroup draw (fst sy) (fst yr) (snd yr))) (snd sy))
              groupedData)
    else Throws.
Proof.
  unfold createAllCharts. apply createAllCharts_loop.
Qed.

(** The subjects that have a page are the subjects of the groups. *)
Lemma page_subjects (grouped : obj (obj (list record))) :
  wellGrouped grouped ->
  forall s, (exists p, In p (flat_map (fun sy : string * obj (list record) =>
                               flat_map (fun yr : string * list record =>
                                 returned (chartsOfGroup draw (fst sy) (fst yr) (snd yr)))
                                 (snd sy)) grouped
                             ++ generateTopBottomMetadata grouped)
                       /\ subject p = s)
            <-> In s (keys grouped).
Proof.
  intros [ND W] s. split.
  - intros (p & I & <-). apply in_app_or in I. destruct I as [I|I].
    + apply in_flat_map in I.
      destruct I as ([s0 years] & Is & I). apply in_flat_map in I.
      destruct I as ([y0 rows] & Iy & I). apply chartsOfGroup_group in I.
      destruct I as (-> & _). simpl. apply in_map_iff. exists (s0, years). now split.
    + unfold generateTopBottomMetadata in I. apply in_flat_map in I.
      destruct I as ([s0 years] & Is & I). apply in_flat_map in I.
      destruct I as ([y0 rows] & Iy & I). apply topBottomPages_group in I.
      destruct I as (-> & _). simpl. apply in_map_iff. exists (s0, years). now split.
  - intros I. apply in_map_iff in I. destruct I as ([s0 years] & <- & Is).
    destruct (W _ _ Is) as (Ne & _ & Wy).
    destruct years as [|[y0 rows] years]; [congruence|].
    pose proof (Wy y0 rows (or_introl eq_refl)) as Nr.
    pose proof (@topBottomPages_nonempty s0 y0 rows Nr) as Np.
    destruct (topBottomPages s0 y0 rows) as [|p ps] eqn:E; [congruence|].
    exists p. split.
    + apply in_or_app. right. unfold generateTopBottomMetadata.
      apply in_flat_map. exists (s0, (y0, rows) :: years). split; [exact Is|].
      apply in_flat_map. exists (y0, rows). split; [now left|].
      simpl. rewrite E. now left.
    + assert (Ip : In p (topBottomPages s0 y0 rows)) by (rewrite E; now left).
      apply topBottomPages_group in Ip. simpl. tauto.
Qed.
End Report.

(** The report of what [processData] has returned: it fails when a grouped
    row has the name of an inherited member for tag, and has the groups'
    subjects otherwise. *)
Lemma generateReport_eq (draw : chartConfig -> string)
  (number_to_string : number -> string) (builtinHas : string -> string -> bool)
  (rawData : list (obj value)) (out : processed) :
  processData number_to_string builtinHas rawData = Returns out ->
  generateReport draw out
  = if forallb (fun sy : string * obj (list record) =>
                  forallb (fun yr : string * list record => chartable (snd yr))
                          (snd sy)) (grouped out)
    then generateReport draw out else Throws.
Proof.
  intros _. unfold generateReport. rewrite createAllCharts_eq.
  destruct (forallb _ (grouped out)); reflexivity.
Qed.

Lemma report_documents (draw : chartConfig -> string)
  (number_to_string : number -> string) (builtinHas : string -> string -> bool)
  (rawData : list (obj value)) (out : processed) :
  processData number_to_string builtinHas rawData = Returns out ->
  forallb (fun sy : string * obj (list record) =>
             forallb (fun yr : string * list record => chartable (snd yr))
                     (snd sy)) (grouped out) = true ->
  exists files,
    generateReport draw out = Returns files
    /\ map pdfSubject files
       = filter (fun s => negb (inherited s)) (subjects out).
Proof.
  intros H Ok.
  destruct (processData_returns _ _ _ H) as (_ & G & [P1 P2] & _).
  assert (W : wellGrouped (grouped out)).
  { rewrite G. apply wellGrouped_fold. split; [constructor|]. intros s y []. }
  unfold generateReport. rewrite createAllCharts_eq, Ok. cbn [andThen].
  set (charts := flat_map _ (grouped out)).
  destruct (createPDF_eq charts out) as (Eq & ND & K). rewrite Eq.
  assert (Plain : forallb (fun p => negb (inherited (subject p)))
                          (charts ++ generateTopBottomMetadata (grouped out)) = true).
  { apply forallb_forall. intros p I.
    assert (Ik : In (subject p) (keys (grouped out))).
    { apply (page_subjects draw W). eauto. }
    apply In_keys_get in Ik. destruct Ik as [years Gy].
    destruct (inherited (subject p)) eqn:E; [|reflexivity].
    rewrite (P1 _ E) in Gy. discriminate. }
  rewrite Plain. eexists. split; [reflexivity|].
  rewrite map_map. cbn [pdfSubject]. rewrite map_id.
  destruct (subjects_spec out) as (S & _ & _).
  pose proof (plain_subjects_keys _ _ _ H) as P.
  apply strictly_sorted_unique.
  - apply sort_strings_strict.
    apply (NoDup_keys_groupAll subject
             (charts ++ generateTopBottomMetadata (grouped out))). constructor.
  - clear -S. induction S as [|a l S IH Ha]; simpl; [constructor|].
    destruct (negb (inherited a)); [|exact IH].
    constructor; [exact IH|]. apply Forall_forall. intros b Ib.
    apply filter_In in Ib. rewrite Forall_forall in Ha. now apply Ha.
  - intros s. split; intros I.
    + apply (Permutation_in _ (Permutation_sym P)).
      apply (page_subjects draw W s). apply (K s). exact I.
    + apply (K s). apply (page_subjects draw W s).
      apply (Permutation_in _ P). exact I.
Qed.

(** The groups can all be charted when each of their records can. *)
Lemma chartable_groups (grouped : obj (obj (list record))) :
  forallb (fun sy : string * obj (list record) =>
             forallb (fun yr : string * list record => chartable (snd yr))
                     (snd sy)) grouped
  = forallb (fun r => breakable QPC r && breakable QPO r) (allRecords grouped).
Proof.
  assert (C : forall rows, chartable rows
                           = forallb (fun r => breakable QPC r && breakable QPO r) rows).
  { induction rows as [|r rows IH]; [reflexivity|].
    unfold chartable in *. simpl. rewrite <- IH.
    destruct (breakable QPC r), (breakable QPO r), (forallb (breakable QPC) rows),
      (forallb (breakable QPO) rows); reflexivity. }
  unfold allRecords, members.
  induction grouped as [|[s years] l IH]; [reflexivity|].
  simpl. rewrite forallb_app, <- IH. f_equal.
  clear. induction years as [|[y rows] years IH]; [reflexivity|].
  simpl. rewrite forallb_app, <- IH. f_equal.
  unfold chartable. clear. induction rows as [|r rows IH]; [reflexivity|].
  simpl. rewrite <- IH.
  destruct (breakable QPC r), (breakable QPO r), (forallb (breakable QPC) rows),
    (forallb (breakable QPO) rows); reflexivity.
Qed.

Lemma breakable_inherited (groupCol : tagColumn) (r : record) :
  breakable groupCol r = negb (inherited (trim (tagOf groupCol r))).
Proof.
  unfold breakable. destruct (trim (tagOf groupCol r)); reflexivity.
Qed.

(** X22.  The report of what [processData] has returned.  Making it fails,
    with no document kept, when a row that is in a group has the name of an
    inherited member for content tag or for outcome tag, and returns the
    documents otherwise.
    The documents returned are one for each subject shown for review that is
    not the name of an inherited member, in the order of [stats.subjects]:
    when no row kept has such a subject, the subjects of the documents are
    the list [stats.subjects] and there are [stats.subjectCount] of them. *)
Theorem report_subjects :
  forall (draw : chartConfig -> string) (number_to_string : number -> string)
         (builtinHas : string -> string -> bool) (rawData : list (obj value))
         (out : processed),
    processData number_to_string builtinHas rawData = Returns out ->
    ((exists r, In r (raw out) /\ inherited (Subject r) = false
                /\ (inherited (trim (tagOf QPC r)) = true
                    \/ inherited (trim (tagOf QPO r)) = true)) ->
     generateReport draw out = Throws)
    /\ ((forall r, In r (raw out) -> inherited (Subject r) = false ->
           inherited (trim (tagOf QPC r)) = false
           /\ inherited (trim (tagOf QPO r)) = false) ->
        exists files, generateReport draw out = Returns files)
    /\ forall files,
         generateReport draw out = Returns files ->
         map pdfSubject files
         = filter (fun s => negb (inherited s)) (subjects out)
         /\ ((forall r, In r (raw out) -> inherited (Subject r) = false) ->
             map pdfSubject files = subjects out
             /\ List.length files = subjectCount out).
Proof.
  intros draw nts bh rawData out H.
  destruct (processData_returns _ _ _ H) as (_ & G & _ & _).
  assert (P : Permutation (filter plainSubject (raw out)) (allRecords (grouped out))).
  { rewrite G. apply Permutation_sym.
    apply (allRecords_fold nts (filter plainSubject (raw out)) []). }
  pose proof (@generateReport_eq draw nts bh rawData out H) as E.
  rewrite chartable_groups in E.
  split; [|split].
  - intros (r & I & Ps & T). rewrite E.
    assert (F : forallb (fun r => breakable QPC r && breakable QPO r)
                        (allRecords (grouped out)) = false).
    { apply forallb_false. exists r. split.
      - apply (Permutation_in _ P). apply filter_In. split; [exact I|].
        unfold plainSubject. now rewrite Ps.
      - rewrite !breakable_inherited. destruct T as [T|T]; rewrite T; simpl;
          [reflexivity|apply andb_false_r]. }
    now rewrite F.
  - intros A.
    assert (F : forallb (fun r => breakable QPC r && breakable QPO r)
                        (allRecords (grouped out)) = true).
    { apply forallb_forall. intros r I.
      apply (Permutation_in _ (Permutation_sym P)) in I. apply filter_In in I.
      destruct I as [I Ps]. unfold plainSubject in Ps. apply negb_true_iff in Ps.
      destruct (A r I Ps) as [Tc To]. now rewrite !breakable_inherited, Tc, To. }
    rewrite <- chartable_groups in F.
    destruct (@report_documents draw nts bh rawData out H F) as (files & R & _). eauto.
  - intros files R.
    destruct (forallb (fun r => breakable QPC r && breakable QPO r)
                      (allRecords (grouped out))) eqn:F;
      [|rewrite E in R; discriminate R].
    rewrite <- chartable_groups in F.
    destruct (@report_documents draw nts bh rawData out H F) as (files' & R' & S).
    rewrite R in R'. apply Returns_inj in R'. subst files'.
    split; [exact S|]. intros A.
    assert (Id : filter (fun s => negb (inherited s)) (subjects out) = subjects out).
    { apply forallb_filter_id. apply forallb_forall. intros s Is.
      destruct (subjects_spec out) as (_ & _ & M). apply M in Is.
      destruct Is as (r & I & <-). now rewrite (A r I). }
    rewrite Id in S. split; [exact S|].
    rewrite <- (length_map pdfSubject), S. unfold subjects, subjectCount.
    apply arraySort_length.
Qed.

(** Two rows of one subject: the report has its one document. *)
Lemma report_subjects_witness :
  exists out files,
    processData integerToString (fun _ _ => false)
      [[("Subject", VStr "Maths"); ("Year", VStr "2023");
        ("Question (Item)", VStr "1"); ("Question Per Content", VStr "Algebra")];
       [("Subject", VStr "Maths"); ("Year", VStr "2024");
        ("Question (Item)", VStr "2"); ("Question Per Content", VStr "Number")]]
    = Returns out
    /\ generateReport (fun _ => "") out = Returns files
    /\ subjects out = ["Maths"]
    /\ map pdfSubject files = subjects out
    /\ List.length files = subjectCount out.
Proof.
  eexists.
  destruct (@report_subjects (fun _ => "") integerToString (fun _ _ => false)
              [[("Subject", VStr "Maths"); ("Year", VStr "2023");
                ("Question (Item)", VStr "1");
                ("Question Per Content", VStr "Algebra")];
               [("Subject", VStr "Maths"); ("Year", VStr "2024");
                ("Question (Item)", VStr "2");
                ("Question Per Content", VStr "Number")]]
              _ eq_refl) as (_ & T & S).
  destruct T as [files R].
  { intros r I. vm_compute in I.
    destruct I as [<-|[<-|[]]]; split; reflexivity. }
  exists files. split; [reflexivity|]. split; [exact R|].
  split; [reflexivity|]. apply (S files R).
  intros r I. vm_compute in I. destruct I as [<-|[<-|[]]]; reflexivity.
Defined.

(** * Steps of the page *)

Lemma classContains_app (c : string) (l1 l2 : classList) :
  classContains c (l1 ++ l2) = classContains c l1 || classContains c l2.
Proof. unfold classContains. apply existsb_app. Qed.

Lemma classContains_classAdd (c c' : string) (l : classList) :
  classContains c (classAdd c' l) = String.eqb c c' || classContains c l.
Proof.
  unfold classAdd. destruct (existsb (String.eqb c') l) eqn:E.
  - destruct (String.eqb_spec c c') as [->|N]; [|reflexivity].
    unfold classContains. rewrite E. reflexivity.
  - rewrite classContains_app. cbn [classContains existsb].
    rewrite orb_false_r. apply orb_comm.
Qed.

Lemma classContains_classRemove (c c' : string) (l : classList) :
  classContains c (classRemove c' l) = negb (String.eqb c c') && classContains c l.
Proof.
  unfold classRemove, classContains. induction l as [|x l IH]; simpl.
  - now rewrite andb_false_r.
  - destruct (String.eqb_spec c' x) as [->|N]; simpl.
    + rewrite IH. destruct (String.eqb_spec c x) as [->|N']; simpl; reflexivity.
    + rewrite IH. destruct (String.eqb_spec c x) as [->|N']; simpl.
      * destruct (String.eqb_spec x c') as [->|N'']; [congruence|reflexivity].
      * reflexivity.
Qed.

Lemma nth_error_markSteps (step : nat) (els : list classList) (idx i : nat) :
  nth_error (markSteps step idx els) i
  = option_map (fun el => if Nat.leb (idx + i + 1) step
                          then classAdd "active" el
                          else classRemove "active" el)
               (nth_error els i).
Proof.
  revert idx i. induction els as [|el rest IH]; intros idx i.
  - destruct i; reflexivity.
  - destruct i as [|i]; cbn [markSteps nth_error option_map].
    + replace (idx + 0 + 1) with (idx + 1) by lia.
      destruct (Nat.eqb_spec (idx + 1) step) as [E|N].
      * destruct (Nat.leb_spec (idx + 1) step); [reflexivity|lia].
      * destruct (Nat.ltb_spec (idx + 1) step);
          destruct (Nat.leb_spec (idx + 1) step); try reflexivity; lia.
    + rewrite IH. replace (S idx + i + 1) with (idx + S i + 1) by lia. reflexivity.
Qed.

Lemma nth_error_reveal (i : nat) (els : list classList) (j : nat) :
  nth_error (reveal i els) j
  = option_map (fun el => if Nat.eqb j i
                          then classAdd "active-section" (classRemove "hidden" el)
                          else el)
               (nth_error els j).
Proof.
  revert i j. induction els as [|el rest IH]; intros i j.
  - destruct i, j; reflexivity.
  - destruct i as [|i], j as [|j]; cbn [reveal nth_error option_map Nat.eqb];
      try reflexivity.
    + destruct (nth_error rest j); reflexivity.
    + apply IH.
Qed.

Lemma nth_error_sections (step : nat) (v : view) (i : nat) :
  i < 4 ->
  nth_error (sections (goToStep step v)) i
  = option_map (fun el => if Nat.eqb (i + 1) step
                          then classAdd "active-section"
                                 (classRemove "hidden" (classAdd "hidden" el))
                          else classAdd "hidden" el)
               (nth_error (sections v) i).
Proof.
  intros Hi. unfold goToStep. cbn [sections].
  destruct (Nat.leb 1 step && Nat.leb step 4)%bool eqn:E.
  - apply andb_true_iff in E. destruct E as [E1 E2].
    apply Nat.leb_le in E1, E2.
    rewrite nth_error_reveal, nth_error_map.
    destruct (nth_error (sections v) i); [|reflexivity]. cbn [option_map].
    destruct (Nat.eqb_spec i (step - 1)); destruct (Nat.eqb_spec (i + 1) step);
      try reflexivity; lia.
  - rewrite nth_error_map.
    destruct (nth_error (sections v) i); [|reflexivity]. cbn [option_map].
    destruct (Nat.eqb_spec (i + 1) step) as [E'|]; [|reflexivity].
    apply andb_false_iff in E. destruct E as [E|E]; apply Nat.leb_gt in E; lia.
Qed.

(** X23.  After [goToStep(step)] the current step is [step]; of the four
    sections exactly the one of that step is not hidden (none for a step
    outside 1 to 4); and the step indicators up to the current one, and
    only those, are active.  No element is added or lost. *)
Theorem goToStep_view :
  forall (step : nat) (v : view),
    List.length (sections v) = 4 ->
    let v' := goToStep step v in
    currentStep v' = step
    /\ List.length (sections v') = 4
    /\ List.length (steps v') = List.length (steps v)
    /\ (forall i el, nth_error (sections v') i = Some el ->
          classContains "hidden" el = negb (Nat.eqb (i + 1) step))
    /\ (forall i el, nth_error (steps v') i = Some el ->
          classContains "active" el = Nat.leb (i + 1) step).
Proof.
  intros step v L v'.
  assert (L' : List.length (sections v') = 4).
  { unfold v', goToStep. cbn [sections].
    assert (R : forall i els, List.length (reveal i els) = List.length els).
    { intros i els. revert i. induction els as [|el rest IH]; intros [|i];
        simpl; try reflexivity. now rewrite IH. }
    destruct (Nat.leb 1 step && Nat.leb step 4)%bool;
      [rewrite R|]; rewrite length_map; exact L. }
  split; [reflexivity|]. split; [exact L'|]. split; [|split].
  - unfold v', goToStep. cbn [steps]. generalize 0.
    induction (steps v) as [|el rest IH]; intros idx; simpl; [reflexivity|].
    now rewrite IH.
  - intros i el H.
    assert (Hi : i < 4).
    { rewrite <- L'. apply nth_error_Some. congruence. }
    unfold v' in H. rewrite (nth_error_sections step v Hi) in H.
    destruct (nth_error (sections v) i) as [el0|]; [|discriminate].
    cbn [option_map] in H. injection H as <-.
    destruct (Nat.eqb (i + 1) step); cbn [negb].
    + rewrite classContains_classAdd, classContains_classRemove.
      reflexivity.
    + rewrite classContains_classAdd. reflexivity.
  - intros i el H. unfold v', goToStep in H. cbn [steps] in H.
    rewrite nth_error_markSteps in H.
    destruct (nth_error (steps v) i) as [el0|]; [|discriminate].
    cbn [option_map] in H. injection H as <-. cbn [Nat.add].
    destruct (Nat.leb (i + 1) step).
    + rewrite classContains_classAdd. reflexivity.
    + rewrite classContains_classRemove. reflexivity.
Qed.

(** The four sections and the four indicators of the page as loaded: the
    upload section is shown, the first step is active. *)
Lemma goToStep_view_witness :
  let v := {| currentStep := 1;
              steps := [["step"; "active"]; ["step"]; ["step"]; ["step"]];
              sections := [["section"; "active-section"]; ["section"; "hidden"];
                           ["section"; "hidden"]; ["section"; "hidden"]] |} in
  let v' := goToStep 3 v in
  currentStep v' = 3
  /\ List.length (sections v') = 4
  /\ List.length (steps v') = 4
  /\ (forall i el, nth_error (sections v') i = Some el ->
        classContains "hidden" el = negb (Nat.eqb (i + 1) 3))
  /\ (forall i el, nth_error (steps v') i = Some el ->
        classContains "active" el = Nat.leb (i + 1) 3).
Proof.
  exact (goToStep_view 3
           {| currentStep := 1;
              steps := [["step"; "active"]; ["step"]; ["step"]; ["step"]];
              sections := [["section"; "active-section"]; ["section"; "hidden"];
                           ["section"; "hidden"]; ["section"; "hidden"]] |}
           eq_refl).
Defined.

(** X24.  [goToStep] never takes the mark [active-section] off a section:
    a section that was shown once keeps it while hidden, and the section of
    the current step has it. *)
Theorem goToStep_keeps_active_section :
  forall (step : nat) (v : view) (i : nat) (el el' : classList),
    i < 4 ->
    nth_error (sections v) i = Some el ->
    nth_error (sections (goToStep step v)) i = Some el' ->
    classContains "active-section" el'
    = Nat.eqb (i + 1) step || classContains "active-section" el.
Proof.
  intros step v i el el' Hi H H'.
  rewrite (nth_error_sections step v Hi), H in H'. cbn [option_map] in H'.
  injection H' as <-.
  destruct (Nat.eqb (i + 1) step); cbn [orb].
  - rewrite classContains_classAdd. reflexivity.
  - rewrite classContains_classAdd. reflexivity.
Qed.

Lemma goToStep_keeps_active_section_witness :
  classContains "active-section"
    (classAdd "hidden" ["section"; "active-section"])
  = Nat.eqb (0 + 1) 2 || classContains "active-section" ["section"; "active-section"].
Proof.
  exact (@goToStep_keeps_active_section 2
           {| currentStep := 1;
              steps := [["step"; "active"]; ["step"]; ["step"]; ["step"]];
              sections := [["section"; "active-section"]; ["section"; "hidden"];
                           ["section"; "hidden"]; ["section"; "hidden"]] |}
           0 ["section"; "active-section"]
           (classAdd "hidden" ["section"; "active-section"])
           (Nat.lt_0_succ 3) eq_refl eq_refl).
Defined.

(** * The rows of a summary *)

(** X25.  [aggregateData] gives one row for each distinct trimmed tag that
    is neither empty nor the name of an inherited member: the tag, the sum
    of the maximum marks and the means of the school and state means over
    the records of that tag and no others.  The records whose trimmed tag is
    empty or such a name are skipped.  The rows are the buckets, sorted by
    the natural sort on the tag, which leaves tags of equal key as the
    object enumerates them: the array indices first, in ascending order,
    then the other tags in the order in which they first occur. *)
Theorem aggregateData_rows :
  forall (rows : list record) (groupCol : tagColumn),
    let out := aggregateData rows groupCol in
    (forall a, In a out ->
       aggTag a <> "" /\ inherited (aggTag a) = false
       /\ recordsOf groupCol (aggTag a) rows <> []
       /\ aggMaxMark a = sumOf (map Max_Mark (recordsOf groupCol (aggTag a) rows))
       /\ aggSchoolMean a
          = meanOf (map School_Mean (recordsOf groupCol (aggTag a) rows))
       /\ aggStateMean a
          = meanOf (map State_Mean (recordsOf groupCol (aggTag a) rows)))
    /\ (forall r, In r rows -> trim (tagOf groupCol r) <> "" ->
          inherited (trim (tagOf groupCol r)) = false ->
          exists a, In a out /\ aggTag a = trim (tagOf groupCol r))
    /\ NoDup (map aggTag out)
    /\ out = aggregateData
               (filter (fun r => hasTag groupCol r && plainTag groupCol r) rows)
               groupCol
    /\ StronglySorted
         (fun a b => keyLe (naturalSortKey (aggTag a)) (naturalSortKey (aggTag b))
                     = true) out
    /\ exists unsorted,
         out = sortQuestionsNaturally aggTag unsorted
         /\ Permutation unsorted out
         /\ enumerationOrdered (map aggTag unsorted)
         /\ filter (fun k => negb (isArrayIndex k)) (map aggTag unsorted)
            = firstSeen
                (filter (fun k => negb (isArrayIndex k))
                   (map (fun r => trim (tagOf groupCol r))
                      (filter (fun r => hasTag groupCol r && plainTag groupCol r)
                              rows))).
Proof.
  intros rows groupCol out. split.
  { intros a Ia. apply In_aggregateData in Ia. destruct Ia as (k & g & I & ->).
    destruct (bucket_spec groupCol rows k g I) as (Nk & Pk & Nr & E).
    rewrite E. simpl. repeat split; assumption. }
  split.
  { intros r Ir Nr Pr. destruct (bucket_exists groupCol rows r Ir Nr Pr) as [g I].
    exists (finalize g). split.
    - apply In_aggregateData. eauto.
    - destruct (bucket_spec groupCol rows _ g I) as (_ & _ & _ & E). now rewrite E. }
  split.
  { eapply Permutation_NoDup.
    - apply Permutation_map. apply sortQuestionsNaturally_perm.
    - rewrite aggTags_are_keys. apply NoDup_keys_fold_accumulate. constructor. }
  split.
  { unfold out, aggregateData.
    now rewrite <- (fold_accumulate_skips groupCol rows noInheritedKey_nil). }
  split; [apply sortQuestionsNaturally_sorted|].
  eexists. split; [reflexivity|]. split; [apply sortQuestionsNaturally_perm|].
  rewrite aggTags_are_keys, keys_fold_accumulate. split.
  - apply enumerationOrdered_fold. constructor.
  - apply plain_keys_in_order.
Qed.

(** * The rows kept *)

(** X26.  What [processData] returns holds, in sheet order, the rows whose
    raw subject, year and item label are truthy and whose item label, as a
    trimmed lower-case string, does not start with ["question"]: the test is
    made on the raw cells, before the coercion.  Every record kept has a
    non-empty item label and a non-empty year, and its subject is the
    trimmed string of the raw subject.  The two counts are the numbers of
    rows read and kept.  The string of a number is taken to be non-empty. *)
Theorem processData_keeps_valid_rows :
  forall (number_to_string : number -> string)
         (builtinHas : string -> string -> bool) (rawData : list (obj value))
         (out : processed),
    (forall n, number_to_string n <> "") ->
    processData number_to_string builtinHas rawData = Returns out ->
    raw out = map (ensureTypes number_to_string)
                  (filter (isValidRow number_to_string) rawData)
    /\ (forall row,
          isValidRow number_to_string row = true <->
          startsWith (toLowerCase (trim (ToString number_to_string
                                           (getVal row "Question (Item)"))))
                     "question" = false
          /\ truthy (getVal row "Subject") = true
          /\ truthy (getVal row "Year") = true
          /\ truthy (getVal row "Question (Item)") = true)
    /\ (forall r, In r (raw out) ->
          exists row, In row rawData
                      /\ isValidRow number_to_string row = true
                      /\ r = ensureTypes number_to_string row
                      /\ Subject r = trim (ToString number_to_string
                                             (getVal row "Subject"))
                      /\ Question_Item r
                         = ToString number_to_string (getVal row "Question (Item)")
                      /\ Question_Item r <> ""
                      /\ truthy (Year r) = true)
    /\ totalRows out = List.length rawData
    /\ validRows out = List.length (raw out).
Proof.
  intros nts bh rawData out Ne H.
  destruct (@processData_raw nts bh rawData out H) as (E & _ & T & V).
  split; [exact E|]. split; [apply isValidRow_spec|]. split; [|split; assumption].
  intros r Hr. rewrite E in Hr.
  apply in_map_iff in Hr. destruct Hr as (row & <- & Hin).
  apply filter_In in Hin. destruct Hin as [Hin Hv].
  exists row. split; [exact Hin|]. split; [exact Hv|]. split; [reflexivity|].
  split; [reflexivity|]. split; [reflexivity|].
  apply isValidRow_spec in Hv. destruct Hv as (_ & _ & Hy & Hq).
  split; [now apply ToString_truthy|now apply Year_truthy].
Qed.

(** A sheet whose header is repeated as its second row: one record. *)
Lemma processData_keeps_valid_rows_witness :
  exists out r,
    processData integerToString (fun _ _ => false)
      [[("Subject", VStr " Maths "); ("Year", VNum (JsNumber.ofZ 2023));
        ("Question (Item)", VStr "12b")];
       [("Subject", VStr "Subject"); ("Year", VStr "Year");
        ("Question (Item)", VStr "Question (Item)")]]
    = Returns out
    /\ raw out = [r]
    /\ Subject r = "Maths" /\ Question_Item r <> ""
    /\ truthy (Year r) = true.
Proof.
  eexists.
  destruct (@processData_keeps_valid_rows integerToString (fun _ _ => false)
              [[("Subject", VStr " Maths "); ("Year", VNum (JsNumber.ofZ 2023));
                ("Question (Item)", VStr "12b")];
               [("Subject", VStr "Subject"); ("Year", VStr "Year");
                ("Question (Item)", VStr "Question (Item)")]]
              _ integerToString_nonempty eq_refl) as (E & _ & R & _).
  eexists. split; [reflexivity|]. split; [exact E|].
  destruct (R _ (or_introl eq_refl)) as (row & _ & _ & _ & _ & _ & Hq & Hy).
  split; [reflexivity|]. split; [exact Hq|exact Hy].
Defined.
